(** * The Remote Output Service directory of bb-clientd

    A shallow embedding of
    [pkg/filesystem/virtual/remote_output_service_directory.go]: the
    registry of output paths (two maps, the enumeration ring and the
    change counter), the build session state machine (StartBuild,
    BatchCreate, BatchStat, FinalizeBuild, Clean), the three path walkers
    and the pass that filters missing blobs.

    The Go code talks to collaborators that live in other repositories
    (the tree of an output path, the Content Addressable Storage, the
    leaf factories, the path library).  Their objects are handles into an
    abstract [World]; their methods are fields of the class
    [Collaborators] and every theorem holds for every implementation of
    that class.  A small in-memory implementation, [Mem], is used to run
    the code on concrete requests.

    Requests are handled one after the other: what other requests could
    do between the critical sections of one request is not part of this
    development. *)

From Stdlib Require Import Ascii String.
From Stdlib Require Import Lia ZArith.
From stdpp Require Import gmap strings list fin_maps sorting.


(** ** Errors *)

(** [codes.Code] of gRPC, without [OK]. *)
Inductive Code :=
  | Canceled | Unknown | InvalidArgument | DeadlineExceeded | NotFound
  | AlreadyExists | PermissionDenied | ResourceExhausted
  | FailedPrecondition | Aborted | OutOfRange | Unimplemented | Internal
  | Unavailable | DataLoss | Unauthenticated.

(** A Go [error]: a gRPC status or a [syscall.Errno]. *)
Inductive error :=
  | StatusError (c : Code) (msg : string)
  | Errno (e : Z).

Definition ENOENT : error := Errno 2.
Definition ENOTDIR : error := Errno 20.
Definition EINVAL : error := Errno 22.

Global Instance Code_eq_dec : EqDecision Code.
Proof. solve_decision. Defined.
Global Instance error_eq_dec : EqDecision error.
Proof. solve_decision. Defined.

(** [status.Code(err)]: errors that are no status have code [Unknown]. *)
Definition status_Code (err : error) : Code :=
  match err with
  | StatusError c _ => c
  | Errno _ => Unknown
  end.

(** The text of [err.Error()] for an errno is the C library's; only its
    presence matters here. *)
Definition error_Message (err : error) : string :=
  match err with
  | StatusError _ msg => msg
  | Errno _ => "errno"
  end.

(** [util.StatusWrap]: the message gets a prefix, the code is kept. *)
Definition StatusWrap (err : error) (msg : string) : error :=
  StatusError (status_Code err) (msg +:+ ": " +:+ error_Message err).

(** [util.StatusWrapf(err, format, arg)]; [%#v] of the argument is
    rendered without Go's quoting. *)
Definition StatusWrapf (err : error) (msg arg : string) : error :=
  StatusWrap err (msg +:+ arg).

(** What a call can do: return a value, return an error, or panic (a nil
    dereference, an explicit [panic]). *)
Inductive outcome (A : Type) :=
  | Ok (a : A)
  | Err (e : error)
  | Panic.
Global Arguments Ok {A} a.
Global Arguments Err {A} e.
Global Arguments Panic {A}.

(** State passing with early exit: the state at the time of the error is
    the state that is returned (nothing is rolled back). *)
Definition M (S A : Type) : Type := S → outcome A * S.

Definition ret {S A} (a : A) : M S A := λ s, (Ok a, s).
Definition fail {S A} (e : error) : M S A := λ s, (Err e, s).
Definition panic {S A} : M S A := λ s, (Panic, s).
Definition bind {S A B} (m : M S A) (k : A → M S B) : M S B :=
  λ s, match m s with
       | (Ok a, s') => k a s'
       | (Err e, s') => (Err e, s')
       | (Panic, s') => (Panic, s')
       end.
Definition get {S} : M S S := λ s, (Ok s, s).
Definition put {S} (s : S) : M S unit := λ _, (Ok tt, s).
Definition modify {S} (f : S → S) : M S unit := λ s, (Ok tt, f s).

(** [lift] runs an action on the second component of the state. *)
Definition lift {X S A} (m : M S A) : M (X * S) A :=
  λ '(x, s), let '(r, s') := m s in (r, (x, s')).

(** [onThis] runs an action on the first component of the state. *)
Definition onThis {X S A} (m : M X A) : M (X * S) A :=
  λ '(x, s), let '(r, x') := m x in (r, (x', s)).

(** [wrapErr f m] is [if err := m; err != nil { return f(err) }]. *)
Definition wrapErr {S A} (f : error → error) (m : M S A) : M S A :=
  λ s, match m s with
       | (Err e, s') => (Err (f e), s')
       | r => r
       end.

Declare Scope go_scope.
Delimit Scope go_scope with go.
Notation "x <- m ;; k" := (bind m (λ x, k))
  (at level 20, m at level 99, k at level 200, only parsing) : go_scope.
Notation "' p <- m ;; k" := (bind m (λ x, let 'p := x in k))
  (at level 20, p pattern, m at level 99, k at level 200, only parsing)
  : go_scope.
Open Scope go_scope.

(** ** Digests (bb-storage, [pkg/digest]) *)

(** A digest names a blob: instance name, digest function, hash and
    size. *)
Record Digest := {
  digest_instanceName : string;
  digest_function : Z;
  digest_hash : string;
  digest_sizeBytes : Z;
}.

(** [digest.Function]: an instance name and one of REv2's digest
    functions (the enumeration value). *)
Record Function := {
  function_instanceName : string;
  function_bare : Z;
}.

Global Instance Digest_eq_dec : EqDecision Digest.
Proof. solve_decision. Defined.
Global Instance Digest_countable : Countable Digest.
Proof.
  refine (inj_countable'
    (λ d, (digest_instanceName d, digest_function d, digest_hash d,
           digest_sizeBytes d))
    (λ t, match t with (i, f, h, n) => Build_Digest i f h n end) _).
  by intros [].
Defined.
Global Instance Function_eq_dec : EqDecision Function.
Proof. solve_decision. Defined.

Definition GetSizeBytes (d : Digest) : Z := digest_sizeBytes d.

Definition GetDigestFunction (d : Digest) : Function :=
  {| function_instanceName := digest_instanceName d;
     function_bare := digest_function d |}.

(** [d.UsesDigestFunction(f)]: same instance name and same function. *)
Definition UsesDigestFunction (d : Digest) (f : Function) : bool :=
  bool_decide (GetDigestFunction d = f).

(** REv2's [Digest] message. *)
Record ProtoDigest := {
  proto_hash : string;
  proto_sizeBytes : Z;
}.

(** A name of a directory entry, [path.Component]. *)
Definition Component := string.

Fixpoint containsRune (c : ascii) (s : string) : bool :=
  match s with
  | EmptyString => false
  | String c' s' => bool_decide (c' = c) || containsRune c s'
  end.

(** [path.NewComponent]: the empty name, the dot names and names with a
    slash are no file names. *)
Definition NewComponent (name : string) : option Component :=
  if decide (name = "") then None
  else if decide (name = ".") then None
  else if decide (name = "..") then None
  else if containsRune "/" name then None
  else Some name.

(** [util.NonEmptyStack]: the root at the bottom can never be popped. *)
Record NonEmptyStack (T : Type) := {
  stack_bottom : T;
  stack_pushed : list T;  (* top first *)
}.
Global Arguments stack_bottom {T} _.
Global Arguments stack_pushed {T} _.

Definition NewNonEmptyStack {T} (base : T) : NonEmptyStack T :=
  {| stack_bottom := base; stack_pushed := [] |}.
Definition Peek {T} (s : NonEmptyStack T) : T :=
  match stack_pushed s with
  | top :: _ => top
  | [] => stack_bottom s
  end.
Definition Push {T} (x : T) (s : NonEmptyStack T) : NonEmptyStack T :=
  {| stack_bottom := stack_bottom s; stack_pushed := x :: stack_pushed s |}.
(** [PopSingle] reports [false] and changes nothing when only the bottom
    is left. *)
Definition PopSingle {T} (s : NonEmptyStack T) : option (NonEmptyStack T) :=
  match stack_pushed s with
  | _ :: rest => Some {| stack_bottom := stack_bottom s; stack_pushed := rest |}
  | [] => None
  end.
Definition PopAll {T} (s : NonEmptyStack T) : NonEmptyStack T :=
  {| stack_bottom := stack_bottom s; stack_pushed := [] |}.
Definition Copy {T} (s : NonEmptyStack T) : NonEmptyStack T := s.

(** ** Messages of the Remote Output Service protocol *)

(** [remoteoutputservice.FileStatus]: the [file_type] oneof.  A
    directory or external status is first made empty and filled in by
    BatchStat at the end. *)
Inductive FileStatus :=
  | FileStatus_File_ (digest : option ProtoDigest)
  | FileStatus_Symlink_ (target : string)
  | FileStatus_Directory_ (lastModifiedTime : option Z)
  | FileStatus_External_ (nextPath : option string).

(** [remoteoutputservice.StatResponse]: no file status means that the
    path does not exist. *)
Record StatResponse := { file_status : option FileStatus }.

Record OutputFile := {
  file_path : string;
  file_digest : ProtoDigest;
  file_isExecutable : bool;
}.
Record OutputDirectory := {
  directory_path : string;
  directory_treeDigest : ProtoDigest;
}.
Record OutputSymlink := {
  symlink_path : string;
  symlink_target : string;
}.

Record CleanRequest := { clean_OutputBaseId : string }.

Record StartBuildRequest := {
  start_OutputBaseId : string;
  start_BuildId : string;
  start_InstanceName : string;
  start_DigestFunction : Z;
  start_OutputPathPrefix : string;
  start_OutputPathAliases : list (string * string);
}.
Record StartBuildResponse := { OutputPathSuffix : string }.

Record BatchCreateRequest := {
  create_BuildId : string;
  create_PathPrefix : string;
  create_CleanPathPrefix : bool;
  create_Files : list OutputFile;
  create_Directories : list OutputDirectory;
  create_Symlinks : list OutputSymlink;
}.

Record BatchStatRequest := {
  stat_BuildId : string;
  stat_IncludeFileDigest : bool;
  stat_FollowSymlinks : bool;
  stat_Paths : list string;
}.
Record BatchStatResponse := { Responses : list StatResponse }.

Record FinalizeBuildRequest := { finalize_BuildId : string }.

(** ** Collaborators *)

(** [virtual.InitialNode]: a directory that is still to be fetched, or a
    leaf. *)
Inductive InitialNode (F L : Type) :=
  | FromDirectory (fetcher : F)
  | FromLeaf (leaf : L).
Global Arguments FromDirectory {F L} fetcher.
Global Arguments FromLeaf {F L} leaf.

(** [virtual.PrepopulatedDirectoryChild]. *)
Inductive DirectoryChild (D L : Type) :=
  | ChildDirectory (directory : D)
  | ChildLeaf (leaf : L).
Global Arguments ChildDirectory {D L} directory.
Global Arguments ChildLeaf {D L} leaf.

(** What the virtual root in front of an output path does with a
    component of an absolute path: stay in front of the root, enter the
    root of the output path, or leave the hierarchy. *)
Inductive VirtualRootStep (N : Type) :=
  | VR_pending (node : N)
  | VR_enterRoot
  | VR_leave.
Global Arguments VR_pending {N} node.
Global Arguments VR_enterRoot {N}.
Global Arguments VR_leave {N}.

(** The interfaces that the directory consumes.  None of this is code of
    bb-clientd: the tree of an output path
    ([virtual.PrepopulatedDirectory], [OutputPath], [OutputPathFactory]),
    the leaves and their factories, the Content Addressable Storage
    ([blobstore.BlobAccess]), the handle of the FUSE directory, and what
    the digest and path libraries decide about the strings they are
    given.  Objects are handles; the state behind them is the [World]. *)
Class Collaborators := {
  World : Type;
  PrepopulatedDirectory : Type;
  NativeLeaf : Type;
  InitialContentsFetcher : Type;
  CASFileFactory : Type;
  ChildRemover : Type;
  Attributes : Type;
  VirtualRootScopeWalkerFactory : Type;
  VirtualRootNode : Type;

  (** [blobstore.RecommendedFindMissingDigestsCount] *)
  RecommendedFindMissingDigestsCount : nat;
  (** the number of redirections [path.NewLoopDetectingScopeWalker]
      permits, and the error after that *)
  maximumSymlinkRedirections : nat;
  symlinkLoopError : error;

  (** whether a hash is well formed for a digest function *)
  hashValid : Function → string → bool;
  NewInstanceName : string → error + string;
  InstanceName_GetDigestFunction : string → Z → error + Function;

  NewVirtualRootScopeWalkerFactory :
    string → list (string * string) → error + VirtualRootScopeWalkerFactory;
  virtualRoot_OnScope :
    VirtualRootScopeWalkerFactory → VirtualRootStep VirtualRootNode;
  virtualRoot_OnDirectory :
    VirtualRootNode → Component → VirtualRootStep VirtualRootNode;
  virtualRoot_OnUp : VirtualRootNode → VirtualRootStep VirtualRootNode;

  NewCASFileFactory : World → CASFileFactory * World;
  StartInitialBuild :
    Component → CASFileFactory → Function → World →
    PrepopulatedDirectory * World;
  OutputPathFactory_Clean : Component → M World unit;
  OutputPath_FinalizeBuild : PrepopulatedDirectory → Function → World → World;
  NotifyRemoval : Component → World → World;

  RemoveAllChildren : PrepopulatedDirectory → bool → M World unit;
  CreateAndEnterPrepopulatedDirectory :
    PrepopulatedDirectory → Component → M World PrepopulatedDirectory;
  CreateChildren :
    PrepopulatedDirectory →
    list (Component * InitialNode InitialContentsFetcher NativeLeaf) →
    bool → M World unit;
  LookupChild :
    PrepopulatedDirectory → Component →
    M World (DirectoryChild PrepopulatedDirectory NativeLeaf);
  VirtualGetAttributes : PrepopulatedDirectory → Z → World → Attributes;
  AttributesMaskLastDataModificationTime : Z;
  GetLastDataModificationTime : Attributes → option Z;
  (** [FilterChildren]: the nodes that the traversal hands to its
      callback, in order, as long as the callback returns true, and the
      error of the traversal itself *)
  FilterChildren_nodes :
    PrepopulatedDirectory → World →
    list (InitialNode InitialContentsFetcher NativeLeaf * ChildRemover);
  FilterChildren_error : PrepopulatedDirectory → World → option error;
  (** calling a [virtual.ChildRemover] *)
  callRemover : ChildRemover → M World unit;

  LookupFile : CASFileFactory → Digest → bool → World → NativeLeaf * World;
  LookupSymlink : string → World → NativeLeaf * World;
  Unlink : NativeLeaf → World → World;
  Readlink : NativeLeaf → M World string;
  GetOutputServiceFileStatus : NativeLeaf → option Function → M World FileStatus;
  Leaf_GetContainingDigests : NativeLeaf → list Digest;
  Fetcher_GetContainingDigests : InitialContentsFetcher → M World (list Digest);
  NewCASInitialContentsFetcher :
    Digest → CASFileFactory → Function → InitialContentsFetcher;

  FindMissing : gset Digest → M World (list Digest);
}.

(** [digestFunction.NewDigestFromProto]: the hash has to fit the digest
    function and the size cannot be negative. *)
Definition NewDigestFromProto `{Collaborators}
    (f : Function) (p : ProtoDigest) : error + Digest :=
  if negb (hashValid f (proto_hash p)) then
    inl (StatusError InvalidArgument "Invalid digest hash")
  else if bool_decide (proto_sizeBytes p < 0)%Z then
    inl (StatusError InvalidArgument "Invalid digest size")
  else
    inr {| digest_instanceName := function_instanceName f;
           digest_function := function_bare f;
           digest_hash := proto_hash p;
           digest_sizeBytes := proto_sizeBytes p |}.

(** A fallible pure call inside the monad. *)
Definition try {S A} (r : error + A) : M S A :=
  match r with
  | inl e => fail e
  | inr a => ret a
  end.

(** ** Path resolution (bb-storage, [pkg/filesystem/path]) *)

Inductive GotDirectoryOrSymlink (CW : Type) :=
  | GotDirectory (child : CW) (isReversible : bool)
  | GotSymlink (target : string).
Global Arguments GotDirectory {CW} child isReversible.
Global Arguments GotSymlink {CW} target.

(** [path.ScopeWalker] and [path.ComponentWalker] over walker state [S];
    [CW] names the component walkers that the methods hand out.  The
    parent of a symlink is always the scope walker that the resolution
    started with. *)
Record WalkerOps (S CW : Type) := {
  OnScope : bool → M S CW;
  OnDirectory : CW → Component → M S (GotDirectoryOrSymlink CW);
  OnTerminal : CW → Component → M S (option string);
  OnUp : CW → M S CW;
}.
Global Arguments OnScope {S CW} _ _.
Global Arguments OnDirectory {S CW} _ _ _.
Global Arguments OnTerminal {S CW} _ _ _.
Global Arguments OnUp {S CW} _ _.

(** The walkers of this file hand out themselves or
    [path.VoidComponentWalker]. *)
Inductive ComponentWalker :=
  | This
  | VoidComponentWalker.

(** [path.VoidComponentWalker] accepts every path. *)
Definition withVoid {S}
    (onDirectory : Component → M S (GotDirectoryOrSymlink ComponentWalker))
    (onTerminal : Component → M S (option string))
    (onUp : M S ComponentWalker)
    (onScope : bool → M S ComponentWalker) : WalkerOps S ComponentWalker :=
  {| OnScope := onScope;
     OnDirectory cw name :=
       match cw with
       | This => onDirectory name
       | VoidComponentWalker => ret (GotDirectory VoidComponentWalker false)
       end;
     OnTerminal cw name :=
       match cw with
       | This => onTerminal name
       | VoidComponentWalker => ret None
       end;
     OnUp cw :=
       match cw with
       | This => onUp
       | VoidComponentWalker => ret VoidComponentWalker
       end |}.

(** [path.OnTerminalViaOnDirectory]. *)
Definition OnTerminalViaOnDirectory {S CW}
    (onDirectory : Component → M S (GotDirectoryOrSymlink CW))
    (name : Component) : M S (option string) :=
  r <- onDirectory name ;;
  match r with
  | GotDirectory _ _ => ret None
  | GotSymlink target => ret (Some target)
  end.

(** Cutting a path at its slashes.  A trailing slash leaves an empty
    last component, which makes the component before it a directory. *)
Fixpoint splitComponents (s : string) (current : string) : list string :=
  match s with
  | EmptyString => [current]
  | String c s' =>
      if bool_decide (c = "/"%char) then current :: splitComponents s' ""
      else splitComponents s' (current +:+ String c "")
  end.

Definition isAbsolute (path : string) : bool :=
  match path with
  | String c _ => bool_decide (c = "/"%char)
  | EmptyString => false
  end.

Definition zeroByte : ascii := Ascii.zero.

Section Resolve.
Context {S CW : Type}.
Variable ops : WalkerOps S CW.
Variable loopError : error.

(** [resolverState.push]: null bytes are refused, then the scope walker
    is told whether the path is absolute. *)
Definition pushPath (path : string) : M S (CW * list string) :=
  if containsRune zeroByte path then
    fail (StatusError InvalidArgument "Path contains a null byte")
  else
    cw <- OnScope ops (isAbsolute path) ;;
    ret (cw, splitComponents path "").

(** The loop of [path.Resolve].  [symlinksLeft] is the budget of
    [path.NewLoopDetectingScopeWalker]; walkers that never report a
    symlink do not use it. *)
Fixpoint resolveComponents (symlinksLeft : nat)
    : CW → list string → M S unit :=
  fix walk (cw : CW) (components : list string) {struct components}
      : M S unit :=
    match components with
    | [] => ret tt
    | name :: rest =>
        if decide (name = "" ∨ name = ".") then walk cw rest
        else if decide (name = "..") then
          cw' <- OnUp ops cw ;; walk cw' rest
        else
          match rest with
          | _ :: _ =>
              r <- OnDirectory ops cw name ;;
              match r with
              | GotDirectory child _ => walk child rest
              | GotSymlink target =>
                  match symlinksLeft with
                  | 0 => fail loopError
                  | Datatypes.S n =>
                      '(cw', components') <- pushPath target ;;
                      resolveComponents n cw' (components' ++ rest)
                  end
              end
          | [] =>
              r <- OnTerminal ops cw name ;;
              match r with
              | None => ret tt
              | Some target =>
                  match symlinksLeft with
                  | 0 => fail loopError
                  | Datatypes.S n =>
                      '(cw', components') <- pushPath target ;;
                      resolveComponents n cw' components'
                  end
              end
          end
    end.

(** [path.Resolve(path, scopeWalker)]. *)
Definition Resolve (symlinksLeft : nat) (path : string) : M S unit :=
  '(cw, components) <- pushPath path ;;
  resolveComponents symlinksLeft cw components.
End Resolve.

(** More plumbing for walkers, whose state is a pair of the walker's own
    fields and the world. *)
Definition this {X S} : M (X * S) X := λ s, (Ok (fst s), s).
Definition setThis {X S} (x : X) : M (X * S) unit := λ s, (Ok tt, (x, snd s)).

(** [runWith x m] runs [m] with a local object [x] and hands the object
    back with the result. *)
Definition runWith {X S A} (x : X) (m : M (X * S) A) : M S (A * X) :=
  λ s, match m (x, s) with
       | (Ok a, (x', s')) => (Ok (a, x'), s')
       | (Err e, (_, s')) => (Err e, s')
       | (Panic, (_, s')) => (Panic, s')
       end.

(** [attempt m] hands the error of [m] to the caller as a value. *)
Definition attempt {S A} (m : M S A) : M S (error + A) :=
  λ s, match m s with
       | (Ok a, s') => (Ok (inr a), s')
       | (Err e, s') => (Ok (inl e), s')
       | (Panic, s') => (Panic, s')
       end.

(** [effect f] is a call that cannot fail. *)
Definition effect {S} (f : S → S) : M S unit := λ s, (Ok tt, f s).
Definition call {S A} (f : S → A * S) : M S A :=
  λ s, let '(a, s') := f s in (Ok a, s').

(** [for _, x := range l { if err := f(x); err != nil { return err } }] *)
Fixpoint forEach {S A} (l : list A) (f : A → M S unit) : M S unit :=
  match l with
  | [] => ret tt
  | x :: l' => _ <- f x ;; forEach l' f
  end.

(** [path.NewRelativeScopeWalker] and [path.NewAbsoluteScopeWalker]. *)
Definition NewRelativeScopeWalker {S CW} (ops : WalkerOps S CW)
    : WalkerOps S CW :=
  {| OnScope absolute :=
       if absolute then
         fail (StatusError InvalidArgument
                 "Path is absolute, while a relative path was expected")
       else OnScope ops false;
     OnDirectory := OnDirectory ops;
     OnTerminal := OnTerminal ops;
     OnUp := OnUp ops |}.

Definition NewAbsoluteScopeWalker {S CW} (ops : WalkerOps S CW)
    : WalkerOps S CW :=
  {| OnScope absolute :=
       if absolute then OnScope ops true
       else
         fail (StatusError InvalidArgument
                 "Path is relative, while an absolute path was expected");
     OnDirectory := OnDirectory ops;
     OnTerminal := OnTerminal ops;
     OnUp := OnUp ops |}.

(** [path.VoidScopeWalker]. *)
Definition VoidScopeWalker {S} : WalkerOps S ComponentWalker :=
  withVoid (λ _, ret (GotDirectory VoidComponentWalker false))
           (λ _, ret None)
           (ret VoidComponentWalker)
           (λ _, ret VoidComponentWalker).

(** [path.Builder]: the path that a resolution has walked so far.
    Components that were entered through a reversible directory are
    dropped again by a step up; other steps up are kept as "..". *)
Record Builder := {
  builder_absolute : bool;
  builder_components : list string;
  builder_firstReversibleIndex : nat;
  builder_suffix : string;
}.

Definition EmptyBuilder : Builder :=
  {| builder_absolute := false; builder_components := [];
     builder_firstReversibleIndex := 0; builder_suffix := "." |}.
Definition RootBuilder : Builder :=
  {| builder_absolute := true; builder_components := [];
     builder_firstReversibleIndex := 0; builder_suffix := "/" |}.

Fixpoint joinComponents (prefix : string) (components : list string)
    : string :=
  match components with
  | [] => ""
  | c :: rest => prefix +:+ c +:+ joinComponents "/" rest
  end.

Definition Builder_String (b : Builder) : string :=
  joinComponents (if builder_absolute b then "/" else "")
                 (builder_components b)
  +:+ builder_suffix b.

Definition Builder_enter (name : Component) (isReversible : bool)
    (b : Builder) : Builder :=
  let components := builder_components b ++ [name] in
  {| builder_absolute := builder_absolute b;
     builder_components := components;
     builder_firstReversibleIndex :=
       if isReversible then builder_firstReversibleIndex b
       else length components;
     builder_suffix := "/" |}.

Definition Builder_terminal (name : Component) (b : Builder) : Builder :=
  {| builder_absolute := builder_absolute b;
     builder_components := builder_components b ++ [name];
     builder_firstReversibleIndex := builder_firstReversibleIndex b;
     builder_suffix := "" |}.

Definition Builder_up (b : Builder) : Builder :=
  if bool_decide (builder_firstReversibleIndex b
                  < length (builder_components b)) then
    let components :=
      take (length (builder_components b) - 1) (builder_components b) in
    {| builder_absolute := builder_absolute b;
       builder_components := components;
       builder_firstReversibleIndex := builder_firstReversibleIndex b;
       builder_suffix :=
         match components with
         | [] => if builder_absolute b then "/" else "."
         | _ => "/"
         end |}
  else
    let components := builder_components b ++ [".."] in
    {| builder_absolute := builder_absolute b;
       builder_components := components;
       builder_firstReversibleIndex := length components;
       builder_suffix := "/" |}.

(** [builder.Join(scopeWalker)]: the walker that keeps the builder up to
    date while it forwards every call. *)
Definition Builder_Join {S CW} (ops : WalkerOps S CW)
    : WalkerOps (Builder * S) CW :=
  {| OnScope absolute :=
       cw <- lift (OnScope ops absolute) ;;
       _ <- (if absolute then setThis RootBuilder else ret tt) ;;
       ret cw;
     OnDirectory cw name :=
       r <- lift (OnDirectory ops cw name) ;;
       match r with
       | GotDirectory child isReversible =>
           b <- this ;;
           _ <- setThis (Builder_enter name isReversible b) ;;
           ret (GotDirectory child isReversible)
       | GotSymlink target => ret (GotSymlink target)
       end;
     OnTerminal cw name :=
       r <- lift (OnTerminal ops cw name) ;;
       match r with
       | None =>
           b <- this ;;
           _ <- setThis (Builder_terminal name b) ;;
           ret None
       | Some target => ret (Some target)
       end;
     OnUp cw :=
       cw' <- lift (OnUp ops cw) ;;
       b <- this ;;
       _ <- setThis (Builder_up b) ;;
       ret cw' |}.

(** The component walkers of a walker behind a virtual root. *)
Inductive VirtualRootComponentWalker (N CW : Type) :=
  | VR_Pending (node : N)
  | VR_Finished (cw : CW)
  | VR_Left.
Global Arguments VR_Pending {N CW} node.
Global Arguments VR_Finished {N CW} cw.
Global Arguments VR_Left {N CW}.

Section VirtualRoot.
Context `{Collaborators} {S CW : Type}.
Variable factory : VirtualRootScopeWalkerFactory.
Variable ops : WalkerOps S CW.

Definition virtualRoot_step (step : VirtualRootStep VirtualRootNode)
    : M S (VirtualRootComponentWalker VirtualRootNode CW) :=
  match step with
  | VR_pending node => ret (VR_Pending node)
  | VR_enterRoot => cw <- OnScope ops true ;; ret (VR_Finished cw)
  | VR_leave => ret VR_Left
  end.

(** [scopeWalkerFactory.New(base)]: relative paths go to [base]
    unchanged; an absolute path first has to find the output path. *)
Definition VirtualRootScopeWalkerFactory_New
    : WalkerOps S (VirtualRootComponentWalker VirtualRootNode CW) :=
  {| OnScope absolute :=
       if absolute then virtualRoot_step (virtualRoot_OnScope factory)
       else cw <- OnScope ops false ;; ret (VR_Finished cw);
     OnDirectory cw name :=
       match cw with
       | VR_Pending node =>
           cw' <- virtualRoot_step (virtualRoot_OnDirectory node name) ;;
           ret (GotDirectory cw' false)
       | VR_Finished cw =>
           r <- OnDirectory ops cw name ;;
           match r with
           | GotDirectory child isReversible =>
               ret (GotDirectory (VR_Finished child) isReversible)
           | GotSymlink target => ret (GotSymlink target)
           end
       | VR_Left => ret (GotDirectory VR_Left false)
       end;
     OnTerminal cw name :=
       match cw with
       | VR_Pending node =>
           _ <- virtualRoot_step (virtualRoot_OnDirectory node name) ;;
           ret None
       | VR_Finished cw => OnTerminal ops cw name
       | VR_Left => ret None
       end;
     OnUp cw :=
       match cw with
       | VR_Pending node => virtualRoot_step (virtualRoot_OnUp node)
       | VR_Finished cw => cw' <- OnUp ops cw ;; ret (VR_Finished cw')
       | VR_Left => ret VR_Left
       end |}.
End VirtualRoot.

(** ** The walkers of BatchCreate *)

Section CreatingWalkers.
Context `{Collaborators}.

Definition outOfOutputPath : error :=
  StatusError InvalidArgument
    "Path resolves to a location outside the output path".

(** [directoryCreatingComponentWalker] resolves the path prefix of
    BatchCreate and creates every directory on the way. *)
Record directoryCreatingComponentWalker := {
  dc_stack : NonEmptyStack PrepopulatedDirectory;
}.

Definition directoryCreatingComponentWalker_OnDirectory (name : Component)
    : M (directoryCreatingComponentWalker * World)
        (GotDirectoryOrSymlink ComponentWalker) :=
  cw <- this ;;
  child <- lift (CreateAndEnterPrepopulatedDirectory
                   (Peek (dc_stack cw)) name) ;;
  _ <- setThis {| dc_stack := Push child (dc_stack cw) |} ;;
  ret (GotDirectory This true).

Definition directoryCreatingComponentWalker_OnTerminal (name : Component)
    : M (directoryCreatingComponentWalker * World) (option string) :=
  OnTerminalViaOnDirectory directoryCreatingComponentWalker_OnDirectory
                           name.

Definition directoryCreatingComponentWalker_OnUp
    : M (directoryCreatingComponentWalker * World) ComponentWalker :=
  cw <- this ;;
  match PopSingle (dc_stack cw) with
  | None => fail outOfOutputPath
  | Some stack' => _ <- setThis {| dc_stack := stack' |} ;; ret This
  end.

Definition directoryCreatingComponentWalker_ops
    : WalkerOps (directoryCreatingComponentWalker * World)
                ComponentWalker :=
  withVoid directoryCreatingComponentWalker_OnDirectory
           directoryCreatingComponentWalker_OnTerminal
           directoryCreatingComponentWalker_OnUp
           (λ _, ret This).

(** [parentDirectoryCreatingComponentWalker] resolves the parent of one
    entry and remembers the last name
    ([path.TerminalNameTrackingComponentWalker]). *)
Record parentDirectoryCreatingComponentWalker := {
  TerminalName : option Component;
  pdc_stack : NonEmptyStack PrepopulatedDirectory;
}.

Definition parentDirectoryCreatingComponentWalker_OnDirectory
    (name : Component)
    : M (parentDirectoryCreatingComponentWalker * World)
        (GotDirectoryOrSymlink ComponentWalker) :=
  cw <- this ;;
  child <- lift (CreateAndEnterPrepopulatedDirectory
                   (Peek (pdc_stack cw)) name) ;;
  _ <- setThis {| TerminalName := TerminalName cw;
                  pdc_stack := Push child (pdc_stack cw) |} ;;
  ret (GotDirectory This true).

Definition TerminalNameTrackingComponentWalker_OnTerminal
    (name : Component)
    : M (parentDirectoryCreatingComponentWalker * World) (option string) :=
  cw <- this ;;
  _ <- setThis {| TerminalName := Some name;
                  pdc_stack := pdc_stack cw |} ;;
  ret None.

Definition parentDirectoryCreatingComponentWalker_OnUp
    : M (parentDirectoryCreatingComponentWalker * World) ComponentWalker :=
  cw <- this ;;
  match PopSingle (pdc_stack cw) with
  | None => fail outOfOutputPath
  | Some stack' =>
      _ <- setThis {| TerminalName := TerminalName cw;
                      pdc_stack := stack' |} ;;
      ret This
  end.

Definition parentDirectoryCreatingComponentWalker_ops
    : WalkerOps (parentDirectoryCreatingComponentWalker * World)
                ComponentWalker :=
  withVoid parentDirectoryCreatingComponentWalker_OnDirectory
           TerminalNameTrackingComponentWalker_OnTerminal
           parentDirectoryCreatingComponentWalker_OnUp
           (λ _, ret This).

(** [cw.createChild(outputPath, initialNode)]. *)
Definition createChild (cw : directoryCreatingComponentWalker)
    (outputPath : string)
    (initialNode : InitialNode InitialContentsFetcher NativeLeaf)
    : M World unit :=
  '(_, outputParentCreator) <-
    wrapErr (λ e, StatusWrap e "Failed to resolve path")
      (runWith {| TerminalName := None; pdc_stack := Copy (dc_stack cw) |}
         (Resolve
            (NewRelativeScopeWalker
               parentDirectoryCreatingComponentWalker_ops)
            symlinkLoopError 0 outputPath)) ;;
  match TerminalName outputParentCreator with
  | None =>
      fail (StatusError InvalidArgument "Path resolves to a directory")
  | Some name =>
      CreateChildren (Peek (pdc_stack outputParentCreator))
                     [(name, initialNode)] true
  end.
End CreatingWalkers.

(** ** The walker of BatchStat *)

Section StatWalker.
Context `{Collaborators}.

Record statWalker := {
  followSymlinks : bool;
  sw_digestFunction : option Function;
  sw_stack : NonEmptyStack PrepopulatedDirectory;
  fileStatus : FileStatus;
}.

Definition statWalker_setStack (stack : NonEmptyStack PrepopulatedDirectory)
    (cw : statWalker) : statWalker :=
  {| followSymlinks := followSymlinks cw;
     sw_digestFunction := sw_digestFunction cw;
     sw_stack := stack;
     fileStatus := fileStatus cw |}.
Definition statWalker_setFileStatus (status : FileStatus)
    (cw : statWalker) : statWalker :=
  {| followSymlinks := followSymlinks cw;
     sw_digestFunction := sw_digestFunction cw;
     sw_stack := sw_stack cw;
     fileStatus := status |}.

Definition statWalker_OnScope (absolute : bool)
    : M (statWalker * World) ComponentWalker :=
  cw <- this ;;
  let cw := if absolute then statWalker_setStack (PopAll (sw_stack cw)) cw
            else cw in
  _ <- setThis (statWalker_setFileStatus (FileStatus_Directory_ None) cw) ;;
  ret This.

Definition statWalker_OnDirectory (name : Component)
    : M (statWalker * World) (GotDirectoryOrSymlink ComponentWalker) :=
  cw <- this ;;
  child <- lift (LookupChild (Peek (sw_stack cw)) name) ;;
  match child with
  | ChildDirectory directory =>
      _ <- setThis (statWalker_setStack (Push directory (sw_stack cw)) cw) ;;
      ret (GotDirectory This true)
  | ChildLeaf leaf =>
      r <- lift (attempt (Readlink leaf)) ;;
      match r with
      | inl err =>
          if decide (err = EINVAL) then fail ENOTDIR else fail err
      | inr target =>
          _ <- setThis (statWalker_setFileStatus
                          (FileStatus_External_ None) cw) ;;
          ret (GotSymlink target)
      end
  end.

Definition statWalker_OnTerminal (name : Component)
    : M (statWalker * World) (option string) :=
  cw <- this ;;
  child <- lift (LookupChild (Peek (sw_stack cw)) name) ;;
  match child with
  | ChildDirectory directory =>
      _ <- setThis (statWalker_setStack (Push directory (sw_stack cw)) cw) ;;
      ret None
  | ChildLeaf leaf =>
      let getStatus : M (statWalker * World) (option string) :=
        status <- lift (GetOutputServiceFileStatus
                          leaf (sw_digestFunction cw)) ;;
        _ <- setThis (statWalker_setFileStatus status cw) ;;
        ret None in
      if followSymlinks cw then
        r <- lift (attempt (Readlink leaf)) ;;
        match r with
        | inr target =>
            _ <- setThis (statWalker_setFileStatus
                            (FileStatus_External_ None) cw) ;;
            ret (Some target)
        | inl err =>
            if decide (err = EINVAL) then getStatus else fail err
        end
      else getStatus
  end.

Definition statWalker_OnUp : M (statWalker * World) ComponentWalker :=
  cw <- this ;;
  match PopSingle (sw_stack cw) with
  | None =>
      _ <- setThis (statWalker_setFileStatus
                      (FileStatus_External_ None) cw) ;;
      ret VoidComponentWalker
  | Some stack' => _ <- setThis (statWalker_setStack stack' cw) ;; ret This
  end.

Definition statWalker_ops : WalkerOps (statWalker * World) ComponentWalker :=
  withVoid statWalker_OnDirectory statWalker_OnTerminal statWalker_OnUp
           statWalker_OnScope.
End StatWalker.

(** ** The registry *)

(** The address of an [outputPathState].  Address 0 is
    [&d.outputPaths], the sentinel of the ring, which lives inside the
    directory; all other addresses are objects on the heap. *)
Abbreviation ptr := nat.
Definition sentinel : ptr := 0.

Definition uint64_add (a b : Z) : Z := ((a + b) mod 2 ^ 64)%Z.

Section Registry.
Context `{Collaborators}.

Record buildState := {
  id : string;
  digestFunction : Function;
  scopeWalkerFactory : VirtualRootScopeWalkerFactory;
}.

Record outputPathState := {
  buildState_ : option buildState;
  rootDirectory : PrepopulatedDirectory;
  casFileFactory : CASFileFactory;
  previous : ptr;
  next : ptr;
  cookie : Z;
  outputBaseID : Component;
}.

(** The fields of [RemoteOutputServiceDirectory] that change, and
    [maximumTreeSizeBytes].  [outputPaths_previous] and
    [outputPaths_next] are the links of the sentinel [d.outputPaths].
    [heap] holds the [outputPathState] objects that were allocated
    ([&outputPathState{...}]); Go never frees an object that is still
    referenced, so objects stay.  [allocations] counts them and gives
    the next address. *)
Record RemoteOutputServiceDirectory := {
  maximumTreeSizeBytes : Z;
  changeID : Z;
  outputBaseIDs : gmap Component ptr;
  buildIDs : gmap string ptr;
  outputPaths_previous : ptr;
  outputPaths_next : ptr;
  heap : gmap ptr outputPathState;
  allocations : nat;
}.

Definition NewRemoteOutputServiceDirectory (maximumTreeSizeBytes : Z)
    : RemoteOutputServiceDirectory :=
  {| maximumTreeSizeBytes := maximumTreeSizeBytes;
     changeID := 0;
     outputBaseIDs := ∅;
     buildIDs := ∅;
     outputPaths_previous := sentinel;
     outputPaths_next := sentinel;
     heap := ∅;
     allocations := 0 |}.

(** *** Field updates *)

Definition set_buildState (bs : option buildState) (s : outputPathState)
    : outputPathState :=
  {| buildState_ := bs; rootDirectory := rootDirectory s;
     casFileFactory := casFileFactory s; previous := previous s;
     next := next s; cookie := cookie s; outputBaseID := outputBaseID s |}.
Definition set_previous (p : ptr) (s : outputPathState) : outputPathState :=
  {| buildState_ := buildState_ s; rootDirectory := rootDirectory s;
     casFileFactory := casFileFactory s; previous := p;
     next := next s; cookie := cookie s; outputBaseID := outputBaseID s |}.
Definition set_next (p : ptr) (s : outputPathState) : outputPathState :=
  {| buildState_ := buildState_ s; rootDirectory := rootDirectory s;
     casFileFactory := casFileFactory s; previous := previous s;
     next := p; cookie := cookie s; outputBaseID := outputBaseID s |}.

Definition with_changeID (c : Z) (d : RemoteOutputServiceDirectory) :=
  {| maximumTreeSizeBytes := maximumTreeSizeBytes d; changeID := c;
     outputBaseIDs := outputBaseIDs d; buildIDs := buildIDs d;
     outputPaths_previous := outputPaths_previous d;
     outputPaths_next := outputPaths_next d; heap := heap d;
     allocations := allocations d |}.
Definition with_outputBaseIDs (m : gmap Component ptr)
    (d : RemoteOutputServiceDirectory) :=
  {| maximumTreeSizeBytes := maximumTreeSizeBytes d; changeID := changeID d;
     outputBaseIDs := m; buildIDs := buildIDs d;
     outputPaths_previous := outputPaths_previous d;
     outputPaths_next := outputPaths_next d; heap := heap d;
     allocations := allocations d |}.
Definition with_buildIDs (m : gmap string ptr)
    (d : RemoteOutputServiceDirectory) :=
  {| maximumTreeSizeBytes := maximumTreeSizeBytes d; changeID := changeID d;
     outputBaseIDs := outputBaseIDs d; buildIDs := m;
     outputPaths_previous := outputPaths_previous d;
     outputPaths_next := outputPaths_next d; heap := heap d;
     allocations := allocations d |}.
Definition with_heap (h : gmap ptr outputPathState) (n : nat)
    (d : RemoteOutputServiceDirectory) :=
  {| maximumTreeSizeBytes := maximumTreeSizeBytes d; changeID := changeID d;
     outputBaseIDs := outputBaseIDs d; buildIDs := buildIDs d;
     outputPaths_previous := outputPaths_previous d;
     outputPaths_next := outputPaths_next d; heap := h;
     allocations := n |}.
Definition with_sentinel (prev nxt : ptr)
    (d : RemoteOutputServiceDirectory) :=
  {| maximumTreeSizeBytes := maximumTreeSizeBytes d; changeID := changeID d;
     outputBaseIDs := outputBaseIDs d; buildIDs := buildIDs d;
     outputPaths_previous := prev;
     outputPaths_next := nxt; heap := heap d;
     allocations := allocations d |}.

(** [p.next] and [p.previous], for the sentinel and for heap objects. *)
Definition getNext (d : RemoteOutputServiceDirectory) (p : ptr)
    : option ptr :=
  if decide (p = sentinel) then Some (outputPaths_next d)
  else next <$> heap d !! p.
Definition getPrevious (d : RemoteOutputServiceDirectory) (p : ptr)
    : option ptr :=
  if decide (p = sentinel) then Some (outputPaths_previous d)
  else previous <$> heap d !! p.

(** [p.next = v] and [p.previous = v]. *)
Definition setNext (p v : ptr) (d : RemoteOutputServiceDirectory) :=
  if decide (p = sentinel) then with_sentinel (outputPaths_previous d) v d
  else with_heap (alter (set_next v) p (heap d)) (allocations d) d.
Definition setPrevious (p v : ptr) (d : RemoteOutputServiceDirectory) :=
  if decide (p = sentinel) then with_sentinel v (outputPaths_next d) d
  else with_heap (alter (set_previous v) p (heap d)) (allocations d) d.

(** [p.buildState = bs]. *)
Definition setBuildState (p : ptr) (bs : option buildState)
    (d : RemoteOutputServiceDirectory) :=
  with_heap (alter (set_buildState bs) p (heap d)) (allocations d) d.

(** Reading through a pointer; a pointer to nothing cannot be made in
    Go, the model panics on it. *)
Definition deref (p : ptr) : M RemoteOutputServiceDirectory outputPathState :=
  λ d, match heap d !! p with
       | Some s => (Ok s, d)
       | None => (Panic, d)
       end.

(** *** Clean *)

(** The second critical section of [Clean]: the output path is taken
    out of the registry if it is still the one that was looked up.
    Every assignment reads the fields of the object through the
    pointer at the time it runs, as the Go statements do. *)
Definition Clean_commit (p : ptr) (outputBaseID : Component)
    : M RemoteOutputServiceDirectory unit :=
  d <- get ;;
  if decide (outputBaseIDs d !! outputBaseID = Some p) then
    _ <- modify (with_outputBaseIDs (delete outputBaseID (outputBaseIDs d))) ;;
    s <- deref p ;;
    _ <- modify (setNext (previous s) (next s)) ;;
    s <- deref p ;;
    _ <- modify (setPrevious (next s) (previous s)) ;;
    _ <- modify (λ d, with_changeID (uint64_add (changeID d) 1) d) ;;
    s <- deref p ;;
    match buildState_ s with
    | Some bs =>
        _ <- modify (λ d, with_buildIDs (delete (id bs) (buildIDs d)) d) ;;
        modify (setBuildState p None)
    | None => ret tt
    end
  else ret tt.

(** [Clean]: look the output path up, empty its tree without holding
    the lock, then commit. *)
Definition Clean (request : CleanRequest)
    : M (RemoteOutputServiceDirectory * World) unit :=
  match NewComponent (clean_OutputBaseId request) with
  | None =>
      fail (StatusError InvalidArgument
              "Output base ID is not a valid filename")
  | Some outputBaseID =>
      d <- this ;;
      match outputBaseIDs d !! outputBaseID with
      | Some p =>
          s <- onThis (deref p) ;;
          _ <- lift (RemoveAllChildren (rootDirectory s) true) ;;
          _ <- onThis (Clean_commit p outputBaseID) ;;
          lift (effect (NotifyRemoval outputBaseID))
      | None => lift (OutputPathFactory_Clean outputBaseID)
      end
  end.
End Registry.

(** ** The pass that filters missing blobs *)

(** What the pass does, in order: the digests it puts into the queue,
    the queries it sends to [FindMissing] with their replies, and the
    removers it calls.  The log is not in the Go code; it is kept next to
    the queue to be able to speak about the calls. *)
Inductive Event (R : Type) :=
  | EvEnqueue (blobDigest : Digest) (removeFunc : R)
  | EvFindMissing (query : gset Digest) (reply : outcome (list Digest))
  | EvRemove (removeFunc : R) (result : outcome unit).
Global Arguments EvEnqueue {R} blobDigest removeFunc.
Global Arguments EvFindMissing {R} query reply.
Global Arguments EvRemove {R} removeFunc result.

Section Filter.
Context `{Collaborators}.

Record filterState := {
  queue : gmap Digest (list ChildRemover);
  trace : list (Event ChildRemover);
}.

Definition emptyFilterState : filterState := {| queue := ∅; trace := [] |}.
Definition set_queue (q : gmap Digest (list ChildRemover))
    (st : filterState) : filterState :=
  {| queue := q; trace := trace st |}.
Definition log (e : Event ChildRemover) (st : filterState) : filterState :=
  {| queue := queue st; trace := trace st ++ [e] |}.

Definition loggedFindMissing (digests : gset Digest)
    : M (filterState * World) (list Digest) :=
  λ '(st, w),
    let '(r, w') := FindMissing digests w in
    (r, (log (EvFindMissing digests r) st, w')).

Definition loggedRemove (removeFunc : ChildRemover)
    : M (filterState * World) unit :=
  λ '(st, w),
    let '(r, w') := callRemover removeFunc w in
    (r, (log (EvRemove removeFunc r) st, w')).

(** [findMissingAndRemove]: one batch. *)
Definition findMissingAndRemove (queue : gmap Digest (list ChildRemover))
    : M (filterState * World) unit :=
  missing <- wrapErr (λ e, StatusWrap e "Failed to find missing blobs")
               (loggedFindMissing (dom queue)) ;;
  forEach missing (λ digest,
    forEach (default [] (queue !! digest)) (λ removeFunc,
      wrapErr (λ e, StatusWrapf e "Failed to remove file with digest "
                      (digest_hash digest))
        (loggedRemove removeFunc))).

(** Adding one digest of a node to the queue, after sending the queue
    off when it is full. *)
Definition enqueue (blobDigest : Digest) (removeFunc : ChildRemover)
    : M (filterState * World) unit :=
  st <- this ;;
  _ <- (if bool_decide (RecommendedFindMissingDigestsCount
                        ≤ size (queue st)) then
          _ <- findMissingAndRemove (queue st) ;;
          st <- this ;;
          setThis (set_queue ∅ st)
        else ret tt) ;;
  st <- this ;;
  setThis (log (EvEnqueue blobDigest removeFunc)
             (set_queue
                (<[blobDigest :=
                     default [] (queue st !! blobDigest) ++ [removeFunc]]>
                   (queue st)) st)).

(** The callback that [filterMissingChildren] hands to
    [FilterChildren].  An error of this action stands for
    [savedErr = err; return false]; finishing stands for
    [return true] (with [savedErr] nil). *)
Definition filterCallback (digestFunction : Function)
    (child : InitialNode InitialContentsFetcher NativeLeaf * ChildRemover)
    : M (filterState * World) unit :=
  let '(node, removeFunc) := child in
  digests <-
    match node with
    | FromLeaf leaf =>
        ret (Some (Leaf_GetContainingDigests leaf))
    | FromDirectory directory =>
        r <- lift (attempt (Fetcher_GetContainingDigests directory)) ;;
        match r with
        | inr digests => ret (Some digests)
        | inl savedErr =>
            if decide (status_Code savedErr = NotFound) then
              _ <- wrapErr
                     (λ e, StatusWrap e
                             "Failed to remove non-existent directory")
                     (loggedRemove removeFunc) ;;
              ret None
            else fail savedErr
        end
    end ;;
  match digests with
  | None => ret tt
  | Some digests =>
      match find (λ blobDigest,
                    negb (UsesDigestFunction blobDigest digestFunction))
                 digests with
      | Some blobDigest =>
          wrapErr
            (λ e, StatusWrapf e
                    "Failed to remove file with different instance name or digest function with digest "
                    (digest_hash blobDigest))
            (loggedRemove removeFunc)
      | None =>
          forEach digests (λ blobDigest, enqueue blobDigest removeFunc)
      end
  end.

(** [filterMissingChildren].  [FilterChildren] is taken to return nil
    when its callback stopped the traversal. *)
Definition filterMissingChildren (rootDirectory : PrepopulatedDirectory)
    (digestFunction : Function) : M (filterState * World) unit :=
  w <- lift get ;;
  _ <- forEach (FilterChildren_nodes rootDirectory w)
               (filterCallback digestFunction) ;;
  w <- lift get ;;
  _ <- match FilterChildren_error rootDirectory w with
       | Some err => fail err
       | None => ret tt
       end ;;
  st <- this ;;
  if bool_decide (0 < size (queue st)) then findMissingAndRemove (queue st)
  else ret tt.
End Filter.

(** ** The build session *)

Section Service.
Context `{Collaborators}.

Definition embed {S A} (r : outcome A) : M S A := λ s, (r, s).

(** The state objects that are new for an output base that has not
    been seen: the object is linked in at the tail of the ring and
    gets the change counter as its cookie. *)
Definition newOutputPathState (root : PrepopulatedDirectory)
    (factory : CASFileFactory) (outputBaseID : Component)
    : M RemoteOutputServiceDirectory ptr :=
  d <- get ;;
  let state : ptr := S (allocations d) in
  let s := {| buildState_ := None;
              rootDirectory := root;
              casFileFactory := factory;
              previous := outputPaths_previous d;
              next := sentinel;
              cookie := changeID d;
              outputBaseID := outputBaseID |} in
  _ <- modify (with_heap (<[state := s]> (heap d)) (S (allocations d))) ;;
  _ <- modify (λ d, with_outputBaseIDs
                      (<[outputBaseID := state]> (outputBaseIDs d)) d) ;;
  _ <- modify (setNext (previous s) state) ;;
  _ <- modify (setPrevious (next s) state) ;;
  _ <- modify (λ d, with_changeID (uint64_add (changeID d) 1) d) ;;
  ret state.

(** The critical section of [StartBuild]. *)
Definition StartBuild_locked (buildId : string) (outputBaseID : Component)
    (digestFunction : Function)
    (scopeWalkerFactory : VirtualRootScopeWalkerFactory)
    : M (RemoteOutputServiceDirectory * World) ptr :=
  d <- this ;;
  match buildIDs d !! buildId with
  | Some state => ret state
  | None =>
      state <-
        match outputBaseIDs d !! outputBaseID with
        | Some state =>
            s <- onThis (deref state) ;;
            _ <- match buildState_ s with
                 | Some bs =>
                     onThis (
                       _ <- modify (λ d, with_buildIDs
                                           (delete (id bs) (buildIDs d)) d) ;;
                       modify (setBuildState state None))
                 | None => ret tt
                 end ;;
            ret state
        | None =>
            factory <- lift (call NewCASFileFactory) ;;
            root <- lift (call (StartInitialBuild outputBaseID factory
                                  digestFunction)) ;;
            onThis (newOutputPathState root factory outputBaseID)
        end ;;
      _ <- onThis (modify (setBuildState state
                    (Some {| id := buildId;
                             digestFunction := digestFunction;
                             scopeWalkerFactory := scopeWalkerFactory |}))) ;;
      _ <- onThis (modify (λ d, with_buildIDs
                                  (<[buildId := state]> (buildIDs d)) d)) ;;
      ret state
  end.

(** What [StartBuild] works out from its request before it takes the
    lock: the output base, the output path and its suffix. *)
Definition StartBuild_paths (request : StartBuildRequest)
    : outcome (Component * Builder * Builder) :=
  match Resolve (Builder_Join (NewAbsoluteScopeWalker
                                 (VoidScopeWalker (S := unit))))
                symlinkLoopError 0 (start_OutputPathPrefix request)
                (EmptyBuilder, tt) with
  | (Err e, _) =>
      Err (StatusWrap e "Failed to resolve output path prefix")
  | (Panic, _) => Panic
  | (Ok _, (outputPath, _)) =>
      match NewComponent (start_OutputBaseId request) with
      | None =>
          Err (StatusError InvalidArgument
                 "Output base ID is not a valid filename")
      | Some outputBaseID =>
          Ok (outputBaseID,
              Builder_terminal outputBaseID outputPath,
              Builder_terminal outputBaseID EmptyBuilder)
      end
  end.

Definition mapErr {A} (f : error → error) (r : error + A) : error + A :=
  match r with
  | inl e => inl (f e)
  | inr a => inr a
  end.

(** Everything [StartBuild] works out from its request before it
    takes the lock; nothing has changed when one of these steps
    fails. *)
Definition StartBuild_prepare (request : StartBuildRequest)
    : outcome (Component * VirtualRootScopeWalkerFactory * Function
               * Builder) :=
  match StartBuild_paths request with
  | Err e => Err e
  | Panic => Panic
  | Ok (outputBaseID, outputPath, outputPathSuffix) =>
      match NewVirtualRootScopeWalkerFactory
              (Builder_String outputPath)
              (start_OutputPathAliases request) with
      | inl e => Err e
      | inr scopeWalkerFactory =>
          match NewInstanceName (start_InstanceName request) with
          | inl e =>
              Err (StatusWrapf e "Failed to parse instance name "
                     (start_InstanceName request))
          | inr instanceName =>
              match InstanceName_GetDigestFunction
                      instanceName (start_DigestFunction request) with
              | inl e => Err e
              | inr digestFunction =>
                  Ok (outputBaseID, scopeWalkerFactory, digestFunction,
                      outputPathSuffix)
              end
          end
      end
  end.

Definition StartBuild (request : StartBuildRequest)
    : M (RemoteOutputServiceDirectory * World) StartBuildResponse :=
  '(outputBaseID, scopeWalkerFactory, digestFunction, outputPathSuffix) <-
    embed (StartBuild_prepare request) ;;
  state <- StartBuild_locked (start_BuildId request) outputBaseID
             digestFunction scopeWalkerFactory ;;
  s <- onThis (deref state) ;;
  _ <- wrapErr (λ e, StatusWrap e
                       "Failed to filter contents of the output path")
         (lift (runWith emptyFilterState
                  (filterMissingChildren (rootDirectory s)
                                         digestFunction))) ;;
  ret {| OutputPathSuffix := Builder_String outputPathSuffix |}.

(** [getOutputPathAndBuildState]. *)
Definition getOutputPathAndBuildState (buildID : string)
    : M RemoteOutputServiceDirectory (outputPathState * option buildState) :=
  d <- get ;;
  match buildIDs d !! buildID with
  | None =>
      fail (StatusError FailedPrecondition
              "Build ID is not associated with any running build")
  | Some p => s <- deref p ;; ret (s, buildState_ s)
  end.

(** [buildState.digestFunction], where [buildState] may be nil. *)
Definition buildState_digestFunction {S} (bs : option buildState)
    : M S Function :=
  match bs with
  | Some bs => ret (digestFunction bs)
  | None => panic
  end.

(** [if err := m; err != nil { cleanup; return f(err) }]. *)
Definition orElse {S A} (cleanup : S → S) (f : error → error) (m : M S A)
    : M S A :=
  λ s, match m s with
       | (Err e, s') => (Err (f e), cleanup s')
       | r => r
       end.

Definition createFile (s : outputPathState) (bs : option buildState)
    (prefixCreator : directoryCreatingComponentWalker)
    (entry : OutputFile) : M World unit :=
  f <- buildState_digestFunction bs ;;
  childDigest <-
    try (mapErr (λ e, StatusWrapf e "Invalid digest for file "
                        (file_path entry))
           (NewDigestFromProto f (file_digest entry))) ;;
  leaf <- call (LookupFile (casFileFactory s) childDigest
                  (file_isExecutable entry)) ;;
  orElse (Unlink leaf)
         (λ e, StatusWrapf e "Failed to create file " (file_path entry))
         (createChild prefixCreator (file_path entry) (FromLeaf leaf)).

Definition createDirectory (maximumTreeSizeBytes : Z)
    (s : outputPathState) (bs : option buildState)
    (prefixCreator : directoryCreatingComponentWalker)
    (entry : OutputDirectory) : M World unit :=
  f <- buildState_digestFunction bs ;;
  childDigest <-
    try (mapErr (λ e, StatusWrapf e "Invalid digest for directory "
                        (directory_path entry))
           (NewDigestFromProto f (directory_treeDigest entry))) ;;
  if bool_decide (GetSizeBytes childDigest > maximumTreeSizeBytes)%Z then
    fail (StatusError InvalidArgument
            ("Directory " +:+ directory_path entry
             +:+ " exceeds the permitted maximum size"))
  else
    f' <- buildState_digestFunction bs ;;
    wrapErr (λ e, StatusWrapf e "Failed to create directory "
                    (directory_path entry))
      (createChild prefixCreator (directory_path entry)
         (FromDirectory
            (NewCASInitialContentsFetcher childDigest (casFileFactory s)
               f'))).

Definition createSymlink
    (prefixCreator : directoryCreatingComponentWalker)
    (entry : OutputSymlink) : M World unit :=
  leaf <- call (LookupSymlink (symlink_target entry)) ;;
  orElse (Unlink leaf)
         (λ e, StatusWrapf e "Failed to create symbolic link "
                 (symlink_path entry))
         (createChild prefixCreator (symlink_path entry) (FromLeaf leaf)).

(** [BatchCreate]. *)
Definition BatchCreate (request : BatchCreateRequest)
    : M (RemoteOutputServiceDirectory * World) unit :=
  '(s, bs) <- onThis (getOutputPathAndBuildState (create_BuildId request)) ;;
  d <- this ;;
  lift (
    '(_, prefixCreator) <-
      wrapErr (λ e, StatusWrap e "Failed to create path prefix directory")
        (runWith {| dc_stack := NewNonEmptyStack (rootDirectory s) |}
           (Resolve
              (NewRelativeScopeWalker directoryCreatingComponentWalker_ops)
              symlinkLoopError 0 (create_PathPrefix request))) ;;
    _ <- (if create_CleanPathPrefix request then
            wrapErr (λ e, StatusWrap e
                            "Failed to clean path prefix directory")
              (RemoveAllChildren (Peek (dc_stack prefixCreator)) false)
          else ret tt) ;;
    _ <- forEach (create_Files request)
           (createFile s bs prefixCreator) ;;
    _ <- forEach (create_Directories request)
           (createDirectory (maximumTreeSizeBytes d) s bs prefixCreator) ;;
    forEach (create_Symlinks request) (createSymlink prefixCreator)).

(** What [BatchStat] makes of the resolution of one path: an empty
    response for [ENOENT], an error for other errors, and otherwise
    the file status of the walker, completed for directories and for
    paths that leave the output path. *)
Definition statResponse (statPath : string)
    (resolution : outcome unit * (Builder * (statWalker * World)))
    : outcome StatResponse * World :=
  match resolution with
  | (Err err, (resolvedPath, (_, w'))) =>
      if decide (err = ENOENT) then
        (Ok {| file_status := None |}, w')
      else
        (Err (StatusWrapf err
                ("Failed to resolve path " +:+ statPath +:+ " beyond ")
                (Builder_String resolvedPath)), w')
  | (Panic, (_, (_, w'))) => (Panic, w')
  | (Ok _, (resolvedPath, (statWalker, w'))) =>
      match fileStatus statWalker with
      | FileStatus_Directory_ _ =>
          match GetLastDataModificationTime
                  (VirtualGetAttributes (Peek (sw_stack statWalker))
                     AttributesMaskLastDataModificationTime w') with
          | Some lastModifiedTime =>
              (Ok {| file_status :=
                       Some (FileStatus_Directory_
                               (Some lastModifiedTime)) |}, w')
          | None => (Panic, w')
          end
      | FileStatus_External_ _ =>
          (Ok {| file_status :=
                   Some (FileStatus_External_
                           (Some (Builder_String resolvedPath))) |}, w')
      | status => (Ok {| file_status := Some status |}, w')
      end
  end.

(** The walker behind the virtual root and the builder, as
    [BatchStat] composes them. *)
Definition statResolver (factory : VirtualRootScopeWalkerFactory) :=
  Builder_Join (VirtualRootScopeWalkerFactory_New factory statWalker_ops).

(** The resolution of one path of [BatchStat]. *)
Definition statResolve (request : BatchStatRequest) (s : outputPathState)
    (f : option Function) (factory : VirtualRootScopeWalkerFactory)
    (statPath : string) (w : World)
    : outcome unit * (Builder * (statWalker * World)) :=
  Resolve (statResolver factory) symlinkLoopError
    maximumSymlinkRedirections statPath
    (EmptyBuilder,
     ({| followSymlinks := stat_FollowSymlinks request;
         sw_digestFunction := f;
         sw_stack := NewNonEmptyStack (rootDirectory s);
         fileStatus := FileStatus_External_ None |}, w)).

(** One pass through the body of the loop of [BatchStat]. *)
Definition statPath (request : BatchStatRequest) (s : outputPathState)
    (bs : option buildState) (statPath : string)
    : M World StatResponse :=
  f <- (if stat_IncludeFileDigest request then
          f <- buildState_digestFunction bs ;; ret (Some f)
        else ret None) ;;
  factory <- match bs with
             | Some bs => ret (scopeWalkerFactory bs)
             | None => panic
             end ;;
  λ w, statResponse statPath (statResolve request s f factory statPath w).

(** The loop of [BatchStat]: one response is appended per path. *)
Fixpoint BatchStat_loop (request : BatchStatRequest) (s : outputPathState)
    (bs : option buildState) (paths : list string)
    (responses : list StatResponse) : M World (list StatResponse) :=
  match paths with
  | [] => ret responses
  | path :: paths' =>
      response <- statPath request s bs path ;;
      BatchStat_loop request s bs paths' (responses ++ [response])
  end.

(** [BatchStat]. *)
Definition BatchStat (request : BatchStatRequest)
    : M (RemoteOutputServiceDirectory * World) BatchStatResponse :=
  '(s, bs) <- onThis (getOutputPathAndBuildState (stat_BuildId request)) ;;
  responses <- lift (BatchStat_loop request s bs (stat_Paths request) []) ;;
  ret {| Responses := responses |}.

(** [FinalizeBuild]. *)
Definition FinalizeBuild (request : FinalizeBuildRequest)
    : M (RemoteOutputServiceDirectory * World) unit :=
  d <- this ;;
  match buildIDs d !! finalize_BuildId request with
  | Some p =>
      s <- onThis (deref p) ;;
      match buildState_ s with
      | None => panic
      | Some bs =>
          _ <- lift (effect (OutputPath_FinalizeBuild
                               (rootDirectory s) (digestFunction bs))) ;;
          _ <- onThis (modify (λ d, with_buildIDs
                                      (delete (id bs) (buildIDs d)) d)) ;;
          onThis (modify (setBuildState p None))
      end
  | None => ret tt
  end.
End Service.

(** ** Sequences of requests *)

Inductive Request :=
  | ReqClean (request : CleanRequest)
  | ReqStartBuild (request : StartBuildRequest)
  | ReqBatchCreate (request : BatchCreateRequest)
  | ReqBatchStat (request : BatchStatRequest)
  | ReqFinalizeBuild (request : FinalizeBuildRequest).

Section Run.
Context `{Collaborators}.

(** The state that a request leaves behind, whatever it returned. *)
Definition handle (st : RemoteOutputServiceDirectory * World)
    (request : Request) : RemoteOutputServiceDirectory * World :=
  match request with
  | ReqClean r => snd (Clean r st)
  | ReqStartBuild r => snd (StartBuild r st)
  | ReqBatchCreate r => snd (BatchCreate r st)
  | ReqBatchStat r => snd (BatchStat r st)
  | ReqFinalizeBuild r => snd (FinalizeBuild r st)
  end.

Definition run (requests : list Request)
    (st : RemoteOutputServiceDirectory * World)
    : RemoteOutputServiceDirectory * World :=
  foldl handle st requests.

(** What an object says about itself, read through its address. *)
Definition obOf (d : RemoteOutputServiceDirectory) (p : ptr)
    : option Component := outputBaseID <$> heap d !! p.
Definition bsOf (d : RemoteOutputServiceDirectory) (p : ptr)
    : option (option buildState) := buildState_ <$> heap d !! p.
Definition cookieOf (d : RemoteOutputServiceDirectory) (p : ptr)
    : option Z := cookie <$> heap d !! p.

(** The two maps agree with the objects they point to. *)
Record registry_inv (d : RemoteOutputServiceDirectory) : Prop := {
  inv_alloc : ∀ p, is_Some (heap d !! p) → 0 < p ≤ allocations d;
  inv_outputBase : ∀ ob p, outputBaseIDs d !! ob = Some p →
    obOf d p = Some ob;
  inv_build : ∀ b p, buildIDs d !! b = Some p →
    ∃ bs ob, bsOf d p = Some (Some bs) ∧ id bs = b ∧
             obOf d p = Some ob ∧ outputBaseIDs d !! ob = Some p;
}.

(** The registry after a new object was linked in at the tail of the
    ring, before the change counter moves. *)
Definition linkedAtTail (root : PrepopulatedDirectory)
    (factory : CASFileFactory) (ob : Component)
    (d : RemoteOutputServiceDirectory) : RemoteOutputServiceDirectory :=
  let p := S (allocations d) in
  let s := {| buildState_ := None; rootDirectory := root;
              casFileFactory := factory;
              previous := outputPaths_previous d; next := sentinel;
              cookie := changeID d; outputBaseID := ob |} in
  setPrevious sentinel p
    (setNext (outputPaths_previous d) p
       (with_outputBaseIDs (<[ob := p]> (outputBaseIDs d))
          (with_heap (<[p := s]> (heap d)) (S (allocations d)) d))).

(** Closing and opening the build session of an object. *)
Definition closeSession (p : ptr) (bs : buildState)
    (d : RemoteOutputServiceDirectory) : RemoteOutputServiceDirectory :=
  setBuildState p None (with_buildIDs (delete (id bs) (buildIDs d)) d).

Definition openSession (p : ptr) (nb : buildState)
    (d : RemoteOutputServiceDirectory) : RemoteOutputServiceDirectory :=
  with_buildIDs (<[id nb := p]> (buildIDs (setBuildState p (Some nb) d)))
    (setBuildState p (Some nb) d).
End Run.

Global Arguments obOf : simpl never.
Global Arguments bsOf : simpl never.
Global Arguments cookieOf : simpl never.
Global Arguments linkedAtTail : simpl never.
Global Arguments closeSession : simpl never.
Global Arguments openSession : simpl never.

(** ** Enumeration of the output paths *)

Section ReadDir.
Context `{Collaborators} {R : Type}.

(** [reporter.ReportEntry]: the reporter takes the entry or refuses
    it. *)
Variable ReportEntry :
  Z → Component → PrepopulatedDirectory → Attributes → R → bool * R.

(** The first loop of [VirtualReadDir]: the first output path at or
    past the cookie, or the sentinel.  The loops follow pointers; the
    fuel is the number of objects that exist plus one, and [None]
    means that a loop did not come back to the sentinel. *)
Fixpoint VirtualReadDir_seek (fuel : nat) (d : RemoteOutputServiceDirectory)
    (firstCookie : Z) (p : ptr) : option ptr :=
  match fuel with
  | 0 => None
  | S fuel' =>
      if decide (p = sentinel) then Some sentinel
      else
        match heap d !! p with
        | None => None
        | Some s =>
            if bool_decide (cookie s >= firstCookie)%Z then Some p
            else VirtualReadDir_seek fuel' d firstCookie (next s)
        end
  end.

(** The second loop: report until the sentinel or until the reporter
    refuses an entry. *)
Fixpoint VirtualReadDir_report (fuel : nat)
    (d : RemoteOutputServiceDirectory) (w : World) (requested : Z)
    (p : ptr) (r : R) : option R :=
  match fuel with
  | 0 => None
  | S fuel' =>
      if decide (p = sentinel) then Some r
      else
        match heap d !! p with
        | None => None
        | Some s =>
            let child := rootDirectory s in
            let attributes := VirtualGetAttributes child requested w in
            let '(more, r') :=
              ReportEntry (uint64_add (cookie s) 1) (outputBaseID s)
                          child attributes r in
            if more then VirtualReadDir_report fuel' d w requested (next s) r'
            else Some r'
        end
  end.

Definition VirtualReadDir (d : RemoteOutputServiceDirectory) (w : World)
    (firstCookie : Z) (requested : Z) (r : R) : option R :=
  match VirtualReadDir_seek (S (size (heap d))) d firstCookie
          (outputPaths_next d) with
  | None => None
  | Some p => VirtualReadDir_report (S (size (heap d))) d w requested p r
  end.
End ReadDir.

(** ** Collaborators in memory

    One implementation of [Collaborators], to run the code on concrete
    requests.  All output paths live in one list of entries; a directory
    is the path to it, with the output base first.  The Content
    Addressable Storage is the list of digests it does not have. *)

Module Mem.
Inductive Leaf :=
  | File (digest : Digest) (isExecutable : bool)
  | Symlink (target : string).

Inductive Node :=
  | Dir
  | Lazy (treeDigest : Digest)
  | LeafNode (leaf : Leaf).

Record State := {
  tree : list (list string * Node);
  absent : list Digest;
}.

Definition set_tree (t : list (list string * Node)) (w : State) : State :=
  {| tree := t; absent := absent w |}.

Definition lookup (path : list string) (w : State) : option Node :=
  snd <$> List.find (λ e, bool_decide (fst e = path)) (tree w).

Fixpoint isPrefix (p q : list string) : bool :=
  match p, q with
  | [], _ => true
  | x :: p', y :: q' => bool_decide (x = y) && isPrefix p' q'
  | _ :: _, [] => false
  end.

(** Removing the entry at [path] and everything below it. *)
Definition removeAt (path : list string) (w : State) : State :=
  set_tree (List.filter (λ e, negb (isPrefix path (fst e))) (tree w)) w.

(** Removing everything below [path]. *)
Definition removeBelow (path : list string) (w : State) : State :=
  set_tree (List.filter (λ e, negb (isPrefix path (fst e))
                             || bool_decide (fst e = path)) (tree w)) w.

Definition place (path : list string) (n : Node) (w : State) : State :=
  let w' := removeAt path w in
  set_tree (tree w' ++ [(path, n)]) w'.

Definition createAndEnter (dir : list string) (name : Component)
    : M State (list string) :=
  λ w, let path := dir ++ [name] in
       match lookup path w with
       | Some Dir => (Ok path, w)
       | Some (Lazy _) =>
           (Err (StatusError Unavailable
                   "Directory contents are not available"), w)
       | _ => (Ok path, place path Dir w)
       end.

Definition toNode (n : InitialNode Digest Leaf) : Node :=
  match n with
  | FromDirectory treeDigest => Lazy treeDigest
  | FromLeaf leaf => LeafNode leaf
  end.

Fixpoint createChildren (dir : list string)
    (children : list (Component * InitialNode Digest Leaf))
    (overwrite : bool) : M State unit :=
  match children with
  | [] => ret tt
  | (name, n) :: rest =>
      λ w, let path := dir ++ [name] in
           match lookup path w, overwrite with
           | Some _, false => (Err (Errno 17), w)
           | _, _ => createChildren dir rest overwrite
                       (place path (toNode n) w)
           end
  end.

Definition lookupChild (dir : list string) (name : Component)
    : M State (DirectoryChild (list string) Leaf) :=
  λ w, match lookup (dir ++ [name]) w with
       | None => (Err ENOENT, w)
       | Some (LeafNode leaf) => (Ok (ChildLeaf leaf), w)
       | Some _ => (Ok (ChildDirectory (dir ++ [name])), w)
       end.

Definition filterNodes (dir : list string) (w : State)
    : list (InitialNode Digest Leaf * list string) :=
  omap (λ e, if isPrefix dir (fst e) then
               match snd e with
               | Dir => None
               | Lazy treeDigest => Some (FromDirectory treeDigest, fst e)
               | LeafNode leaf => Some (FromLeaf leaf, fst e)
               end
             else None) (tree w).

Definition readlink (leaf : Leaf) : M State string :=
  match leaf with
  | Symlink target => ret target
  | File _ _ => fail EINVAL
  end.

Definition toProto (d : Digest) : ProtoDigest :=
  {| proto_hash := digest_hash d; proto_sizeBytes := digest_sizeBytes d |}.

Definition getOutputServiceFileStatus (leaf : Leaf)
    (f : option Function) : M State FileStatus :=
  match leaf with
  | Symlink target => ret (FileStatus_Symlink_ target)
  | File digest _ =>
      ret (FileStatus_File_
             (match f with Some _ => Some (toProto digest) | None => None end))
  end.

Definition containingDigests (leaf : Leaf) : list Digest :=
  match leaf with
  | File digest _ => [digest]
  | Symlink _ => []
  end.

Definition findMissing (digests : gset Digest) : M State (list Digest) :=
  λ w, (Ok (List.filter (λ d, bool_decide (d ∈ absent w))
                        (elements digests)), w).

(** [threshold] is the batch size of the pass that filters missing
    blobs. *)
Definition collaborators (threshold : nat) : Collaborators :=
  {| World := State;
     PrepopulatedDirectory := list string;
     NativeLeaf := Leaf;
     InitialContentsFetcher := Digest;
     CASFileFactory := unit;
     ChildRemover := list string;
     Attributes := unit;
     VirtualRootScopeWalkerFactory := unit;
     VirtualRootNode := unit;
     RecommendedFindMissingDigestsCount := threshold;
     maximumSymlinkRedirections := 40;
     symlinkLoopError :=
       StatusError InvalidArgument
         "Maximum number of symbolic link redirections reached";
     hashValid _ h := negb (String.eqb h "");
     NewInstanceName name := inr name;
     InstanceName_GetDigestFunction name f :=
       inr {| function_instanceName := name; function_bare := f |};
     NewVirtualRootScopeWalkerFactory _ _ := inr tt;
     virtualRoot_OnScope _ := VR_leave;
     virtualRoot_OnDirectory _ _ := VR_leave;
     virtualRoot_OnUp _ := VR_leave;
     NewCASFileFactory w := (tt, w);
     StartInitialBuild outputBaseID _ _ w := ([outputBaseID], w);
     OutputPathFactory_Clean _ := ret tt;
     OutputPath_FinalizeBuild _ _ w := w;
     NotifyRemoval _ w := w;
     RemoveAllChildren dir _ := effect (removeBelow dir);
     CreateAndEnterPrepopulatedDirectory := createAndEnter;
     CreateChildren := createChildren;
     LookupChild := lookupChild;
     VirtualGetAttributes _ _ _ := tt;
     AttributesMaskLastDataModificationTime := 1;
     GetLastDataModificationTime _ := Some 0%Z;
     FilterChildren_nodes := filterNodes;
     FilterChildren_error _ _ := None;
     callRemover path := effect (removeAt path);
     LookupFile _ digest isExecutable w := (File digest isExecutable, w);
     LookupSymlink target w := (Symlink target, w);
     Unlink _ w := w;
     Readlink := readlink;
     GetOutputServiceFileStatus := getOutputServiceFileStatus;
     Leaf_GetContainingDigests := containingDigests;
     Fetcher_GetContainingDigests treeDigest := ret [treeDigest];
     NewCASInitialContentsFetcher treeDigest _ _ := treeDigest;
     FindMissing := findMissing |}.
End Mem.

(** ** The directory in the file system

    [RemoteOutputServiceDirectory] is also the [virtual.Directory] that
    lists the output paths: one subdirectory per output base. *)

(** [virtual.Status], as far as this directory hands it out. *)
Inductive Status :=
  | StatusOK
  | StatusErrNoEnt
  | StatusErrIsDir.

(** What a caller of [VirtualGetAttributes] finds written into the
    attributes that it passed, call by call: the setters of
    [virtual.Attributes], and the handle of the directory, which adds
    what the handle allocator knows (the inode number). *)
Inductive AttributesCall :=
  | SetFileType (fileType : Z)
  | SetPermissions (permissions : Z)
  | SetSizeBytes (sizeBytes : Z)
  | SetChangeID (changeID : Z)
  | SetLinkCount (linkCount : Z)
  | Handle_GetAttributes (requested : Z).

(** Conversion to and addition in [uint32]. *)
Definition uint32 (n : Z) : Z := (n mod 2 ^ 32)%Z.
Definition uint32_add (a b : Z) : Z := ((a + b) mod 2 ^ 32)%Z.

Section FileSystem.
Context `{Collaborators}.

(** Constants of bb-storage and bb-remote-execution:
    [filesystem.FileTypeDirectory], [virtual.PermissionsRead],
    [virtual.PermissionsExecute], [virtual.AttributesMaskChangeID],
    [virtual.AttributesMaskLinkCount] and
    [virtual.EmptyDirectoryLinkCount]. *)
Variable FileTypeDirectory : Z.
Variable PermissionsRead PermissionsExecute : Z.
Variable AttributesMaskChangeID AttributesMaskLinkCount : Z.
Variable EmptyDirectoryLinkCount : Z.

(** [d.VirtualGetAttributes(ctx, requested, attributes)], the
    attributes of the directory itself. *)
Definition RemoteOutputServiceDirectory_VirtualGetAttributes
    (d : RemoteOutputServiceDirectory) (requested : Z)
    : list AttributesCall :=
  [SetFileType FileTypeDirectory;
   SetPermissions (Z.lor PermissionsRead PermissionsExecute);
   SetSizeBytes 0]
  ++ (if decide (Z.land requested
                   (Z.lor AttributesMaskChangeID AttributesMaskLinkCount)
                 ≠ 0%Z) then
        [SetChangeID (changeID d);
         SetLinkCount
           (uint32_add EmptyDirectoryLinkCount
              (uint32 (Z.of_nat (size (outputBaseIDs d)))))]
      else [])
  ++ [Handle_GetAttributes requested].

(** [d.VirtualLookup(ctx, name, requested, out)]: the root of the
    output path of an output base, with its attributes. *)
Definition VirtualLookup (name : Component) (requested : Z) (w : World)
    : M RemoteOutputServiceDirectory
        (option (PrepopulatedDirectory * Attributes) * Status) :=
  d <- get ;;
  match outputBaseIDs d !! name with
  | None => ret (None, StatusErrNoEnt)
  | Some p =>
      s <- deref p ;;
      ret (Some (rootDirectory s,
                 VirtualGetAttributes (rootDirectory s) requested w),
           StatusOK)
  end.

(** [d.VirtualOpenChild]: nothing can be opened or created here.  The
    two answers are made by
    [virtual.ReadOnlyDirectoryOpenChildWrongFileType] and
    [virtual.ReadOnlyDirectoryOpenChildDoesntExist]. *)
Context {OpenExistingOptions Opened : Type}.
Variable ReadOnlyDirectoryOpenChildWrongFileType :
  option OpenExistingOptions → Status → Opened.
Variable ReadOnlyDirectoryOpenChildDoesntExist :
  option Attributes → Opened.

Definition VirtualOpenChild (name : Component)
    (createAttributes : option Attributes)
    (existingOptions : option OpenExistingOptions)
    : M RemoteOutputServiceDirectory Opened :=
  d <- get ;;
  match outputBaseIDs d !! name with
  | Some _ =>
      ret (ReadOnlyDirectoryOpenChildWrongFileType existingOptions
             StatusErrIsDir)
  | None => ret (ReadOnlyDirectoryOpenChildDoesntExist createAttributes)
  end.
End FileSystem.

(** ** The vocabulary of the properties *)

Section Vocabulary.
Context `{Collaborators}.

(** The ring without the object at [p], as the two assignments of
    [Clean] leave it. *)
Definition unlinked (p : ptr) (d : RemoteOutputServiceDirectory)
    : RemoteOutputServiceDirectory :=
  match heap d !! p with
  | Some s =>
      let d' := setNext (previous s) (next s) d in
      match heap d' !! p with
      | Some s' => setPrevious (next s') (previous s') d'
      | None => d'
      end
  | None => d
  end.

(** The registry after [Clean] has taken out the object [s] at [p]. *)
Definition cleaned (p : ptr) (ob : Component) (s : outputPathState)
    (d : RemoteOutputServiceDirectory) : RemoteOutputServiceDirectory :=
  let d' :=
    with_changeID (uint64_add (changeID d) 1)
      (unlinked p (with_outputBaseIDs (delete ob (outputBaseIDs d)) d)) in
  match buildState_ s with
  | Some bs =>
      setBuildState p None (with_buildIDs (delete (id bs) (buildIDs d')) d')
  | None => d'
  end.

(** The error of [getOutputPathAndBuildState] for a build ID without
    a session. *)
Definition notRunning : error :=
  StatusError FailedPrecondition
    "Build ID is not associated with any running build".

(** A request that starts a build under the build ID [b]. *)
Definition startsBuild (b : string) (request : Request) : Prop :=
  match request with
  | ReqStartBuild r => start_BuildId r = b
  | _ => False
  end.

(** Every entry of the build ID map points to an output path that
    has a build state with that build ID and that is registered under
    its own output base ID. *)
Definition sessions_consistent (d : RemoteOutputServiceDirectory) : Prop :=
  ∀ b p, buildIDs d !! b = Some p →
    ∃ s bs, heap d !! p = Some s ∧ buildState_ s = Some bs ∧ id bs = b ∧
            outputBaseIDs d !! outputBaseID s = Some p.

(** No output path is in the build ID map twice. *)
Definition one_session_per_state (d : RemoteOutputServiceDirectory) : Prop :=
  ∀ b1 b2 p, buildIDs d !! b1 = Some p → buildIDs d !! b2 = Some p → b1 = b2.

(** What [StartBuild] returns after the pass that filters missing
    blobs has returned [r]. *)
Definition filterOutcome (suffix : Builder) (r : outcome unit)
    : outcome StartBuildResponse :=
  match r with
  | Ok _ => Ok {| OutputPathSuffix := Builder_String suffix |}
  | Err e =>
      Err (StatusWrap e "Failed to filter contents of the output path")
  | Panic => Panic
  end.

(** The responses of a successful [BatchStat], path by path: every
    path is resolved in the world that the paths before it left
    behind. *)
Inductive statSequence (request : BatchStatRequest) (s : outputPathState)
    (bs : option buildState)
    : World → list string → list StatResponse → World → Prop :=
  | statSequence_nil w : statSequence request s bs w [] [] w
  | statSequence_cons w path paths response responses w1 w2 :
      statPath request s bs path w = (Ok response, w1) →
      statSequence request s bs w1 paths responses w2 →
      statSequence request s bs w (path :: paths) (response :: responses) w2.

(** The path that [path.Builder] has recorded once the void walker has
    taken the components that were left. *)
Fixpoint voidWalk (components : list string) (b : Builder) : Builder :=
  match components with
  | [] => b
  | name :: rest =>
      if decide (name = "" ∨ name = ".") then voidWalk rest b
      else if decide (name = "..") then voidWalk rest (Builder_up b)
      else
        match rest with
        | _ :: _ => voidWalk rest (Builder_enter name false b)
        | [] => Builder_terminal name b
        end
  end.

(** Only the root of the output path is on the stack. *)
Definition atRoot {T} (stack : NonEmptyStack T) : Prop :=
  PopSingle stack = None.

(** A relative path whose first component is "..". *)
Definition startsAbove (path : string) (rest : list string) : Prop :=
  containsRune zeroByte path = false ∧ isAbsolute path = false ∧
  splitComponents path "" = ".." :: rest.

(** The request that stops in front of the directories after [pre]. *)
Definition upToDirectory (request : BatchCreateRequest)
    (pre : list OutputDirectory) : BatchCreateRequest :=
  {| create_BuildId := create_BuildId request;
     create_PathPrefix := create_PathPrefix request;
     create_CleanPathPrefix := create_CleanPathPrefix request;
     create_Files := create_Files request;
     create_Directories := pre;
     create_Symlinks := [] |}.

(** Reading the log of the pass. *)
Definition isFindMissing {R} (ev : Event R) : bool :=
  match ev with
  | EvFindMissing _ _ => true
  | _ => false
  end.
Definition isRemove {R} (ev : Event R) : Prop :=
  match ev with
  | EvRemove _ _ => True
  | _ => False
  end.
Definition enqueuedDigest {R} (ev : Event R) : option Digest :=
  match ev with
  | EvEnqueue blobDigest _ => Some blobDigest
  | _ => None
  end.

(** The number of calls of [FindMissing] and the digests that were put
    into the queue, in order. *)
Definition findMissingCalls {R} (tr : list (Event R)) : nat :=
  length (List.filter isFindMissing tr).
Definition enqueuedDigests {R} (tr : list (Event R)) : list Digest :=
  omap enqueuedDigest tr.

(** [n / t], rounded up. *)
Definition ceilDiv (n t : nat) : nat := (n + t - 1) / t.

(** The removers that one reply of [FindMissing] makes the pass call:
    everything that was queued under a missing digest. *)
Definition removalsOf (q : gmap Digest (list ChildRemover))
    (missing : list Digest) : list ChildRemover :=
  flat_map (λ d, default [] (q !! d)) missing.

(** Actions that only call removers. *)
Definition removesOnly {A} (m : M (filterState * World) A) : Prop :=
  ∀ st w r st' w', m (st, w) = (r, (st', w')) →
    queue st' = queue st ∧
    ∃ evs, trace st' = trace st ++ evs ∧ Forall isRemove evs.

(** What holds between two flushes of the queue when no digest is put
    into the queue twice. *)
Record counted (st : filterState) : Prop := {
  counted_size : size (queue st) ≤ RecommendedFindMissingDigestsCount;
  counted_length :
    length (enqueuedDigests (trace st))
    = findMissingCalls (trace st) * RecommendedFindMissingDigestsCount
      + size (queue st);
  counted_zero : size (queue st) = 0 → findMissingCalls (trace st) = 0;
  counted_dom : ∀ d, d ∈ dom (queue st) → d ∈ enqueuedDigests (trace st);
}.

(** Actions that only add to the log and that keep [counted] when they
    succeed without a repeated digest. *)
Definition counts {A} (m : M (filterState * World) A) : Prop :=
  ∀ st w r st' w', m (st, w) = (r, (st', w')) →
    (∃ evs, trace st' = trace st ++ evs) ∧
    (∀ a, r = Ok a → NoDup (enqueuedDigests (trace st')) →
          counted st → counted st').

(** The digests that an entry of the log puts into the queue or sends
    to [FindMissing]. *)
Definition digestsOf {R} (ev : Event R) : gset Digest :=
  match ev with
  | EvEnqueue blobDigest _ => {[ blobDigest ]}
  | EvFindMissing query _ => query
  | EvRemove _ _ => ∅
  end.

(** Nothing of another digest function is in the queue, has been put
    into the queue or has been sent to [FindMissing]. *)
Definition onlyOwnDigests (f : Function) (st : filterState) : Prop :=
  (∀ d, d ∈ dom (queue st) → UsesDigestFunction d f = true) ∧
  Forall (λ ev, ∀ d, d ∈ digestsOf ev → UsesDigestFunction d f = true)
         (trace st).

(** Actions that keep a property of the queue and the log, however
    they end. *)
Definition preserves {A} (I : filterState → Prop)
    (m : M (filterState * World) A) : Prop :=
  ∀ st w r st' w', m (st, w) = (r, (st', w')) → I st → I st'.

(** Where a node has a leaf with a digest of another digest function,
    the callback does one thing: it calls the remover of the node. *)
Definition foreignTo (f : Function) (digests : list Digest) : Prop :=
  ∃ d, d ∈ digests ∧ UsesDigestFunction d f = false.

(** The digests that the callback works with. *)
Definition containingDigests
    (node : InitialNode InitialContentsFetcher NativeLeaf) (w : World)
    : outcome (list Digest) :=
  match node with
  | FromLeaf leaf => Ok (Leaf_GetContainingDigests leaf)
  | FromDirectory directory => fst (Fetcher_GetContainingDigests directory w)
  end.

(** The world after the callback has asked for these digests. *)
Definition afterContainingDigests
    (node : InitialNode InitialContentsFetcher NativeLeaf) (w : World)
    : World :=
  match node with
  | FromLeaf leaf => w
  | FromDirectory directory => snd (Fetcher_GetContainingDigests directory w)
  end.

(** The log only grows. *)
Definition extends (tr : list (Event ChildRemover)) (st : filterState)
    : Prop :=
  ∃ evs, trace st = tr ++ evs.

End Vocabulary.

(** The cookie of the object at [p]. *)
Definition cookieAt `{Collaborators} (d : RemoteOutputServiceDirectory)
    (p : ptr) : Z :=
  default 0%Z (cookieOf d p).

(** [links d L]: every element of [L] has the element after it as its
    [next], which has it as its [previous]. *)
Definition links `{Collaborators} (d : RemoteOutputServiceDirectory)
    (L : list ptr) : Prop :=
  ∀ i a b, L !! i = Some a → L !! S i = Some b →
    getNext d a = Some b ∧ getPrevious d b = Some a.

(** The ring of output paths is the list [l], from the sentinel back
    to the sentinel. *)
Record ring_inv `{Collaborators} (d : RemoteOutputServiceDirectory)
    (l : list ptr) : Prop := {
  ring_NoDup : NoDup (sentinel :: l);
  ring_links : links d (sentinel :: l ++ [sentinel]);
  ring_sorted :
    StronglySorted (λ p q, (cookieAt d p < cookieAt d q)%Z) l;
  ring_registered :
    ∀ p, p ∈ l ↔ ∃ ob, outputBaseIDs d !! ob = Some p;
  ring_cookie_bound :
    ∀ p c, cookieOf d p = Some c → (0 ≤ c < changeID d)%Z;
  ring_cookie_inj :
    ∀ p q c, cookieOf d p = Some c → cookieOf d q = Some c → p = q;
  ring_changeID : (0 ≤ changeID d)%Z;
}.

(** Two registries with the same ring: the same output paths under
    the same names, linked in the same way, with the same cookies and
    the same change counter. *)
Record sameRing `{Collaborators} (d d' : RemoteOutputServiceDirectory)
    : Prop := {
  same_outputBaseIDs : outputBaseIDs d' = outputBaseIDs d;
  same_changeID : changeID d' = changeID d;
  same_next : ∀ p, getNext d' p = getNext d p;
  same_previous : ∀ p, getPrevious d' p = getPrevious d p;
  same_cookie : ∀ p, cookieOf d' p = cookieOf d p;
}.

(** The output paths of the ring in the order of the [next] pointers,
    from [p] to the sentinel. *)
Fixpoint ringFrom `{Collaborators} (fuel : nat)
    (d : RemoteOutputServiceDirectory) (p : ptr) : list ptr :=
  match fuel with
  | 0 => []
  | S fuel' =>
      if decide (p = sentinel) then []
      else
        match heap d !! p with
        | None => []
        | Some s => p :: ringFrom fuel' d (next s)
        end
  end.

Definition ringOf `{Collaborators} (d : RemoteOutputServiceDirectory)
    : list ptr :=
  ringFrom (size (heap d)) d (outputPaths_next d).

(** What the two loops of [VirtualReadDir] do with a list of output
    paths: skip the ones before the cookie, and offer the others to
    the reporter until it refuses one. *)
Fixpoint seekList `{Collaborators} (d : RemoteOutputServiceDirectory)
    (firstCookie : Z) (l : list ptr) : list ptr :=
  match l with
  | [] => []
  | p :: l' =>
      if bool_decide (cookieAt d p >= firstCookie)%Z then p :: l'
      else seekList d firstCookie l'
  end.

Fixpoint reportList `{Collaborators} {R : Type}
    (ReportEntry : Z → Component → PrepopulatedDirectory → Attributes →
                   R → bool * R)
    (d : RemoteOutputServiceDirectory) (w : World) (requested : Z)
    (l : list ptr) (r : R) : R :=
  match l with
  | [] => r
  | p :: l' =>
      match heap d !! p with
      | None => r
      | Some s =>
          let '(more, r') :=
            ReportEntry (uint64_add (cookie s) 1) (outputBaseID s)
              (rootDirectory s)
              (VirtualGetAttributes (rootDirectory s) requested w) r in
          if more then reportList ReportEntry d w requested l' r' else r'
      end
  end.

(** [walks d p l]: following [next] from [p] visits [l] and then the
    sentinel. *)
Fixpoint walks `{Collaborators} (d : RemoteOutputServiceDirectory)
    (p : ptr) (l : list ptr) : Prop :=
  match l with
  | [] => p = sentinel
  | q :: l' =>
      p = q ∧ q ≠ sentinel ∧
      ∃ s, heap d !! q = Some s ∧ walks d (next s) l'
  end.

(** What a request can do to the ring: nothing, take one output path
    out, or put a new one in at the tail. *)
Inductive ringStep `{Collaborators} (d d' : RemoteOutputServiceDirectory)
    : Prop :=
  | ringStep_same : sameRing d d' → ringStep d d'
  | ringStep_unlink p ob s :
      outputBaseIDs d !! ob = Some p → heap d !! p = Some s →
      sameRing (with_changeID (uint64_add (changeID d) 1)
                  (unlinked p (with_outputBaseIDs
                                 (delete ob (outputBaseIDs d)) d))) d' →
      ringStep d d'
  | ringStep_link root factory ob :
      outputBaseIDs d !! ob = None →
      sameRing (with_changeID
                  (uint64_add (changeID (linkedAtTail root factory ob d)) 1)
                  (linkedAtTail root factory ob d)) d' →
      ringStep d d'.

(** ** More vocabulary *)

(** Every output path with a build state is in the build ID map under
    the ID of that build state. *)
Definition sessions_registered `{Collaborators}
    (d : RemoteOutputServiceDirectory) : Prop :=
  ∀ p bs, bsOf d p = Some (Some bs) → buildIDs d !! id bs = Some p.


(** A component that names an entry: not empty, not "." and not "..". *)
Definition isName (name : string) : Prop :=
  ¬ (name = "" ∨ name = ".") ∧ name ≠ "..".

(** A relative path without null bytes, and its components. *)
Definition relativePath (path : string) (components : list string) : Prop :=
  containsRune zeroByte path = false ∧ isAbsolute path = false ∧
  splitComponents path "" = components.

(** Entering a chain of directories from the directory on top of the
    stack, creating the ones that are missing. *)
Fixpoint enterAll `{Collaborators} (stack : NonEmptyStack PrepopulatedDirectory)
    (names : list Component) : M World (NonEmptyStack PrepopulatedDirectory) :=
  match names with
  | [] => ret stack
  | name :: rest =>
      child <- CreateAndEnterPrepopulatedDirectory (Peek stack) name ;;
      enterAll (Push child stack) rest
  end.

(** The first step of [createChild]: the resolution of the parent
    directory. *)
Definition resolveParent `{Collaborators}
    (cw : directoryCreatingComponentWalker) (outputPath : string)
    : M World (unit * parentDirectoryCreatingComponentWalker) :=
  runWith {| TerminalName := None; pdc_stack := Copy (dc_stack cw) |}
    (Resolve (NewRelativeScopeWalker parentDirectoryCreatingComponentWalker_ops)
       symlinkLoopError 0 outputPath).

(** The resolution of the path prefix of [BatchCreate]. *)
Definition resolvePrefix `{Collaborators}
    (stack : NonEmptyStack PrepopulatedDirectory) (pathPrefix : string)
    : M World (unit * directoryCreatingComponentWalker) :=
  runWith {| dc_stack := stack |}
    (Resolve (NewRelativeScopeWalker directoryCreatingComponentWalker_ops)
       symlinkLoopError 0 pathPrefix).


(** The queries that were sent to [FindMissing], in order. *)
Definition queryOf {R} (ev : Event R) : option (gset Digest) :=
  match ev with
  | EvFindMissing query _ => Some query
  | _ => None
  end.
Definition queriesOf {R} (tr : list (Event R)) : list (gset Digest) :=
  omap queryOf tr.

(** A digest that was part of a query that [FindMissing] has
    answered. *)
Definition checked {R} (tr : list (Event R)) (d : Digest) : Prop :=
  ∃ query missing, EvFindMissing query (Ok missing) ∈ tr ∧ d ∈ query.

(** Actions that keep [S] when they succeed and from which [W] holds
    however they end. *)
Definition keeps `{Collaborators} {A} (S W : filterState → Prop)
    (m : M (filterState * World) A) : Prop :=
  ∀ st w r st' w', m (st, w) = (r, (st', w')) → S st →
    W st' ∧ (∀ a, r = Ok a → S st').

(** What holds between two steps of the pass: the queue is not larger
    than the batch size, every query had between one digest and a
    full batch, and every call of [FindMissing] and the queue that is
    waiting are paid for by a digest that was put into the queue. *)
Record batching `{Collaborators} (st : filterState) : Prop := {
  batching_size : size (queue st) ≤ RecommendedFindMissingDigestsCount;
  batching_queries :
    Forall (λ q : gset Digest,
              1 ≤ size q ≤ RecommendedFindMissingDigestsCount)
           (queriesOf (trace st));
  batching_calls :
    findMissingCalls (trace st)
    + (if decide (size (queue st) = 0) then 0 else 1)
    ≤ length (enqueuedDigests (trace st));
}.

(** What holds of the log however the pass ends. *)
Definition withinBatch `{Collaborators} (st : filterState) : Prop :=
  Forall (λ q : gset Digest, 1 ≤ size q ≤ RecommendedFindMissingDigestsCount)
         (queriesOf (trace st)) ∧
  findMissingCalls (trace st) ≤ length (enqueuedDigests (trace st)).

(** Every digest that was put into the queue is still waiting there or
    has been part of an answered query. *)
Definition accountedFor `{Collaborators} (st : filterState) : Prop :=
  ∀ d, d ∈ enqueuedDigests (trace st) →
       d ∈ dom (queue st) ∨ checked (trace st) d.


(** A reporter that takes every entry, and the entries it was given. *)
Definition takeAll `{Collaborators} (nextCookie : Z) (name : Component)
    (child : PrepopulatedDirectory) (attributes : Attributes)
    (entries : list (Z * Component * PrepopulatedDirectory * Attributes))
    : bool * list (Z * Component * PrepopulatedDirectory * Attributes) :=
  (true, entries ++ [(nextCookie, name, child, attributes)]).

(** A reporter with room for one entry, of which it keeps the cookie
    and the name. *)
Definition takeOne `{Collaborators} (nextCookie : Z) (name : Component)
    (child : PrepopulatedDirectory) (attributes : Attributes)
    (entry : option (Z * Component)) : bool * option (Z * Component) :=
  match entry with
  | None => (true, Some (nextCookie, name))
  | Some _ => (false, entry)
  end.

(** A reader that asks for one entry at a time and goes on from the
    cookie that came with the last entry, at most [n] times. *)
Fixpoint readAll `{Collaborators} (n : nat)
    (d : RemoteOutputServiceDirectory) (w : World) (requested : Z)
    (firstCookie : Z) : list Component :=
  match n with
  | 0 => []
  | S n' =>
      match VirtualReadDir takeOne d w firstCookie requested None with
      | Some (Some (nextCookie, name)) =>
          name :: readAll n' d w requested nextCookie
      | _ => []
      end
  end.

(** The entry that [VirtualReadDir] reports for the output path at
    [p]. *)
Definition entryAt `{Collaborators} (d : RemoteOutputServiceDirectory)
    (w : World) (requested : Z) (p : ptr)
    : option (Z * Component * PrepopulatedDirectory * Attributes) :=
  (λ s, (uint64_add (cookie s) 1, outputBaseID s, rootDirectory s,
         VirtualGetAttributes (rootDirectory s) requested w))
  <$> heap d !! p.

(** The name of an entry. *)
Definition entryName `{Collaborators}
    (entry : Z * Component * PrepopulatedDirectory * Attributes) : Component :=
  snd (fst (fst entry)).

(** ** Examples

    Requests and states over the collaborators in memory, with a batch
    size of 2 and a maximum tree size of 100 bytes. *)

Module Example.
Definition C : Collaborators := Mem.collaborators 2.
#[local] Existing Instance C.

Definition world : World := {| Mem.tree := []; Mem.absent := [] |}.
Definition new : RemoteOutputServiceDirectory :=
  NewRemoteOutputServiceDirectory 100.

Definition start (ob b : string) : StartBuildRequest :=
  {| start_OutputBaseId := ob; start_BuildId := b;
     start_InstanceName := "i"; start_DigestFunction := 1;
     start_OutputPathPrefix := "/home/out"; start_OutputPathAliases := [] |}.
Definition sha : Function :=
  {| function_instanceName := "i"; function_bare := 1 |}.
Definition session (b : string) : buildState :=
  {| id := b; digestFunction := sha; scopeWalkerFactory := tt |}.
Definition blob (f : Z) (hash : string) : Digest :=
  {| digest_instanceName := "i"; digest_function := f;
     digest_hash := hash; digest_sizeBytes := 1 |}.
Definition file (name : string) (d : Digest) : list string * Mem.Node :=
  (["ob1"; name], Mem.LeafNode (Mem.File d false)).

(** One build is running in the output base "ob1". *)
Definition started : RemoteOutputServiceDirectory * World :=
  run [ReqStartBuild (start "ob1" "b1")] (new, world).
Definition path1 : outputPathState :=
  {| buildState_ := Some (session "b1"); rootDirectory := ["ob1"];
     casFileFactory := tt; previous := sentinel; next := sentinel;
     cookie := 0; outputBaseID := "ob1" |}.

(** A file and a directory that is too large. *)
Definition big : OutputDirectory :=
  {| directory_path := "big";
     directory_treeDigest := {| proto_hash := "bb"; proto_sizeBytes := 101 |} |}.
Definition create : BatchCreateRequest :=
  {| create_BuildId := "b1"; create_PathPrefix := "x";
     create_CleanPathPrefix := false;
     create_Files :=
       [{| file_path := "f";
           file_digest := {| proto_hash := "aa"; proto_sizeBytes := 3 |};
           file_isExecutable := true |}];
     create_Directories := [big];
     create_Symlinks := [] |}.

(** Two builds are running, in "ob1" and in "ob2". *)
Definition two : RemoteOutputServiceDirectory * World :=
  run [ReqStartBuild (start "ob1" "b1"); ReqStartBuild (start "ob2" "b2")]
      (new, world).
Definition stat (b : string) (paths : list string) : BatchStatRequest :=
  {| stat_BuildId := b; stat_IncludeFileDigest := false;
     stat_FollowSymlinks := true; stat_Paths := paths |}.

(** Three files, two of them with the same digest, and three files
    with three digests; the first digest is missing. *)
Definition shared : World :=
  {| Mem.tree := [file "f1" (blob 1 "aa"); file "f2" (blob 1 "bb");
                  file "f3" (blob 1 "aa")];
     Mem.absent := [blob 1 "aa"] |}.
Definition distinct : World :=
  {| Mem.tree := [file "f1" (blob 1 "aa"); file "f2" (blob 1 "bb");
                  file "f3" (blob 1 "cc")];
     Mem.absent := [blob 1 "aa"] |}.
(** A file with a digest of another digest function. *)
Definition foreign : World :=
  {| Mem.tree := [file "f1" (blob 1 "aa"); file "f2" (blob 2 "bb")];
     Mem.absent := [] |}.
Definition pass (w : World) : outcome unit * (filterState * World) :=
  filterMissingChildren ["ob1"] sha (emptyFilterState, w).

Definition clean (ob : string) : CleanRequest := {| clean_OutputBaseId := ob |}.
(** One build in "ob1" from its start to the removal of the output
    path: the change counter moves twice. *)
Definition round : list Request :=
  [ReqStartBuild (start "ob1" "b1"); ReqClean (clean "ob1")].
(** [n] of these rounds and the start of one more build. *)
Definition wrapAround (n : nat) : list Request :=
  concat (replicate n round) ++ [ReqStartBuild (start "ob1" "b1")].
(** No output path is registered and no build is running. *)
Definition idle (d : RemoteOutputServiceDirectory) : Prop :=
  registry_inv d ∧ outputBaseIDs d = ∅ ∧ buildIDs d = ∅.
End Example.

(** More requests and states for the examples. *)
Module Tour.
Import Example.
#[local] Existing Instance C.

(** The walker of the path prefix at the root of the output path of
    "ob1", and a symbolic link to create. *)
Definition prefixCreator : directoryCreatingComponentWalker :=
  {| dc_stack := NewNonEmptyStack (["ob1"] : PrepopulatedDirectory) |}.
Definition link : InitialNode InitialContentsFetcher NativeLeaf :=
  FromLeaf (Mem.Symlink "x").

Definition finalize (b : string) : FinalizeBuildRequest :=
  {| finalize_BuildId := b |}.

(** The requests that lead to [started] and to [two], and a build
    that is finalized and followed by another one in the same output
    base. *)
Definition startOne : list Request := [ReqStartBuild (start "ob1" "b1")].
Definition startTwo : list Request :=
  [ReqStartBuild (start "ob1" "b1"); ReqStartBuild (start "ob2" "b2")].
Definition nextBuild : list Request :=
  [ReqFinalizeBuild (finalize "b1"); ReqStartBuild (start "ob1" "b2")].

(** The constants of the attributes, as numbers. *)
Definition rootAttributes (d : RemoteOutputServiceDirectory) (requested : Z)
    : list AttributesCall :=
  RemoteOutputServiceDirectory_VirtualGetAttributes 2 4 1 1 8 2 d requested.
End Tour.

(** * Properties *)

Lemma bind_eq {S A B} (m : M S A) (k : A → M S B) s :
  bind m k s
  = match m s with
    | (Ok a, s') => k a s'
    | (Err e, s') => (Err e, s')
    | (Panic, s') => (Panic, s')
    end.
Proof. done. Qed.

Section HeapUpdates.
Context `{Collaborators}.

Lemma heap_setNext d p v q :
  heap (setNext p v d) !! q =
    (if decide (p ≠ sentinel ∧ p = q) then set_next v <$> heap d !! q
     else heap d !! q).
Proof.
  unfold setNext. destruct (decide (p = sentinel)) as [->|Hp]; simpl.
  - done.
  - case_decide as Hd.
    + destruct Hd as [_ ->]. by rewrite lookup_alter_eq.
    + rewrite lookup_alter_ne; [done|]. intros ->. by apply Hd.
Qed.
Lemma heap_setPrevious d p v q :
  heap (setPrevious p v d) !! q =
    (if decide (p ≠ sentinel ∧ p = q) then set_previous v <$> heap d !! q
     else heap d !! q).
Proof.
  unfold setPrevious. destruct (decide (p = sentinel)) as [->|Hp]; simpl.
  - done.
  - case_decide as Hd.
    + destruct Hd as [_ ->]. by rewrite lookup_alter_eq.
    + rewrite lookup_alter_ne; [done|]. intros ->. by apply Hd.
Qed.
Lemma heap_setBuildState d p bs q :
  heap (setBuildState p bs d) !! q =
    (if decide (p = q) then set_buildState bs <$> heap d !! q
     else heap d !! q).
Proof.
  unfold setBuildState; simpl. case_decide as Hd.
  - subst. by rewrite lookup_alter_eq.
  - by rewrite lookup_alter_ne.
Qed.

End HeapUpdates.

Ltac heap_cases :=
  repeat first [rewrite heap_setNext | rewrite heap_setPrevious
               | rewrite heap_setBuildState];
  repeat case_decide; try done;
  repeat match goal with
         | |- context [heap ?d !! ?q] => destruct (heap d !! q); try done
         end.

Section Observations.
Context `{Collaborators}.

Lemma obOf_setNext d p v q : obOf (setNext p v d) q = obOf d q.
Proof. unfold obOf. heap_cases. Qed.
Lemma obOf_setPrevious d p v q : obOf (setPrevious p v d) q = obOf d q.
Proof. unfold obOf. heap_cases. Qed.
Lemma obOf_setBuildState d p bs q : obOf (setBuildState p bs d) q = obOf d q.
Proof. unfold obOf. heap_cases. Qed.
Lemma bsOf_setNext d p v q : bsOf (setNext p v d) q = bsOf d q.
Proof. unfold bsOf. heap_cases. Qed.
Lemma bsOf_setPrevious d p v q : bsOf (setPrevious p v d) q = bsOf d q.
Proof. unfold bsOf. heap_cases. Qed.
Lemma bsOf_setBuildState d p bs q :
  bsOf (setBuildState p bs d) q =
    if decide (p = q) then (λ _, bs) <$> bsOf d q else bsOf d q.
Proof. unfold bsOf. heap_cases. Qed.
Lemma cookieOf_setNext d p v q : cookieOf (setNext p v d) q = cookieOf d q.
Proof. unfold cookieOf. heap_cases. Qed.
Lemma cookieOf_setPrevious d p v q :
  cookieOf (setPrevious p v d) q = cookieOf d q.
Proof. unfold cookieOf. heap_cases. Qed.
Lemma cookieOf_setBuildState d p bs q :
  cookieOf (setBuildState p bs d) q = cookieOf d q.
Proof. unfold cookieOf. heap_cases. Qed.

Lemma obOf_with d q :
  (∀ m, obOf (with_buildIDs m d) q = obOf d q) ∧
  (∀ m, obOf (with_outputBaseIDs m d) q = obOf d q) ∧
  (∀ c, obOf (with_changeID c d) q = obOf d q).
Proof. done. Qed.
Lemma bsOf_with d q :
  (∀ m, bsOf (with_buildIDs m d) q = bsOf d q) ∧
  (∀ m, bsOf (with_outputBaseIDs m d) q = bsOf d q) ∧
  (∀ c, bsOf (with_changeID c d) q = bsOf d q).
Proof. done. Qed.
Lemma cookieOf_with d q :
  (∀ m, cookieOf (with_buildIDs m d) q = cookieOf d q) ∧
  (∀ m, cookieOf (with_outputBaseIDs m d) q = cookieOf d q) ∧
  (∀ c, cookieOf (with_changeID c d) q = cookieOf d q).
Proof. done. Qed.

Lemma is_Some_setNext d p v q :
  is_Some (heap (setNext p v d) !! q) ↔ is_Some (heap d !! q).
Proof. rewrite heap_setNext. case_decide; [|done]. by rewrite fmap_is_Some. Qed.
Lemma is_Some_setPrevious d p v q :
  is_Some (heap (setPrevious p v d) !! q) ↔ is_Some (heap d !! q).
Proof.
  rewrite heap_setPrevious. case_decide; [|done]. by rewrite fmap_is_Some.
Qed.
Lemma is_Some_setBuildState d p bs q :
  is_Some (heap (setBuildState p bs d) !! q) ↔ is_Some (heap d !! q).
Proof.
  rewrite heap_setBuildState. case_decide; [|done]. by rewrite fmap_is_Some.
Qed.

(** Fields that a link or a build state update leaves alone. *)
Lemma fields_setNext d p v :
  outputBaseIDs (setNext p v d) = outputBaseIDs d ∧
  buildIDs (setNext p v d) = buildIDs d ∧
  changeID (setNext p v d) = changeID d ∧
  allocations (setNext p v d) = allocations d ∧
  maximumTreeSizeBytes (setNext p v d) = maximumTreeSizeBytes d.
Proof. unfold setNext. by case_decide. Qed.
Lemma fields_setPrevious d p v :
  outputBaseIDs (setPrevious p v d) = outputBaseIDs d ∧
  buildIDs (setPrevious p v d) = buildIDs d ∧
  changeID (setPrevious p v d) = changeID d ∧
  allocations (setPrevious p v d) = allocations d ∧
  maximumTreeSizeBytes (setPrevious p v d) = maximumTreeSizeBytes d.
Proof. unfold setPrevious. by case_decide. Qed.

Lemma fields_setBuildState d p bs :
  outputBaseIDs (setBuildState p bs d) = outputBaseIDs d ∧
  buildIDs (setBuildState p bs d) = buildIDs d ∧
  changeID (setBuildState p bs d) = changeID d ∧
  allocations (setBuildState p bs d) = allocations d ∧
  maximumTreeSizeBytes (setBuildState p bs d) = maximumTreeSizeBytes d.
Proof. done. Qed.

End Observations.

Ltac fields :=
  repeat match goal with
    | |- context [outputBaseIDs (setNext ?p ?v ?d)] =>
        rewrite (proj1 (fields_setNext d p v))
    | |- context [buildIDs (setNext ?p ?v ?d)] =>
        rewrite (proj1 (proj2 (fields_setNext d p v)))
    | |- context [changeID (setNext ?p ?v ?d)] =>
        rewrite (proj1 (proj2 (proj2 (fields_setNext d p v))))
    | |- context [allocations (setNext ?p ?v ?d)] =>
        rewrite (proj1 (proj2 (proj2 (proj2 (fields_setNext d p v)))))
    | |- context [outputBaseIDs (setPrevious ?p ?v ?d)] =>
        rewrite (proj1 (fields_setPrevious d p v))
    | |- context [buildIDs (setPrevious ?p ?v ?d)] =>
        rewrite (proj1 (proj2 (fields_setPrevious d p v)))
    | |- context [changeID (setPrevious ?p ?v ?d)] =>
        rewrite (proj1 (proj2 (proj2 (fields_setPrevious d p v))))
    | |- context [allocations (setPrevious ?p ?v ?d)] =>
        rewrite (proj1 (proj2 (proj2 (proj2 (fields_setPrevious d p v)))))
    end; simpl.

Ltac obs :=
  repeat first
    [ rewrite obOf_setNext | rewrite obOf_setPrevious
    | rewrite obOf_setBuildState | rewrite bsOf_setNext
    | rewrite bsOf_setPrevious | rewrite bsOf_setBuildState
    | rewrite cookieOf_setNext | rewrite cookieOf_setPrevious
    | rewrite cookieOf_setBuildState
    | rewrite is_Some_setNext | rewrite is_Some_setPrevious
    | rewrite is_Some_setBuildState
    | rewrite (proj1 (obOf_with _ _))
    | rewrite (proj1 (proj2 (obOf_with _ _)))
    | rewrite (proj2 (proj2 (obOf_with _ _)))
    | rewrite (proj1 (bsOf_with _ _))
    | rewrite (proj1 (proj2 (bsOf_with _ _)))
    | rewrite (proj2 (proj2 (bsOf_with _ _)))
    | rewrite (proj1 (cookieOf_with _ _))
    | rewrite (proj1 (proj2 (cookieOf_with _ _)))
    | rewrite (proj2 (proj2 (cookieOf_with _ _))) ].

Ltac wsimpl :=
  cbn [allocations changeID outputBaseIDs buildIDs maximumTreeSizeBytes
       with_changeID with_buildIDs with_outputBaseIDs].

Section RegistryInv.
Context `{Collaborators}.

Lemma Clean_commit_skip p ob d :
  outputBaseIDs d !! ob ≠ Some p → Clean_commit p ob d = (Ok tt, d).
Proof.
  intros Hob. unfold Clean_commit. rewrite bind_eq. cbn [get].
  by rewrite decide_False.
Qed.

Lemma Clean_commit_dangling p ob d :
  outputBaseIDs d !! ob = Some p → heap d !! p = None →
  Clean_commit p ob d
  = (Panic, with_outputBaseIDs (delete ob (outputBaseIDs d)) d).
Proof.
  intros Hob Hs. unfold Clean_commit. rewrite bind_eq. cbn [get].
  rewrite decide_True by done. rewrite bind_eq. cbn [modify].
  rewrite bind_eq. unfold deref at 1. cbn [heap with_outputBaseIDs].
  by rewrite Hs.
Qed.

Lemma Clean_commit_eq p ob d s :
  outputBaseIDs d !! ob = Some p → heap d !! p = Some s →
  Clean_commit p ob d = (Ok tt, cleaned p ob s d).
Proof.
  intros Hob Hs. unfold Clean_commit, cleaned, unlinked.
  rewrite bind_eq. cbn [get]. rewrite decide_True by done.
  rewrite bind_eq. cbn [modify]. rewrite bind_eq. unfold deref at 1.
  set (d1 := with_outputBaseIDs _ d).
  assert (heap d1 !! p = Some s) as Hs1 by done. rewrite Hs1. cbv zeta.
  rewrite bind_eq. cbn [modify]. rewrite bind_eq. unfold deref at 1.
  set (d2 := setNext _ _ d1).
  assert (∃ s2, heap d2 !! p = Some s2 ∧ buildState_ s2 = buildState_ s)
    as (s2 & Hs2 & Hbs2).
  { subst d2. rewrite heap_setNext. case_decide.
    - exists (set_next (next s) s). by rewrite Hs1.
    - by exists s. }
  rewrite Hs2. rewrite bind_eq. cbn [modify]. rewrite bind_eq.
  cbn [modify]. rewrite bind_eq. unfold deref at 1.
  set (d3 := setPrevious _ _ d2).
  assert (changeID d3 = changeID d) as ->.
  { subst d3 d2 d1. by fields. }
  set (d4 := with_changeID _ d3).
  assert (∃ s4, heap d4 !! p = Some s4 ∧ buildState_ s4 = buildState_ s)
    as (s4 & Hs4 & Hbs4).
  { subst d4 d3. cbn [heap with_changeID]. rewrite heap_setPrevious.
    case_decide.
    - exists (set_previous (previous s2) s2). by rewrite Hs2.
    - by exists s2. }
  rewrite Hs4, Hbs4. by destruct (buildState_ s).
Qed.

Lemma Clean_commit_inv p ob d :
  registry_inv d → registry_inv (snd (Clean_commit p ob d)).
Proof.
  intros Hinv.
  destruct (decide (outputBaseIDs d !! ob = Some p)) as [Hob|Hob];
    [|by rewrite Clean_commit_skip].
  pose proof (inv_outputBase d Hinv ob p Hob) as Hp.
  unfold obOf in Hp. destruct (heap d !! p) as [s|] eqn:Hs; [|done].
  simpl in Hp. injection Hp as Hsob.
  rewrite (Clean_commit_eq _ _ _ s) by done. cbn [snd].
  unfold cleaned, unlinked. cbn [heap with_outputBaseIDs]. rewrite Hs.
  cbv zeta.
  set (d2 := setNext _ _ _).
  assert (∃ d1, with_changeID (uint64_add (changeID d) 1)
            match heap d2 !! p with
            | Some s' => setPrevious (next s') (previous s') d2
            | None => d2
            end = d1) as [d1 Hd1eq] by by eexists.
  rewrite Hd1eq.
  assert (∃ u v, d1 = with_changeID (uint64_add (changeID d) 1)
                         (setPrevious u v d2) ∨
                 d1 = with_changeID (uint64_add (changeID d) 1) d2)
    as (u & v & Hd1).
  { destruct (heap d2 !! p) as [s'|];
      [exists (next s'), (previous s'); by left
      |exists 0, 0; by right]. }
  clear Hd1eq.
  assert (Hob1 : outputBaseIDs d1 = delete ob (outputBaseIDs d)).
  { destruct Hd1; subst d1 d2; simpl; by fields. }
  assert (Hb1 : buildIDs d1 = buildIDs d).
  { destruct Hd1; subst d1 d2; simpl; by fields. }
  assert (Hal1 : allocations d1 = allocations d).
  { destruct Hd1; subst d1 d2; simpl; by fields. }
  assert (Hobs1 : ∀ q, obOf d1 q = obOf d q).
  { intros q. destruct Hd1; subst d1 d2; by obs. }
  assert (Hbs1 : ∀ q, bsOf d1 q = bsOf d q).
  { intros q. destruct Hd1; subst d1 d2; by obs. }
  assert (Hsome1 : ∀ q, is_Some (heap d1 !! q) ↔ is_Some (heap d !! q)).
  { intros q. destruct Hd1; subst d1 d2; simpl; by obs. }
  clear Hd1. clearbody d2.
  destruct (buildState_ s) as [bs|] eqn:Hbs; simpl.
  - split.
    + intros q. obs. simpl. rewrite Hsome1, Hal1. apply Hinv.
    + intros ob' q. obs. simpl. rewrite Hob1, Hobs1.
      intros Hl. apply lookup_delete_Some in Hl as [? Hl]. by apply Hinv.
    + intros b q. obs. simpl. rewrite Hb1, Hob1, Hobs1, Hbs1.
      intros Hl. apply lookup_delete_Some in Hl as [Hne Hl].
      destruct (inv_build d Hinv b q Hl) as (bs' & ob' & Hq1 & Hq2 & Hq3 & Hq4).
      case_decide as Hpq.
      * subst q. unfold bsOf in Hq1. rewrite Hs in Hq1. simpl in Hq1. congruence.
      * exists bs', ob'. split_and!; try done.
        apply lookup_delete_Some. split; [|done]. intros ->.
        congruence.
  - split.
    + intros q. rewrite Hsome1, Hal1. apply Hinv.
    + intros ob' q. rewrite Hob1, Hobs1.
      intros Hl. apply lookup_delete_Some in Hl as [? Hl]. by apply Hinv.
    + intros b q. rewrite Hb1, Hob1, Hobs1, Hbs1. intros Hl.
      destruct (inv_build d Hinv b q Hl) as (bs' & ob' & Hq1 & Hq2 & Hq3 & Hq4).
      exists bs', ob'. split_and!; try done.
      apply lookup_delete_Some. split; [|done]. intros ->.
      assert (q = p) by congruence. subst q.
      unfold bsOf in Hq1. rewrite Hs in Hq1. simpl in Hq1. congruence.
Qed.

Lemma closeSession_inv' d p bs :
  registry_inv d → bsOf d p = Some (Some bs) →
  registry_inv
    (setBuildState p None (with_buildIDs (delete (id bs) (buildIDs d)) d)).
Proof.
  intros Hinv Hbs. split.
  - intros q. obs. simpl. apply Hinv.
  - intros ob q. obs. simpl. apply Hinv.
  - intros b q. obs. simpl. intros Hl.
    apply lookup_delete_Some in Hl as [Hne Hl].
    destruct (inv_build d Hinv b q Hl) as (bs' & ob' & Hq1 & Hq2 & Hq3 & Hq4).
    case_decide as Hpq; [subst q; congruence|].
    by exists bs', ob'.
Qed.

Lemma openSession_inv' d p ob nb :
  registry_inv d → bsOf d p = Some None →
  outputBaseIDs d !! ob = Some p →
  registry_inv
    (with_buildIDs (<[id nb := p]> (buildIDs (setBuildState p (Some nb) d)))
       (setBuildState p (Some nb) d)).
Proof.
  intros Hinv Hbs Hob. split.
  - intros q Hq. apply (is_Some_setBuildState d p (Some nb) q) in Hq.
    by apply (inv_alloc _ Hinv).
  - intros ob' q. obs. simpl. apply (inv_outputBase _ Hinv).
  - intros b q. obs. simpl. intros Hl.
    apply lookup_insert_Some in Hl as [[<- <-]|[Hne Hl]].
    + rewrite decide_True by done. rewrite Hbs. simpl.
      exists nb, ob. split_and!; try done.
      by apply (inv_outputBase d Hinv).
    + destruct (inv_build d Hinv b q Hl) as (bs' & ob' & Hq1 & Hq2 & Hq3 & Hq4).
      case_decide as Hpq; [subst q; congruence|].
      by exists bs', ob'.
Qed.

Lemma newOutputPathState_eq d root factory ob :
  newOutputPathState root factory ob d =
    (Ok (S (allocations d)),
     with_changeID (uint64_add (changeID (linkedAtTail root factory ob d)) 1)
       (linkedAtTail root factory ob d)).
Proof. reflexivity. Qed.

Lemma linkedAtTail_obOf d root factory ob q :
  obOf (linkedAtTail root factory ob d) q =
    if decide (q = S (allocations d)) then Some ob else obOf d q.
Proof.
  unfold linkedAtTail. obs. unfold obOf. simpl.
  case_decide as Hq.
  - subst q. by rewrite lookup_insert_eq.
  - by rewrite lookup_insert_ne.
Qed.
Lemma linkedAtTail_bsOf d root factory ob q :
  bsOf (linkedAtTail root factory ob d) q =
    if decide (q = S (allocations d)) then Some None else bsOf d q.
Proof.
  unfold linkedAtTail. obs. unfold bsOf. simpl.
  case_decide as Hq.
  - subst q. by rewrite lookup_insert_eq.
  - by rewrite lookup_insert_ne.
Qed.
Lemma linkedAtTail_cookieOf d root factory ob q :
  cookieOf (linkedAtTail root factory ob d) q =
    if decide (q = S (allocations d)) then Some (changeID d)
    else cookieOf d q.
Proof.
  unfold linkedAtTail. obs. unfold cookieOf. simpl.
  case_decide as Hq.
  - subst q. by rewrite lookup_insert_eq.
  - by rewrite lookup_insert_ne.
Qed.
Lemma linkedAtTail_is_Some d root factory ob q :
  is_Some (heap (linkedAtTail root factory ob d) !! q) ↔
  q = S (allocations d) ∨ is_Some (heap d !! q).
Proof.
  unfold linkedAtTail. obs. simpl.
  destruct (decide (q = S (allocations d))) as [->|Hq].
  - rewrite lookup_insert_eq. split; [by left|by eauto].
  - rewrite lookup_insert_ne by done. split; [by right|by intros [?|?]].
Qed.
Lemma linkedAtTail_fields d root factory ob :
  outputBaseIDs (linkedAtTail root factory ob d)
    = <[ob := S (allocations d)]> (outputBaseIDs d) ∧
  buildIDs (linkedAtTail root factory ob d) = buildIDs d ∧
  changeID (linkedAtTail root factory ob d) = changeID d ∧
  allocations (linkedAtTail root factory ob d) = S (allocations d) ∧
  maximumTreeSizeBytes (linkedAtTail root factory ob d)
    = maximumTreeSizeBytes d.
Proof. unfold linkedAtTail, setPrevious, setNext. simpl. by case_decide. Qed.

Lemma fresh_address d :
  registry_inv d → heap d !! S (allocations d) = None.
Proof.
  intros Hinv. destruct (heap d !! S (allocations d)) eqn:Hp; [|done].
  assert (0 < S (allocations d) ≤ allocations d)
    by (apply (inv_alloc _ Hinv); eauto). lia.
Qed.

Lemma linkedAtTail_inv d root factory ob c :
  registry_inv d → outputBaseIDs d !! ob = None →
  registry_inv (with_changeID c (linkedAtTail root factory ob d)).
Proof.
  intros Hinv Hnew. pose proof (fresh_address d Hinv) as Hfresh.
  destruct (linkedAtTail_fields d root factory ob)
    as (Hf1 & Hf2 & Hf3 & Hf4 & Hf5).
  split.
  - intros q Hq. apply (linkedAtTail_is_Some d root factory ob q) in Hq.
    wsimpl. rewrite Hf4. destruct Hq as [->|Hq]; [lia|].
    apply (inv_alloc _ Hinv) in Hq. lia.
  - intros ob' q. obs. wsimpl. rewrite Hf1, linkedAtTail_obOf.
    intros Hl. apply lookup_insert_Some in Hl as [[<- <-]|[Hne Hl]].
    + by rewrite decide_True.
    + case_decide as Hq; [|by apply (inv_outputBase _ Hinv)]. subst q.
      pose proof (inv_outputBase d Hinv _ _ Hl) as Hx.
      unfold obOf in Hx. by rewrite Hfresh in Hx.
  - intros b q. obs. wsimpl. rewrite Hf1, Hf2, linkedAtTail_obOf,
      linkedAtTail_bsOf. intros Hl.
    destruct (inv_build d Hinv b q Hl) as (bs' & ob' & Hq1 & Hq2 & Hq3 & Hq4).
    case_decide as Hq.
    { subst q. unfold obOf in Hq3. by rewrite Hfresh in Hq3. }
    exists bs', ob'. split_and!; try done.
    rewrite lookup_insert_ne; [done|]. intros <-. congruence.
Qed.

Lemma closeSession_inv d p bs :
  registry_inv d → bsOf d p = Some (Some bs) →
  registry_inv (closeSession p bs d).
Proof. apply closeSession_inv'. Qed.
Lemma openSession_inv d p ob nb :
  registry_inv d → bsOf d p = Some None →
  outputBaseIDs d !! ob = Some p →
  registry_inv (openSession p nb d).
Proof. apply openSession_inv'. Qed.

Lemma StartBuild_locked_known b ob f swf d w p :
  buildIDs d !! b = Some p →
  StartBuild_locked b ob f swf (d, w) = (Ok p, (d, w)).
Proof.
  intros Hb. unfold StartBuild_locked, bind, this. simpl. by rewrite Hb.
Qed.

Lemma StartBuild_locked_reuse b ob f swf d w p s :
  buildIDs d !! b = None →
  outputBaseIDs d !! ob = Some p →
  heap d !! p = Some s →
  StartBuild_locked b ob f swf (d, w) =
    (Ok p,
     (openSession p {| id := b; digestFunction := f;
                       scopeWalkerFactory := swf |}
        (match buildState_ s with
         | Some bs => closeSession p bs d
         | None => d
         end), w)).
Proof.
  intros Hb Hob Hs.
  unfold StartBuild_locked, bind, this, onThis, deref, modify, ret.
  simpl. rewrite Hb, Hob. simpl. rewrite Hs.
  by destruct (buildState_ s).
Qed.

Lemma StartBuild_locked_fresh b ob f swf d w :
  buildIDs d !! b = None →
  outputBaseIDs d !! ob = None →
  StartBuild_locked b ob f swf (d, w) =
    let '(factory, w1) := NewCASFileFactory w in
    let '(root, w2) := StartInitialBuild ob factory f w1 in
    (Ok (S (allocations d)),
     (openSession (S (allocations d))
        {| id := b; digestFunction := f; scopeWalkerFactory := swf |}
        (with_changeID
           (uint64_add (changeID (linkedAtTail root factory ob d)) 1)
           (linkedAtTail root factory ob d)), w2)).
Proof.
  intros Hb Hob.
  unfold StartBuild_locked, bind, this, onThis, lift, call, modify, ret.
  simpl. rewrite Hb, Hob. simpl.
  destruct (NewCASFileFactory w) as [factory w1].
  destruct (StartInitialBuild ob factory f w1) as [root w2].
  reflexivity.
Qed.

Lemma StartBuild_locked_inv b ob f swf d w :
  registry_inv d →
  registry_inv (fst (snd (StartBuild_locked b ob f swf (d, w)))).
Proof.
  intros Hinv.
  destruct (buildIDs d !! b) as [p|] eqn:Hb.
  { by rewrite (StartBuild_locked_known _ _ _ _ _ _ _ Hb). }
  destruct (outputBaseIDs d !! ob) as [p|] eqn:Hob.
  - pose proof (inv_outputBase d Hinv _ _ Hob) as Hp. unfold obOf in Hp.
    destruct (heap d !! p) as [s|] eqn:Hs; [|done].
    rewrite (StartBuild_locked_reuse _ _ _ _ _ _ _ _ Hb Hob Hs). simpl.
    apply (openSession_inv _ _ ob
             {| id := b; digestFunction := f; scopeWalkerFactory := swf |}).
    + destruct (buildState_ s) as [bs|] eqn:Hbs; [|done].
      apply closeSession_inv; [done|]. unfold bsOf. by rewrite Hs, <- Hbs.
    + destruct (buildState_ s) as [bs|] eqn:Hbs.
      * unfold closeSession. obs. unfold bsOf. rewrite Hs. simpl.
        by rewrite decide_True.
      * unfold bsOf. by rewrite Hs, <- Hbs.
    + by destruct (buildState_ s).
  - rewrite (StartBuild_locked_fresh _ _ _ _ _ _ Hb Hob).
    destruct (NewCASFileFactory w) as [factory w1].
    destruct (StartInitialBuild ob factory f w1) as [root w2]. simpl.
    apply (openSession_inv _ _ ob
             {| id := b; digestFunction := f; scopeWalkerFactory := swf |}).
    + by apply linkedAtTail_inv.
    + obs. rewrite linkedAtTail_bsOf. by rewrite decide_True.
    + wsimpl. rewrite (proj1 (linkedAtTail_fields _ _ _ _)).
      by rewrite lookup_insert_eq.
Qed.

Lemma FinalizeBuild_known b d w p s bs :
  buildIDs d !! b = Some p → heap d !! p = Some s →
  buildState_ s = Some bs →
  FinalizeBuild {| finalize_BuildId := b |} (d, w) =
    (Ok tt, (closeSession p bs d,
             OutputPath_FinalizeBuild (rootDirectory s) (digestFunction bs) w)).
Proof.
  intros Hb Hs Hbs.
  unfold FinalizeBuild, bind, this, onThis, deref, lift, effect, modify.
  simpl. rewrite Hb. simpl. rewrite Hs. simpl. by rewrite Hbs.
Qed.

Lemma FinalizeBuild_unknown b d w :
  buildIDs d !! b = None →
  FinalizeBuild {| finalize_BuildId := b |} (d, w) = (Ok tt, (d, w)).
Proof.
  intros Hb. unfold FinalizeBuild, bind, this. simpl. by rewrite Hb.
Qed.

Lemma registry_inv_build d b p :
  registry_inv d → buildIDs d !! b = Some p →
  ∃ s bs, heap d !! p = Some s ∧ buildState_ s = Some bs ∧ id bs = b ∧
          outputBaseIDs d !! outputBaseID s = Some p.
Proof.
  intros Hinv Hb.
  destruct (inv_build d Hinv b p Hb) as (bs & ob & H1 & H2 & H3 & H4).
  unfold bsOf, obOf in *. destruct (heap d !! p) as [s|]; [|done].
  simpl in *. exists s, bs. split_and!; try done; congruence.
Qed.

Lemma FinalizeBuild_inv req d w :
  registry_inv d → registry_inv (fst (snd (FinalizeBuild req (d, w)))).
Proof.
  intros Hinv. destruct req as [b].
  destruct (buildIDs d !! b) as [p|] eqn:Hb.
  - destruct (registry_inv_build d b p Hinv Hb) as (s & bs & Hs & Hbs & _).
    rewrite (FinalizeBuild_known _ _ _ _ _ _ Hb Hs Hbs). simpl.
    apply closeSession_inv; [done|]. unfold bsOf. by rewrite Hs, <- Hbs.
  - by rewrite (FinalizeBuild_unknown _ _ _ Hb).
Qed.

(** *** What the requests do to the registry *)

Lemma lift_registry {A} (m : M World A)
    (d : RemoteOutputServiceDirectory) w :
  fst (snd (lift m (d, w))) = d.
Proof. unfold lift. simpl. by destruct (m w). Qed.

Lemma getOutputPathAndBuildState_state b d :
  snd (getOutputPathAndBuildState b d) = d.
Proof.
  unfold getOutputPathAndBuildState, bind, get, deref. simpl.
  destruct (buildIDs d !! b) as [p|]; [|done]. simpl.
  by destruct (heap d !! p).
Qed.

Lemma BatchCreate_registry request d w :
  fst (snd (BatchCreate request (d, w))) = d.
Proof.
  unfold BatchCreate, bind, onThis. cbv beta iota.
  pose proof (getOutputPathAndBuildState_state (create_BuildId request) d)
    as Hd.
  destruct (getOutputPathAndBuildState _ d) as [[[s bs]|e|] d'];
    cbn [fst snd] in *; subst; try done.
  unfold this. cbn [fst snd]. apply lift_registry.
Qed.

Lemma BatchStat_registry request d w :
  fst (snd (BatchStat request (d, w))) = d.
Proof.
  unfold BatchStat, bind, onThis. cbv beta iota.
  pose proof (getOutputPathAndBuildState_state (stat_BuildId request) d)
    as Hd.
  destruct (getOutputPathAndBuildState _ d) as [[[s bs]|e|] d'];
    cbn [fst snd] in *; subst; try done.
  pose proof (lift_registry
                (BatchStat_loop request s bs (stat_Paths request) []) d w)
    as Hl.
  destruct (lift _ (d, w)) as [[r|e|] [d'' w']]; cbn [fst snd] in *;
    by subst.
Qed.

(** [StartBuild], step by step. *)
Lemma StartBuild_eq request d w :
  StartBuild request (d, w) =
    match StartBuild_prepare request with
    | Err e => (Err e, (d, w))
    | Panic => (Panic, (d, w))
    | Ok (ob, swf, f, suffix) =>
        match StartBuild_locked (start_BuildId request) ob f swf (d, w) with
        | (Ok p, (d', w')) =>
            match heap d' !! p with
            | None => (Panic, (d', w'))
            | Some s =>
                match filterMissingChildren (rootDirectory s) f
                        (emptyFilterState, w') with
                | (Ok _, (_, w'')) =>
                    (Ok {| OutputPathSuffix := Builder_String suffix |},
                     (d', w''))
                | (Err e, (_, w'')) =>
                    (Err (StatusWrap e
                            "Failed to filter contents of the output path"),
                     (d', w''))
                | (Panic, (_, w'')) => (Panic, (d', w''))
                end
            end
        | (Err e, st) => (Err e, st)
        | (Panic, st) => (Panic, st)
        end
    end.
Proof.
  unfold StartBuild, bind, embed.
  destruct (StartBuild_prepare request) as [[[[ob swf] f] suffix]|e|];
    try done.
  destruct (StartBuild_locked _ ob f swf (d, w)) as [[p|e|] [d' w']];
    try done.
  unfold onThis, deref, wrapErr, lift, runWith, ret.
  destruct (heap d' !! p) as [s|]; [|done].
  destruct (filterMissingChildren _ f (emptyFilterState, w'))
    as [[[]|e|] [st w'']]; done.
Qed.

Lemma StartBuild_registry request d w :
  fst (snd (StartBuild request (d, w))) = d ∨
  ∃ ob swf f suffix,
    StartBuild_prepare request = Ok (ob, swf, f, suffix) ∧
    fst (snd (StartBuild request (d, w))) =
      fst (snd (StartBuild_locked (start_BuildId request) ob f swf (d, w))).
Proof.
  rewrite StartBuild_eq.
  destruct (StartBuild_prepare request) as [[[[ob swf] f] suffix]|e|];
    [|by left..].
  right. exists ob, swf, f, suffix. split; [done|].
  destruct (StartBuild_locked _ ob f swf (d, w)) as [[p|e|] [d' w']];
    try done.
  destruct (heap d' !! p) as [s|]; [|done].
  by destruct (filterMissingChildren _ f (emptyFilterState, w'))
    as [[[]|e|] [st w'']].
Qed.

Lemma Clean_registry request d w :
  fst (snd (Clean request (d, w))) = d ∨
  ∃ p ob, fst (snd (Clean request (d, w))) = snd (Clean_commit p ob d).
Proof.
  unfold Clean. destruct (NewComponent _) as [ob|]; [|by left].
  unfold bind, this, onThis, deref. simpl.
  destruct (outputBaseIDs d !! ob) as [p|].
  - destruct (heap d !! p) as [s|]; [|by left]. simpl.
    unfold lift. simpl.
    destruct (RemoveAllChildren (rootDirectory s) true w) as [[[]|e|] w'];
      [|by left..].
    right. exists p, ob. by destruct (Clean_commit p ob d) as [[[]|e|] d'].
  - left. apply lift_registry.
Qed.

Lemma handle_inv st request :
  registry_inv (fst st) → registry_inv (fst (handle st request)).
Proof.
  destruct st as [d w]. simpl. intros Hinv.
  destruct request as [r|r|r|r|r]; simpl.
  - destruct (Clean_registry r d w) as [->|(p & ob & ->)]; [done|].
    by apply Clean_commit_inv.
  - destruct (StartBuild_registry r d w)
      as [->|(ob & swf & f & suffix & _ & ->)]; [done|].
    by apply StartBuild_locked_inv.
  - by rewrite BatchCreate_registry.
  - by rewrite BatchStat_registry.
  - by apply FinalizeBuild_inv.
Qed.

Lemma New_inv maximum :
  registry_inv (NewRemoteOutputServiceDirectory maximum).
Proof.
  split.
  - intros p [s Hs]. cbn in Hs. by rewrite lookup_empty in Hs.
  - intros ob p Hl. cbn in Hl. by rewrite lookup_empty in Hl.
  - intros b p Hl. cbn in Hl. by rewrite lookup_empty in Hl.
Qed.

Lemma run_inv requests st :
  registry_inv (fst st) → registry_inv (fst (run requests st)).
Proof.
  revert st. induction requests as [|r rs IH]; intros st Hinv; [done|].
  simpl. apply IH. by apply handle_inv.
Qed.

(** *** Sessions that are not there *)

Lemma BatchCreate_notRunning request d w :
  buildIDs d !! create_BuildId request = None →
  BatchCreate request (d, w) = (Err notRunning, (d, w)).
Proof.
  intros Hb. unfold BatchCreate, bind, onThis, getOutputPathAndBuildState.
  unfold bind, get. cbn. by rewrite Hb.
Qed.

Lemma BatchStat_notRunning request d w :
  buildIDs d !! stat_BuildId request = None →
  BatchStat request (d, w) = (Err notRunning, (d, w)).
Proof.
  intros Hb. unfold BatchStat, bind, onThis, getOutputPathAndBuildState.
  unfold bind, get. cbn. by rewrite Hb.
Qed.

Lemma Clean_commit_buildIDs p ob d b :
  buildIDs d !! b = None → buildIDs (snd (Clean_commit p ob d)) !! b = None.
Proof.
  intros Hb.
  destruct (decide (outputBaseIDs d !! ob = Some p)) as [Hob|Hob];
    [|by rewrite Clean_commit_skip].
  destruct (heap d !! p) as [s|] eqn:Hs;
    [|by rewrite Clean_commit_dangling].
  rewrite (Clean_commit_eq _ _ _ s) by done. cbn [snd].
  assert (buildIDs (unlinked p (with_outputBaseIDs
                                  (delete ob (outputBaseIDs d)) d))
          = buildIDs d) as Hsame.
  { unfold unlinked. cbn [heap with_outputBaseIDs]. rewrite Hs. cbv zeta.
    destruct (heap (setNext _ _ _) !! p); by fields. }
  unfold cleaned. destruct (buildState_ s) as [bs|].
  - rewrite (proj1 (proj2 (fields_setBuildState _ _ _))). wsimpl.
    rewrite Hsame. by apply lookup_delete_None; right.
  - wsimpl. by rewrite Hsame.
Qed.

Lemma openSession_buildIDs p nb d :
  buildIDs (openSession p nb d) = <[id nb := p]> (buildIDs d).
Proof. done. Qed.
Lemma closeSession_buildIDs p bs d :
  buildIDs (closeSession p bs d) = delete (id bs) (buildIDs d).
Proof. done. Qed.

Lemma StartBuild_locked_buildIDs b ob f swf d w b1 :
  registry_inv d → b ≠ b1 → buildIDs d !! b1 = None →
  buildIDs (fst (snd (StartBuild_locked b ob f swf (d, w)))) !! b1 = None.
Proof.
  intros Hinv Hne Hb1.
  destruct (buildIDs d !! b) as [p|] eqn:Hb.
  { by rewrite (StartBuild_locked_known _ _ _ _ _ _ _ Hb). }
  destruct (outputBaseIDs d !! ob) as [p|] eqn:Hob.
  - pose proof (inv_outputBase d Hinv _ _ Hob) as Hp. unfold obOf in Hp.
    destruct (heap d !! p) as [s|] eqn:Hs; [|done].
    rewrite (StartBuild_locked_reuse _ _ _ _ _ _ _ _ Hb Hob Hs).
    cbn [fst snd]. rewrite openSession_buildIDs. cbn [id].
    rewrite lookup_insert_ne by done.
    destruct (buildState_ s) as [bs|]; [|done].
    rewrite closeSession_buildIDs. by apply lookup_delete_None; right.
  - rewrite (StartBuild_locked_fresh _ _ _ _ _ _ Hb Hob).
    destruct (NewCASFileFactory w) as [factory w1].
    destruct (StartInitialBuild ob factory f w1) as [root w2].
    cbn [fst snd]. rewrite openSession_buildIDs. cbn [id].
    rewrite lookup_insert_ne by done. wsimpl.
    by rewrite (proj1 (proj2 (linkedAtTail_fields _ _ _ _))).
Qed.

Lemma handle_notRunning st request b :
  registry_inv (fst st) → ¬ startsBuild b request →
  buildIDs (fst st) !! b = None →
  buildIDs (fst (handle st request)) !! b = None.
Proof.
  destruct st as [d w]. cbn [fst]. intros Hinv Hstart Hb.
  destruct request as [r|r|r|r|r]; cbn [handle].
  - destruct (Clean_registry r d w) as [->|(p & ob & ->)]; [done|].
    by apply Clean_commit_buildIDs.
  - destruct (StartBuild_registry r d w)
      as [->|(ob & swf & f & suffix & _ & ->)]; [done|].
    apply StartBuild_locked_buildIDs; try done.
  - by rewrite BatchCreate_registry.
  - by rewrite BatchStat_registry.
  - destruct r as [b']. destruct (buildIDs d !! b') as [p|] eqn:Hb'.
    + destruct (registry_inv_build d b' p Hinv Hb')
        as (s & bs & Hs & Hbs & _).
      rewrite (FinalizeBuild_known _ _ _ _ _ _ Hb' Hs Hbs). cbn [fst snd].
      rewrite closeSession_buildIDs. by apply lookup_delete_None; right.
    + by rewrite (FinalizeBuild_unknown _ _ _ Hb').
Qed.

Lemma run_notRunning requests st b :
  registry_inv (fst st) → Forall (λ r, ¬ startsBuild b r) requests →
  buildIDs (fst st) !! b = None →
  buildIDs (fst (run requests st)) !! b = None.
Proof.
  revert st. induction requests as [|r rs IH]; intros st Hinv Hall Hb;
    [done|].
  apply Forall_cons in Hall as [Hr Hrs]. cbn [run foldl].
  apply IH; [by apply handle_inv|done|by apply handle_notRunning].
Qed.

Lemma registry_inv_consistent d :
  registry_inv d → sessions_consistent d ∧ one_session_per_state d.
Proof.
  intros Hinv. split.
  - intros b p. by apply registry_inv_build.
  - intros b1 b2 p H1 H2.
    destruct (registry_inv_build d b1 p Hinv H1) as (s1 & bs1 & ? & ? & ? & _).
    destruct (registry_inv_build d b2 p Hinv H2) as (s2 & bs2 & ? & ? & ? & _).
    congruence.
Qed.

(** C9.  The consistency of the two maps is an invariant: it holds for
    a new directory, every request (Clean, StartBuild, BatchCreate,
    BatchStat, FinalizeBuild) keeps it however the request ends, and
    it says that every entry [b ↦ s] of the build ID map points to an
    output path [s] whose build state is not nil and has the ID [b],
    and that is in the output base map under its own output base ID.
    So no output path is in the build ID map under two build IDs. *)
Theorem registry_maps_consistent :
  (∀ maximum, registry_inv (NewRemoteOutputServiceDirectory maximum)) ∧
  (∀ st request,
     registry_inv (fst st) → registry_inv (fst (handle st request))) ∧
  (∀ d, registry_inv d → sessions_consistent d ∧ one_session_per_state d) ∧
  (∀ maximum w requests,
     let d := fst (run requests
                     (NewRemoteOutputServiceDirectory maximum, w)) in
     sessions_consistent d ∧ one_session_per_state d).
Proof.
  split_and!.
  - apply New_inv.
  - apply handle_inv.
  - apply registry_inv_consistent.
  - intros maximum w requests d. apply registry_inv_consistent.
    apply run_inv, New_inv.
Qed.

(** C5.  In every state that requests can lead to: [FinalizeBuild]
    with a build ID that is not in the build ID map returns success
    and changes nothing; and of two calls in a row with the same
    build ID both return success, and the second one leaves the state
    of the first. *)
Theorem FinalizeBuild_idempotent maximum w requests b :
  let st := run requests (NewRemoteOutputServiceDirectory maximum, w) in
  let request := {| finalize_BuildId := b |} in
  (buildIDs (fst st) !! b = None →
     FinalizeBuild request st = (Ok tt, st)) ∧
  (let '(r1, st1) := FinalizeBuild request st in
   let '(r2, st2) := FinalizeBuild request st1 in
   r1 = Ok tt ∧ r2 = Ok tt ∧ st2 = st1).
Proof.
  intros st request.
  assert (Hinv : registry_inv (fst st)) by apply run_inv, New_inv.
  destruct st as [d w']. cbn [fst] in *. split.
  - apply FinalizeBuild_unknown.
  - subst request. destruct (buildIDs d !! b) as [p|] eqn:Hb.
    + destruct (registry_inv_build d b p Hinv Hb)
        as (s & bs & Hs & Hbs & Hid & _).
      rewrite (FinalizeBuild_known _ _ _ _ _ _ Hb Hs Hbs).
      rewrite FinalizeBuild_unknown; [done|].
      rewrite closeSession_buildIDs, Hid. apply lookup_delete_eq.
    + rewrite (FinalizeBuild_unknown _ _ _ Hb).
      by rewrite (FinalizeBuild_unknown _ _ _ Hb).
Qed.

(** C10.  [StartBuild] with a build ID that is in the build ID map
    leaves the whole registry as it is (the maps, the ring, the change
    counter and every build state with its digest function and scope
    walker factory).  When its request is in order, all it does is run
    the pass that filters missing blobs over the tree of the output
    path of that build ID, with the digest function of the new
    request; when the request is not in order it returns the error
    and does nothing at all. *)
Theorem StartBuild_known_build_id request d w p s :
  buildIDs d !! start_BuildId request = Some p →
  heap d !! p = Some s →
  StartBuild request (d, w) =
    match StartBuild_prepare request with
    | Ok (_, _, f, suffix) =>
        let '(r, (_, w')) :=
          filterMissingChildren (rootDirectory s) f (emptyFilterState, w) in
        (filterOutcome suffix r, (d, w'))
    | Err e => (Err e, (d, w))
    | Panic => (Panic, (d, w))
    end.
Proof.
  intros Hb Hs. rewrite StartBuild_eq.
  destruct (StartBuild_prepare request) as [[[[ob swf] f] suffix]|e|];
    [|done..].
  rewrite (StartBuild_locked_known _ _ _ _ _ _ _ Hb), Hs.
  by destruct (filterMissingChildren _ f (emptyFilterState, w))
    as [[[]|e|] [st w']].
Qed.

(** C2, as amended.  In a state that requests can lead to, let the
    build ID [b1] have a session on an output base, and let
    [StartBuild] come for that output base with a build ID that has no
    session anywhere.  Then the session of [b1] is closed without an
    error of its own ([StartBuild] returns what the pass that filters
    missing blobs makes it return), the new build ID has the session,
    and as long as no later request starts a build under [b1] again,
    [BatchCreate] and [BatchStat] with [b1] fail with
    FailedPrecondition. *)
Theorem StartBuild_supersedes maximum w0 requests later request
    ob swf f suffix b1 p :
  let st := run requests (NewRemoteOutputServiceDirectory maximum, w0) in
  StartBuild_prepare request = Ok (ob, swf, f, suffix) →
  buildIDs (fst st) !! b1 = Some p →
  outputBaseIDs (fst st) !! ob = Some p →
  buildIDs (fst st) !! start_BuildId request = None →
  Forall (λ r, ¬ startsBuild b1 r) later →
  ∃ s,
    heap (fst st) !! p = Some s ∧
    let '(r, st') := StartBuild request st in
    r = filterOutcome suffix
          (fst (filterMissingChildren (rootDirectory s) f
                  (emptyFilterState, snd st))) ∧
    buildIDs (fst st') !! b1 = None ∧
    buildIDs (fst st') !! start_BuildId request = Some p ∧
    ∀ create stat,
      create_BuildId create = b1 → stat_BuildId stat = b1 →
      fst (BatchCreate create (run later st')) = Err notRunning ∧
      fst (BatchStat stat (run later st')) = Err notRunning.
Proof.
  intros st Hprep Hb1 Hob Hb2 Hlater.
  assert (Hinv : registry_inv (fst st)) by apply run_inv, New_inv.
  destruct st as [d w]. cbn [fst snd] in *.
  destruct (registry_inv_build d b1 p Hinv Hb1)
    as (s & bs & Hs & Hbs & Hid & _).
  exists s. split; [done|].
  pose proof (StartBuild_locked_inv (start_BuildId request) ob f swf d w Hinv)
    as Hinv'.
  rewrite StartBuild_eq, Hprep.
  rewrite (StartBuild_locked_reuse _ _ _ _ _ _ _ _ Hb2 Hob Hs) in *.
  rewrite Hbs in *. cbn [fst snd] in Hinv'.
  set (d' := openSession p _ (closeSession p bs d)) in *.
  assert (Hs' : is_Some (heap d' !! p)).
  { subst d'. unfold openSession, closeSession.
    apply (is_Some_setBuildState _ p _ p).
    apply (is_Some_setBuildState _ p _ p). by exists s. }
  destruct Hs' as [s' Hs'].
  assert (Hroot : rootDirectory s' = rootDirectory s).
  { subst d'. unfold openSession, closeSession in Hs'.
    cbn [heap with_buildIDs] in Hs'.
    rewrite !heap_setBuildState in Hs'. rewrite !decide_True in Hs' by done.
    cbn [heap with_buildIDs] in Hs'. rewrite Hs in Hs'.
    by injection Hs' as <-. }
  rewrite Hs', Hroot.
  assert (Hgone : buildIDs d' !! b1 = None).
  { subst d'. rewrite openSession_buildIDs, closeSession_buildIDs. cbn [id].
    rewrite lookup_insert_ne by congruence.
    rewrite Hid. apply lookup_delete_eq. }
  assert (Hnew : buildIDs d' !! start_BuildId request = Some p).
  { subst d'. rewrite openSession_buildIDs. cbn [id].
    apply lookup_insert_eq. }
  destruct (filterMissingChildren _ f (emptyFilterState, w))
    as [r [fs w']] eqn:Hfilter.
  assert (Hgoal : ∀ st', fst st' = d' →
    buildIDs (fst st') !! b1 = None ∧
    buildIDs (fst st') !! start_BuildId request = Some p ∧
    ∀ create stat,
      create_BuildId create = b1 → stat_BuildId stat = b1 →
      fst (BatchCreate create (run later st')) = Err notRunning ∧
      fst (BatchStat stat (run later st')) = Err notRunning).
  { intros st' Hst'. rewrite Hst'. split_and!; try done.
    intros create stat Hc Hst.
    assert (Hrun : buildIDs (fst (run later st')) !! b1 = None).
    { apply run_notRunning; [by rewrite Hst'|done|by rewrite Hst']. }
    destruct (run later st') as [d'' w''].
    rewrite BatchCreate_notRunning by by rewrite Hc.
    by rewrite BatchStat_notRunning by by rewrite Hst. }
  destruct r as [[]|e|]; cbn [fst filterOutcome]; (split; [done|]);
    exact (Hgoal (d', w') eq_refl).
Qed.
End RegistryInv.

Section Stat.
Context `{Collaborators}.

Lemma BatchStat_loop_sequence request s bs paths acc w rs w' :
  BatchStat_loop request s bs paths acc w = (Ok rs, w') →
  ∃ rs', rs = acc ++ rs' ∧ statSequence request s bs w paths rs' w'.
Proof.
  revert acc w. induction paths as [|path paths IH]; intros acc w Hloop.
  - injection Hloop as <- <-. exists []. split; [by rewrite app_nil_r|].
    constructor.
  - cbn [BatchStat_loop] in Hloop. unfold bind in Hloop.
    destruct (statPath request s bs path w) as [[response|e|] w1] eqn:Hp;
      try done.
    destruct (IH _ _ Hloop) as (rs' & -> & Hseq).
    exists (response :: rs'). split; [by rewrite <- app_assoc|].
    by econstructor.
Qed.

Lemma statSequence_length request s bs w paths rs w' :
  statSequence request s bs w paths rs w' → length rs = length paths.
Proof. induction 1; simpl; congruence. Qed.

(** A path that does not exist gets the empty response. *)
Lemma statPath_ENOENT request s bs path w f resolvedPath cw w' :
  statResolve request s f (scopeWalkerFactory bs) path w
    = (Err ENOENT, (resolvedPath, (cw, w'))) →
  f = (if stat_IncludeFileDigest request then Some (digestFunction bs)
       else None) →
  statPath request s (Some bs) path w = (Ok {| file_status := None |}, w').
Proof.
  intros Hres ->. unfold statPath, bind, buildState_digestFunction, ret.
  destruct (stat_IncludeFileDigest request); cbn; by rewrite Hres.
Qed.

(** C7.  When [BatchStat] returns a response, the response has one
    entry for every path of the request, in the order of the request:
    entry [i] is what the loop body makes of path [i], in the world
    that the paths before it left behind.  The registry is not
    changed.  And a path whose resolution ends with [ENOENT] gets the
    empty entry, not an error. *)
Theorem BatchStat_one_response_per_path request d w response st' :
  BatchStat request (d, w) = (Ok response, st') →
  length (Responses response) = length (stat_Paths request) ∧
  (∃ s bs,
     getOutputPathAndBuildState (stat_BuildId request) d = (Ok (s, bs), d) ∧
     fst st' = d ∧
     statSequence request s bs w (stat_Paths request)
       (Responses response) (snd st')) ∧
  (∀ s bs path w1,
     fst (statResolve request s
            (if stat_IncludeFileDigest request then Some (digestFunction bs)
             else None) (scopeWalkerFactory bs) path w1) = Err ENOENT →
     fst (statPath request s (Some bs) path w1)
       = Ok {| file_status := None |}).
Proof.
  intros Hstat.
  assert (Hseq : ∃ s bs,
     getOutputPathAndBuildState (stat_BuildId request) d = (Ok (s, bs), d) ∧
     fst st' = d ∧
     statSequence request s bs w (stat_Paths request)
       (Responses response) (snd st')).
  { unfold BatchStat in Hstat. rewrite bind_eq in Hstat.
    unfold onThis in Hstat.
    pose proof (getOutputPathAndBuildState_state (stat_BuildId request) d)
      as Hd.
    destruct (getOutputPathAndBuildState _ d) as [[[s bs]|e|] d'] eqn:Hget;
      try done.
    cbn [snd] in Hd. subst d'. rewrite bind_eq in Hstat. unfold lift in Hstat.
    destruct (BatchStat_loop request s bs (stat_Paths request) [] w)
      as [[rs|e|] w'] eqn:Hloop; try done.
    injection Hstat as <- <-.
    destruct (BatchStat_loop_sequence _ _ _ _ _ _ _ _ Hloop)
      as (rs' & -> & Hseq).
    exists s, bs. by split_and!. }
  split_and!; [|done|].
  - destruct Hseq as (s & bs & _ & _ & Hseq).
    by apply statSequence_length in Hseq.
  - intros s bs path w1 Herr.
    destruct (statResolve _ _ _ _ _ _) as [r [b [cw w2]]] eqn:Hres.
    cbn [fst] in Herr. subst r. by erewrite statPath_ENOENT.
Qed.
End Stat.

Lemma resolveComponents_nil {S CW} (ops : WalkerOps S CW) e n cw :
  resolveComponents ops e n cw [] = ret tt.
Proof. by destruct n. Qed.

Lemma resolveComponents_skip {S CW} (ops : WalkerOps S CW) e n cw name rest :
  name = "" ∨ name = "." →
  resolveComponents ops e n cw (name :: rest)
  = resolveComponents ops e n cw rest.
Proof. intros Hn. destruct n; cbn; by rewrite decide_True. Qed.

Lemma resolveComponents_up {S CW} (ops : WalkerOps S CW) e n cw rest :
  resolveComponents ops e n cw (".." :: rest)
  = (cw' <- OnUp ops cw ;; resolveComponents ops e n cw' rest).
Proof. by destruct n. Qed.

Lemma resolveComponents_directory {S CW} (ops : WalkerOps S CW) e n cw
    name next rest :
  ¬ (name = "" ∨ name = ".") → name ≠ ".." →
  resolveComponents ops e n cw (name :: next :: rest)
  = (r <- OnDirectory ops cw name ;;
     match r with
     | GotDirectory child _ => resolveComponents ops e n child (next :: rest)
     | GotSymlink target =>
         match n with
         | 0 => fail e
         | Datatypes.S n' =>
             '(cw', components') <- pushPath ops target ;;
             resolveComponents ops e n' cw' (components' ++ next :: rest)
         end
     end).
Proof.
  intros H1 H2. destruct n; cbn; rewrite decide_False, decide_False; done.
Qed.

Lemma resolveComponents_terminal {S CW} (ops : WalkerOps S CW) e n cw name :
  ¬ (name = "" ∨ name = ".") → name ≠ ".." →
  resolveComponents ops e n cw [name]
  = (r <- OnTerminal ops cw name ;;
     match r with
     | None => ret tt
     | Some target =>
         match n with
         | 0 => fail e
         | Datatypes.S n' =>
             '(cw', components') <- pushPath ops target ;;
             resolveComponents ops e n' cw' components'
         end
     end).
Proof.
  intros H1 H2. destruct n; cbn; rewrite decide_False, decide_False; done.
Qed.

Section AboveTheRoot.
Context `{Collaborators}.

(** Once the stat walker has handed out the void walker, the rest of the
    path is accepted as it is and only the builder records it. *)
Lemma statResolver_void factory e n rest b cw w :
  resolveComponents (statResolver factory) e n
    (VR_Finished VoidComponentWalker) rest (b, (cw, w))
  = (Ok tt, (voidWalk rest b, (cw, w))).
Proof.
  revert b. induction rest as [|name rest IH]; intros b.
  - by rewrite resolveComponents_nil.
  - cbn [voidWalk]. destruct (decide (name = "" ∨ name = ".")) as [Hs|Hs].
    { by rewrite resolveComponents_skip. }
    destruct (decide (name = "..")) as [->|Hu].
    { rewrite resolveComponents_up. cbn. apply IH. }
    destruct rest as [|next rest].
    + by rewrite resolveComponents_terminal.
    + rewrite resolveComponents_directory by done. cbn. apply IH.
Qed.

Lemma statWalker_OnUp_root cw w :
  atRoot (sw_stack cw) →
  statWalker_OnUp (cw, w)
  = (Ok VoidComponentWalker,
     (statWalker_setFileStatus (FileStatus_External_ None) cw, w)).
Proof. unfold atRoot, statWalker_OnUp, bind, this. cbn. by intros ->. Qed.

Lemma stat_above_root factory e n rest b cw w :
  atRoot (sw_stack cw) →
  resolveComponents (statResolver factory) e n (VR_Finished This)
    (".." :: rest) (b, (cw, w))
  = (Ok tt, (voidWalk rest (Builder_up b),
             (statWalker_setFileStatus (FileStatus_External_ None) cw, w))).
Proof.
  intros Hroot. rewrite resolveComponents_up.
  unfold bind at 1. cbn [statResolver Builder_Join OnUp].
  unfold bind at 1. cbn [VirtualRootScopeWalkerFactory_New OnUp lift].
  unfold bind at 1. cbn [statWalker_ops withVoid OnUp].
  rewrite statWalker_OnUp_root by done. cbn.
  apply statResolver_void.
Qed.

Lemma directoryCreating_above_root e n rest cw w :
  atRoot (dc_stack cw) →
  resolveComponents (NewRelativeScopeWalker
                       directoryCreatingComponentWalker_ops) e n This
    (".." :: rest) (cw, w)
  = (Err outOfOutputPath, (cw, w)).
Proof.
  intros Hroot. rewrite resolveComponents_up. unfold bind. cbn.
  unfold directoryCreatingComponentWalker_OnUp, bind, this. cbn.
  by rewrite Hroot.
Qed.

Lemma parentDirectoryCreating_above_root e n rest cw w :
  atRoot (pdc_stack cw) →
  resolveComponents (NewRelativeScopeWalker
                       parentDirectoryCreatingComponentWalker_ops) e n This
    (".." :: rest) (cw, w)
  = (Err outOfOutputPath, (cw, w)).
Proof.
  intros Hroot. rewrite resolveComponents_up. unfold bind. cbn.
  unfold parentDirectoryCreatingComponentWalker_OnUp, bind, this. cbn.
  by rewrite Hroot.
Qed.

Lemma statPath_above_root request s bs path rest w :
  startsAbove path rest →
  statPath request s (Some bs) path w
  = (Ok {| file_status :=
             Some (FileStatus_External_
                     (Some (Builder_String
                              (voidWalk rest (Builder_up EmptyBuilder))))) |},
     w).
Proof.
  intros (Hzero & Hrel & Hsplit).
  assert (Hres : ∀ f,
    statResolve request s f (scopeWalkerFactory bs) path w
    = (Ok tt, (voidWalk rest (Builder_up EmptyBuilder),
               (statWalker_setFileStatus (FileStatus_External_ None)
                  (statWalker_setFileStatus (FileStatus_Directory_ None)
                     {| followSymlinks := stat_FollowSymlinks request;
                        sw_digestFunction := f;
                        sw_stack := NewNonEmptyStack (rootDirectory s);
                        fileStatus := FileStatus_External_ None |}), w)))).
  { intros f. unfold statResolve, Resolve, pushPath. rewrite Hzero, Hrel, Hsplit.
    unfold bind at 1. unfold bind at 1. cbn -[resolveComponents].
    by rewrite stat_above_root. }
  unfold statPath, bind, buildState_digestFunction, ret.
  destruct (stat_IncludeFileDigest request); cbv beta iota;
    by rewrite Hres.
Qed.

Lemma createChild_above_root cw path rest initialNode w :
  atRoot (dc_stack cw) → startsAbove path rest →
  createChild cw path initialNode w
  = (Err (StatusWrap outOfOutputPath "Failed to resolve path"), w).
Proof.
  intros Hroot (Hzero & Hrel & Hsplit).
  unfold createChild, bind, wrapErr, runWith, Resolve, pushPath.
  rewrite Hzero, Hrel, Hsplit. unfold bind. cbn -[resolveComponents].
  by rewrite parentDirectoryCreating_above_root.
Qed.

Lemma BatchCreate_above_root request d w s bs rest :
  getOutputPathAndBuildState (create_BuildId request) d = (Ok (s, bs), d) →
  startsAbove (create_PathPrefix request) rest →
  BatchCreate request (d, w)
  = (Err (StatusWrap outOfOutputPath
            "Failed to create path prefix directory"), (d, w)).
Proof.
  intros Hget (Hzero & Hrel & Hsplit).
  unfold BatchCreate, bind, onThis. rewrite Hget. cbn -[resolveComponents].
  unfold bind, wrapErr, runWith, Resolve, pushPath.
  rewrite Hzero, Hrel, Hsplit. unfold bind. cbn -[resolveComponents].
  by rewrite directoryCreating_above_root.
Qed.

(** C6.  A step up ("..") while only the root of the output path is
    on the stack, at whatever point of a resolution:
    - the stat walker of [BatchStat] does not fail: it hands the rest
      of the path to the void walker, and the path gets the status
      External with the path that the builder holds at the end, which
      is where the resolution left the output path followed by what
      was left of the path;
    - the two creating walkers of [BatchCreate] fail with
      InvalidArgument, and nothing has changed by that step.
    For requests this means: [BatchStat] answers External for a
    relative path that starts with "..", [BatchCreate] fails with
    InvalidArgument when its path prefix starts with "..", and so does
    the creation of an entry whose path starts with "..". *)
Theorem above_the_root :
  (∀ factory e n rest b cw w path,
     atRoot (sw_stack cw) →
     let resolution :=
       resolveComponents (statResolver factory) e n (VR_Finished This)
         (".." :: rest) (b, (cw, w)) in
     fst resolution = Ok tt ∧
     statResponse path resolution
     = (Ok {| file_status :=
                Some (FileStatus_External_
                        (Some (Builder_String
                                 (voidWalk rest (Builder_up b))))) |}, w)) ∧
  (∀ e n rest cw w,
     atRoot (dc_stack cw) →
     resolveComponents (NewRelativeScopeWalker
                          directoryCreatingComponentWalker_ops) e n This
       (".." :: rest) (cw, w)
     = (Err outOfOutputPath, (cw, w))) ∧
  (∀ e n rest cw w,
     atRoot (pdc_stack cw) →
     resolveComponents (NewRelativeScopeWalker
                          parentDirectoryCreatingComponentWalker_ops) e n This
       (".." :: rest) (cw, w)
     = (Err outOfOutputPath, (cw, w))) ∧
  status_Code outOfOutputPath = InvalidArgument ∧
  (∀ request s bs path rest w,
     startsAbove path rest →
     statPath request s (Some bs) path w
     = (Ok {| file_status :=
                Some (FileStatus_External_
                        (Some (Builder_String
                                 (voidWalk rest (Builder_up EmptyBuilder))))) |},
        w)) ∧
  (∀ request d w s bs rest,
     getOutputPathAndBuildState (create_BuildId request) d
       = (Ok (s, bs), d) →
     startsAbove (create_PathPrefix request) rest →
     ∃ e, BatchCreate request (d, w) = (Err e, (d, w)) ∧
          status_Code e = InvalidArgument) ∧
  (∀ cw path rest initialNode w,
     atRoot (dc_stack cw) → startsAbove path rest →
     ∃ e, createChild cw path initialNode w = (Err e, w) ∧
          status_Code e = InvalidArgument).
Proof.
  split_and!; [|apply directoryCreating_above_root
               |apply parentDirectoryCreating_above_root|done
               |apply statPath_above_root| |].
  - intros factory e n rest b cw w path Hroot resolution.
    subst resolution. rewrite stat_above_root by done. done.
  - intros request d w s bs rest Hget Habove. eexists.
    by rewrite (BatchCreate_above_root _ _ _ _ _ _ Hget Habove).
  - intros cw path rest initialNode w Hroot Habove. eexists.
    by rewrite (createChild_above_root _ _ _ _ _ Hroot Habove).
Qed.
End AboveTheRoot.

Lemma forEach_app {S A} (l1 l2 : list A) (f : A → M S unit) s :
  forEach (l1 ++ l2) f s = (_ <- forEach l1 f ;; forEach l2 f) s.
Proof.
  revert s. induction l1 as [|x l1 IH]; intros s; [done|].
  cbn [forEach app]. rewrite !bind_eq.
  destruct (f x s) as [[[]|e|] s1]; [|done..].
  by rewrite IH, bind_eq.
Qed.

Section Oversized.
Context `{Collaborators}.

Lemma createDirectory_oversized maximum s bs prefixCreator entry w :
  (proto_sizeBytes (directory_treeDigest entry) > maximum)%Z →
  ∃ e, status_Code e = InvalidArgument ∧
       createDirectory maximum s (Some bs) prefixCreator entry w = (Err e, w).
Proof.
  intros Hsize. unfold createDirectory, bind, buildState_digestFunction, ret.
  unfold NewDigestFromProto.
  destruct (hashValid _ _); cbn;
    [|eexists; split; [|reflexivity]; reflexivity].
  case_bool_decide; cbn; [eexists; split; [|reflexivity]; reflexivity|].
  rewrite bool_decide_true by done.
  eexists; split; [|reflexivity]; reflexivity.
Qed.

(** C1, as amended.  Let a request of a running build have a
    directory entry whose tree digest is larger than
    [maximumTreeSizeBytes].  Then [BatchCreate] does all the work that
    comes before that entry (the directories of the path prefix, the
    cleaning, all files, the directories in front of the entry), which
    is the work of the request that is cut off in front of the entry.
    If that work fails, the request fails in the same way and in the
    same state; if it succeeds, the request fails with InvalidArgument
    in the state that this work has left (what was created stays),
    and nothing that comes after the entry is created. *)
Theorem BatchCreate_oversized request d w s bs pre entry post :
  getOutputPathAndBuildState (create_BuildId request) d
    = (Ok (s, Some bs), d) →
  create_Directories request = pre ++ entry :: post →
  (proto_sizeBytes (directory_treeDigest entry) > maximumTreeSizeBytes d)%Z →
  match BatchCreate (upToDirectory request pre) (d, w) with
  | (Ok _, st') =>
      ∃ e, status_Code e = InvalidArgument ∧
           BatchCreate request (d, w) = (Err e, st')
  | (r, st') => BatchCreate request (d, w) = (r, st')
  end.
Proof.
  intros Hget Hdirs Hsize.
  unfold BatchCreate, upToDirectory.
  cbn [create_BuildId create_PathPrefix create_CleanPathPrefix create_Files
       create_Directories create_Symlinks].
  rewrite !bind_eq. unfold onThis. rewrite Hget. cbv beta iota.
  rewrite !bind_eq. unfold this. cbn [fst snd]. unfold lift.
  rewrite !bind_eq.
  destruct (wrapErr _ (runWith _ (Resolve _ _ _ (create_PathPrefix request)))
              w) as [[[u prefixCreator]|e|] w1]; [|done..].
  rewrite !bind_eq.
  destruct ((if create_CleanPathPrefix request then _ else ret tt) w1)
    as [[[]|e|] w2]; [|done..].
  rewrite !bind_eq.
  destruct (forEach (create_Files request) _ w2) as [[[]|e|] w3]; [|done..].
  rewrite Hdirs, !bind_eq, forEach_app, bind_eq.
  destruct (forEach pre _ w3) as [[[]|e|] w4]; [|done..].
  cbn [forEach]. unfold ret at 1.
  destruct (createDirectory_oversized (maximumTreeSizeBytes d) s bs
              prefixCreator entry w4 Hsize) as (e & Hcode & Hcreate).
  exists e. split; [done|]. by rewrite bind_eq, Hcreate.
Qed.
End Oversized.

Lemma findMissingCalls_app {R} (tr1 tr2 : list (Event R)) :
  findMissingCalls (tr1 ++ tr2) = findMissingCalls tr1 + findMissingCalls tr2.
Proof. unfold findMissingCalls. by rewrite List.filter_app, length_app. Qed.

Lemma enqueuedDigests_app {R} (tr1 tr2 : list (Event R)) :
  enqueuedDigests (tr1 ++ tr2) = enqueuedDigests tr1 ++ enqueuedDigests tr2.
Proof. apply omap_app. Qed.

Lemma findMissingCalls_removes {R} (evs : list (Event R)) :
  Forall isRemove evs → findMissingCalls evs = 0.
Proof. induction 1 as [|[] ? ? ?]; done. Qed.

Lemma enqueuedDigests_removes {R} (evs : list (Event R)) :
  Forall isRemove evs → enqueuedDigests evs = [].
Proof. induction 1 as [|[] ? ? ?]; done. Qed.

Lemma findMissingCalls_cons_FindMissing {R} q reply (tr : list (Event R)) :
  findMissingCalls (EvFindMissing q reply :: tr) = S (findMissingCalls tr).
Proof. done. Qed.

Lemma enqueuedDigests_cons_FindMissing {R} q reply (tr : list (Event R)) :
  enqueuedDigests (EvFindMissing q reply :: tr) = enqueuedDigests tr.
Proof. done. Qed.

Section FilterShape.
Context `{Collaborators}.
Implicit Types (st : filterState) (w : World).

Lemma loggedRemove_eq r st w :
  loggedRemove r (st, w)
  = (fst (callRemover r w),
     (log (EvRemove r (fst (callRemover r w))) st, snd (callRemover r w))).
Proof. unfold loggedRemove. by destruct (callRemover r w). Qed.

Lemma loggedFindMissing_eq q st w :
  loggedFindMissing q (st, w)
  = (fst (FindMissing q w),
     (log (EvFindMissing q (fst (FindMissing q w))) st,
      snd (FindMissing q w))).
Proof. unfold loggedFindMissing. by destruct (FindMissing q w). Qed.

Lemma removesOnly_bind {A B} (m : M (filterState * World) A)
    (k : A → M (filterState * World) B) :
  removesOnly m → (∀ a, removesOnly (k a)) → removesOnly (bind m k).
Proof.
  intros Hm Hk st w r st' w' Hrun. rewrite bind_eq in Hrun.
  destruct (m (st, w)) as [[a|e|] [st1 w1]] eqn:Hm1.
  - destruct (Hm _ _ _ _ _ Hm1) as (Hq1 & evs1 & Ht1 & Hr1).
    destruct (Hk _ _ _ _ _ _ Hrun) as (Hq2 & evs2 & Ht2 & Hr2).
    split; [congruence|]. exists (evs1 ++ evs2).
    rewrite Ht2, Ht1, <- app_assoc. split; [done|]. by apply Forall_app.
  - injection Hrun as <- <- <-. by eapply Hm.
  - injection Hrun as <- <- <-. by eapply Hm.
Qed.

Lemma removesOnly_ret {A} (a : A) : removesOnly (ret a).
Proof.
  intros st w r st' w' [= <- <- <-]. split; [done|]. exists [].
  by rewrite app_nil_r.
Qed.

Lemma removesOnly_forEach {A} (l : list A) f :
  (∀ x, removesOnly (f x)) → removesOnly (forEach l f).
Proof.
  intros Hf. induction l as [|x l IH]; [apply removesOnly_ret|].
  apply removesOnly_bind; [apply Hf|done].
Qed.

Lemma removesOnly_wrapErr {A} g (m : M (filterState * World) A) :
  removesOnly m → removesOnly (wrapErr g m).
Proof.
  intros Hm st w r st' w' Hrun. unfold wrapErr in Hrun.
  destruct (m (st, w)) as [[a|e|] [st1 w1]] eqn:Hm1;
    injection Hrun as <- <- <-; by eapply Hm.
Qed.

Lemma removesOnly_loggedRemove r : removesOnly (loggedRemove r).
Proof.
  intros st w res st' w'. rewrite loggedRemove_eq. intros [= <- <- <-].
  split; [done|]. eexists. split; [done|]. by repeat constructor.
Qed.

(** The removers of a list, all called with success. *)
Lemma forEach_remove_ok g rs st w st' w' :
  forEach rs (λ r, wrapErr g (loggedRemove r)) (st, w)
    = (Ok tt, (st', w')) →
  queue st' = queue st ∧
  trace st' = trace st ++ map (λ r, EvRemove r (Ok tt)) rs.
Proof.
  revert st w. induction rs as [|r rs IH]; intros st w Hrun.
  - injection Hrun as <- <-. by rewrite app_nil_r.
  - cbn [forEach] in Hrun. rewrite bind_eq in Hrun. unfold wrapErr in Hrun.
    rewrite loggedRemove_eq in Hrun.
    destruct (callRemover r w) as [[[]|e|] w1]; cbn in Hrun; try done.
    destruct (IH _ _ Hrun) as [Hq Ht]. split; [done|].
    rewrite Ht. cbn. by rewrite <- app_assoc.
Qed.

Lemma forEach_missing_ok g (q : gmap Digest (list ChildRemover)) missing
    st w st' w' :
  forEach missing (λ digest,
    forEach (default [] (q !! digest)) (λ r,
      wrapErr (g digest) (loggedRemove r))) (st, w) = (Ok tt, (st', w')) →
  queue st' = queue st ∧
  trace st' = trace st ++ map (λ r, EvRemove r (Ok tt)) (removalsOf q missing).
Proof.
  revert st w. induction missing as [|d missing IH]; intros st w Hrun.
  - injection Hrun as <- <-. by rewrite app_nil_r.
  - cbn [forEach] in Hrun. rewrite bind_eq in Hrun.
    destruct (forEach (default [] (q !! d)) _ (st, w))
      as [[[]|e|] [st1 w1]] eqn:Hinner; try done.
    apply forEach_remove_ok in Hinner as [Hq1 Ht1].
    destruct (IH _ _ Hrun) as [Hq Ht]. split; [congruence|].
    rewrite Ht, Ht1. unfold removalsOf. cbn [flat_map].
    by rewrite map_app, <- app_assoc.
Qed.

(** One batch: the digests of the queue go to [FindMissing] in one call;
    what follows are calls of removers, and when the batch succeeds
    these are the removers queued under the digests of the reply. *)
Lemma findMissingAndRemove_shape q st w r st' w' :
  findMissingAndRemove q (st, w) = (r, (st', w')) →
  queue st' = queue st ∧
  ∃ evs,
    trace st'
    = trace st ++ EvFindMissing (dom q) (fst (FindMissing (dom q) w)) :: evs ∧
    Forall isRemove evs ∧
    (∀ a, r = Ok a →
       ∃ missing, fst (FindMissing (dom q) w) = Ok missing ∧
         evs = map (λ r, EvRemove r (Ok tt)) (removalsOf q missing)).
Proof.
  unfold findMissingAndRemove. rewrite bind_eq. unfold wrapErr at 1.
  rewrite loggedFindMissing_eq.
  destruct (FindMissing (dom q) w) as [[missing|e|] w1]; cbn [fst snd].
  - intros Hrun.
    assert (Hshape : removesOnly (forEach missing (λ digest,
      forEach (default [] (q !! digest)) (λ removeFunc,
        wrapErr (λ e, StatusWrapf e "Failed to remove file with digest "
                        (digest_hash digest))
          (loggedRemove removeFunc))))).
    { apply removesOnly_forEach. intros d. apply removesOnly_forEach.
      intros rm. apply removesOnly_wrapErr, removesOnly_loggedRemove. }
    destruct (Hshape _ _ _ _ _ Hrun) as (Hq & evs & Ht & Hevs).
    split; [done|]. exists evs. cbn in Ht. rewrite Ht, <- app_assoc.
    split_and!; [done|done|]. intros [] ->. exists missing. split; [done|].
    apply forEach_missing_ok in Hrun as [_ Ht']. cbn in Ht'.
    rewrite Ht, <- !app_assoc in Ht'. by simplify_list_eq.
  - intros [= <- <- <-]. split; [done|]. exists []. by split_and!.
  - intros [= <- <- <-]. split; [done|]. exists []. by split_and!.
Qed.
End FilterShape.

Section FilterCount.
Context `{Collaborators}.
Implicit Types (st : filterState) (w : World).

Local Abbreviation T := RecommendedFindMissingDigestsCount.

Lemma NoDup_enqueued_prefix (tr evs : list (Event ChildRemover)) :
  NoDup (enqueuedDigests (tr ++ evs)) → NoDup (enqueuedDigests tr).
Proof. rewrite enqueuedDigests_app. by intros [? _]%NoDup_app. Qed.

Lemma counts_bind {A B} (m : M (filterState * World) A)
    (k : A → M (filterState * World) B) :
  counts m → (∀ a, counts (k a)) → counts (bind m k).
Proof.
  intros Hm Hk st w r st' w' Hrun. rewrite bind_eq in Hrun.
  destruct (m (st, w)) as [[a|e|] [st1 w1]] eqn:Hm1.
  - destruct (Hm _ _ _ _ _ Hm1) as [[evs1 Ht1] Hc1].
    destruct (Hk _ _ _ _ _ _ Hrun) as [[evs2 Ht2] Hc2].
    split; [exists (evs1 ++ evs2); by rewrite Ht2, Ht1, <- app_assoc|].
    intros b -> Hnd Hst. eapply Hc2; [done..|].
    eapply Hc1; [done| |done]. rewrite Ht2 in Hnd.
    by eapply NoDup_enqueued_prefix.
  - injection Hrun as <- <- <-. split; [by eapply Hm|done].
  - injection Hrun as <- <- <-. split; [by eapply Hm|done].
Qed.

Lemma counts_ret {A} (a : A) : counts (ret a).
Proof.
  intros st w r st' w' [= <- <- <-]. split; [|done].
  exists []. by rewrite app_nil_r.
Qed.

Lemma counts_fail {A} e : counts (fail (A := A) e).
Proof.
  intros st w r st' w' [= <- <- <-]. split; [|done].
  exists []. by rewrite app_nil_r.
Qed.

Lemma counts_forEach {A} (l : list A) f :
  (∀ x, counts (f x)) → counts (forEach l f).
Proof.
  intros Hf. induction l as [|x l IH]; [apply counts_ret|].
  apply counts_bind; [apply Hf|done].
Qed.

Lemma counts_wrapErr {A} g (m : M (filterState * World) A) :
  counts m → counts (wrapErr g m).
Proof.
  intros Hm st w r st' w' Hrun. unfold wrapErr in Hrun.
  destruct (m (st, w)) as [[a|e|] [st1 w1]] eqn:Hm1;
    injection Hrun as <- <- <-; (split; [by eapply Hm|]); [|done..].
  by eapply Hm.
Qed.

Lemma counts_lift {A} (m : M World A) : counts (lift m).
Proof.
  intros st w r st' w' Hrun. unfold lift in Hrun.
  destruct (m w) as [r1 w1]. injection Hrun as <- <- <-.
  split; [|done]. exists []. by rewrite app_nil_r.
Qed.

Lemma counts_loggedRemove r : counts (loggedRemove r).
Proof.
  intros st w res st' w'. rewrite loggedRemove_eq. intros [= <- <- <-].
  split; [by eexists|]. intros a _ _ [Hsize Hlen Hzero Hdom].
  split; cbn [log queue trace]; rewrite ?enqueuedDigests_app,
    ?findMissingCalls_app; cbn; rewrite ?app_nil_r, ?Nat.add_0_r; done.
Qed.

Hypothesis T_positive : 1 ≤ T.

Lemma counts_enqueue d r : counts (enqueue d r).
Proof.
  intros st w res st' w' Hrun. unfold enqueue in Hrun.
  rewrite bind_eq in Hrun. cbn [this fst] in Hrun. rewrite bind_eq in Hrun.
  case_bool_decide as Hfull.
  - rewrite bind_eq in Hrun.
    destruct (findMissingAndRemove (queue st) (st, w))
      as [r1 [st1 w1]] eqn:Hbatch.
    destruct (findMissingAndRemove_shape _ _ _ _ _ _ Hbatch)
      as (Hq & evs & Ht & Hevs & _).
    destruct r1 as [[]|e|]; cbn in Hrun; injection Hrun as <- <- <-.
    + cbn [log set_queue trace queue]. split.
      { eexists. by rewrite Ht, <- app_assoc. }
      intros a _ Hnd [Hsize Hlen Hzero Hdom].
      assert (size (queue st) = T) as Hsz by lia.
      split; cbn [log set_queue trace queue].
      * rewrite lookup_empty. cbn. rewrite insert_empty, map_size_singleton.
        done.
      * rewrite lookup_empty. cbn. rewrite insert_empty, map_size_singleton.
        rewrite Ht, !enqueuedDigests_app, !findMissingCalls_app.
        rewrite enqueuedDigests_cons_FindMissing,
          findMissingCalls_cons_FindMissing.
        rewrite (enqueuedDigests_removes evs), (findMissingCalls_removes evs)
          by done.
        change (findMissingCalls [EvEnqueue d r]) with 0.
        change (enqueuedDigests [EvEnqueue d r]) with [d].
        rewrite !length_app, Hlen. cbn [length]. lia.
      * rewrite lookup_empty. cbn. rewrite insert_empty, map_size_singleton.
        done.
      * intros d'. rewrite lookup_empty. cbn.
        rewrite insert_empty, dom_singleton_L, elem_of_singleton. intros ->.
        rewrite enqueuedDigests_app. apply elem_of_app. right.
        apply list_elem_of_singleton. done.
    + split; [by eexists|done].
    + split; [by eexists|done].
  - cbn in Hrun. injection Hrun as <- <- <-. split; [by eexists|].
    cbn [log set_queue trace queue].
    intros a _ Hnd [Hsize Hlen Hzero Hdom].
    rewrite enqueuedDigests_app in Hnd.
    change (enqueuedDigests [EvEnqueue d r]) with [d] in Hnd.
    apply NoDup_app in Hnd as (_ & Hfresh & _).
    assert (queue st !! d = None) as Hnone.
    { apply not_elem_of_dom. intros Hin. apply (Hfresh d); [by apply Hdom|].
      by apply list_elem_of_singleton. }
    split; cbn [log set_queue trace queue].
    + rewrite map_size_insert_None by done. lia.
    + rewrite map_size_insert_None by done.
      rewrite enqueuedDigests_app, findMissingCalls_app, length_app.
      change (findMissingCalls [EvEnqueue d r]) with 0.
      change (enqueuedDigests [EvEnqueue d r]) with [d]. cbn. lia.
    + rewrite map_size_insert_None by done. done.
    + intros d'. rewrite dom_insert_L, elem_of_union, elem_of_singleton.
      rewrite enqueuedDigests_app, elem_of_app.
      intros [->|Hin]; [right; by apply list_elem_of_singleton|].
      left. by apply Hdom.
Qed.

Lemma counts_filterCallback f child : counts (filterCallback f child).
Proof.
  destruct child as [node removeFunc]. unfold filterCallback.
  apply counts_bind.
  - destruct node as [directory|leaf]; [|apply counts_ret].
    apply counts_bind; [apply counts_lift|].
    intros [savedErr|digests]; [|apply counts_ret].
    case_decide; [|apply counts_fail].
    apply counts_bind; [|intros; apply counts_ret].
    apply counts_wrapErr, counts_loggedRemove.
  - intros [digests|]; [|apply counts_ret].
    destruct (find _ digests).
    + apply counts_wrapErr, counts_loggedRemove.
    + apply counts_forEach. intros d. apply counts_enqueue.
Qed.

Lemma ceilDiv_full (c q : nat) :
  1 ≤ q ≤ T → ceilDiv (c * T + q) T = c + 1.
Proof.
  intros Hq. unfold ceilDiv. symmetry.
  apply (Nat.div_unique _ _ _ (q - 1)); lia.
Qed.

Lemma ceilDiv_zero : ceilDiv 0 T = 0.
Proof. unfold ceilDiv. apply Nat.div_small. lia. Qed.

Lemma counted_empty : counted emptyFilterState.
Proof. split; cbn; rewrite ?map_size_empty; try done; lia. Qed.

Lemma filterMissingChildren_calls root f w st' w' :
  filterMissingChildren root f (emptyFilterState, w) = (Ok tt, (st', w')) →
  NoDup (enqueuedDigests (trace st')) →
  findMissingCalls (trace st')
  = ceilDiv (length (enqueuedDigests (trace st'))) T.
Proof.
  intros Hrun Hnd. unfold filterMissingChildren in Hrun.
  rewrite bind_eq in Hrun. cbn [lift get] in Hrun. rewrite bind_eq in Hrun.
  destruct (forEach _ _ (emptyFilterState, w)) as [[[]|e|] [st1 w1]] eqn:Hloop;
    try done.
  rewrite bind_eq in Hrun. cbn [lift get] in Hrun. rewrite bind_eq in Hrun.
  destruct (FilterChildren_error root w1); [done|].
  cbn [ret] in Hrun. rewrite bind_eq in Hrun. cbn [this fst] in Hrun.
  assert (Hloop' := counts_forEach _ _ (counts_filterCallback f)
                      _ _ _ _ _ Hloop).
  destruct Hloop' as [_ Hcounted].
  case_bool_decide as Hq.
  - destruct (findMissingAndRemove_shape _ _ _ _ _ _ Hrun)
      as (_ & evs & Ht & Hevs & _).
    rewrite Ht in Hnd |- *. pose proof (NoDup_enqueued_prefix _ _ Hnd) as Hnd1.
    destruct (Hcounted tt eq_refl Hnd1 counted_empty)
      as [Hsize Hlen Hzero Hdom].
    rewrite enqueuedDigests_app, findMissingCalls_app, length_app.
    rewrite enqueuedDigests_cons_FindMissing,
      findMissingCalls_cons_FindMissing.
    rewrite (enqueuedDigests_removes evs), (findMissingCalls_removes evs)
      by done.
    cbn [length]. rewrite Hlen, Nat.add_0_r, ceilDiv_full; lia.
  - injection Hrun as <- <-.
    destruct (Hcounted tt eq_refl Hnd counted_empty)
      as [Hsize Hlen Hzero Hdom].
    assert (size (queue st1) = 0) as Hz by lia.
    rewrite Hlen, Hzero, Hz by done. cbn. by rewrite ceilDiv_zero.
Qed.
End FilterCount.

Lemma enqueue_queued `{Collaborators} d r st w st' w' :
  enqueue d r (st, w) = (Ok tt, (st', w')) →
  ∃ before, queue st' !! d = Some (before ++ [r]).
Proof.
  intros Hrun. unfold enqueue in Hrun.
  rewrite bind_eq in Hrun. cbn [this fst] in Hrun. rewrite bind_eq in Hrun.
  case_bool_decide as Hfull.
  - rewrite bind_eq in Hrun.
    destruct (findMissingAndRemove (queue st) (st, w))
      as [[[]|e|] [st1 w1]]; cbn in Hrun; [|done..].
    injection Hrun as <- <-. cbn [log set_queue queue].
    eexists. by rewrite lookup_insert_eq.
  - cbn in Hrun. injection Hrun as <- <-. cbn [log set_queue queue].
    eexists. by rewrite lookup_insert_eq.
Qed.

(** C3, as amended.  Let the batch threshold [T] be at least 1, let
    the pass succeed, and let no digest be put into the queue twice
    (no two nodes share a digest), so that the [N] entries of the
    queue over the whole pass are [N] distinct digests.  Then the pass
    calls [FindMissing] exactly [ceil(N/T)] times.  [FindMissing] gets
    the digests of the queue in one call, and a batch that succeeds
    calls, for every digest of the reply in turn, every remover that
    was queued under that digest, and nothing else; a node is queued
    under each of its digests. *)
Theorem filter_pass_batches `{Collaborators} root f w st' w' :
  1 ≤ RecommendedFindMissingDigestsCount →
  filterMissingChildren root f (emptyFilterState, w) = (Ok tt, (st', w')) →
  NoDup (enqueuedDigests (trace st')) →
  findMissingCalls (trace st')
  = ceilDiv (length (enqueuedDigests (trace st')))
            RecommendedFindMissingDigestsCount ∧
  (∀ q st w1 st1 w2,
     findMissingAndRemove q (st, w1) = (Ok tt, (st1, w2)) →
     ∃ missing,
       fst (FindMissing (dom q) w1) = Ok missing ∧
       queue st1 = queue st ∧
       trace st1
       = trace st ++ EvFindMissing (dom q) (Ok missing)
                     :: map (λ r, EvRemove r (Ok tt))
                            (removalsOf q missing)) ∧
  (∀ d r st w1 st1 w2,
     enqueue d r (st, w1) = (Ok tt, (st1, w2)) →
     ∃ before, queue st1 !! d = Some (before ++ [r])).
Proof.
  intros HT Hrun Hnd. split_and!.
  - by apply (filterMissingChildren_calls HT root f w st' w').
  - intros q st w1 st1 w2 Hbatch.
    destruct (findMissingAndRemove_shape _ _ _ _ _ _ Hbatch)
      as (Hq & evs & Ht & _ & Hok).
    destruct (Hok tt eq_refl) as (missing & Hreply & ->).
    exists missing. rewrite Hreply in Ht. done.
  - intros d r st w1 st1 w2. apply enqueue_queued.
Qed.

Section ForeignDigests.
Context `{Collaborators}.
Implicit Types (st : filterState) (w : World).

Lemma preserves_bind {A B} I (m : M (filterState * World) A)
    (k : A → M (filterState * World) B) :
  preserves I m → (∀ a, preserves I (k a)) → preserves I (bind m k).
Proof.
  intros Hm Hk st w r st' w' Hrun HI. rewrite bind_eq in Hrun.
  destruct (m (st, w)) as [[a|e|] [st1 w1]] eqn:Hm1.
  - eapply Hk; [done|]. by eapply Hm.
  - injection Hrun as <- <- <-. by eapply Hm.
  - injection Hrun as <- <- <-. by eapply Hm.
Qed.

Lemma preserves_ret {A} I (a : A) : preserves I (ret a).
Proof. by intros st w r st' w' [= <- <- <-]. Qed.

Lemma preserves_fail {A} I e : preserves I (fail (A := A) e).
Proof. by intros st w r st' w' [= <- <- <-]. Qed.

Lemma preserves_forEach {A} I (l : list A) f :
  (∀ x, x ∈ l → preserves I (f x)) → preserves I (forEach l f).
Proof.
  induction l as [|x l IH]; intros Hf; [apply preserves_ret|].
  apply preserves_bind; [apply Hf; by left|].
  intros _. apply IH. intros y Hy. apply Hf. by right.
Qed.

Lemma preserves_wrapErr {A} I g (m : M (filterState * World) A) :
  preserves I m → preserves I (wrapErr g m).
Proof.
  intros Hm st w r st' w' Hrun. unfold wrapErr in Hrun.
  destruct (m (st, w)) as [[a|e|] [st1 w1]] eqn:Hm1;
    injection Hrun as <- <- <-; by eapply Hm.
Qed.

Lemma preserves_lift {A} I (m : M World A) : preserves I (lift m).
Proof.
  intros st w r st' w' Hrun. unfold lift in Hrun.
  destruct (m w) as [r1 w1]. by injection Hrun as <- <- <-.
Qed.

Lemma onlyOwnDigests_removes f st st' :
  queue st' = queue st →
  (∃ evs, trace st' = trace st ++ evs ∧ Forall isRemove evs) →
  onlyOwnDigests f st → onlyOwnDigests f st'.
Proof.
  intros Hq (evs & Ht & Hevs) [Hdom Hlog]. split; [by rewrite Hq|].
  rewrite Ht. apply Forall_app. split; [done|].
  eapply Forall_impl; [done|]. by intros [].
Qed.

Lemma preserves_loggedRemove f r :
  preserves (onlyOwnDigests f) (loggedRemove r).
Proof.
  intros st w res st' w' Hrun.
  destruct (removesOnly_loggedRemove _ _ _ _ _ _ Hrun).
  by apply onlyOwnDigests_removes.
Qed.

Lemma preserves_findMissingAndRemove f st w r st' w' :
  findMissingAndRemove (queue st) (st, w) = (r, (st', w')) →
  onlyOwnDigests f st → onlyOwnDigests f st'.
Proof.
  intros Hrun [Hdom Hlog].
  destruct (findMissingAndRemove_shape _ _ _ _ _ _ Hrun)
    as (Hq & evs & Ht & Hevs & _).
  split; [by rewrite Hq|]. rewrite Ht. apply Forall_app. split; [done|].
  constructor; [done|]. eapply Forall_impl; [done|]. by intros [].
Qed.

Lemma preserves_enqueue f d r :
  UsesDigestFunction d f = true →
  preserves (onlyOwnDigests f) (enqueue d r).
Proof.
  intros Hown st w res st' w' Hrun HI. unfold enqueue in Hrun.
  rewrite bind_eq in Hrun. cbn [this fst] in Hrun. rewrite bind_eq in Hrun.
  case_bool_decide as Hfull.
  - rewrite bind_eq in Hrun.
    destruct (findMissingAndRemove (queue st) (st, w))
      as [r1 [st1 w1]] eqn:Hbatch.
    apply (preserves_findMissingAndRemove f) in Hbatch as [Hdom Hlog];
      [|done].
    destruct r1 as [[]|e|]; cbn in Hrun; injection Hrun as <- <- <-;
      [|done..].
    split; cbn [log set_queue trace queue].
    + intros d'. rewrite insert_empty, dom_singleton_L, elem_of_singleton.
      by intros ->.
    + apply Forall_app. split; [done|]. constructor; [|done].
      cbn [digestsOf]. by intros d' ->%elem_of_singleton.
  - cbn in Hrun. injection Hrun as <- <- <-. destruct HI as [Hdom Hlog].
    split; cbn [log set_queue trace queue].
    + intros d'. rewrite dom_insert_L, elem_of_union, elem_of_singleton.
      intros [->|Hin]; [done|by apply Hdom].
    + apply Forall_app. split; [done|]. constructor; [|done].
      cbn [digestsOf]. by intros d' ->%elem_of_singleton.
Qed.

Lemma find_foreign_None f (digests : list Digest) :
  find (λ blobDigest, negb (UsesDigestFunction blobDigest f)) digests = None →
  ∀ d, d ∈ digests → UsesDigestFunction d f = true.
Proof.
  intros Hfind d Hd%list_elem_of_In.
  pose proof (find_none _ _ Hfind d Hd) as Hneg. cbn in Hneg.
  by destruct (UsesDigestFunction d f).
Qed.

Lemma preserves_filterCallback f child :
  preserves (onlyOwnDigests f) (filterCallback f child).
Proof.
  destruct child as [node removeFunc]. unfold filterCallback.
  apply preserves_bind.
  - destruct node as [directory|leaf]; [|apply preserves_ret].
    apply preserves_bind; [apply preserves_lift|].
    intros [savedErr|digests]; [|apply preserves_ret].
    case_decide; [|apply preserves_fail].
    apply preserves_bind; [|intros; apply preserves_ret].
    apply preserves_wrapErr, preserves_loggedRemove.
  - intros [digests|]; [|apply preserves_ret].
    destruct (find _ digests) eqn:Hfind.
    + apply preserves_wrapErr, preserves_loggedRemove.
    + apply preserves_forEach. intros d Hd. apply preserves_enqueue.
      by eapply find_foreign_None.
Qed.

Lemma onlyOwnDigests_empty f : onlyOwnDigests f emptyFilterState.
Proof.
  split; [|by constructor]. intros d. cbn [emptyFilterState queue].
  by rewrite dom_empty_L, elem_of_empty.
Qed.

(** Whatever the pass does and however it ends, it never asks
    [FindMissing] about a digest of another digest function. *)
Lemma filterMissingChildren_own root f w r st' w' :
  filterMissingChildren root f (emptyFilterState, w) = (r, (st', w')) →
  onlyOwnDigests f st'.
Proof.
  intros Hrun.
  assert (Hpass : preserves (onlyOwnDigests f)
                    (filterMissingChildren root f)).
  { unfold filterMissingChildren.
    apply preserves_bind; [apply preserves_lift|]. intros w0.
    apply preserves_bind.
    { apply preserves_forEach. intros. apply preserves_filterCallback. }
    intros _. apply preserves_bind; [apply preserves_lift|]. intros w1.
    apply preserves_bind.
    { destruct (FilterChildren_error root w1);
        [apply preserves_fail|apply preserves_ret]. }
    intros _ st w2 r2 st2 w3 Hrun2 HI. rewrite bind_eq in Hrun2.
    cbn [this fst] in Hrun2. case_bool_decide.
    - by eapply preserves_findMissingAndRemove.
    - by injection Hrun2 as <- <- <-. }
  eapply Hpass; [done|]. apply onlyOwnDigests_empty.
Qed.

Lemma find_foreign_Some f (digests : list Digest) :
  foreignTo f digests →
  ∃ d, find (λ blobDigest, negb (UsesDigestFunction blobDigest f)) digests
       = Some d ∧ UsesDigestFunction d f = false.
Proof.
  intros (d & Hd%list_elem_of_In & Hforeign).
  destruct (find _ digests) as [d'|] eqn:Hfind.
  - exists d'. split; [done|]. apply find_some in Hfind as [_ Hneg].
    by destruct (UsesDigestFunction d' f).
  - pose proof (find_none _ _ Hfind d Hd) as Hneg. cbn in Hneg.
    by rewrite Hforeign in Hneg.
Qed.

Lemma filterCallback_foreign f node removeFunc digests st w :
  containingDigests node w = Ok digests →
  foreignTo f digests →
  ∃ d, d ∈ digests ∧ UsesDigestFunction d f = false ∧
    let w1 := afterContainingDigests node w in
    let result := fst (callRemover removeFunc w1) in
    filterCallback f (node, removeFunc) (st, w)
    = (match result with
       | Err e =>
           Err (StatusWrapf e
                  "Failed to remove file with different instance name or digest function with digest "
                  (digest_hash d))
       | r => r
       end,
       (log (EvRemove removeFunc result) st,
        snd (callRemover removeFunc w1))).
Proof.
  intros Hdigests Hforeign.
  destruct (find_foreign_Some _ _ Hforeign) as (d & Hfind & Hd).
  exists d. split_and!; [|done|].
  { apply find_some in Hfind as [Hin _]. by apply list_elem_of_In. }
  unfold filterCallback. rewrite bind_eq.
  destruct node as [directory|leaf]; cbn in Hdigests |- *.
  - rewrite bind_eq. unfold lift, attempt.
    destruct (Fetcher_GetContainingDigests directory w) as [r1 w1].
    cbn in Hdigests. subst r1. cbn [fst snd ret]. rewrite Hfind.
    unfold wrapErr. rewrite loggedRemove_eq.
    by destruct (callRemover removeFunc w1) as [[[]|e|] w2].
  - injection Hdigests as <-. rewrite Hfind.
    unfold wrapErr. rewrite loggedRemove_eq.
    by destruct (callRemover removeFunc w) as [[[]|e|] w2].
Qed.

Lemma extends_trans tr st st' :
  extends tr st → extends (trace st) st' → extends tr st'.
Proof.
  intros [evs1 Ht1] [evs2 Ht2]. exists (evs1 ++ evs2).
  by rewrite Ht2, Ht1, <- app_assoc.
Qed.

Lemma preserves_extends_loggedRemove tr r :
  preserves (extends tr) (loggedRemove r).
Proof.
  intros st w res st' w' Hrun Hst. eapply extends_trans; [done|].
  destruct (removesOnly_loggedRemove _ _ _ _ _ _ Hrun) as (_ & evs & ? & _).
  by exists evs.
Qed.

Lemma preserves_extends_enqueue tr d r : preserves (extends tr) (enqueue d r).
Proof.
  intros st w res st' w' Hrun Hst. eapply extends_trans; [done|].
  unfold enqueue in Hrun.
  rewrite bind_eq in Hrun. cbn [this fst] in Hrun. rewrite bind_eq in Hrun.
  case_bool_decide as Hfull.
  - rewrite bind_eq in Hrun.
    destruct (findMissingAndRemove (queue st) (st, w))
      as [r1 [st1 w1]] eqn:Hbatch.
    destruct (findMissingAndRemove_shape _ _ _ _ _ _ Hbatch)
      as (_ & evs & Ht & _).
    destruct r1 as [[]|e|]; cbn in Hrun; injection Hrun as <- <- <-.
    + eexists. cbn [log set_queue trace]. by rewrite Ht, <- app_assoc.
    + by eexists.
    + by eexists.
  - cbn in Hrun. injection Hrun as <- <- <-. by eexists.
Qed.

Lemma preserves_extends_filterCallback tr f child :
  preserves (extends tr) (filterCallback f child).
Proof.
  destruct child as [node removeFunc]. unfold filterCallback.
  apply preserves_bind.
  - destruct node as [directory|leaf]; [|apply preserves_ret].
    apply preserves_bind; [apply preserves_lift|].
    intros [savedErr|digests]; [|apply preserves_ret].
    case_decide; [|apply preserves_fail].
    apply preserves_bind; [|intros; apply preserves_ret].
    apply preserves_wrapErr, preserves_extends_loggedRemove.
  - intros [digests|]; [|apply preserves_ret].
    destruct (find _ digests) eqn:Hfind.
    + apply preserves_wrapErr, preserves_extends_loggedRemove.
    + apply preserves_forEach. intros d Hd. apply preserves_extends_enqueue.
Qed.

(** A loop that succeeds has run its body with success on every
    element, and what the body logged is still in the log. *)
Lemma forEach_member {A} (l : list A) (body : A → M (filterState * World) unit)
    x st w st' w' :
  (∀ tr y, preserves (extends tr) (body y)) →
  forEach l body (st, w) = (Ok tt, (st', w')) →
  x ∈ l →
  ∃ st1 w1 st2 w2,
    body x (st1, w1) = (Ok tt, (st2, w2)) ∧ extends (trace st2) st'.
Proof.
  intros Hbody. revert st w.
  induction l as [|y l IH]; intros st w Hrun Hx; [by inversion Hx|].
  cbn [forEach] in Hrun. rewrite bind_eq in Hrun.
  destruct (body y (st, w)) as [[[]|e|] [st1 w1]] eqn:Hy; try done.
  apply elem_of_cons in Hx as [->|Hx]; [|by eapply IH].
  exists st, w, st1, w1. split; [done|].
  eapply (preserves_forEach (extends (trace st1))); [|done|].
  - intros z _. apply Hbody.
  - exists []. by rewrite app_nil_r.
Qed.

(** Every leaf with a digest of another digest function has had its
    remover called by the time the pass has succeeded. *)
Lemma filterMissingChildren_foreign_leaf root f w st' w' leaf removeFunc :
  filterMissingChildren root f (emptyFilterState, w) = (Ok tt, (st', w')) →
  (FromLeaf leaf, removeFunc) ∈ FilterChildren_nodes root w →
  foreignTo f (Leaf_GetContainingDigests leaf) →
  EvRemove removeFunc (Ok tt) ∈ trace st'.
Proof.
  intros Hrun Hnode Hforeign. unfold filterMissingChildren in Hrun.
  rewrite bind_eq in Hrun. cbn [lift get] in Hrun. rewrite bind_eq in Hrun.
  destruct (forEach _ _ (emptyFilterState, w)) as [[[]|e|] [st1 w1]] eqn:Hloop;
    try done.
  destruct (forEach_member _ _ _ _ _ _ _
              (λ tr y, preserves_extends_filterCallback tr f y) Hloop Hnode)
    as (sta & wa & stb & wb & Hcall & Hext).
  destruct (filterCallback_foreign f (FromLeaf leaf) removeFunc _ sta wa
              eq_refl Hforeign) as (d & _ & _ & Heq).
  cbn zeta in Heq. rewrite Heq in Hcall. cbn [afterContainingDigests] in Hcall.
  assert (fst (callRemover removeFunc wa) = Ok tt) as Hok.
  { by destruct (fst (callRemover removeFunc wa)) as [[]|?|]. }
  rewrite Hok in Hcall. injection Hcall as <- <-.
  assert (extends (trace (log (EvRemove removeFunc (Ok tt)) sta)) st')
    as [evs Ht].
  { eapply extends_trans; [done|].
    rewrite bind_eq in Hrun. cbn [lift get] in Hrun. rewrite bind_eq in Hrun.
    destruct (FilterChildren_error root w1); [done|].
    cbn [ret] in Hrun. rewrite bind_eq in Hrun. cbn [this fst] in Hrun.
    case_bool_decide.
    - destruct (findMissingAndRemove_shape _ _ _ _ _ _ Hrun)
        as (_ & evs & Ht & _). by eexists.
    - injection Hrun as <- <-. exists []. by rewrite app_nil_r. }
  rewrite Ht. cbn [log trace]. rewrite !elem_of_app. left. right.
  by apply list_elem_of_singleton.
Qed.
End ForeignDigests.

(** C8.  In the pass that filters missing blobs with the digest
    function [f]:
    - whatever happens, no digest of another instance name or digest
      function is put into the queue or sent to [FindMissing];
    - for a node whose digests have one of another instance name or
      digest function, the callback does exactly one thing: it calls
      the remover of the node, without looking at the queue or at
      [FindMissing];
    - when the pass has succeeded, the remover of every leaf with
      such a digest has been called with success. *)
Theorem foreign_digests_removed `{Collaborators} root f w :
  (∀ r st' w',
     filterMissingChildren root f (emptyFilterState, w) = (r, (st', w')) →
     ∀ ev d, ev ∈ trace st' → d ∈ digestsOf ev →
             UsesDigestFunction d f = true) ∧
  (∀ node removeFunc digests st w1,
     containingDigests node w1 = Ok digests →
     foreignTo f digests →
     ∃ d, d ∈ digests ∧ UsesDigestFunction d f = false ∧
       let w2 := afterContainingDigests node w1 in
       let result := fst (callRemover removeFunc w2) in
       filterCallback f (node, removeFunc) (st, w1)
       = (match result with
          | Err e =>
              Err (StatusWrapf e
                     "Failed to remove file with different instance name or digest function with digest "
                     (digest_hash d))
          | r => r
          end,
          (log (EvRemove removeFunc result) st,
           snd (callRemover removeFunc w2)))) ∧
  (∀ st' w' leaf removeFunc,
     filterMissingChildren root f (emptyFilterState, w) = (Ok tt, (st', w')) →
     (FromLeaf leaf, removeFunc) ∈ FilterChildren_nodes root w →
     foreignTo f (Leaf_GetContainingDigests leaf) →
     EvRemove removeFunc (Ok tt) ∈ trace st').
Proof.
  split_and!.
  - intros r st' w' Hrun ev d Hev Hd.
    destruct (filterMissingChildren_own _ _ _ _ _ _ Hrun) as [_ Hlog].
    eapply Forall_forall in Hlog; [|done]. by apply Hlog.
  - intros node removeFunc digests st w1. apply filterCallback_foreign.
  - intros st' w' leaf removeFunc. apply filterMissingChildren_foreign_leaf.
Qed.

Lemma StronglySorted_weaken {A} (R R' : relation A) (l : list A) :
  (∀ x y, R x y → R' x y) → StronglySorted R l → StronglySorted R' l.
Proof.
  intros HR. induction 1 as [|x l Hl IH Hx]; constructor; [done|].
  eapply Forall_impl; [done|]. apply HR.
Qed.

Lemma filter_all {A} (P : A → Prop) `{∀ x, Decision (P x)} (l : list A) :
  Forall P l → filter P l = l.
Proof.
  induction 1 as [|x l Hx Hl IH]; [done|].
  by rewrite filter_cons_True, IH.
Qed.

Lemma StronglySorted_weaken_elem {A} (R R' : relation A) (l : list A) :
  (∀ x y, x ∈ l → y ∈ l → R x y → R' x y) →
  StronglySorted R l → StronglySorted R' l.
Proof.
  intros HR Hl. induction Hl as [|x l Hl IH Hx]; constructor.
  - apply IH. intros y z Hy Hz. apply HR; by right.
  - apply Forall_forall. intros y Hy. apply HR; [by left|by right|].
    by eapply Forall_forall in Hx.
Qed.

Section Ring.
Context `{Collaborators}.
Implicit Types (d : RemoteOutputServiceDirectory) (l L : list ptr).

Lemma sameRing_refl d : sameRing d d.
Proof. by split. Qed.

Lemma sameRing_trans d1 d2 d3 :
  sameRing d1 d2 → sameRing d2 d3 → sameRing d1 d3.
Proof.
  intros [] []. split; intros; etrans; eauto.
Qed.

Lemma cookieAt_same d d' p :
  (∀ q, cookieOf d' q = cookieOf d q) → cookieAt d' p = cookieAt d p.
Proof. intros Hc. unfold cookieAt. by rewrite Hc. Qed.

Lemma ring_inv_same d d' l : sameRing d d' → ring_inv d l → ring_inv d' l.
Proof.
  intros [Hob Hc Hn Hp Hk] [H1 H2 H3 H4 H5 H6 H7]. split.
  - done.
  - intros i a b Ha Hb. rewrite Hn, Hp. by eapply H2.
  - eapply StronglySorted_weaken; [|done].
    intros p q. by rewrite !(cookieAt_same d d').
  - intros p. by rewrite Hob.
  - intros p c. rewrite Hk, Hc. apply H5.
  - intros p q c. rewrite !Hk. apply H6.
  - by rewrite Hc.
Qed.

(** *** Links after an assignment *)

Lemma getNext_setNext d a v x :
  getNext (setNext a v d) x
  = if decide (x = a) then
      if decide (a = sentinel) then Some v else (λ _, v) <$> heap d !! a
    else getNext d x.
Proof.
  unfold getNext. rewrite heap_setNext.
  destruct (decide (x = a)) as [->|Hx].
  - destruct (decide (a = sentinel)) as [->|Ha].
    + unfold setNext. by rewrite decide_True.
    + rewrite decide_True by done. by destruct (heap d !! a).
  - destruct (decide (x = sentinel)) as [->|Hs].
    + unfold setNext. by case_decide.
    + rewrite decide_False; [done|]. by intros [_ ->].
Qed.

Lemma getNext_setPrevious d a v x :
  getNext (setPrevious a v d) x = getNext d x.
Proof.
  unfold getNext. rewrite heap_setPrevious.
  destruct (decide (x = sentinel)) as [->|Hs].
  - unfold setPrevious. by case_decide.
  - case_decide; [|done]. by destruct (heap d !! x).
Qed.

Lemma getPrevious_setPrevious d a v x :
  getPrevious (setPrevious a v d) x
  = if decide (x = a) then
      if decide (a = sentinel) then Some v else (λ _, v) <$> heap d !! a
    else getPrevious d x.
Proof.
  unfold getPrevious. rewrite heap_setPrevious.
  destruct (decide (x = a)) as [->|Hx].
  - destruct (decide (a = sentinel)) as [->|Ha].
    + unfold setPrevious. by rewrite decide_True.
    + rewrite decide_True by done. by destruct (heap d !! a).
  - destruct (decide (x = sentinel)) as [->|Hs].
    + unfold setPrevious. by case_decide.
    + rewrite decide_False; [done|]. by intros [_ ->].
Qed.

Lemma getPrevious_setNext d a v x :
  getPrevious (setNext a v d) x = getPrevious d x.
Proof.
  unfold getPrevious. rewrite heap_setNext.
  destruct (decide (x = sentinel)) as [->|Hs].
  - unfold setNext. by case_decide.
  - case_decide; [|done]. by destruct (heap d !! x).
Qed.

Lemma getNext_setBuildState d p bs x :
  getNext (setBuildState p bs d) x = getNext d x.
Proof.
  unfold getNext. rewrite heap_setBuildState.
  case_decide; [done|]. case_decide; [|done]. by destruct (heap d !! x).
Qed.

Lemma getPrevious_setBuildState d p bs x :
  getPrevious (setBuildState p bs d) x = getPrevious d x.
Proof.
  unfold getPrevious. rewrite heap_setBuildState.
  case_decide; [done|]. case_decide; [|done]. by destruct (heap d !! x).
Qed.

(** Opening and closing a session leaves the ring alone. *)
Lemma sameRing_closeSession d p bs : sameRing d (closeSession p bs d).
Proof.
  unfold closeSession. split; intros.
  - done.
  - done.
  - by rewrite getNext_setBuildState.
  - by rewrite getPrevious_setBuildState.
  - by rewrite cookieOf_setBuildState.
Qed.

Lemma sameRing_openSession d p nb : sameRing d (openSession p nb d).
Proof.
  unfold openSession. split; intros.
  - done.
  - done.
  - change (getNext (setBuildState p (Some nb) d) p0 = getNext d p0).
    by rewrite getNext_setBuildState.
  - change (getPrevious (setBuildState p (Some nb) d) p0 = getPrevious d p0).
    by rewrite getPrevious_setBuildState.
  - change (cookieOf (setBuildState p (Some nb) d) p0 = cookieOf d p0).
    by rewrite cookieOf_setBuildState.
Qed.

(** *** Positions in the ring *)

Lemma ring_position_left l i j x :
  NoDup (sentinel :: l) →
  (sentinel :: l ++ [sentinel]) !! i = Some x →
  (sentinel :: l ++ [sentinel]) !! j = Some x →
  i ≤ length l → j ≤ length l → i = j.
Proof.
  intros Hnd Hi Hj Hil Hjl.
  change (sentinel :: l ++ [sentinel]) with ((sentinel :: l) ++ [sentinel])
    in Hi, Hj.
  rewrite lookup_app_l in Hi by (cbn; lia).
  rewrite lookup_app_l in Hj by (cbn; lia).
  by eapply NoDup_lookup.
Qed.

Lemma ring_position_right l i j x :
  NoDup (sentinel :: l) →
  (sentinel :: l ++ [sentinel]) !! S i = Some x →
  (sentinel :: l ++ [sentinel]) !! S j = Some x →
  i = j.
Proof.
  intros Hnd Hi Hj. cbn in Hi, Hj.
  assert (NoDup (l ++ [sentinel])) as Hnd'.
  { apply NoDup_cons in Hnd as [Hs Hl]. apply NoDup_app. split_and!.
    - done.
    - intros y Hy ->%list_elem_of_singleton. done.
    - apply NoDup_singleton. }
  by eapply NoDup_lookup.
Qed.

(** *** Taking an element out of a linked list *)

Lemma links_delete d d' L k a p b :
  L !! k = Some a → L !! S k = Some p → L !! S (S k) = Some b →
  (∀ i, L !! i = Some a → is_Some (L !! S i) → i = k) →
  (∀ i, L !! S i = Some b → i = S k) →
  (∀ x, x ≠ a → getNext d' x = getNext d x) →
  (∀ y, y ≠ b → getPrevious d' y = getPrevious d y) →
  getNext d' a = Some b → getPrevious d' b = Some a →
  links d L → links d' (delete (S k) L).
Proof.
  intros Ha Hp Hb Hleft Hright Hnext Hprev Hna Hpb Hlinks i x y Hx Hy.
  destruct (decide (i < k)) as [Hlt|Hge].
  - rewrite list_lookup_delete_lt in Hx by lia.
    rewrite list_lookup_delete_lt in Hy by lia.
    destruct (Hlinks i x y Hx Hy) as [Hn Hv].
    rewrite Hnext, Hprev; [done| |].
    + intros ->. apply Hright in Hy. lia.
    + intros ->. apply Hleft in Hx; [lia|by eexists].
  - destruct (decide (i = k)) as [->|Hne].
    + rewrite list_lookup_delete_lt in Hx by lia.
      rewrite list_lookup_delete_ge in Hy by lia.
      by simplify_eq.
    + rewrite list_lookup_delete_ge in Hx by lia.
      rewrite list_lookup_delete_ge in Hy by lia.
      destruct (Hlinks (S i) x y Hx Hy) as [Hn Hv].
      rewrite Hnext, Hprev; [done| |].
      * intros ->. apply Hright in Hy. lia.
      * intros ->. apply Hleft in Hx; [lia|by eexists].
Qed.

(** *** Putting an element in front of the last one *)

Lemma links_append d d' l a p :
  (sentinel :: l ++ [sentinel]) !! length l = Some a →
  (∀ i x, (sentinel :: l ++ [sentinel]) !! i = Some x → i < length l →
          getNext d' x = getNext d x) →
  (∀ i y, (sentinel :: l ++ [sentinel]) !! S i = Some y → i < length l →
          getPrevious d' y = getPrevious d y) →
  getNext d' a = Some p → getPrevious d' p = Some a →
  getNext d' p = Some sentinel → getPrevious d' sentinel = Some p →
  links d (sentinel :: l ++ [sentinel]) →
  links d' (sentinel :: (l ++ [p]) ++ [sentinel]).
Proof.
  intros Ha Hnext Hprev Hap Hpa Hps Hsp Hlinks i x y Hx Hy.
  assert (Hsame : ∀ j, j ≤ length l →
    (sentinel :: (l ++ [p]) ++ [sentinel]) !! j
    = (sentinel :: l ++ [sentinel]) !! j).
  { intros j Hj. rewrite <- (app_assoc l [p] [sentinel]). cbn [app].
    rewrite !app_comm_cons, !lookup_app_l by (cbn; lia). done. }
  assert (Hat : ∀ j, (sentinel :: (l ++ [p]) ++ [sentinel]) !! (length l + j)
    = ([a; p; sentinel] : list ptr) !! j).
  { intros j. destruct j as [|j].
    - rewrite Nat.add_0_r, Hsame by lia. done.
    - rewrite <- (app_assoc l [p] [sentinel]). cbn [app].
      rewrite app_comm_cons, lookup_app_r by (cbn; lia).
      replace (length l + S j - length (sentinel :: l)) with j by (cbn; lia).
      done. }
  destruct (decide (i < length l)) as [Hlt|Hge].
  - rewrite Hsame in Hx by lia. rewrite Hsame in Hy by lia.
    destruct (Hlinks i x y Hx Hy) as [Hn Hv].
    by rewrite (Hnext i x), (Hprev i y).
  - replace i with (length l + (i - length l)) in Hx, Hy by lia.
    replace (S (length l + (i - length l)))
      with (length l + S (i - length l)) in Hy by lia.
    rewrite Hat in Hx, Hy.
    destruct (i - length l) as [|[|[|j]]]; cbn in Hx, Hy; by simplify_eq.
Qed.

(** *** The invariant of the ring *)

Lemma uint64_add_small (c : Z) :
  (0 ≤ c)%Z → (c + 1 < 2 ^ 64)%Z → uint64_add c 1 = (c + 1)%Z.
Proof. intros. unfold uint64_add. apply Z.mod_small. lia. Qed.

Lemma ring_heap d l p :
  registry_inv d → ring_inv d l → p ∈ l → is_Some (heap d !! p).
Proof.
  intros Hreg Hring Hp. apply (ring_registered _ _ Hring) in Hp as [ob Hob].
  pose proof (inv_outputBase _ Hreg _ _ Hob) as Hx. unfold obOf in Hx.
  by destruct (heap d !! p).
Qed.

Lemma ring_not_sentinel d l p : ring_inv d l → p ∈ l → p ≠ sentinel.
Proof.
  intros Hring Hp ->. pose proof (ring_NoDup _ _ Hring) as Hnd.
  by apply NoDup_cons in Hnd as [? _].
Qed.

Lemma ring_element l i x :
  (sentinel :: l ++ [sentinel]) !! i = Some x → x = sentinel ∨ x ∈ l.
Proof.
  intros Hx. apply list_elem_of_lookup_2 in Hx.
  apply elem_of_cons in Hx as [->|Hx]; [by left|].
  apply elem_of_app in Hx as [Hx|Hx]; [by right|].
  apply list_elem_of_singleton in Hx. by left.
Qed.

Lemma delete_snoc {A} (l : list A) (x : A) k :
  k < length l → delete k (l ++ [x]) = delete k l ++ [x].
Proof.
  revert k. induction l as [|y l IH]; intros k Hk; [cbn in Hk; lia|].
  destruct k as [|k]; [done|]. cbn. f_equal. apply IH. cbn in Hk. lia.
Qed.

Lemma ring_inv_unlinked d l p ob s :
  registry_inv d → ring_inv d l →
  outputBaseIDs d !! ob = Some p → heap d !! p = Some s →
  (changeID d + 1 < 2 ^ 64)%Z →
  ∃ k, l !! k = Some p ∧
    ring_inv (with_changeID (uint64_add (changeID d) 1)
                (unlinked p (with_outputBaseIDs
                               (delete ob (outputBaseIDs d)) d)))
             (delete k l).
Proof.
  intros Hreg Hring Hob Hs Hbound.
  assert (p ∈ l) as Hpl by (apply (ring_registered _ _ Hring); eauto).
  pose proof (ring_not_sentinel _ _ _ Hring Hpl) as Hps.
  pose proof (ring_NoDup _ _ Hring) as Hnd.
  apply list_elem_of_lookup in Hpl as [k Hk]. exists k. split; [done|].
  pose proof (lookup_lt_Some _ _ _ Hk) as Hkl.
  set (L := sentinel :: l ++ [sentinel]).
  assert (length L = S (S (length l))) as HL.
  { subst L. cbn. rewrite length_app. cbn. lia. }
  assert (L !! S k = Some p) as HLp.
  { change (L !! S k) with ((l ++ [sentinel]) !! k). by rewrite lookup_app_l. }
  destruct (lookup_lt_is_Some_2 L k) as [a Ha]; [lia|].
  destruct (lookup_lt_is_Some_2 L (S (S k))) as [b Hb]; [lia|].
  destruct (ring_links _ _ Hring k a p Ha HLp) as [Hnap Hppa].
  destruct (ring_links _ _ Hring (S k) p b HLp Hb) as [Hnpb Hpbp].
  assert (previous s = a) as Hprev.
  { unfold getPrevious in Hppa. rewrite decide_False, Hs in Hppa by done.
    by injection Hppa. }
  assert (next s = b) as Hnext.
  { unfold getNext in Hnpb. rewrite decide_False, Hs in Hnpb by done.
    by injection Hnpb. }
  set (d1 := with_outputBaseIDs (delete ob (outputBaseIDs d)) d).
  assert (unlinked p d1 = setPrevious b a (setNext a b d1)) as ->.
  { unfold unlinked. change (heap d1) with (heap d). rewrite Hs. cbv zeta.
    rewrite Hprev, Hnext, heap_setNext. change (heap d1) with (heap d).
    rewrite Hs. case_decide; cbn; by rewrite ?Hprev, ?Hnext. }
  set (dd := with_changeID _ _).
  assert (Hin : ∀ i x, L !! i = Some x →
            x = sentinel ∨ is_Some (heap d !! x)).
  { intros i x Hx. apply ring_element in Hx as [->|Hx]; [by left|].
    right. by eapply ring_heap. }
  assert (Fnext : ∀ x, getNext dd x
                       = if decide (x = a) then Some b else getNext d x).
  { intros x. subst dd.
    change (getNext (with_changeID ?c ?e) x) with (getNext e x).
    rewrite getNext_setPrevious, getNext_setNext.
    case_decide; [|done]. case_decide; [done|].
    change (heap d1) with (heap d).
    destruct (Hin _ _ Ha) as [?|[sa ->]]; done. }
  assert (Fprev : ∀ y, getPrevious dd y
                       = if decide (y = b) then Some a else getPrevious d y).
  { intros y. subst dd.
    change (getPrevious (with_changeID ?c ?e) y) with (getPrevious e y).
    rewrite getPrevious_setPrevious.
    case_decide; [|by rewrite getPrevious_setNext].
    case_decide; [done|].
    destruct (Hin _ _ Hb) as [?|Hsb]; [done|].
    apply (is_Some_setNext d1 a b b) in Hsb as [sb ->]. done. }
  assert (Fcookie : ∀ q, cookieOf dd q = cookieOf d q).
  { intros q. subst dd d1. by obs. }
  assert (Hsplit : l = take k l ++ p :: drop (S k) l).
  { by rewrite take_drop_middle. }
  assert (Hnd' : NoDup (take k l ++ p :: drop (S k) l)).
  { rewrite <- Hsplit. by apply NoDup_cons in Hnd as [_ ?]. }
  apply NoDup_app in Hnd' as (Hnd1 & Hnd2 & Hnd3).
  apply NoDup_cons in Hnd3 as [Hnd3 Hnd4].
  assert (Hmem : ∀ q, q ∈ delete k l ↔ q ∈ l ∧ q ≠ p).
  { intros q. rewrite delete_take_drop.
    assert (q ∈ l ↔ q ∈ take k l ++ p :: drop (S k) l) as ->
      by (by rewrite take_drop_middle).
    rewrite !elem_of_app, elem_of_cons. split.
    - intros [Hq|Hq]; (split; [tauto|]); intros ->; [|done].
      by apply (Hnd2 p); [|left].
    - intros [[Hq|[->|Hq]] Hne]; tauto. }
  split.
  - apply NoDup_cons in Hnd as [Hs1 Hs2]. apply NoDup_cons. split.
    + rewrite Hmem. tauto.
    + rewrite delete_take_drop. apply NoDup_app. split_and!; [done| |done].
      intros x Hx1 Hx2. apply (Hnd2 x Hx1). by right.
  - rewrite <- delete_snoc by done.
    change (sentinel :: delete k (l ++ [sentinel])) with (delete (S k) L).
    eapply (links_delete d dd L k a p b); try done.
    + intros i Hi [y Hy]. apply lookup_lt_Some in Hy.
      eapply (ring_position_left l); [done|done|done|lia|lia].
    + intros i Hi. by eapply (ring_position_right l).
    + intros x Hx. by rewrite Fnext, decide_False.
    + intros y Hy. by rewrite Fprev, decide_False.
    + by rewrite Fnext, decide_True.
    + by rewrite Fprev, decide_True.
    + apply (ring_links _ _ Hring).
  - pose proof (ring_sorted _ _ Hring) as Hsorted. rewrite Hsplit in Hsorted.
    apply StronglySorted_app in Hsorted as (H12 & Hs1 & Hs2).
    apply StronglySorted_cons in Hs2 as [_ Hs2].
    rewrite delete_take_drop. apply StronglySorted_app. split_and!.
    + intros x1 x2 Hx1 Hx2. rewrite !(cookieAt_same d dd) by done.
      apply H12; [done|by right].
    + eapply StronglySorted_weaken; [|done].
      intros x y. by rewrite !(cookieAt_same d dd).
    + eapply StronglySorted_weaken; [|done].
      intros x y. by rewrite !(cookieAt_same d dd).
  - intros q. rewrite Hmem, (ring_registered _ _ Hring).
    change (outputBaseIDs dd) with (outputBaseIDs (setPrevious b a
                                                     (setNext a b d1))).
    rewrite (proj1 (fields_setPrevious _ _ _)), (proj1 (fields_setNext _ _ _)).
    cbn [d1 outputBaseIDs with_outputBaseIDs]. split.
    + intros [[ob' Hob'] Hne]. exists ob'. apply lookup_delete_Some.
      split; [|done]. intros <-. congruence.
    + intros [ob' [Hne Hob']%lookup_delete_Some]. split; [by eexists|].
      intros ->. pose proof (inv_outputBase _ Hreg _ _ Hob) as H1.
      pose proof (inv_outputBase _ Hreg _ _ Hob') as H2. congruence.
  - intros q c. rewrite Fcookie. intros Hc.
    apply (ring_cookie_bound _ _ Hring) in Hc.
    pose proof (ring_changeID _ _ Hring).
    cbn [dd changeID with_changeID]. rewrite uint64_add_small by lia. lia.
  - intros q1 q2 c. rewrite !Fcookie. apply (ring_cookie_inj _ _ Hring).
  - pose proof (ring_changeID _ _ Hring).
    cbn [dd changeID with_changeID]. rewrite uint64_add_small by lia. lia.
Qed.

Lemma ring_inv_linked d l root factory ob :
  registry_inv d → ring_inv d l →
  outputBaseIDs d !! ob = None →
  (changeID d + 1 < 2 ^ 64)%Z →
  ring_inv (with_changeID
              (uint64_add (changeID (linkedAtTail root factory ob d)) 1)
              (linkedAtTail root factory ob d))
           (l ++ [S (allocations d)]).
Proof.
  intros Hreg Hring Hob Hbound.
  pose proof (fresh_address d Hreg) as Hfresh.
  pose proof (ring_NoDup _ _ Hring) as Hnd.
  pose proof (ring_changeID _ _ Hring) as Hch.
  set (p := S (allocations d)) in *.
  assert (p ∉ l) as Hpl.
  { intros Hp. apply (ring_heap _ _ _ Hreg Hring) in Hp as [s Hs]. congruence. }
  set (L := sentinel :: l ++ [sentinel]).
  assert (length L = S (S (length l))) as HL.
  { subst L. cbn. rewrite length_app. cbn. lia. }
  assert (L !! S (length l) = Some sentinel) as Hlast.
  { change (L !! S (length l)) with ((l ++ [sentinel]) !! length l).
    rewrite lookup_app_r by lia. by rewrite Nat.sub_diag. }
  destruct (lookup_lt_is_Some_2 L (length l)) as [a Ha]; [lia|].
  destruct (ring_links _ _ Hring (length l) a sentinel Ha Hlast)
    as [Hnas Hpsa].
  assert (outputPaths_previous d = a) as Hprev.
  { unfold getPrevious in Hpsa. rewrite decide_True in Hpsa by done.
    by injection Hpsa. }
  assert (Hin : ∀ i x, L !! i = Some x →
            x ≠ p ∧ (x = sentinel ∨ is_Some (heap d !! x))).
  { intros i x Hx. apply ring_element in Hx as [->|Hx]; [by split; [|left]|].
    split; [by intros ->|]. right. by eapply ring_heap. }
  set (dd := with_changeID _ _).
  set (s0 := {| buildState_ := None; rootDirectory := root;
                casFileFactory := factory;
                previous := a; next := sentinel;
                cookie := changeID d; outputBaseID := ob |}).
  set (d0 := with_outputBaseIDs (<[ob := p]> (outputBaseIDs d))
               (with_heap (<[p := s0]> (heap d)) (S (allocations d)) d)).
  assert (Hdd : ∀ c, with_changeID c (linkedAtTail root factory ob d)
                     = with_changeID c (setPrevious sentinel p
                                          (setNext a p d0))).
  { intros c. unfold linkedAtTail. by rewrite Hprev. }
  assert (Fnext0 : ∀ x, x ≠ p → getNext d0 x = getNext d x).
  { intros x Hx. unfold getNext. case_decide; [done|].
    cbn [d0 heap with_outputBaseIDs with_heap].
    by rewrite lookup_insert_ne. }
  assert (Fprev0 : ∀ x, x ≠ p → getPrevious d0 x = getPrevious d x).
  { intros x Hx. unfold getPrevious. case_decide; [done|].
    cbn [d0 heap with_outputBaseIDs with_heap].
    by rewrite lookup_insert_ne. }
  assert (Fnext : ∀ x, getNext dd x
                       = if decide (x = a) then
                           if decide (a = sentinel) then Some p
                           else (λ _, p) <$> heap d0 !! a
                         else getNext d0 x).
  { intros x. subst dd. rewrite Hdd.
    change (getNext (with_changeID ?c ?e) x) with (getNext e x).
    by rewrite getNext_setPrevious, getNext_setNext. }
  assert (Fprev : ∀ y, getPrevious dd y
                       = if decide (y = sentinel) then Some p
                         else getPrevious d0 y).
  { intros y. subst dd. rewrite Hdd.
    change (getPrevious (with_changeID ?c ?e) y) with (getPrevious e y).
    rewrite getPrevious_setPrevious.
    destruct (decide (y = sentinel)) as [->|Hy];
      [by rewrite decide_True|by rewrite getPrevious_setNext]. }
  assert (Fcookie : ∀ q, cookieOf dd q
                         = if decide (q = p) then Some (changeID d)
                           else cookieOf d q).
  { intros q. subst dd. rewrite (proj2 (proj2 (cookieOf_with _ _))).
    apply linkedAtTail_cookieOf. }
  assert (Fat : ∀ q, q ∈ l → cookieAt dd q = cookieAt d q).
  { intros q Hq. unfold cookieAt. rewrite Fcookie, decide_False; [done|].
    by intros ->. }
  assert (changeID dd = (changeID d + 1)%Z) as Hchange.
  { subst dd. cbn [changeID with_changeID].
    rewrite (proj1 (proj2 (proj2 (linkedAtTail_fields _ _ _ _)))).
    by apply uint64_add_small. }
  destruct (Hin _ _ Ha) as [Hap Haheap].
  split.
  - apply NoDup_cons in Hnd as [Hs1 Hs2]. apply NoDup_cons. split.
    + rewrite elem_of_app, list_elem_of_singleton. by intros [?|?].
    + apply NoDup_app. split_and!; [done| |apply NoDup_singleton].
      by intros x Hx ->%list_elem_of_singleton.
  - apply (links_append d dd l a p Ha).
    + intros i x Hx Hi. destruct (Hin _ _ Hx) as [Hxp _].
      rewrite Fnext, decide_False, Fnext0; [done|done|].
      intros ->.
      assert (i = length l); [|lia].
      eapply (ring_position_left l); [done|done|done|lia|lia].
    + intros i y Hy Hi. destruct (Hin _ _ Hy) as [Hyp _].
      assert (y ∈ l) as Hyl.
      { change ((l ++ [sentinel]) !! i = Some y) in Hy.
        rewrite lookup_app_l in Hy by done. by eapply list_elem_of_lookup_2. }
      rewrite Fprev, decide_False, Fprev0; [done|done|].
      by eapply ring_not_sentinel.
    + rewrite Fnext, decide_True by done. case_decide; [done|].
      cbn [d0 heap with_outputBaseIDs with_heap].
      rewrite lookup_insert_ne by done.
      destruct Haheap as [?|[sa ->]]; done.
    + rewrite Fprev, decide_False by done. unfold getPrevious.
      rewrite decide_False by done.
      cbn [d0 heap with_outputBaseIDs with_heap].
      by rewrite lookup_insert_eq.
    + rewrite Fnext, decide_False by done. unfold getNext.
      rewrite decide_False by done.
      cbn [d0 heap with_outputBaseIDs with_heap].
      by rewrite lookup_insert_eq.
    + by rewrite Fprev, decide_True.
    + apply (ring_links _ _ Hring).
  - apply StronglySorted_app. split_and!.
    + intros x1 x2 Hx1 ->%list_elem_of_singleton. rewrite Fat by done.
      destruct (ring_heap _ _ _ Hreg Hring Hx1) as [s1 Hs1].
      assert (cookieOf d x1 = Some (cookie s1)) as Hc.
      { unfold cookieOf. by rewrite Hs1. }
      unfold cookieAt. rewrite Fcookie, decide_True, Hc by done.
      apply (ring_cookie_bound _ _ Hring) in Hc. cbn [default from_option].
      unfold Datatypes.id. lia.
    + eapply StronglySorted_weaken_elem; [|apply (ring_sorted _ _ Hring)].
      intros x y Hx Hy. by rewrite !Fat.
    + repeat constructor.
  - intros q. rewrite elem_of_app, list_elem_of_singleton.
    change (outputBaseIDs dd)
      with (outputBaseIDs (linkedAtTail root factory ob d)).
    rewrite (proj1 (linkedAtTail_fields _ _ _ _)).
    rewrite (ring_registered _ _ Hring). split.
    + intros [[ob' Hob']| ->].
      * exists ob'. rewrite lookup_insert_ne; [done|]. by intros <-; congruence.
      * exists ob. by rewrite lookup_insert_eq.
    + intros [ob' [[<- <-]|[Hne Hl]]%lookup_insert_Some];
        [by right|left; by eexists].
  - intros q c. rewrite Fcookie, Hchange. destruct (decide (q = p)).
    + intros Hc. injection Hc as Hc. lia.
    + intros Hc. apply (ring_cookie_bound _ _ Hring) in Hc. lia.
  - intros q1 q2 c. rewrite !Fcookie.
    destruct (decide (q1 = p)) as [Hq1|Hq1], (decide (q2 = p)) as [Hq2|Hq2].
    + congruence.
    + intros Hc1 Hc. injection Hc1 as Hc1.
      apply (ring_cookie_bound _ _ Hring) in Hc. lia.
    + intros Hc Hc2. injection Hc2 as Hc2.
      apply (ring_cookie_bound _ _ Hring) in Hc. lia.
    + apply (ring_cookie_inj _ _ Hring).
  - lia.
Qed.

(** *** The ring from request to request *)

Lemma cookieOf_unlinked d p q : cookieOf (unlinked p d) q = cookieOf d q.
Proof.
  unfold unlinked. destruct (heap d !! p) as [s|]; [|done]. cbv zeta.
  destruct (heap (setNext _ _ d) !! p); by obs.
Qed.

Lemma changeID_unlinked d p : changeID (unlinked p d) = changeID d.
Proof.
  unfold unlinked. destruct (heap d !! p) as [s|]; [|done]. cbv zeta.
  destruct (heap (setNext _ _ d) !! p); by fields.
Qed.

Lemma Clean_ringStep request d w :
  registry_inv d → ringStep d (fst (snd (Clean request (d, w)))).
Proof.
  intros Hreg.
  destruct (Clean_registry request d w) as [->|(p & ob & ->)];
    [apply ringStep_same, sameRing_refl|].
  destruct (decide (outputBaseIDs d !! ob = Some p)) as [Hob|Hob];
    [|rewrite Clean_commit_skip by done; apply ringStep_same, sameRing_refl].
  pose proof (inv_outputBase _ Hreg _ _ Hob) as Hp. unfold obOf in Hp.
  destruct (heap d !! p) as [s|] eqn:Hs; [|done].
  rewrite (Clean_commit_eq _ _ _ s) by done. cbn [snd].
  eapply ringStep_unlink; [done..|]. unfold cleaned. cbv zeta.
  destruct (buildState_ s) as [bs|]; [|apply sameRing_refl].
  apply (sameRing_closeSession _ p bs).
Qed.

Lemma StartBuild_ringStep request d w :
  registry_inv d → ringStep d (fst (snd (StartBuild request (d, w)))).
Proof.
  intros Hreg.
  destruct (StartBuild_registry request d w)
    as [->|(ob & swf & f & suffix & _ & ->)];
    [apply ringStep_same, sameRing_refl|].
  set (b := start_BuildId request).
  destruct (buildIDs d !! b) as [p|] eqn:Hb.
  { rewrite (StartBuild_locked_known _ _ _ _ _ _ _ Hb).
    apply ringStep_same, sameRing_refl. }
  destruct (outputBaseIDs d !! ob) as [p|] eqn:Hob.
  - pose proof (inv_outputBase d Hreg _ _ Hob) as Hp. unfold obOf in Hp.
    destruct (heap d !! p) as [s|] eqn:Hs; [|done].
    rewrite (StartBuild_locked_reuse _ _ _ _ _ _ _ _ Hb Hob Hs). cbn [fst snd].
    apply ringStep_same. eapply sameRing_trans; [|apply sameRing_openSession].
    destruct (buildState_ s) as [bs|];
      [apply sameRing_closeSession|apply sameRing_refl].
  - rewrite (StartBuild_locked_fresh _ _ _ _ _ _ Hb Hob).
    destruct (NewCASFileFactory w) as [factory w1].
    destruct (StartInitialBuild ob factory f w1) as [root w2]. cbn [fst snd].
    eapply ringStep_link; [done|]. apply sameRing_openSession.
Qed.

Lemma FinalizeBuild_ringStep request d w :
  registry_inv d → ringStep d (fst (snd (FinalizeBuild request (d, w)))).
Proof.
  intros Hreg. destruct request as [b].
  destruct (buildIDs d !! b) as [p|] eqn:Hb.
  - destruct (registry_inv_build d b p Hreg Hb) as (s & bs & Hs & Hbs & _).
    rewrite (FinalizeBuild_known _ _ _ _ _ _ Hb Hs Hbs). cbn [fst snd].
    apply ringStep_same, sameRing_closeSession.
  - rewrite (FinalizeBuild_unknown _ _ _ Hb).
    apply ringStep_same, sameRing_refl.
Qed.

Lemma handle_ringStep st request :
  registry_inv (fst st) → ringStep (fst st) (fst (handle st request)).
Proof.
  destruct st as [d w]. cbn [fst]. intros Hreg.
  destruct request as [r|r|r|r|r]; cbn [handle].
  - by apply Clean_ringStep.
  - by apply StartBuild_ringStep.
  - rewrite BatchCreate_registry. apply ringStep_same, sameRing_refl.
  - rewrite BatchStat_registry. apply ringStep_same, sameRing_refl.
  - by apply FinalizeBuild_ringStep.
Qed.

(** What a step does to the ring, the cookies and the change
    counter. *)
Lemma ringStep_inv d d' l :
  registry_inv d → ring_inv d l → (changeID d + 1 < 2 ^ 64)%Z →
  ringStep d d' →
  (∃ l', ring_inv d' l') ∧
  (changeID d ≤ changeID d' ≤ changeID d + 1)%Z ∧
  (∀ p c, cookieOf d p = Some c → cookieOf d' p = Some c) ∧
  (∀ p c, cookieOf d' p = Some c → cookieOf d p = None →
          (changeID d ≤ c)%Z).
Proof.
  intros Hreg Hring Hbound Hstep.
  pose proof (ring_changeID _ _ Hring) as Hch.
  destruct Hstep as [Hsame|p ob s Hob Hs Hsame|root factory ob Hob Hsame].
  - refine (conj _ (conj _ (conj _ _))).
    + exists l. by eapply ring_inv_same.
    + rewrite (same_changeID _ _ Hsame). lia.
    + intros p c. by rewrite (same_cookie _ _ Hsame).
    + intros p c. rewrite (same_cookie _ _ Hsame). congruence.
  - destruct (ring_inv_unlinked d l p ob s) as (k & _ & Hring'); [done..|].
    refine (conj _ (conj _ (conj _ _))).
    + exists (delete k l). by eapply ring_inv_same.
    + rewrite (same_changeID _ _ Hsame). cbn [changeID with_changeID].
      rewrite uint64_add_small by lia. lia.
    + intros q c. rewrite (same_cookie _ _ Hsame).
      rewrite (proj2 (proj2 (cookieOf_with _ _))), cookieOf_unlinked.
      by rewrite (proj1 (proj2 (cookieOf_with _ _))).
    + intros q c. rewrite (same_cookie _ _ Hsame).
      rewrite (proj2 (proj2 (cookieOf_with _ _))), cookieOf_unlinked.
      rewrite (proj1 (proj2 (cookieOf_with _ _))). congruence.
  - pose proof (ring_inv_linked d l root factory ob Hreg Hring Hob Hbound)
      as Hring'.
    refine (conj _ (conj _ (conj _ _))).
    + eexists. by eapply ring_inv_same.
    + rewrite (same_changeID _ _ Hsame). cbn [changeID with_changeID].
      rewrite (proj1 (proj2 (proj2 (linkedAtTail_fields _ _ _ _)))).
      rewrite uint64_add_small by lia. lia.
    + intros q c. rewrite (same_cookie _ _ Hsame).
      rewrite (proj2 (proj2 (cookieOf_with _ _))), linkedAtTail_cookieOf.
      case_decide as Hq; [|done]. subst q. unfold cookieOf.
      by rewrite (fresh_address d Hreg).
    + intros q c. rewrite (same_cookie _ _ Hsame).
      rewrite (proj2 (proj2 (cookieOf_with _ _))), linkedAtTail_cookieOf.
      case_decide as Hq; [|congruence]. intros [= <-] _. lia.
Qed.

Lemma handle_registry_inv st request :
  registry_inv (fst st) → registry_inv (fst (handle st request)).
Proof. apply handle_inv. Qed.

Lemma New_ring maximum : ring_inv (NewRemoteOutputServiceDirectory maximum) [].
Proof.
  split.
  - apply NoDup_singleton.
  - intros [|[|i]] a b Ha Hb; cbn in Ha, Hb; by simplify_eq.
  - constructor.
  - intros p. split; [by intros ?%elem_of_nil|].
    intros [ob Hob]. cbn in Hob. by rewrite lookup_empty in Hob.
  - intros p c Hc. unfold cookieOf in Hc. cbn in Hc.
    by rewrite lookup_empty in Hc.
  - intros p q c Hc. unfold cookieOf in Hc. cbn in Hc.
    by rewrite lookup_empty in Hc.
  - done.
Qed.

(** Along a run that is too short for the change counter to wrap
    around: the ring stays a ring, every object keeps its cookie, and
    objects that are new have cookies that are not below the change
    counter from before. *)
Lemma run_ring requests st l (n : Z) :
  registry_inv (fst st) → ring_inv (fst st) l →
  (changeID (fst st) ≤ n)%Z → (n + Z.of_nat (length requests) < 2 ^ 64)%Z →
  registry_inv (fst (run requests st)) ∧
  (∃ l', ring_inv (fst (run requests st)) l') ∧
  (changeID (fst st) ≤ changeID (fst (run requests st))
   ≤ n + Z.of_nat (length requests))%Z ∧
  (∀ p c, cookieOf (fst st) p = Some c →
          cookieOf (fst (run requests st)) p = Some c) ∧
  (∀ p c, cookieOf (fst (run requests st)) p = Some c →
          cookieOf (fst st) p = None → (changeID (fst st) ≤ c)%Z).
Proof.
  revert st l n. induction requests as [|request requests IH];
    intros st l n Hreg Hring Hn Hbound.
  - cbn [run foldl length]. refine (conj _ (conj _ (conj _ (conj _ _)))).
    + done.
    + by exists l.
    + lia.
    + done.
    + congruence.
  - cbn [length] in Hbound.
    pose proof (handle_ringStep st request Hreg) as Hstep.
    destruct (ringStep_inv _ _ l Hreg Hring ltac:(lia) Hstep)
      as ([l1 Hring1] & Hch1 & Hkeep1 & Hnew1).
    pose proof (handle_inv st request Hreg) as Hreg1.
    destruct (IH (handle st request) l1 (n + 1)%Z Hreg1 Hring1 ltac:(lia)
                ltac:(lia)) as (Hreg2 & Hring2 & Hch2 & Hkeep2 & Hnew2).
    change (run (request :: requests) st)
      with (run requests (handle st request)).
    cbn [length].
    refine (conj _ (conj _ (conj _ (conj _ _)))).
    + done.
    + done.
    + lia.
    + intros p c Hc. by apply Hkeep2, Hkeep1.
    + intros p c Hc Hnone.
      destruct (cookieOf (fst (handle st request)) p) as [c1|] eqn:Hc1.
      * pose proof (Hkeep2 _ _ Hc1) as Hc2. rewrite Hc in Hc2.
        injection Hc2 as <-. by eapply Hnew1.
      * pose proof (Hnew2 _ _ Hc Hc1). lia.
Qed.

(** *** Walking the ring *)

Lemma links_tail d x L : links d (x :: L) → links d L.
Proof. intros Hl i a b Ha Hb. by apply (Hl (S i)). Qed.

Lemma links_walks d x y l :
  links d (x :: l ++ [sentinel]) →
  (∀ q, q ∈ l → q ≠ sentinel ∧ is_Some (heap d !! q)) →
  getNext d x = Some y → walks d y l.
Proof.
  revert x y. induction l as [|q l IH]; intros x y Hlinks Hin Hy.
  - destruct (Hlinks 0 x sentinel eq_refl eq_refl) as [Hn _]. cbn. congruence.
  - destruct (Hlinks 0 x q eq_refl eq_refl) as [Hn _].
    destruct (Hin q) as [Hq [s Hs]]; [by left|].
    cbn [walks]. split_and!; [congruence|done|]. exists s. split; [done|].
    apply (IH q).
    + by eapply links_tail.
    + intros q' Hq'. apply Hin. by right.
    + unfold getNext. by rewrite decide_False, Hs.
Qed.

Lemma ring_walks d l :
  registry_inv d → ring_inv d l → walks d (outputPaths_next d) l.
Proof.
  intros Hreg Hring. apply (links_walks d sentinel).
  - apply (ring_links _ _ Hring).
  - intros q Hq. split; [by eapply ring_not_sentinel|by eapply ring_heap].
  - unfold getNext. by rewrite decide_True.
Qed.

Lemma ring_length d l :
  registry_inv d → ring_inv d l → length l ≤ size (heap d).
Proof.
  intros Hreg Hring. pose proof (ring_NoDup _ _ Hring) as Hnd.
  apply NoDup_cons in Hnd as [_ Hnd].
  rewrite <- (size_list_to_set (C := gset ptr) l Hnd), <- size_dom.
  apply subseteq_size. intros p Hp%elem_of_list_to_set.
  apply elem_of_dom. by eapply ring_heap.
Qed.

Lemma walks_ringFrom d p l fuel :
  walks d p l → length l ≤ fuel → ringFrom fuel d p = l.
Proof.
  revert p l. induction fuel as [|fuel IH]; intros p l Hw Hl.
  - destruct l; [done|cbn in Hl; lia].
  - destruct l as [|q l]; cbn [walks] in Hw.
    + subst p. done.
    + destruct Hw as (-> & Hq & s & Hs & Hw). cbn [ringFrom].
      rewrite decide_False, Hs by done. f_equal. apply IH; [done|].
      cbn in Hl. lia.
Qed.

Lemma ringOf_ring d l : registry_inv d → ring_inv d l → ringOf d = l.
Proof.
  intros Hreg Hring. apply walks_ringFrom; [by apply ring_walks|].
  by apply ring_length.
Qed.

Lemma cookieAt_heap d p s : heap d !! p = Some s → cookieAt d p = cookie s.
Proof. intros Hs. unfold cookieAt, cookieOf. by rewrite Hs. Qed.

Lemma walks_seek d firstCookie p l fuel :
  walks d p l → length l < fuel →
  ∃ p', VirtualReadDir_seek fuel d firstCookie p = Some p' ∧
        walks d p' (seekList d firstCookie l).
Proof.
  revert p l. induction fuel as [|fuel IH]; intros p l Hw Hl; [lia|].
  destruct l as [|q l]; cbn [walks] in Hw.
  - subst p. exists sentinel. done.
  - destruct Hw as (-> & Hq & s & Hs & Hw).
    cbn [VirtualReadDir_seek seekList].
    rewrite decide_False, Hs, (cookieAt_heap _ _ _ Hs) by done.
    case_bool_decide.
    + exists q. split; [done|]. cbn [walks]. split_and!; [done..|].
      by exists s.
    + apply IH; [done|]. cbn in Hl. lia.
Qed.

Lemma walks_report {R} (ReportEntry : Z → Component → PrepopulatedDirectory →
                                      Attributes → R → bool * R)
    d w requested p l fuel r :
  walks d p l → length l < fuel →
  VirtualReadDir_report ReportEntry fuel d w requested p r
  = Some (reportList ReportEntry d w requested l r).
Proof.
  revert p l r. induction fuel as [|fuel IH]; intros p l r Hw Hl; [lia|].
  destruct l as [|q l]; cbn [walks] in Hw.
  - subst p. done.
  - destruct Hw as (-> & Hq & s & Hs & Hw).
    cbn [VirtualReadDir_report reportList].
    rewrite decide_False, Hs by done. cbv zeta.
    destruct (ReportEntry _ _ _ _ r) as [[] r']; [|done].
    apply IH; [done|]. cbn in Hl. lia.
Qed.

Lemma seekList_length d firstCookie l :
  length (seekList d firstCookie l) ≤ length l.
Proof.
  induction l as [|p l IH]; [done|]. cbn [seekList].
  case_bool_decide; cbn [length]; lia.
Qed.

Lemma seekList_sorted d firstCookie l :
  StronglySorted (λ p q, (cookieAt d p < cookieAt d q)%Z) l →
  seekList d firstCookie l
  = filter (λ p, (firstCookie ≤ cookieAt d p)%Z) l.
Proof.
  induction 1 as [|p l Hl IH Hp]; [done|]. cbn [seekList].
  case_bool_decide as Hc.
  - rewrite filter_cons_True by lia. f_equal. symmetry. apply filter_all.
    eapply Forall_impl; [done|]. intros q Hq. cbn in Hq. lia.
  - rewrite filter_cons_False by lia. done.
Qed.

(** [VirtualReadDir] on a ring: it always comes back, and it offers
    the output paths at or after the cookie, in the order of the
    ring. *)
Lemma VirtualReadDir_ring {R}
    (ReportEntry : Z → Component → PrepopulatedDirectory → Attributes →
                   R → bool * R) d l w firstCookie requested r :
  registry_inv d → ring_inv d l →
  VirtualReadDir ReportEntry d w firstCookie requested r
  = Some (reportList ReportEntry d w requested
            (filter (λ p, (firstCookie ≤ cookieAt d p)%Z) l) r).
Proof.
  intros Hreg Hring. unfold VirtualReadDir.
  pose proof (ring_walks _ _ Hreg Hring) as Hw.
  pose proof (ring_length _ _ Hreg Hring) as Hl.
  destruct (walks_seek d firstCookie _ l (S (size (heap d))) Hw ltac:(lia))
    as (p' & -> & Hw').
  rewrite <- (seekList_sorted d firstCookie l (ring_sorted _ _ Hring)).
  apply walks_report; [done|].
  pose proof (seekList_length d firstCookie l). lia.
Qed.

Lemma ring_cookieOf d l p :
  registry_inv d → ring_inv d l → p ∈ l →
  cookieOf d p = Some (cookieAt d p) ∧ (0 ≤ cookieAt d p < changeID d)%Z.
Proof.
  intros Hreg Hring Hp. destruct (ring_heap _ _ _ Hreg Hring Hp) as [s Hs].
  rewrite (cookieAt_heap _ _ _ Hs).
  assert (cookieOf d p = Some (cookie s)) as Hc.
  { unfold cookieOf. by rewrite Hs. }
  split; [done|]. by apply (ring_cookie_bound _ _ Hring p).
Qed.

(** C4, as amended.  Take a run of requests that is shorter than
    [2 ^ 64], so that the change counter has not wrapped around, and
    let [d] be the registry after the first part of the run and [d']
    the registry at its end.  Then:
    - along the ring of [d] the cookies go up strictly, and the ring
      holds the output paths that are registered, no others;
    - no two objects that were ever made have the same cookie, and an
      object keeps its cookie for the rest of the run;
    - [VirtualReadDir] returns, and it offers to the reporter the
      output paths of the ring whose cookie is at least [firstCookie],
      in the order of the ring, each with its cookie plus one, until
      the reporter refuses one;
    - an enumeration of [d'] that starts at the cookie that was
      reported with the output path [p] of [d] (its cookie plus one)
      offers no output path that the ring of [d] had at or before [p],
      it offers every output path that came after [p] in the ring of
      [d] and is still there, and it offers every output path that was
      made since. *)
Theorem cookies_and_enumeration maximum w requests later :
  (Z.of_nat (length requests + length later) < 2 ^ 64)%Z →
  let st := run requests (NewRemoteOutputServiceDirectory maximum, w) in
  let st' := run later st in
  let d := fst st in
  let d' := fst st' in
  StronglySorted (λ p q, (cookieAt d p < cookieAt d q)%Z) (ringOf d) ∧
  (∀ p, p ∈ ringOf d ↔ ∃ ob, outputBaseIDs d !! ob = Some p) ∧
  (∀ p q c, cookieOf d p = Some c → cookieOf d q = Some c → p = q) ∧
  (∀ p c, cookieOf d p = Some c → cookieOf d' p = Some c) ∧
  (∀ R (ReportEntry : Z → Component → PrepopulatedDirectory → Attributes →
                      R → bool * R) firstCookie requested r,
     VirtualReadDir ReportEntry d (snd st) firstCookie requested r
     = Some (reportList ReportEntry d (snd st) requested
               (filter (λ p, (firstCookie ≤ cookieAt d p)%Z) (ringOf d)) r)) ∧
  (∀ p, p ∈ ringOf d →
     let resumed :=
       filter (λ q, (uint64_add (cookieAt d p) 1 ≤ cookieAt d' q)%Z)
              (ringOf d') in
     (∀ q, q ∈ resumed → q ∈ ringOf d → (cookieAt d p < cookieAt d q)%Z) ∧
     (∀ q, q ∈ ringOf d → q ∈ ringOf d' →
           (cookieAt d p < cookieAt d q)%Z → q ∈ resumed) ∧
     (∀ q, q ∈ ringOf d' → cookieOf d q = None → q ∈ resumed)).
Proof.
  intros Hbound st st' d d'.
  destruct (run_ring requests (NewRemoteOutputServiceDirectory maximum, w)
              [] 0%Z (New_inv maximum) (New_ring maximum) ltac:(done)
              ltac:(lia)) as (Hreg & [l Hring] & Hch & _ & _).
  fold st in Hreg, Hring, Hch. fold d in Hreg, Hring, Hch.
  destruct (run_ring later st l (Z.of_nat (length requests)) Hreg Hring
              ltac:(fold d; lia) ltac:(lia))
    as (Hreg' & [l' Hring'] & Hch' & Hkeep & Hnew).
  fold st' in Hreg', Hring', Hch', Hkeep, Hnew.
  fold d in Hkeep, Hnew, Hch'. fold d' in Hreg', Hring', Hch', Hkeep, Hnew.
  rewrite (ringOf_ring d l Hreg Hring), (ringOf_ring d' l' Hreg' Hring').
  split_and!.
  - apply (ring_sorted _ _ Hring).
  - apply (ring_registered _ _ Hring).
  - apply (ring_cookie_inj _ _ Hring).
  - done.
  - intros R ReportEntry firstCookie requested r.
    by apply VirtualReadDir_ring.
  - intros p Hp resumed.
    destruct (ring_cookieOf d l p Hreg Hring Hp) as [Hcp Hbp].
    assert (uint64_add (cookieAt d p) 1 = (cookieAt d p + 1)%Z) as Hnext.
    { apply uint64_add_small; lia. }
    assert (Hstable : ∀ q, q ∈ l → cookieAt d' q = cookieAt d q).
    { intros q Hq. destruct (ring_cookieOf d l q Hreg Hring Hq) as [Hcq _].
      apply Hkeep in Hcq. unfold cookieAt at 1. by rewrite Hcq. }
    subst resumed. split_and!.
    + intros q [Hq _]%list_elem_of_filter Hql.
      rewrite Hnext, Hstable in Hq by done. lia.
    + intros q Hq Hq' Hlt. apply list_elem_of_filter. split; [|done].
      rewrite Hnext, Hstable by done. lia.
    + intros q Hq' Hnone. apply list_elem_of_filter. split; [|done].
      destruct (ring_cookieOf d' l' q Hreg' Hring' Hq') as [Hcq _].
      pose proof (Hnew _ _ Hcq Hnone). lia.
Qed.
End Ring.

Section CleanKnown.
Context `{Collaborators}.

Lemma Clean_known request ob p s d w w1 :
  NewComponent (clean_OutputBaseId request) = Some ob →
  outputBaseIDs d !! ob = Some p → heap d !! p = Some s →
  RemoveAllChildren (rootDirectory s) true w = (Ok tt, w1) →
  Clean request (d, w) = (Ok tt, (cleaned p ob s d, NotifyRemoval ob w1)).
Proof.
  intros Hname Hob Hs Hremove. unfold Clean. rewrite Hname.
  rewrite bind_eq. cbn [this fst]. rewrite Hob, bind_eq.
  unfold onThis at 1, deref. rewrite Hs. rewrite bind_eq.
  unfold lift at 1. rewrite Hremove. rewrite bind_eq. unfold onThis.
  rewrite (Clean_commit_eq _ _ _ s) by done. unfold lift, effect. done.
Qed.

Lemma allocations_unlinked d p : allocations (unlinked p d) = allocations d.
Proof.
  unfold unlinked. destruct (heap d !! p) as [s|]; [|done]. cbv zeta.
  destruct (heap (setNext _ _ d) !! p);
    by rewrite ?(proj1 (proj2 (proj2 (proj2 (fields_setPrevious _ _ _))))),
               ?(proj1 (proj2 (proj2 (proj2 (fields_setNext _ _ _))))).
Qed.

Lemma outputBaseIDs_unlinked d p :
  outputBaseIDs (unlinked p d) = outputBaseIDs d.
Proof.
  unfold unlinked. destruct (heap d !! p) as [s|]; [|done]. cbv zeta.
  destruct (heap (setNext _ _ d) !! p);
    by rewrite ?(proj1 (fields_setPrevious _ _ _)),
               ?(proj1 (fields_setNext _ _ _)).
Qed.

Lemma buildIDs_unlinked d p : buildIDs (unlinked p d) = buildIDs d.
Proof.
  unfold unlinked. destruct (heap d !! p) as [s|]; [|done]. cbv zeta.
  destruct (heap (setNext _ _ d) !! p);
    by rewrite ?(proj1 (proj2 (fields_setPrevious _ _ _))),
               ?(proj1 (proj2 (fields_setNext _ _ _))).
Qed.
End CleanKnown.

(** ** Build sessions and the registry *)

Section Session.
Context `{Collaborators}.

Lemma bsOf_unlinked d p q : bsOf (unlinked p d) q = bsOf d q.
Proof.
  unfold unlinked. destruct (heap d !! p) as [s|]; [|done]. cbv zeta.
  destruct (heap (setNext _ _ d) !! p); by obs.
Qed.

Lemma obOf_unlinked d p q : obOf (unlinked p d) q = obOf d q.
Proof.
  unfold unlinked. destruct (heap d !! p) as [s|]; [|done]. cbv zeta.
  destruct (heap (setNext _ _ d) !! p); by obs.
Qed.

Lemma cleaned_outputBaseIDs p ob s d :
  outputBaseIDs (cleaned p ob s d) = delete ob (outputBaseIDs d).
Proof.
  unfold cleaned. cbv zeta.
  destruct (buildState_ s); fields; wsimpl; by rewrite outputBaseIDs_unlinked.
Qed.

Lemma cleaned_buildIDs p ob s d :
  buildIDs (cleaned p ob s d)
  = match buildState_ s with
    | Some bs => delete (id bs) (buildIDs d)
    | None => buildIDs d
    end.
Proof.
  unfold cleaned. cbv zeta.
  destruct (buildState_ s); fields; wsimpl; by rewrite buildIDs_unlinked.
Qed.

Lemma cleaned_changeID p ob s d :
  changeID (cleaned p ob s d) = uint64_add (changeID d) 1.
Proof.
  unfold cleaned. cbv zeta. destruct (buildState_ s); fields; by wsimpl.
Qed.

Lemma cleaned_bsOf p ob s d q :
  bsOf (cleaned p ob s d) q
  = match buildState_ s with
    | Some _ => if decide (p = q) then (λ _, None) <$> bsOf d q else bsOf d q
    | None => bsOf d q
    end.
Proof.
  unfold cleaned. cbv zeta.
  destruct (buildState_ s); obs; by rewrite bsOf_unlinked; obs.
Qed.

Lemma cleaned_obOf p ob s d q : obOf (cleaned p ob s d) q = obOf d q.
Proof.
  unfold cleaned. cbv zeta.
  destruct (buildState_ s); obs; by rewrite obOf_unlinked; obs.
Qed.

Lemma closeSession_registered d p bs :
  sessions_registered d → bsOf d p = Some (Some bs) →
  sessions_registered (closeSession p bs d).
Proof.
  intros Hreg Hbs q bs'. rewrite closeSession_buildIDs.
  unfold closeSession. obs. case_decide as Hpq.
  { subst q. by rewrite Hbs. }
  intros Hq. rewrite lookup_delete_ne; [by apply Hreg|].
  intros Heq. apply Hreg in Hq. apply Hreg in Hbs. congruence.
Qed.

Lemma openSession_registered d p nb :
  sessions_registered d → buildIDs d !! id nb = None →
  sessions_registered (openSession p nb d).
Proof.
  intros Hreg Hnb q bs'. rewrite openSession_buildIDs.
  unfold openSession. obs. case_decide as Hpq.
  - subst q. destruct (bsOf d p); [|done]. simpl. intros [= <-].
    by rewrite lookup_insert_eq.
  - intros Hq. apply Hreg in Hq. rewrite lookup_insert_ne; [done|].
    intros Heq. congruence.
Qed.

Lemma linkedAtTail_registered d root factory ob c :
  sessions_registered d →
  sessions_registered (with_changeID c (linkedAtTail root factory ob d)).
Proof.
  intros Hreg q bs'. obs. rewrite linkedAtTail_bsOf. wsimpl.
  rewrite (proj1 (proj2 (linkedAtTail_fields _ _ _ _))).
  case_decide; [done|]. apply Hreg.
Qed.

Lemma cleaned_registered d p ob s :
  sessions_registered d → heap d !! p = Some s →
  sessions_registered (cleaned p ob s d).
Proof.
  intros Hreg Hs q bs'. rewrite cleaned_bsOf, cleaned_buildIDs.
  destruct (buildState_ s) as [bs|] eqn:Hbs; [|apply Hreg].
  assert (bsOf d p = Some (Some bs)) as Hp.
  { unfold bsOf. by rewrite Hs, <- Hbs. }
  case_decide as Hpq.
  { subst q. by rewrite Hp. }
  intros Hq. rewrite lookup_delete_ne; [by apply Hreg|].
  intros Heq. apply Hreg in Hq. apply Hreg in Hp. congruence.
Qed.

Lemma Clean_commit_registered p ob d :
  registry_inv d → sessions_registered d →
  sessions_registered (snd (Clean_commit p ob d)).
Proof.
  intros Hinv Hreg.
  destruct (decide (outputBaseIDs d !! ob = Some p)) as [Hob|Hob];
    [|by rewrite Clean_commit_skip].
  pose proof (inv_outputBase d Hinv ob p Hob) as Hp.
  unfold obOf in Hp. destruct (heap d !! p) as [s|] eqn:Hs; [|done].
  rewrite (Clean_commit_eq _ _ _ s) by done. by apply cleaned_registered.
Qed.

Lemma StartBuild_locked_registered b ob f swf d w :
  registry_inv d → sessions_registered d →
  sessions_registered (fst (snd (StartBuild_locked b ob f swf (d, w)))).
Proof.
  intros Hinv Hreg.
  destruct (buildIDs d !! b) as [p|] eqn:Hb.
  { by rewrite (StartBuild_locked_known _ _ _ _ _ _ _ Hb). }
  destruct (outputBaseIDs d !! ob) as [p|] eqn:Hob.
  - pose proof (inv_outputBase d Hinv _ _ Hob) as Hp. unfold obOf in Hp.
    destruct (heap d !! p) as [s|] eqn:Hs; [|done].
    rewrite (StartBuild_locked_reuse _ _ _ _ _ _ _ _ Hb Hob Hs). cbn [fst snd].
    apply openSession_registered.
    + destruct (buildState_ s) as [bs|] eqn:Hbs; [|done].
      apply closeSession_registered; [done|]. unfold bsOf. by rewrite Hs, <- Hbs.
    + cbn [id]. destruct (buildState_ s) as [bs|]; [|done].
      rewrite closeSession_buildIDs.
      destruct (decide (id bs = b)) as [->|Hne];
        [by rewrite lookup_delete_eq|by rewrite lookup_delete_ne].
  - rewrite (StartBuild_locked_fresh _ _ _ _ _ _ Hb Hob).
    destruct (NewCASFileFactory w) as [factory w1].
    destruct (StartInitialBuild ob factory f w1) as [root w2]. cbn [fst snd].
    apply openSession_registered.
    + by apply linkedAtTail_registered.
    + cbn [id]. wsimpl.
      by rewrite (proj1 (proj2 (linkedAtTail_fields _ _ _ _))).
Qed.

Lemma FinalizeBuild_registered req d w :
  registry_inv d → sessions_registered d →
  sessions_registered (fst (snd (FinalizeBuild req (d, w)))).
Proof.
  intros Hinv Hreg. destruct req as [b].
  destruct (buildIDs d !! b) as [p|] eqn:Hb.
  - destruct (registry_inv_build d b p Hinv Hb) as (s & bs & Hs & Hbs & _).
    rewrite (FinalizeBuild_known _ _ _ _ _ _ Hb Hs Hbs). cbn [fst snd].
    apply closeSession_registered; [done|]. unfold bsOf. by rewrite Hs, <- Hbs.
  - by rewrite (FinalizeBuild_unknown _ _ _ Hb).
Qed.

Lemma handle_registered st request :
  registry_inv (fst st) → sessions_registered (fst st) →
  sessions_registered (fst (handle st request)).
Proof.
  destruct st as [d w]. cbn [fst]. intros Hinv Hreg.
  destruct request as [r|r|r|r|r]; cbn [handle].
  - destruct (Clean_registry r d w) as [->|(p & ob & ->)]; [done|].
    by apply Clean_commit_registered.
  - destruct (StartBuild_registry r d w)
      as [->|(ob & swf & f & suffix & _ & ->)]; [done|].
    by apply StartBuild_locked_registered.
  - by rewrite BatchCreate_registry.
  - by rewrite BatchStat_registry.
  - by apply FinalizeBuild_registered.
Qed.

Lemma run_registered requests st :
  registry_inv (fst st) → sessions_registered (fst st) →
  registry_inv (fst (run requests st)) ∧
  sessions_registered (fst (run requests st)).
Proof.
  revert st. induction requests as [|request requests IH]; intros st Hinv Hreg.
  { done. }
  cbn [run foldl]. apply IH.
  - by apply handle_inv.
  - by apply handle_registered.
Qed.

Lemma New_registered maximum :
  sessions_registered (NewRemoteOutputServiceDirectory maximum).
Proof. intros p bs. unfold bsOf. cbn. by rewrite lookup_empty. Qed.

Lemma reachable maximum w requests :
  registry_inv (fst (run requests (NewRemoteOutputServiceDirectory maximum, w)))
  ∧ sessions_registered
      (fst (run requests (NewRemoteOutputServiceDirectory maximum, w))).
Proof. apply run_registered; [apply New_inv|apply New_registered]. Qed.

(** X1.  A build state never outlives its session: in every state that
    requests can lead to, an output path whose build state is not nil
    is in the build ID map under the ID of that build state, and in the
    output base map under its own output base ID. *)
Theorem build_states_registered maximum w requests :
  let d := fst (run requests (NewRemoteOutputServiceDirectory maximum, w)) in
  ∀ p s bs,
    heap d !! p = Some s → buildState_ s = Some bs →
    buildIDs d !! id bs = Some p ∧
    outputBaseIDs d !! outputBaseID s = Some p.
Proof.
  intros d p s bs Hs Hbs.
  destruct (reachable maximum w requests) as [Hinv Hreg]. fold d in Hinv, Hreg.
  assert (buildIDs d !! id bs = Some p) as Hb.
  { apply Hreg. unfold bsOf. by rewrite Hs, <- Hbs. }
  split; [done|].
  destruct (registry_inv_build d _ _ Hinv Hb) as (s' & bs' & Hs' & _ & _ & Hob).
  congruence.
Qed.

Lemma Clean_registered_eq request ob p s d w :
  NewComponent (clean_OutputBaseId request) = Some ob →
  outputBaseIDs d !! ob = Some p → heap d !! p = Some s →
  Clean request (d, w)
  = match RemoveAllChildren (rootDirectory s) true w with
    | (Ok _, w1) => (Ok tt, (cleaned p ob s d, NotifyRemoval ob w1))
    | (Err e, w1) => (Err e, (d, w1))
    | (Panic, w1) => (Panic, (d, w1))
    end.
Proof.
  intros Hname Hob Hs. unfold Clean. rewrite Hname.
  rewrite bind_eq. cbn [this fst]. rewrite Hob, bind_eq.
  unfold onThis at 1, deref. rewrite Hs. rewrite bind_eq.
  unfold lift at 1.
  destruct (RemoveAllChildren (rootDirectory s) true w) as [[[]|e|] w1];
    [|done|done].
  rewrite bind_eq. unfold onThis.
  rewrite (Clean_commit_eq _ _ _ s) by done. unfold lift, effect. done.
Qed.

Lemma Clean_unregistered request ob d w :
  NewComponent (clean_OutputBaseId request) = Some ob →
  outputBaseIDs d !! ob = None →
  Clean request (d, w)
  = (fst (OutputPathFactory_Clean ob w),
     (d, snd (OutputPathFactory_Clean ob w))).
Proof.
  intros Hname Hob. unfold Clean. rewrite Hname.
  rewrite bind_eq. cbn [this fst]. rewrite Hob. unfold lift.
  by destruct (OutputPathFactory_Clean ob w).
Qed.

(** X2.  A [Clean] that returns an error has not touched the registry:
    the two maps, the ring, the change counter and the build states
    are as before.  (The tree of the output path may have lost
    children.) *)
Theorem Clean_failure_keeps_registry request d w e :
  fst (Clean request (d, w)) = Err e →
  fst (snd (Clean request (d, w))) = d.
Proof.
  destruct (NewComponent (clean_OutputBaseId request)) as [ob|] eqn:Hname.
  2: { unfold Clean. by rewrite Hname. }
  destruct (outputBaseIDs d !! ob) as [p|] eqn:Hob.
  2: { by rewrite (Clean_unregistered _ ob). }
  destruct (heap d !! p) as [s|] eqn:Hs.
  - rewrite (Clean_registered_eq _ ob p s) by done.
    by destruct (RemoveAllChildren (rootDirectory s) true w) as [[[]| |] w1].
  - unfold Clean. rewrite Hname. rewrite bind_eq. cbn [this fst].
    rewrite Hob, bind_eq. unfold onThis at 1, deref. by rewrite Hs.
Qed.

Lemma getOutputPathAndBuildState_known b d p s :
  buildIDs d !! b = Some p → heap d !! p = Some s →
  getOutputPathAndBuildState b d = (Ok (s, buildState_ s), d).
Proof.
  intros Hb Hs. unfold getOutputPathAndBuildState. rewrite bind_eq.
  cbn [get]. rewrite Hb, bind_eq. unfold deref. by rewrite Hs.
Qed.

(** X3.  In a state that requests can lead to, a [Clean] that succeeds
    on a registered output base takes it out of the registry: its name
    is gone from the output base map (so [VirtualLookup] answers
    ENOENT), every build ID of that output path is gone from the build
    ID map and its build state is nil (so [BatchCreate] and
    [BatchStat] with such a build ID fail with FailedPrecondition), and
    the change counter has moved by one.  Nothing else changes in the
    two maps. *)
Theorem Clean_removes_output_base maximum w0 requests request ob p :
  let st := run requests (NewRemoteOutputServiceDirectory maximum, w0) in
  NewComponent (clean_OutputBaseId request) = Some ob →
  outputBaseIDs (fst st) !! ob = Some p →
  fst (Clean request st) = Ok tt →
  let st' := snd (Clean request st) in
  outputBaseIDs (fst st') = delete ob (outputBaseIDs (fst st)) ∧
  (∀ b, buildIDs (fst st') !! b
        = if decide (buildIDs (fst st) !! b = Some p) then None
          else buildIDs (fst st) !! b) ∧
  bsOf (fst st') p = Some None ∧
  changeID (fst st') = uint64_add (changeID (fst st)) 1 ∧
  (∀ requested w,
     VirtualLookup ob requested w (fst st')
     = (Ok (None, StatusErrNoEnt), fst st')) ∧
  (∀ create stat,
     buildIDs (fst st) !! create_BuildId create = Some p →
     buildIDs (fst st) !! stat_BuildId stat = Some p →
     BatchCreate create st' = (Err notRunning, st') ∧
     BatchStat stat st' = (Err notRunning, st')).
Proof.
  intros st Hname Hob. destruct (reachable maximum w0 requests) as [Hinv Hreg].
  fold st in Hinv, Hreg. destruct st as [d w]. cbn [fst] in *.
  pose proof (inv_outputBase d Hinv ob p Hob) as Hp.
  unfold obOf in Hp. destruct (heap d !! p) as [s|] eqn:Hs; [|done].
  rewrite (Clean_registered_eq _ ob p s) by done.
  destruct (RemoveAllChildren (rootDirectory s) true w) as [[[]|e|] w1];
    [|done|done].
  intros _. cbn [fst snd].
  assert (Hbuild : ∀ b, buildIDs (cleaned p ob s d) !! b
            = if decide (buildIDs d !! b = Some p) then None
              else buildIDs d !! b).
  { intros b. rewrite cleaned_buildIDs.
    destruct (buildState_ s) as [bs|] eqn:Hbs.
    - assert (buildIDs d !! id bs = Some p) as Hid.
      { apply Hreg. unfold bsOf. by rewrite Hs, <- Hbs. }
      case_decide as Hb.
      + destruct (registry_inv_build d b p Hinv Hb) as (s' & bs' & ? & ? & ? & _).
        assert (id bs = b) as -> by congruence. by rewrite lookup_delete_eq.
      + rewrite lookup_delete_ne; [done|]. intros <-. done.
    - case_decide as Hb; [|done].
      destruct (registry_inv_build d b p Hinv Hb) as (s' & bs' & ? & ? & _).
      congruence. }
  split_and!.
  - apply cleaned_outputBaseIDs.
  - done.
  - rewrite cleaned_bsOf. unfold bsOf. rewrite Hs. cbn.
    destruct (buildState_ s); [by rewrite decide_True|done].
  - apply cleaned_changeID.
  - intros requested w'. unfold VirtualLookup. rewrite bind_eq. cbn [get].
    by rewrite cleaned_outputBaseIDs, lookup_delete_eq.
  - intros create stat Hc Hst. split.
    + apply BatchCreate_notRunning. rewrite Hbuild. by rewrite decide_True.
    + apply BatchStat_notRunning. rewrite Hbuild. by rewrite decide_True.
Qed.

Lemma closeSession_outputBaseIDs p bs d :
  outputBaseIDs (closeSession p bs d) = outputBaseIDs d.
Proof. unfold closeSession. by fields. Qed.

Lemma openSession_outputBaseIDs p nb d :
  outputBaseIDs (openSession p nb d) = outputBaseIDs d.
Proof. unfold openSession. wsimpl. by fields. Qed.

Lemma closeSession_changeID p bs d :
  changeID (closeSession p bs d) = changeID d.
Proof. unfold closeSession. by fields. Qed.

(** X4.  In a state that requests can lead to, [FinalizeBuild] with a
    build ID that has a session ends it: the output path is told that
    the build is over, the build ID leaves the build ID map and the
    build state becomes nil, so [BatchCreate] and [BatchStat] with
    that build ID fail with FailedPrecondition from then on.  The
    output path stays registered and the change counter does not
    move. *)
Theorem FinalizeBuild_ends_session maximum w0 requests b p :
  let st := run requests (NewRemoteOutputServiceDirectory maximum, w0) in
  buildIDs (fst st) !! b = Some p →
  let st' := snd (FinalizeBuild {| finalize_BuildId := b |} st) in
  (∃ s bs,
     heap (fst st) !! p = Some s ∧ buildState_ s = Some bs ∧
     snd st' = OutputPath_FinalizeBuild (rootDirectory s) (digestFunction bs)
                 (snd st)) ∧
  buildIDs (fst st') = delete b (buildIDs (fst st)) ∧
  bsOf (fst st') p = Some None ∧
  outputBaseIDs (fst st') = outputBaseIDs (fst st) ∧
  changeID (fst st') = changeID (fst st) ∧
  (∀ create stat,
     create_BuildId create = b → stat_BuildId stat = b →
     BatchCreate create st' = (Err notRunning, st') ∧
     BatchStat stat st' = (Err notRunning, st')).
Proof.
  intros st Hb. destruct (reachable maximum w0 requests) as [Hinv Hreg].
  fold st in Hinv, Hreg. destruct st as [d w]. cbn [fst snd] in *.
  destruct (registry_inv_build d b p Hinv Hb) as (s & bs & Hs & Hbs & Hid & _).
  rewrite (FinalizeBuild_known _ _ _ _ _ _ Hb Hs Hbs). cbn [fst snd].
  assert (buildIDs (closeSession p bs d) = delete b (buildIDs d)) as Hbuild.
  { by rewrite closeSession_buildIDs, Hid. }
  split_and!.
  - by exists s, bs.
  - done.
  - unfold closeSession. obs. rewrite decide_True by done.
    unfold bsOf. by rewrite Hs.
  - apply closeSession_outputBaseIDs.
  - apply closeSession_changeID.
  - intros create stat <- Hst. split.
    + apply BatchCreate_notRunning. by rewrite Hbuild, lookup_delete_eq.
    + apply BatchStat_notRunning. rewrite Hbuild, Hst. by rewrite lookup_delete_eq.
Qed.

Lemma StartBuild_registry_prepared request d w ob swf f suffix :
  StartBuild_prepare request = Ok (ob, swf, f, suffix) →
  fst (snd (StartBuild request (d, w)))
  = fst (snd (StartBuild_locked (start_BuildId request) ob f swf (d, w))).
Proof.
  intros Hprep. rewrite StartBuild_eq, Hprep.
  destruct (StartBuild_locked _ _ _ _ _) as [[p|e|] [d' w']]; [|done|done].
  destruct (heap d' !! p) as [s|]; [|done].
  by destruct (filterMissingChildren _ _ _) as [[[]|e|] [st'' w'']].
Qed.

(** X5.  In a state that requests can lead to, a [StartBuild] whose
    request is in order and whose build ID has no session opens one,
    whatever the pass that filters missing blobs returns afterwards:
    the build ID is in the build ID map, it points to the output path
    that is registered under the output base of the request, and
    [getOutputPathAndBuildState] hands out that output path with a
    build state that holds the build ID, the digest function and the
    scope walker factory of the request.  Other output bases keep
    their entries and their sessions. *)
Theorem StartBuild_opens_session maximum w0 requests request ob swf f
    suffix :
  let st := run requests (NewRemoteOutputServiceDirectory maximum, w0) in
  let b := start_BuildId request in
  StartBuild_prepare request = Ok (ob, swf, f, suffix) →
  buildIDs (fst st) !! b = None →
  let st' := snd (StartBuild request st) in
  ∃ p s,
    buildIDs (fst st') !! b = Some p ∧
    outputBaseIDs (fst st') !! ob = Some p ∧
    getOutputPathAndBuildState b (fst st')
    = (Ok (s, Some {| id := b; digestFunction := f;
                      scopeWalkerFactory := swf |}), fst st') ∧
    outputBaseID s = ob ∧
    (∀ ob', ob' ≠ ob →
       outputBaseIDs (fst st') !! ob' = outputBaseIDs (fst st) !! ob') ∧
    (∀ b' q, buildIDs (fst st) !! b' = Some q →
             outputBaseIDs (fst st) !! ob ≠ Some q →
             buildIDs (fst st') !! b' = Some q).
Proof.
  intros st b Hprep Hb. destruct (reachable maximum w0 requests) as [Hinv Hreg].
  fold st in Hinv, Hreg. destruct st as [d w]. cbn [fst snd] in *.
  rewrite (StartBuild_registry_prepared _ _ _ _ _ _ _ Hprep). fold b.
  set (nb := {| id := b; digestFunction := f; scopeWalkerFactory := swf |}).
  assert (Hfinish : ∀ d' p,
    buildIDs d' !! b = Some p → bsOf d' p = Some (Some nb) →
    obOf d' p = Some ob →
    ∃ s, getOutputPathAndBuildState b d' = (Ok (s, Some nb), d') ∧
         outputBaseID s = ob).
  { intros d' p Hb' Hbs' Hob'. unfold bsOf, obOf in *.
    destruct (heap d' !! p) as [s|] eqn:Hs; [|done]. exists s.
    rewrite (getOutputPathAndBuildState_known _ _ _ _ Hb' Hs).
    cbn in Hbs', Hob'. split; congruence. }
  destruct (outputBaseIDs d !! ob) as [p|] eqn:Hob.
  - pose proof (inv_outputBase d Hinv _ _ Hob) as Hp.
    assert (∃ s, heap d !! p = Some s) as [s Hs].
    { unfold obOf in Hp. destruct (heap d !! p); [by eexists|done]. }
    rewrite (StartBuild_locked_reuse _ _ _ _ _ _ _ _ Hb Hob Hs). cbn [fst snd].
    set (d0 := match buildState_ s with
               | Some bs => closeSession p bs d
               | None => d
               end).
    assert (bsOf d0 p = Some None) as Hbs0.
    { subst d0. destruct (buildState_ s) as [bs|] eqn:Hbs.
      - unfold closeSession. obs. rewrite decide_True by done.
        unfold bsOf. by rewrite Hs.
      - unfold bsOf. by rewrite Hs, <- Hbs. }
    assert (obOf d0 p = Some ob) as Hob0.
    { subst d0. destruct (buildState_ s); [|done].
      unfold closeSession. by obs. }
    assert (outputBaseIDs d0 = outputBaseIDs d) as Hobs0.
    { subst d0. destruct (buildState_ s); [|done].
      apply closeSession_outputBaseIDs. }
    assert (Hb1 : buildIDs (openSession p nb d0) !! b = Some p).
    { by rewrite openSession_buildIDs, lookup_insert_eq. }
    destruct (Hfinish (openSession p nb d0) p) as (s' & Hget & Hs'ob).
    { done. }
    { unfold openSession. obs. rewrite decide_True by done. by rewrite Hbs0. }
    { unfold openSession. obs. done. }
    exists p, s'. split_and!; try done.
    + by rewrite openSession_outputBaseIDs, Hobs0.
    + intros ob' _. by rewrite openSession_outputBaseIDs, Hobs0.
    + intros b' q Hb' Hq. rewrite openSession_buildIDs. cbn [id nb].
      rewrite lookup_insert_ne by (intros <-; congruence).
      subst d0. destruct (buildState_ s) as [bs|] eqn:Hbs; [|done].
      rewrite closeSession_buildIDs.
      rewrite lookup_delete_ne; [done|]. intros Heq.
      assert (buildIDs d !! id bs = Some p) as Hid.
      { apply Hreg. unfold bsOf. by rewrite Hs, <- Hbs. }
      congruence.
  - rewrite (StartBuild_locked_fresh _ _ _ _ _ _ Hb Hob).
    destruct (NewCASFileFactory w) as [factory w1].
    destruct (StartInitialBuild ob factory f w1) as [root w2]. cbn [fst snd].
    set (p := S (allocations d)).
    set (d0 := with_changeID _ (linkedAtTail root factory ob d)).
    assert (Hb1 : buildIDs (openSession p nb d0) !! b = Some p).
    { by rewrite openSession_buildIDs, lookup_insert_eq. }
    assert (outputBaseIDs d0 = <[ob := p]> (outputBaseIDs d)) as Hobs0.
    { subst d0. wsimpl. apply linkedAtTail_fields. }
    assert (buildIDs d0 = buildIDs d) as Hbuild0.
    { subst d0. wsimpl. apply linkedAtTail_fields. }
    destruct (Hfinish (openSession p nb d0) p) as (s' & Hget & Hs'ob).
    { done. }
    { unfold openSession. obs. rewrite decide_True by done. subst d0. obs.
      rewrite linkedAtTail_bsOf. by rewrite decide_True. }
    { unfold openSession. obs. subst d0. obs. rewrite linkedAtTail_obOf.
      by rewrite decide_True. }
    exists p, s'. split_and!; try done.
    + by rewrite openSession_outputBaseIDs, Hobs0, lookup_insert_eq.
    + intros ob' Hne.
      by rewrite openSession_outputBaseIDs, Hobs0, lookup_insert_ne.
    + intros b' q Hb' _. rewrite openSession_buildIDs, Hbuild0. cbn [id nb].
      rewrite lookup_insert_ne by (intros <-; congruence). done.
Qed.

(** X6.  [BatchCreate] and [BatchStat] only read the registry: however
    they end, the two maps, the ring, the change counter and the build
    states are as before.  With a build ID that has no session they
    fail with FailedPrecondition before they touch the output path;
    with a build ID that has one, a [BatchStat] without paths returns
    no responses and a [BatchCreate] without entries, with the empty
    path prefix and nothing to clean, returns success, and neither
    has changed anything. *)
Theorem batch_requests_keep_registry create stat d w :
  fst (snd (BatchCreate create (d, w))) = d ∧
  fst (snd (BatchStat stat (d, w))) = d ∧
  (buildIDs d !! create_BuildId create = None →
     status_Code notRunning = FailedPrecondition ∧
     BatchCreate create (d, w) = (Err notRunning, (d, w))) ∧
  (buildIDs d !! stat_BuildId stat = None →
     BatchStat stat (d, w) = (Err notRunning, (d, w))) ∧
  (∀ s bs,
     getOutputPathAndBuildState (stat_BuildId stat) d = (Ok (s, bs), d) →
     stat_Paths stat = [] →
     BatchStat stat (d, w) = (Ok {| Responses := [] |}, (d, w))) ∧
  (∀ s bs,
     getOutputPathAndBuildState (create_BuildId create) d = (Ok (s, bs), d) →
     create_PathPrefix create = "" → create_CleanPathPrefix create = false →
     create_Files create = [] → create_Directories create = [] →
     create_Symlinks create = [] →
     BatchCreate create (d, w) = (Ok tt, (d, w))).
Proof.
  split_and!.
  - apply BatchCreate_registry.
  - apply BatchStat_registry.
  - intros Hb. split; [done|]. by apply BatchCreate_notRunning.
  - apply BatchStat_notRunning.
  - intros s bs Hget Hpaths. unfold BatchStat. rewrite bind_eq.
    unfold onThis at 1. rewrite Hget, Hpaths. done.
  - intros s bs Hget Hprefix Hclean Hfiles Hdirs Hlinks.
    unfold BatchCreate. rewrite bind_eq. unfold onThis at 1. rewrite Hget.
    rewrite bind_eq. cbn [this fst]. unfold lift.
    rewrite Hprefix, Hclean, Hfiles, Hdirs, Hlinks. done.
Qed.

(** X7.  A new directory is empty: [VirtualReadDir] lists nothing,
    [VirtualLookup] finds no name, no build ID has a session (so
    [BatchCreate] and [BatchStat] fail with FailedPrecondition and
    [FinalizeBuild] has nothing to do), and a [Clean] with a valid
    output base ID is handed to the factory of output paths, which
    removes what an earlier run may have left. *)
Theorem new_directory_is_empty maximum w :
  let d := NewRemoteOutputServiceDirectory maximum in
  (∀ firstCookie requested,
     VirtualReadDir takeAll d w firstCookie requested [] = Some []) ∧
  (∀ name requested,
     VirtualLookup name requested w d = (Ok (None, StatusErrNoEnt), d)) ∧
  (∀ create, BatchCreate create (d, w) = (Err notRunning, (d, w))) ∧
  (∀ stat, BatchStat stat (d, w) = (Err notRunning, (d, w))) ∧
  (∀ request, FinalizeBuild request (d, w) = (Ok tt, (d, w))) ∧
  (∀ request,
     Clean request (d, w)
     = match NewComponent (clean_OutputBaseId request) with
       | Some outputBaseID =>
           (fst (OutputPathFactory_Clean outputBaseID w),
            (d, snd (OutputPathFactory_Clean outputBaseID w)))
       | None =>
           (Err (StatusError InvalidArgument
                   "Output base ID is not a valid filename"), (d, w))
       end).
Proof.
  intros d. split_and!.
  - done.
  - intros name requested. unfold VirtualLookup. rewrite bind_eq. cbn [get].
    subst d. cbn [outputBaseIDs NewRemoteOutputServiceDirectory].
    by rewrite lookup_empty.
  - intros create. by apply BatchCreate_notRunning.
  - intros stat. by apply BatchStat_notRunning.
  - intros [b]. by apply FinalizeBuild_unknown.
  - intros request.
    destruct (NewComponent (clean_OutputBaseId request)) as [ob|] eqn:Hname.
    + by apply Clean_unregistered.
    + unfold Clean. by rewrite Hname.
Qed.

End Session.

(** ** Requests and their paths *)

Lemma append_nil_r (s : string) : s +:+ "" = s.
Proof.
  induction s as [|c s IH]; [done|].
  change (String c s +:+ "") with (String c (s +:+ "")). by rewrite IH.
Qed.

Lemma append_assoc (a b c : string) : (a +:+ b) +:+ c = a +:+ (b +:+ c).
Proof.
  induction a as [|x a IH]; [done|].
  change ((String x a +:+ b) +:+ c) with (String x ((a +:+ b) +:+ c)).
  by rewrite IH.
Qed.

Lemma NewComponent_Some name ob : NewComponent name = Some ob → ob = name.
Proof. unfold NewComponent. repeat case_decide; try done.
  destruct (containsRune _ _); congruence. Qed.

Lemma NewComponent_None name :
  name = "" ∨ name = "." ∨ name = ".." ∨ containsRune "/" name = true →
  NewComponent name = None.
Proof.
  unfold NewComponent. intros Hn. repeat case_decide; try done.
  destruct Hn as [?|[?|[?|Hn]]]; try done. by rewrite Hn in *.
Qed.

Lemma void_resolution e n rest b :
  resolveComponents
    (Builder_Join (NewAbsoluteScopeWalker (VoidScopeWalker (S := unit))))
    e n VoidComponentWalker rest (b, tt)
  = (Ok tt, (voidWalk rest b, tt)).
Proof.
  revert b. induction rest as [|name rest IH]; intros b.
  - by rewrite resolveComponents_nil.
  - cbn [voidWalk]. destruct (decide (name = "" ∨ name = ".")) as [Hs|Hs].
    { by rewrite resolveComponents_skip. }
    destruct (decide (name = "..")) as [->|Hu].
    { rewrite resolveComponents_up. cbn. apply IH. }
    destruct rest as [|next rest].
    + by rewrite resolveComponents_terminal.
    + rewrite resolveComponents_directory by done. cbn. apply IH.
Qed.

Ltac error_witness := eexists; split; [|reflexivity]; reflexivity.

Section Paths.
Context `{Collaborators}.

Lemma StartBuild_paths_eq request :
  StartBuild_paths request
  = if containsRune zeroByte (start_OutputPathPrefix request) then
      Err (StatusWrap (StatusError InvalidArgument "Path contains a null byte")
             "Failed to resolve output path prefix")
    else if isAbsolute (start_OutputPathPrefix request) then
      match NewComponent (start_OutputBaseId request) with
      | None =>
          Err (StatusError InvalidArgument
                 "Output base ID is not a valid filename")
      | Some ob =>
          Ok (ob,
              Builder_terminal ob
                (voidWalk (splitComponents (start_OutputPathPrefix request) "")
                   RootBuilder),
              Builder_terminal ob EmptyBuilder)
      end
    else
      Err (StatusWrap
             (StatusError InvalidArgument
                "Path is relative, while an absolute path was expected")
             "Failed to resolve output path prefix").
Proof.
  unfold StartBuild_paths, Resolve, pushPath.
  destruct (containsRune zeroByte _); [done|].
  destruct (isAbsolute _) eqn:Habs.
  - rewrite bind_eq. cbn -[resolveComponents].
    by rewrite void_resolution.
  - rewrite bind_eq. cbn -[resolveComponents]. done.
Qed.

(** X8.  [StartBuild] refuses a request whose output path prefix
    contains a null byte or is not absolute, or whose output base ID
    is no file name (it is empty, ".", ".." or contains a slash): it
    fails with InvalidArgument, and neither the registry nor anything
    else has changed. *)
Theorem StartBuild_rejects_bad_request request st :
  let prefix := start_OutputPathPrefix request in
  let ob := start_OutputBaseId request in
  containsRune zeroByte prefix = true ∨ isAbsolute prefix = false ∨
  ob = "" ∨ ob = "." ∨ ob = ".." ∨ containsRune "/" ob = true →
  ∃ e, status_Code e = InvalidArgument ∧
       StartBuild request st = (Err e, st).
Proof.
  intros prefix ob Hbad. subst prefix ob. destruct st as [d w].
  assert (∃ e, status_Code e = InvalidArgument ∧
               StartBuild_prepare request = Err e) as (e & He & Hprep).
  { unfold StartBuild_prepare. rewrite StartBuild_paths_eq.
    destruct (containsRune zeroByte _); [error_witness|].
    destruct (isAbsolute _); [|error_witness].
    rewrite NewComponent_None; [error_witness|].
    destruct Hbad as [?|[?|?]]; done. }
  exists e. split; [done|]. by rewrite StartBuild_eq, Hprep.
Qed.

(** X9.  A [StartBuild] that succeeds hands the output base ID of the
    request back as the output path suffix. *)
Theorem StartBuild_response_suffix request st response st' :
  StartBuild request st = (Ok response, st') →
  OutputPathSuffix response = start_OutputBaseId request.
Proof.
  destruct st as [d w]. rewrite StartBuild_eq.
  destruct (StartBuild_prepare request) as [[[[ob swf] f] suffix]|e|] eqn:Hprep;
    [|done|done].
  assert (suffix = Builder_terminal (start_OutputBaseId request) EmptyBuilder)
    as ->.
  { unfold StartBuild_prepare in Hprep. rewrite StartBuild_paths_eq in Hprep.
    destruct (containsRune zeroByte _); [done|].
    destruct (isAbsolute _); [|done].
    destruct (NewComponent _) as [ob'|] eqn:Hob; [|done].
    apply NewComponent_Some in Hob as ->.
    destruct (NewVirtualRootScopeWalkerFactory _ _); [done|].
    destruct (NewInstanceName _); [done|].
    destruct (InstanceName_GetDigestFunction _ _); [done|]. congruence. }
  destruct (StartBuild_locked _ _ _ _ _) as [[p|e|] [d' w']]; [|done|done].
  destruct (heap d' !! p) as [s|]; [|done].
  destruct (filterMissingChildren _ _ _) as [[[]|e|] [st'' w'']]; [|done|done].
  intros [= <- _]. cbn [OutputPathSuffix].
  unfold Builder_String, Builder_terminal, EmptyBuilder. cbn.
  by rewrite !append_nil_r.
Qed.

(** *** The creating walkers *)

Lemma relative_OnScope_parent cw w :
  OnScope (NewRelativeScopeWalker parentDirectoryCreatingComponentWalker_ops)
    false (cw, w) = (Ok This, (cw, w)).
Proof. done. Qed.

Lemma Resolve_unsafe {S CW} (ops : WalkerOps S CW) e n path st :
  containsRune zeroByte path = true ∨ isAbsolute path = true →
  ∃ e', status_Code e' = InvalidArgument ∧
        Resolve (NewRelativeScopeWalker ops) e n path st = (Err e', st).
Proof.
  intros Hbad. unfold Resolve, pushPath.
  destruct (containsRune zeroByte path); [error_witness|].
  destruct Hbad as [?|Habs]; [done|]. rewrite Habs. rewrite bind_eq. cbn.
  error_witness.
Qed.

(** X10.  A path that is absolute or contains a null byte is refused
    where [BatchCreate] expects a path under the output path: as the
    path of an entry ([createChild]) and as the path prefix, it makes
    the call fail with InvalidArgument before anything is created or
    removed. *)
Theorem unsafe_paths_rejected path :
  containsRune zeroByte path = true ∨ isAbsolute path = true →
  (∀ cw initialNode w,
     ∃ e, status_Code e = InvalidArgument ∧
          createChild cw path initialNode w = (Err e, w)) ∧
  (∀ request d w s bs,
     create_PathPrefix request = path →
     getOutputPathAndBuildState (create_BuildId request) d = (Ok (s, bs), d) →
     ∃ e, status_Code e = InvalidArgument ∧
          BatchCreate request (d, w) = (Err e, (d, w))).
Proof.
  intros Hbad. split.
  - intros cw initialNode w.
    destruct (Resolve_unsafe parentDirectoryCreatingComponentWalker_ops
                symlinkLoopError 0 path
                ({| TerminalName := None; pdc_stack := Copy (dc_stack cw) |}, w)
                Hbad) as (e & He & Hres).
    exists (StatusWrap e "Failed to resolve path"). split; [done|].
    unfold createChild. rewrite bind_eq. unfold wrapErr, runWith.
    by rewrite Hres.
  - intros request d w s bs Hpath Hget.
    destruct (Resolve_unsafe directoryCreatingComponentWalker_ops
                symlinkLoopError 0 path
                ({| dc_stack := NewNonEmptyStack (rootDirectory s) |}, w)
                Hbad) as (e & He & Hres).
    exists (StatusWrap e "Failed to create path prefix directory").
    split; [done|].
    unfold BatchCreate. rewrite bind_eq. unfold onThis at 1. rewrite Hget.
    rewrite bind_eq. cbn [this fst]. unfold lift. rewrite bind_eq.
    unfold wrapErr at 1, runWith. rewrite Hpath, Hres. done.
Qed.

Lemma parent_OnDirectory name tn stack w :
  parentDirectoryCreatingComponentWalker_OnDirectory name
    ({| TerminalName := tn; pdc_stack := stack |}, w)
  = match CreateAndEnterPrepopulatedDirectory (Peek stack) name w with
    | (Ok child, w') =>
        (Ok (GotDirectory This true),
         ({| TerminalName := tn; pdc_stack := Push child stack |}, w'))
    | (Err e, w') => (Err e, ({| TerminalName := tn; pdc_stack := stack |}, w'))
    | (Panic, w') => (Panic, ({| TerminalName := tn; pdc_stack := stack |}, w'))
    end.
Proof.
  unfold parentDirectoryCreatingComponentWalker_OnDirectory.
  rewrite bind_eq. cbn [this fst TerminalName pdc_stack]. rewrite bind_eq.
  unfold lift.
  by destruct (CreateAndEnterPrepopulatedDirectory (Peek stack) name w)
    as [[child|e|] w'].
Qed.

Lemma prefix_OnDirectory name stack w :
  directoryCreatingComponentWalker_OnDirectory name ({| dc_stack := stack |}, w)
  = match CreateAndEnterPrepopulatedDirectory (Peek stack) name w with
    | (Ok child, w') =>
        (Ok (GotDirectory This true), ({| dc_stack := Push child stack |}, w'))
    | (Err e, w') => (Err e, ({| dc_stack := stack |}, w'))
    | (Panic, w') => (Panic, ({| dc_stack := stack |}, w'))
    end.
Proof.
  unfold directoryCreatingComponentWalker_OnDirectory.
  rewrite bind_eq. cbn [this fst dc_stack]. rewrite bind_eq.
  unfold lift.
  by destruct (CreateAndEnterPrepopulatedDirectory (Peek stack) name w)
    as [[child|e|] w'].
Qed.

Lemma resolve_parent_names e n dirs name tn stack w :
  Forall isName dirs → isName name →
  runWith {| TerminalName := tn; pdc_stack := stack |}
    (resolveComponents
       (NewRelativeScopeWalker parentDirectoryCreatingComponentWalker_ops)
       e n This (dirs ++ [name])) w
  = (stack' <- enterAll stack dirs ;;
     ret (tt, {| TerminalName := Some name; pdc_stack := stack' |})) w.
Proof.
  intros Hdirs [Hn1 Hn2]. revert stack w.
  induction Hdirs as [|dir dirs [Hd1 Hd2] _ IH]; intros stack w.
  - cbn [app enterAll]. unfold runWith.
    rewrite resolveComponents_terminal by done. reflexivity.
  - cbn [app enterAll]. unfold runWith.
    destruct (dirs ++ [name]) as [|next rest] eqn:Hrest.
    { by destruct dirs. }
    rewrite resolveComponents_directory by done.
    rewrite bind_eq.
    cbn [NewRelativeScopeWalker OnDirectory
         parentDirectoryCreatingComponentWalker_ops withVoid].
    rewrite parent_OnDirectory. rewrite !bind_eq.
    destruct (CreateAndEnterPrepopulatedDirectory (Peek stack) dir w)
      as [[child|e'|] w']; [|done|done].
    specialize (IH (Push child stack) w'). unfold runWith in IH.
    rewrite IH. by rewrite bind_eq.
Qed.

Lemma resolve_prefix_names e n names stack w :
  Forall isName names →
  runWith {| dc_stack := stack |}
    (resolveComponents
       (NewRelativeScopeWalker directoryCreatingComponentWalker_ops)
       e n This names) w
  = (stack' <- enterAll stack names ;; ret (tt, {| dc_stack := stack' |})) w.
Proof.
  intros Hnames. revert stack w.
  induction Hnames as [|name names [Hd1 Hd2] _ IH]; intros stack w.
  - cbn [enterAll]. unfold runWith. by rewrite resolveComponents_nil.
  - cbn [enterAll]. unfold runWith. rewrite !bind_eq.
    destruct names as [|next rest].
    + rewrite resolveComponents_terminal by done. rewrite bind_eq.
      cbn [NewRelativeScopeWalker OnTerminal
           directoryCreatingComponentWalker_ops withVoid].
      unfold directoryCreatingComponentWalker_OnTerminal,
        OnTerminalViaOnDirectory.
      rewrite bind_eq, prefix_OnDirectory.
      by destruct (CreateAndEnterPrepopulatedDirectory (Peek stack) name w)
        as [[child|e'|] w'].
    + rewrite resolveComponents_directory by done. rewrite bind_eq.
      cbn [NewRelativeScopeWalker OnDirectory
           directoryCreatingComponentWalker_ops withVoid].
      rewrite prefix_OnDirectory.
      destruct (CreateAndEnterPrepopulatedDirectory (Peek stack) name w)
        as [[child|e'|] w']; [|done|done].
      specialize (IH (Push child stack) w'). unfold runWith in IH.
      rewrite IH. by rewrite bind_eq.
Qed.

Lemma Resolve_relative {S CW} (ops : WalkerOps S CW) e n path components st :
  relativePath path components →
  Resolve (NewRelativeScopeWalker ops) e n path st
  = (cw <- OnScope ops false ;;
     resolveComponents (NewRelativeScopeWalker ops) e n cw components) st.
Proof.
  intros (Hzero & Hrel & Hsplit). unfold Resolve, pushPath.
  rewrite Hzero, Hrel, Hsplit. rewrite !bind_eq.
  cbn [NewRelativeScopeWalker OnScope].
  by destruct (OnScope ops false st) as [[cw| |] st'].
Qed.

(** X11.  What the two creating walkers of [BatchCreate] do with a
    relative path of plain names (no null byte, no empty component, no
    "." and no ".."): the walker of the path prefix enters every
    component, the last one included, and creates the directories
    that are missing; [createChild] enters all components but the
    last one in the same way and then creates the entry under the
    last name in the directory it has reached, replacing what is
    there.  An error of a directory on the way is the error of the
    call. *)
Theorem creating_walkers_enter path dirs name :
  relativePath path (dirs ++ [name]) → Forall isName dirs → isName name →
  (∀ stack w,
     resolvePrefix stack path w
     = (stack' <- enterAll stack (dirs ++ [name]) ;;
        ret (tt, {| dc_stack := stack' |})) w) ∧
  (∀ cw initialNode w,
     createChild cw path initialNode w
     = (stack' <- wrapErr (λ e, StatusWrap e "Failed to resolve path")
                    (enterAll (dc_stack cw) dirs) ;;
        CreateChildren (Peek stack') [(name, initialNode)] true) w).
Proof.
  intros Hpath Hdirs Hname. split.
  - intros stack w. unfold resolvePrefix, runWith.
    rewrite (Resolve_relative _ _ _ _ _ _ Hpath). rewrite bind_eq.
    cbn [OnScope directoryCreatingComponentWalker_ops withVoid ret].
    apply (resolve_prefix_names symlinkLoopError 0 (dirs ++ [name]) stack w).
    apply Forall_app. split; [done|]. by apply Forall_singleton.
  - intros cw initialNode w. unfold createChild. rewrite !bind_eq.
    unfold wrapErr, runWith.
    rewrite (Resolve_relative _ _ _ _ _ _ Hpath). rewrite bind_eq.
    cbn [OnScope parentDirectoryCreatingComponentWalker_ops withVoid ret].
    pose proof (resolve_parent_names symlinkLoopError 0 dirs name None
                  (dc_stack cw) w Hdirs Hname) as Hres.
    unfold runWith in Hres. unfold Copy.
    destruct (resolveComponents _ _ _ _ _ _) as [[[]|e|] [cw' w']];
      rewrite bind_eq in Hres;
      destruct (enterAll (dc_stack cw) dirs w) as [[stack'|e'|] w''];
      try done.
    + injection Hres as -> ->. done.
    + by injection Hres as -> ->.
    + by injection Hres as ->.
Qed.

Lemma parent_TerminalName_None e n components cw w cw' w' :
  components = [] ∨ (∃ pre x, components = pre ++ [x] ∧ ¬ isName x) →
  TerminalName cw = None →
  resolveComponents
    (NewRelativeScopeWalker parentDirectoryCreatingComponentWalker_ops)
    e n This components (cw, w) = (Ok tt, (cw', w')) →
  TerminalName cw' = None.
Proof.
  revert cw w. induction components as [|name rest IH]; intros cw w Hlast Hcw.
  { rewrite resolveComponents_nil. by intros [= <- _]. }
  assert (isName name → rest ≠ [] ∧
          (rest = [] ∨ ∃ pre x, rest = pre ++ [x] ∧ ¬ isName x)) as Hrest1.
  { intros Hname. destruct Hlast as [?|(pre & x & Heq & Hx)]; [done|].
    destruct pre as [|y pre]; injection Heq as -> ->; [done|].
    split; [by destruct pre|]. right. by exists pre, x. }
  assert (rest = [] ∨ ∃ pre x, rest = pre ++ [x] ∧ ¬ isName x) as Hrest2.
  { destruct Hlast as [?|(pre & x & Heq & Hx)]; [done|].
    destruct pre as [|y pre]; injection Heq as -> ->; [by left|].
    right. by exists pre, x. }
  destruct cw as [tn stack]. cbn [TerminalName] in Hcw. subst tn.
  destruct (decide (name = "" ∨ name = ".")) as [Hs|Hs].
  { rewrite resolveComponents_skip by done. by apply IH. }
  destruct (decide (name = "..")) as [->|Hu].
  { rewrite resolveComponents_up, bind_eq.
    cbn [NewRelativeScopeWalker OnUp
         parentDirectoryCreatingComponentWalker_ops withVoid].
    unfold parentDirectoryCreatingComponentWalker_OnUp.
    rewrite bind_eq. cbn [this fst pdc_stack TerminalName].
    destruct (PopSingle stack) as [stack'|]; [|done].
    rewrite bind_eq. cbn [setThis ret]. by apply IH. }
  destruct (Hrest1 (conj Hs Hu)) as [Hne Hrest].
  destruct rest as [|next rest]; [done|].
  rewrite resolveComponents_directory by done. rewrite bind_eq.
  cbn [NewRelativeScopeWalker OnDirectory
       parentDirectoryCreatingComponentWalker_ops withVoid].
  rewrite parent_OnDirectory.
  destruct (CreateAndEnterPrepopulatedDirectory (Peek stack) name w)
    as [[child|e'|] w1]; [|done|done].
  by apply IH.
Qed.

(** X12.  [createChild] never creates an entry for a path that names a
    directory, that is, a path whose last component is empty (the
    empty path, a trailing slash), "." or "..".  It resolves the
    parent directories, creating what is missing, and then fails with
    InvalidArgument; [CreateChildren] is not called. *)
Theorem createChild_directory_path cw path initialNode w pre x :
  splitComponents path "" = pre ++ [x] → ¬ isName x →
  createChild cw path initialNode w
  = match resolveParent cw path w with
    | (Ok _, w') =>
        (Err (StatusError InvalidArgument "Path resolves to a directory"), w')
    | (Err e, w') => (Err (StatusWrap e "Failed to resolve path"), w')
    | (Panic, w') => (Panic, w')
    end.
Proof.
  intros Hsplit Hx. unfold createChild, resolveParent. rewrite bind_eq.
  unfold wrapErr, runWith.
  destruct (Resolve _ _ _ _ _) as [[[]|e|] [cw' w']] eqn:Hres; [|done|done].
  assert (TerminalName cw' = None) as ->; [|done].
  unfold Resolve, pushPath in Hres.
  destruct (containsRune zeroByte path); [done|].
  rewrite !bind_eq in Hres. cbn [NewRelativeScopeWalker OnScope] in Hres.
  destruct (isAbsolute path); [done|].
  cbn [OnScope parentDirectoryCreatingComponentWalker_ops withVoid ret]
    in Hres.
  rewrite Hsplit in Hres.
  eapply parent_TerminalName_None; [| |exact Hres]; [|done].
  right. by exists pre, x.
Qed.

Lemma skip_resolution {S CW} (ops : WalkerOps S CW) e n cw components st :
  Forall (λ c, c = "" ∨ c = ".") components →
  resolveComponents ops e n cw components st = (Ok tt, st).
Proof.
  induction 1 as [|c components Hc _ IH].
  - by rewrite resolveComponents_nil.
  - by rewrite resolveComponents_skip.
Qed.

(** X13.  [BatchStat] answers for the output path itself: a relative
    path whose components are all empty or "." (the empty path, ".",
    "./") gets the status Directory with the last modification time of
    the root directory of the output path.  (A directory that gives no
    modification time makes the loop panic.) *)
Theorem statPath_root request s bs path components w :
  relativePath path components →
  Forall (λ c, c = "" ∨ c = ".") components →
  statPath request s (Some bs) path w
  = (match GetLastDataModificationTime
             (VirtualGetAttributes (rootDirectory s)
                AttributesMaskLastDataModificationTime w) with
     | Some lastModifiedTime =>
         Ok {| file_status :=
                 Some (FileStatus_Directory_ (Some lastModifiedTime)) |}
     | None => Panic
     end, w).
Proof.
  intros (Hzero & Hrel & Hsplit) Hskip.
  assert (Hres : ∀ f,
    statResolve request s f (scopeWalkerFactory bs) path w
    = (Ok tt, (EmptyBuilder,
               (statWalker_setFileStatus (FileStatus_Directory_ None)
                  {| followSymlinks := stat_FollowSymlinks request;
                     sw_digestFunction := f;
                     sw_stack := NewNonEmptyStack (rootDirectory s);
                     fileStatus := FileStatus_External_ None |}, w)))).
  { intros f. unfold statResolve, Resolve, pushPath.
    rewrite Hzero, Hrel, Hsplit.
    unfold bind at 1. unfold bind at 1. cbn -[resolveComponents].
    by rewrite skip_resolution. }
  unfold statPath, bind, buildState_digestFunction, ret.
  destruct (stat_IncludeFileDigest request); cbv beta iota;
    rewrite Hres; cbn;
    by destruct (GetLastDataModificationTime _).
Qed.

End Paths.

(** ** More on the pass that filters missing blobs *)

Lemma queriesOf_app {R} (tr1 tr2 : list (Event R)) :
  queriesOf (tr1 ++ tr2) = queriesOf tr1 ++ queriesOf tr2.
Proof. apply omap_app. Qed.

Lemma queriesOf_removes {R} (evs : list (Event R)) :
  Forall isRemove evs → queriesOf evs = [].
Proof.
  induction 1 as [|ev evs Hev _ IH]; [done|].
  destruct ev; [done|done|]. apply IH.
Qed.

Lemma queriesOf_cons_FindMissing {R} q reply (tr : list (Event R)) :
  queriesOf (EvFindMissing q reply :: tr) = q :: queriesOf tr.
Proof. done. Qed.

Lemma checked_app {R} (tr evs : list (Event R)) d :
  checked tr d → checked (tr ++ evs) d.
Proof.
  intros (q & missing & Hin & Hd). exists q, missing. split; [|done].
  apply elem_of_app. by left.
Qed.

Section FilterBounds.
Context `{Collaborators}.
Implicit Types (st : filterState) (w : World).

Local Abbreviation T := RecommendedFindMissingDigestsCount.

Lemma keeps_bind {A B} S W (m : M (filterState * World) A)
    (k : A → M (filterState * World) B) :
  keeps S W m → (∀ a, keeps S W (k a)) → keeps S W (bind m k).
Proof.
  intros Hm Hk st w r st' w' Hrun HS. rewrite bind_eq in Hrun.
  destruct (m (st, w)) as [[a|e|] [st1 w1]] eqn:Hm1.
  - destruct (Hm _ _ _ _ _ Hm1 HS) as [_ HS1].
    by apply (Hk _ _ _ _ _ _ Hrun), (HS1 a).
  - injection Hrun as <- <- <-. split; [by eapply Hm|done].
  - injection Hrun as <- <- <-. split; [by eapply Hm|done].
Qed.

Lemma keeps_ret {A} (S W : filterState → Prop) (a : A) :
  (∀ st, S st → W st) → keeps S W (ret a).
Proof. intros HSW st w r st' w' [= <- <- <-] HS. split; [by apply HSW|done]. Qed.

Lemma keeps_fail {A} (S W : filterState → Prop) e :
  (∀ st, S st → W st) → keeps S W (fail (A := A) e).
Proof. intros HSW st w r st' w' [= <- <- <-] HS. split; [by apply HSW|done]. Qed.

Lemma keeps_forEach {A} (S W : filterState → Prop) (l : list A) f :
  (∀ st, S st → W st) → (∀ x, keeps S W (f x)) → keeps S W (forEach l f).
Proof.
  intros HSW Hf. induction l as [|x l IH]; [by apply keeps_ret|].
  apply keeps_bind; [apply Hf|done].
Qed.

Lemma keeps_wrapErr {A} S W g (m : M (filterState * World) A) :
  keeps S W m → keeps S W (wrapErr g m).
Proof.
  intros Hm st w r st' w' Hrun HS. unfold wrapErr in Hrun.
  destruct (m (st, w)) as [[a|e|] [st1 w1]] eqn:Hm1;
    injection Hrun as <- <- <-; (split; [by eapply Hm|]); [|done..].
  by eapply Hm.
Qed.

Lemma keeps_lift {A} (S W : filterState → Prop) (m : M World A) :
  (∀ st, S st → W st) → keeps S W (lift m).
Proof.
  intros HSW st w r st' w' Hrun HS. unfold lift in Hrun.
  destruct (m w) as [r1 w1]. injection Hrun as <- <- <-.
  split; [by apply HSW|done].
Qed.

Lemma keeps_filterCallback (S W : filterState → Prop) f child :
  (∀ st, S st → W st) →
  (∀ r, keeps S W (loggedRemove r)) →
  (∀ d r, keeps S W (enqueue d r)) →
  keeps S W (filterCallback f child).
Proof.
  intros HSW Hremove Henqueue.
  destruct child as [node removeFunc]. unfold filterCallback.
  apply keeps_bind.
  - destruct node as [directory|leaf]; [|by apply keeps_ret].
    apply keeps_bind; [by apply keeps_lift|].
    intros [savedErr|digests]; [|by apply keeps_ret].
    case_decide; [|by apply keeps_fail].
    apply keeps_bind; [|intros; by apply keeps_ret].
    apply keeps_wrapErr, Hremove.
  - intros [digests|]; [|by apply keeps_ret].
    destruct (find _ digests).
    + apply keeps_wrapErr, Hremove.
    + apply keeps_forEach; [done|]. intros d. apply Henqueue.
Qed.

(** The pass from the callback loop to the last batch. *)
Lemma filterMissingChildren_keeps (S W : filterState → Prop) root f w r st' w' :
  (∀ st, S st → W st) →
  (∀ r, keeps S W (loggedRemove r)) →
  (∀ d r, keeps S W (enqueue d r)) →
  S emptyFilterState →
  filterMissingChildren root f (emptyFilterState, w) = (r, (st', w')) →
  (W st' ∧ (∀ a, r = Ok a → S st' ∧ size (queue st') = 0)) ∨
  ∃ st1 w1, S st1 ∧ 0 < size (queue st1) ∧
            findMissingAndRemove (queue st1) (st1, w1) = (r, (st', w')).
Proof.
  intros HSW Hremove Henqueue Hempty Hrun. unfold filterMissingChildren in Hrun.
  rewrite bind_eq in Hrun. cbn [lift get] in Hrun. rewrite bind_eq in Hrun.
  destruct (forEach _ _ (emptyFilterState, w)) as [r1 [st1 w1]] eqn:Hloop.
  destruct (keeps_forEach S W _ _ HSW
              (λ child, keeps_filterCallback S W f child HSW Hremove Henqueue)
              _ _ _ _ _ Hloop Hempty) as [HW HS].
  destruct r1 as [[]|e|]; [|injection Hrun as <- <- <-; by left..].
  specialize (HS tt eq_refl).
  rewrite bind_eq in Hrun. cbn [lift get] in Hrun. rewrite bind_eq in Hrun.
  destruct (FilterChildren_error root w1).
  { injection Hrun as <- <- <-. by left. }
  cbn [ret] in Hrun. rewrite bind_eq in Hrun. cbn [this fst] in Hrun.
  case_bool_decide as Hq.
  - right. by exists st1, w1.
  - injection Hrun as <- <- <-. left. split; [done|]. intros _ _.
    split; [done|lia].
Qed.

(** The log of the pass holds the log of every call of the callback
    that has succeeded. *)
Lemma filterMissingChildren_member root f w st' w' child :
  filterMissingChildren root f (emptyFilterState, w) = (Ok tt, (st', w')) →
  child ∈ FilterChildren_nodes root w →
  ∃ st1 w1 st2 w2,
    filterCallback f child (st1, w1) = (Ok tt, (st2, w2)) ∧
    extends (trace st2) st'.
Proof.
  intros Hrun Hnode. unfold filterMissingChildren in Hrun.
  rewrite bind_eq in Hrun. cbn [lift get] in Hrun. rewrite bind_eq in Hrun.
  destruct (forEach _ _ (emptyFilterState, w)) as [[[]|e|] [st1 w1]] eqn:Hloop;
    try done.
  destruct (forEach_member _ _ _ _ _ _ _
              (λ tr y, preserves_extends_filterCallback tr f y) Hloop Hnode)
    as (sta & wa & stb & wb & Hcall & Hext).
  exists sta, wa, stb, wb. split; [done|].
  eapply extends_trans; [done|].
  rewrite bind_eq in Hrun. cbn [lift get] in Hrun. rewrite bind_eq in Hrun.
  destruct (FilterChildren_error root w1); [done|].
  cbn [ret] in Hrun. rewrite bind_eq in Hrun. cbn [this fst] in Hrun.
  case_bool_decide.
  - destruct (findMissingAndRemove_shape _ _ _ _ _ _ Hrun)
      as (_ & evs & Ht & _). by eexists.
  - injection Hrun as <- <-. exists []. by rewrite app_nil_r.
Qed.

(** *** The size of the batches *)

Lemma batching_withinBatch st : batching st → withinBatch st.
Proof. intros [Hsize Hq Hcalls]. split; [done|]. case_decide; lia. Qed.

Lemma batching_loggedRemove r : keeps batching withinBatch (loggedRemove r).
Proof.
  intros st w res st' w'. rewrite loggedRemove_eq. intros [= <- <- <-] HS.
  assert (batching (log (EvRemove r (fst (callRemover r w))) st)) as HS'.
  { destruct HS as [Hsize Hq Hcalls].
    split; cbn [log queue trace];
      rewrite ?queriesOf_app, ?enqueuedDigests_app, ?findMissingCalls_app;
      cbn; rewrite ?app_nil_r, ?Nat.add_0_r; done. }
  split; [by apply batching_withinBatch|done].
Qed.

Lemma batching_flush st w r st' w' :
  1 ≤ size (queue st) →
  findMissingAndRemove (queue st) (st, w) = (r, (st', w')) →
  batching st →
  queue st' = queue st ∧
  Forall (λ q : gset Digest, 1 ≤ size q ≤ T) (queriesOf (trace st')) ∧
  findMissingCalls (trace st') = S (findMissingCalls (trace st)) ∧
  enqueuedDigests (trace st') = enqueuedDigests (trace st).
Proof.
  intros Hne Hrun [Hsize Hq Hcalls].
  destruct (findMissingAndRemove_shape _ _ _ _ _ _ Hrun)
    as (Hqueue & evs & Ht & Hevs & _).
  split; [done|]. rewrite Ht.
  rewrite queriesOf_app, enqueuedDigests_app, findMissingCalls_app.
  rewrite enqueuedDigests_cons_FindMissing, findMissingCalls_cons_FindMissing.
  rewrite (enqueuedDigests_removes evs), (findMissingCalls_removes evs)
    by done.
  split_and!.
  - apply Forall_app. split; [done|]. rewrite queriesOf_cons_FindMissing.
    rewrite (queriesOf_removes evs) by done.
    apply Forall_singleton. rewrite size_dom. lia.
  - lia.
  - by rewrite app_nil_r.
Qed.

Hypothesis T_positive : 1 ≤ T.

Lemma batching_enqueue d r : keeps batching withinBatch (enqueue d r).
Proof.
  intros st w res st' w' Hrun HS. unfold enqueue in Hrun.
  rewrite bind_eq in Hrun. cbn [this fst] in Hrun. rewrite bind_eq in Hrun.
  case_bool_decide as Hfull.
  - rewrite bind_eq in Hrun.
    destruct (findMissingAndRemove (queue st) (st, w))
      as [r1 [st1 w1]] eqn:Hbatch.
    assert (1 ≤ size (queue st)) as Hne by lia.
    destruct (batching_flush _ _ _ _ _ Hne Hbatch HS)
      as (Hqueue & Hq1 & Hc1 & He1).
    pose proof HS as [Hsize Hq Hcalls].
    assert (findMissingCalls (trace st1) ≤ length (enqueuedDigests (trace st1)))
      as Hle.
    { rewrite Hc1, He1. case_decide; lia. }
    destruct r1 as [[]|e|]; cbn in Hrun; injection Hrun as <- <- <-;
      [|by split..].
    assert (batching
      (log (EvEnqueue d r)
         (set_queue (<[d:=default [] (queue (set_queue ∅ st1) !! d) ++ [r]]>
                       (queue (set_queue ∅ st1))) (set_queue ∅ st1)))) as HS'.
    { split; cbn [log set_queue trace queue].
      - rewrite lookup_empty. cbn. rewrite insert_empty, map_size_singleton.
        done.
      - rewrite queriesOf_app. cbn. by rewrite app_nil_r.
      - rewrite lookup_empty. cbn. rewrite insert_empty, map_size_singleton.
        rewrite enqueuedDigests_app, findMissingCalls_app, length_app.
        change (findMissingCalls [EvEnqueue d r]) with 0.
        change (enqueuedDigests [EvEnqueue d r]) with [d].
        cbn. repeat case_decide; lia. }
    split; [by apply batching_withinBatch|done].
  - cbn in Hrun. injection Hrun as <- <- <-.
    pose proof HS as [Hsize Hq Hcalls].
    assert (batching
      (log (EvEnqueue d r)
         (set_queue (<[d:=default [] (queue st !! d) ++ [r]]> (queue st)) st)))
      as HS'.
    { assert (1 ≤ size (<[d:=default [] (queue st !! d) ++ [r]]> (queue st))
              ≤ T) as Hnew.
      { destruct (queue st !! d) as [rs|] eqn:Hd.
        - rewrite map_size_insert_Some by done. split; [|lia].
          assert (size (queue st) ≠ 0); [|lia].
          intros Hz%map_size_empty_inv. by rewrite Hz in Hd.
        - rewrite map_size_insert_None by done. lia. }
      split; cbn [log set_queue trace queue].
      - lia.
      - rewrite queriesOf_app. cbn. by rewrite app_nil_r.
      - rewrite enqueuedDigests_app, findMissingCalls_app, length_app.
        change (findMissingCalls [EvEnqueue d r]) with 0.
        change (enqueuedDigests [EvEnqueue d r]) with [d].
        cbn. repeat case_decide; lia. }
    split; [by apply batching_withinBatch|done].
Qed.

Lemma batching_empty : batching emptyFilterState.
Proof. split; cbn; rewrite ?map_size_empty; try done; lia. Qed.

End FilterBounds.

(** X14.  With a batch size of at least one, however the pass that
    filters missing blobs ends: every call of [FindMissing] asks for
    at least one digest and for no more than a full batch, and there
    are never more calls than digests that were put into the queue. *)
Theorem filter_batch_bounds `{Collaborators} root f w r st' w' :
  1 ≤ RecommendedFindMissingDigestsCount →
  filterMissingChildren root f (emptyFilterState, w) = (r, (st', w')) →
  Forall (λ q : gset Digest,
            1 ≤ size q ≤ RecommendedFindMissingDigestsCount)
         (queriesOf (trace st')) ∧
  findMissingCalls (trace st') ≤ length (enqueuedDigests (trace st')).
Proof.
  intros HT Hrun.
  destruct (filterMissingChildren_keeps batching withinBatch root f w r st' w'
              batching_withinBatch batching_loggedRemove
              (batching_enqueue HT) (batching_empty HT) Hrun)
    as [[HW _]|(st1 & w1 & HS & Hq & Hlast)]; [done|].
  assert (1 ≤ size (queue st1)) as Hne by lia.
  destruct (batching_flush _ _ _ _ _ Hne Hlast HS)
    as (_ & Hq1 & Hc1 & He1).
  split; [done|]. rewrite Hc1, He1. destruct HS as [_ _ Hcalls].
  case_decide; lia.
Qed.

Section FilterChecks.
Context `{Collaborators}.
Implicit Types (st : filterState) (w : World).

Lemma accountedFor_loggedRemove r :
  keeps accountedFor (λ _, True) (loggedRemove r).
Proof.
  intros st w res st' w'. rewrite loggedRemove_eq. intros [= <- <- <-] HS.
  split; [done|]. intros _ _ d. cbn [log queue trace].
  rewrite enqueuedDigests_app. cbn. rewrite app_nil_r. intros Hd.
  destruct (HS d Hd) as [?|?]; [by left|right; by apply checked_app].
Qed.

Lemma accountedFor_flush st w st' w' :
  findMissingAndRemove (queue st) (st, w) = (Ok tt, (st', w')) →
  accountedFor st →
  ∀ d, d ∈ enqueuedDigests (trace st') → checked (trace st') d.
Proof.
  intros Hrun HS d.
  destruct (findMissingAndRemove_shape _ _ _ _ _ _ Hrun)
    as (Hqueue & evs & Ht & Hevs & Hok).
  destruct (Hok tt eq_refl) as (missing & Hreply & _).
  rewrite Ht, Hreply.
  rewrite enqueuedDigests_app, enqueuedDigests_cons_FindMissing.
  rewrite (enqueuedDigests_removes evs), app_nil_r by done.
  intros Hd. destruct (HS d Hd) as [Hin|Hc]; [|by apply checked_app].
  exists (dom (queue st)), missing. split; [|done].
  apply elem_of_app. right. by left.
Qed.

Lemma accountedFor_enqueue d r : keeps accountedFor (λ _, True) (enqueue d r).
Proof.
  intros st w res st' w' Hrun HS. split; [done|]. intros [] ->.
  unfold enqueue in Hrun.
  rewrite bind_eq in Hrun. cbn [this fst] in Hrun. rewrite bind_eq in Hrun.
  case_bool_decide as Hfull.
  - rewrite bind_eq in Hrun.
    destruct (findMissingAndRemove (queue st) (st, w))
      as [[[]|e|] [st1 w1]] eqn:Hbatch; cbn in Hrun; [|done..].
    injection Hrun as <- <-.
    pose proof (accountedFor_flush _ _ _ _ Hbatch HS) as Hchecked.
    intros d'. cbn [log set_queue trace queue].
    rewrite enqueuedDigests_app.
    change (enqueuedDigests [EvEnqueue d r]) with [d].
    rewrite elem_of_app, list_elem_of_singleton.
    intros [Hd'| ->].
    + right. by apply checked_app, Hchecked.
    + left. rewrite dom_insert_L. set_solver.
  - cbn in Hrun. injection Hrun as <- <-.
    intros d'. cbn [log set_queue trace queue].
    rewrite enqueuedDigests_app.
    change (enqueuedDigests [EvEnqueue d r]) with [d].
    rewrite elem_of_app, list_elem_of_singleton.
    intros [Hd'| ->].
    + destruct (HS d' Hd') as [Hin|Hc].
      * left. rewrite dom_insert_L. set_solver.
      * right. by apply checked_app.
    + left. rewrite dom_insert_L. set_solver.
Qed.

Lemma accountedFor_empty : accountedFor emptyFilterState.
Proof. intros d Hd. by inversion Hd. Qed.

Lemma enqueue_logged d r st w st' w' :
  enqueue d r (st, w) = (Ok tt, (st', w')) →
  d ∈ enqueuedDigests (trace st').
Proof.
  intros Hrun. unfold enqueue in Hrun.
  rewrite bind_eq in Hrun. cbn [this fst] in Hrun. rewrite bind_eq in Hrun.
  case_bool_decide as Hfull.
  - rewrite bind_eq in Hrun.
    destruct (findMissingAndRemove (queue st) (st, w))
      as [[[]|e|] [st1 w1]]; cbn in Hrun; [|done..].
    injection Hrun as <- <-. cbn [log set_queue trace].
    rewrite enqueuedDigests_app. apply elem_of_app. right. by left.
  - cbn in Hrun. injection Hrun as <- <-. cbn [log set_queue trace].
    rewrite enqueuedDigests_app. apply elem_of_app. right. by left.
Qed.

Lemma extends_enqueued tr st d :
  extends tr st → d ∈ enqueuedDigests tr → d ∈ enqueuedDigests (trace st).
Proof.
  intros [evs ->]. rewrite enqueuedDigests_app, elem_of_app. by left.
Qed.

Lemma not_foreign f (digests : list Digest) :
  ¬ foreignTo f digests →
  find (λ blobDigest, negb (UsesDigestFunction blobDigest f)) digests = None.
Proof.
  intros Hown.
  destruct (find _ digests) as [d|] eqn:Hfind; [|done].
  apply find_some in Hfind as [Hin Hd]. destruct Hown. exists d.
  split; [by apply list_elem_of_In|]. by apply negb_true_iff.
Qed.

End FilterChecks.

(** X15.  When the pass that filters missing blobs has succeeded, every
    digest that it has put into the queue was part of a query that
    [FindMissing] has answered; and for every leaf that the traversal
    has handed out and whose digests all have the instance name and
    the digest function of the build, these are all its digests.  So
    no file is kept whose digests were not looked up. *)
Theorem filter_checks_every_digest `{Collaborators} root f w st' w' :
  filterMissingChildren root f (emptyFilterState, w) = (Ok tt, (st', w')) →
  (∀ d, d ∈ enqueuedDigests (trace st') → checked (trace st') d) ∧
  (∀ leaf removeFunc d,
     (FromLeaf leaf, removeFunc) ∈ FilterChildren_nodes root w →
     ¬ foreignTo f (Leaf_GetContainingDigests leaf) →
     d ∈ Leaf_GetContainingDigests leaf →
     checked (trace st') d).
Proof.
  intros Hrun.
  assert (Hall : ∀ d, d ∈ enqueuedDigests (trace st') → checked (trace st') d).
  { destruct (filterMissingChildren_keeps accountedFor (λ _, True) root f w
                _ st' w' (λ _ _, I) accountedFor_loggedRemove
                accountedFor_enqueue accountedFor_empty Hrun)
      as [[_ Hend]|(st1 & w1 & HS & Hq & Hlast)].
    - destruct (Hend tt eq_refl) as [HS Hsize]. intros d Hd.
      destruct (HS d Hd) as [Hin|?]; [|done].
      apply map_size_empty_inv in Hsize. rewrite Hsize in Hin. set_solver.
    - by apply (accountedFor_flush _ _ _ _ Hlast). }
  split; [done|]. intros leaf removeFunc d Hnode Hown Hd. apply Hall.
  destruct (filterMissingChildren_member _ _ _ _ _ _ Hrun Hnode)
    as (sta & wa & stb & wb & Hcall & Hext).
  eapply extends_enqueued; [done|].
  unfold filterCallback in Hcall. rewrite bind_eq in Hcall. cbn [ret] in Hcall.
  rewrite (not_foreign _ _ Hown) in Hcall.
  destruct (forEach_member _ _ _ _ _ _ _
              (λ tr y, preserves_extends_enqueue tr y removeFunc) Hcall Hd)
    as (s1 & w1 & s2 & w2 & Henq & Hext2).
  eapply extends_enqueued; [done|]. by eapply enqueue_logged.
Qed.

(** ** The listing of the directory *)

Section Listing.
Context `{Collaborators}.

Lemma reachable_ring maximum w requests :
  (Z.of_nat (length requests) < 2 ^ 64)%Z →
  let d := fst (run requests (NewRemoteOutputServiceDirectory maximum, w)) in
  registry_inv d ∧ ring_inv d (ringOf d) ∧
  (0 ≤ changeID d ≤ Z.of_nat (length requests))%Z.
Proof.
  intros Hlen d.
  destruct (run_ring requests (NewRemoteOutputServiceDirectory maximum, w)
              [] 0 (New_inv maximum) (New_ring maximum))
    as (Hinv & [l Hring] & Hc & _); [done|lia|].
  fold d in Hinv, Hring, Hc. split; [done|].
  rewrite (ringOf_ring d l Hinv Hring). split; [done|].
  cbn in Hc. lia.
Qed.

Lemma ring_size d l :
  registry_inv d → ring_inv d l → size (outputBaseIDs d) = length l.
Proof.
  intros Hinv Hring. rewrite <- length_map_to_list.
  rewrite <- (length_fmap snd).
  apply Permutation_length, NoDup_Permutation.
  - apply NoDup_fmap_2_strong; [|apply NoDup_map_to_list].
    intros [ob1 p1] [ob2 p2] H1%elem_of_map_to_list H2%elem_of_map_to_list.
    cbn. intros <-. f_equal.
    apply (inv_outputBase d Hinv) in H1, H2. congruence.
  - apply (NoDup_cons_1_2 _ _ (ring_NoDup _ _ Hring)).
  - intros p. rewrite (ring_registered _ _ Hring p), list_elem_of_fmap.
    split.
    + intros ([ob q] & -> & Hin%elem_of_map_to_list). by exists ob.
    + intros [ob Hob]. exists (ob, p). split; [done|].
      by apply elem_of_map_to_list.
Qed.

Lemma omap_cons_Some {A B} (f : A → option B) x l y :
  f x = Some y → omap f (x :: l) = y :: omap f l.
Proof. intros Hx. cbn. by rewrite Hx. Qed.

Lemma omap_cons_None {A B} (f : A → option B) x l :
  f x = None → omap f (x :: l) = omap f l.
Proof. intros Hx. cbn. by rewrite Hx. Qed.

Lemma entryAt_heap d w requested p s :
  heap d !! p = Some s →
  entryAt d w requested p
  = Some (uint64_add (cookie s) 1, outputBaseID s, rootDirectory s,
          VirtualGetAttributes (rootDirectory s) requested w).
Proof. intros Hs. unfold entryAt. by rewrite Hs. Qed.

Lemma reportList_takeAll d w requested l entries :
  (∀ p, p ∈ l → is_Some (heap d !! p)) →
  reportList takeAll d w requested l entries
  = entries ++ omap (entryAt d w requested) l.
Proof.
  revert entries. induction l as [|p l IH]; intros entries Hl.
  { by rewrite app_nil_r. }
  destruct (Hl p) as [s Hs]; [by left|].
  rewrite (omap_cons_Some _ _ _ _ (entryAt_heap d w requested p s Hs)).
  cbn [reportList]. rewrite Hs. cbn [takeAll].
  rewrite IH by (intros q Hq; apply Hl; by right).
  by rewrite <- app_assoc.
Qed.

Lemma length_entries d w requested l :
  (∀ p, p ∈ l → is_Some (heap d !! p)) →
  length (omap (entryAt d w requested) l) = length l.
Proof.
  induction l as [|p l IH]; intros Hheap; [done|].
  destruct (Hheap p) as [s Hs]; [by left|].
  rewrite (omap_cons_Some _ _ _ _ (entryAt_heap d w requested p s Hs)).
  cbn [length]. f_equal. apply IH. intros q Hq. apply Hheap. by right.
Qed.

Lemma listing d l w requested :
  registry_inv d → ring_inv d l →
  VirtualReadDir takeAll d w 0 requested []
  = Some (omap (entryAt d w requested) l).
Proof.
  intros Hinv Hring. rewrite (VirtualReadDir_ring _ d l) by done.
  rewrite filter_all.
  - rewrite reportList_takeAll; [done|].
    intros p Hp. by eapply ring_heap.
  - apply Forall_forall. intros p Hp.
    by destruct (ring_cookieOf d l p Hinv Hring Hp) as [_ [? _]].
Qed.

Lemma entry_registered d l w requested entry :
  registry_inv d → ring_inv d l →
  entry ∈ omap (entryAt d w requested) l ↔
  ∃ p s, outputBaseIDs d !! outputBaseID s = Some p ∧ heap d !! p = Some s ∧
         entry = (uint64_add (cookie s) 1, outputBaseID s, rootDirectory s,
                  VirtualGetAttributes (rootDirectory s) requested w).
Proof.
  intros Hinv Hring. rewrite list_elem_of_omap. split.
  - intros (p & Hp & Hentry). unfold entryAt in Hentry.
    destruct (heap d !! p) as [s|] eqn:Hs; [|done].
    injection Hentry as <-. exists p, s. split_and!; try done.
    apply (ring_registered _ _ Hring) in Hp as [ob Hob].
    pose proof (inv_outputBase d Hinv _ _ Hob) as Hname.
    unfold obOf in Hname. rewrite Hs in Hname. cbn in Hname. congruence.
  - intros (p & s & Hob & Hs & ->). exists p. split.
    + apply (ring_registered _ _ Hring). by eexists.
    + unfold entryAt. by rewrite Hs.
Qed.

Lemma names_NoDup d l w requested :
  registry_inv d → ring_inv d l →
  NoDup (entryName <$> omap (entryAt d w requested) l).
Proof.
  intros Hinv Hring.
  assert (NoDup l) as Hnd by apply (NoDup_cons_1_2 _ _ (ring_NoDup _ _ Hring)).
  assert (Hl : ∀ p, p ∈ l → ∃ ob, outputBaseIDs d !! ob = Some p).
  { intros p. apply (ring_registered _ _ Hring). }
  clear Hring. induction l as [|p l IH]; [constructor|].
  apply NoDup_cons in Hnd as [Hp Hnd].
  destruct (entryAt d w requested p) as [entry|] eqn:Hentry.
  2: { rewrite (omap_cons_None _ _ _ Hentry).
       apply IH; [done|]. intros q Hq. apply Hl. by right. }
  rewrite (omap_cons_Some _ _ _ _ Hentry), fmap_cons.
  apply NoDup_cons. split.
  2: { apply IH; [done|]. intros q Hq. apply Hl. by right. }
  intros Hin. apply list_elem_of_fmap in Hin as (entry' & Hname & Hin).
  apply list_elem_of_omap in Hin as (q & Hq & Hentry').
  assert (q = p) as ->; [|done].
  destruct (Hl p) as [ob1 Hob1]; [by left|].
  destruct (Hl q) as [ob2 Hob2]; [by right|].
  pose proof (inv_outputBase d Hinv _ _ Hob1) as Hn1.
  pose proof (inv_outputBase d Hinv _ _ Hob2) as Hn2.
  unfold entryAt, obOf in *.
  destruct (heap d !! p) as [s1|]; [|done].
  destruct (heap d !! q) as [s2|]; [|done].
  cbn in *. simplify_eq. cbn in Hname. congruence.
Qed.

Lemma VirtualLookup_found name requested w d p s :
  outputBaseIDs d !! name = Some p → heap d !! p = Some s →
  VirtualLookup name requested w d
  = (Ok (Some (rootDirectory s,
               VirtualGetAttributes (rootDirectory s) requested w),
         StatusOK), d).
Proof.
  intros Hob Hs. unfold VirtualLookup. rewrite bind_eq. cbn [get].
  rewrite Hob, bind_eq. unfold deref. by rewrite Hs.
Qed.

Lemma VirtualLookup_missing name requested w d :
  outputBaseIDs d !! name = None →
  VirtualLookup name requested w d = (Ok (None, StatusErrNoEnt), d).
Proof.
  intros Hob. unfold VirtualLookup. rewrite bind_eq. cbn [get].
  by rewrite Hob.
Qed.

Lemma names_registered d l w requested name :
  registry_inv d → ring_inv d l →
  name ∈ entryName <$> omap (entryAt d w requested) l ↔
  is_Some (outputBaseIDs d !! name).
Proof.
  intros Hinv Hring. rewrite list_elem_of_fmap. split.
  - intros (entry & -> & Hentry).
    apply (entry_registered d l) in Hentry as (p & s & Hob & _ & ->);
      [|done..].
    by eexists.
  - intros [p Hob].
    pose proof (inv_outputBase d Hinv _ _ Hob) as Hname. unfold obOf in Hname.
    destruct (heap d !! p) as [s|] eqn:Hs; [|done].
    cbn in Hname. injection Hname as <-.
    eexists. split; [|apply (entry_registered d l); [done..|]].
    2: { by exists p, s. }
    done.
Qed.

End Listing.

(** X16.  In a state that fewer than [2 ^ 64] requests have led to, the
    three views of the directory agree.  [VirtualReadDir] from cookie
    0, with a reporter that takes everything, returns and lists every
    output base once; the names it lists are the names that
    [VirtualLookup] finds, with the same root directory and the same
    attributes; every other name gets ENOENT from [VirtualLookup]; and
    [VirtualOpenChild] answers that a directory is in the way for the
    names that are listed, and that the file does not exist for the
    others. *)
Theorem directory_views_agree `{Collaborators} {OpenExistingOptions Opened}
    (WrongFileType : option OpenExistingOptions → Status → Opened)
    (DoesntExist : option Attributes → Opened)
    maximum w0 requests requested w :
  (Z.of_nat (length requests) < 2 ^ 64)%Z →
  let d := fst (run requests (NewRemoteOutputServiceDirectory maximum, w0)) in
  ∃ entries,
    VirtualReadDir takeAll d w 0 requested [] = Some entries ∧
    NoDup (entryName <$> entries) ∧
    (∀ name child attributes,
       (∃ nextCookie, (nextCookie, name, child, attributes) ∈ entries) ↔
       VirtualLookup name requested w d
       = (Ok (Some (child, attributes), StatusOK), d)) ∧
    (∀ name,
       name ∉ entryName <$> entries ↔
       VirtualLookup name requested w d = (Ok (None, StatusErrNoEnt), d)) ∧
    (∀ name createAttributes existingOptions,
       VirtualOpenChild WrongFileType DoesntExist name createAttributes
         existingOptions d
       = (Ok (if decide (name ∈ entryName <$> entries) then
                WrongFileType existingOptions StatusErrIsDir
              else DoesntExist createAttributes), d)).
Proof.
  intros Hlen d.
  destruct (reachable_ring maximum w0 requests Hlen) as (Hinv & Hring & _).
  fold d in Hinv, Hring.
  exists (omap (entryAt d w requested) (ringOf d)). split_and!.
  - by apply listing.
  - by apply names_NoDup.
  - intros name child attributes. split.
    + intros [nextCookie Hentry].
      apply (entry_registered d (ringOf d)) in Hentry
        as (p & s & Hob & Hs & Heq); [|done..].
      injection Heq as -> -> -> ->. by apply (VirtualLookup_found _ _ _ _ p).
    + intros Hlookup.
      destruct (outputBaseIDs d !! name) as [p|] eqn:Hob.
      2: { by rewrite VirtualLookup_missing in Hlookup. }
      pose proof (inv_outputBase d Hinv _ _ Hob) as Hname. unfold obOf in Hname.
      destruct (heap d !! p) as [s|] eqn:Hs; [|done].
      cbn in Hname. injection Hname as <-.
      rewrite (VirtualLookup_found _ _ _ _ p s) in Hlookup by done.
      injection Hlookup as <- <-.
      eexists. apply (entry_registered d (ringOf d)); [done..|].
      by exists p, s.
  - intros name. rewrite (names_registered d (ringOf d)) by done. split.
    + intros Hnone. apply VirtualLookup_missing.
      by destruct (outputBaseIDs d !! name); [destruct Hnone|].
    + intros Hlookup [p Hob].
      pose proof (inv_outputBase d Hinv _ _ Hob) as Hname. unfold obOf in Hname.
      destruct (heap d !! p) as [s|] eqn:Hs; [|done].
      by rewrite (VirtualLookup_found _ _ _ _ p s) in Hlookup.
  - intros name createAttributes existingOptions.
    unfold VirtualOpenChild. rewrite bind_eq. cbn [get].
    destruct (outputBaseIDs d !! name) as [p|] eqn:Hob.
    + rewrite decide_True; [done|].
      apply (names_registered d (ringOf d)); [done..|]. by eexists.
    + rewrite decide_False; [done|].
      rewrite (names_registered d (ringOf d)) by done. rewrite Hob.
      by intros [? ?].
Qed.

(** X17.  In a state that fewer than [2 ^ 64] requests have led to, the
    link count that [VirtualGetAttributes] reports when the link count
    or the change ID is asked for is [EmptyDirectoryLinkCount] plus the
    number of entries that [VirtualReadDir] lists, in [uint32]
    arithmetic; it comes with the change counter as the change ID. *)
Theorem link_count_counts_entries `{Collaborators}
    FileTypeDirectory PermissionsRead PermissionsExecute
    AttributesMaskChangeID AttributesMaskLinkCount EmptyDirectoryLinkCount
    maximum w0 requests requested w requested' :
  (Z.of_nat (length requests) < 2 ^ 64)%Z →
  Z.land requested (Z.lor AttributesMaskChangeID AttributesMaskLinkCount)
  ≠ 0%Z →
  let d := fst (run requests (NewRemoteOutputServiceDirectory maximum, w0)) in
  ∃ entries,
    VirtualReadDir takeAll d w 0 requested' [] = Some entries ∧
    RemoteOutputServiceDirectory_VirtualGetAttributes FileTypeDirectory
      PermissionsRead PermissionsExecute AttributesMaskChangeID
      AttributesMaskLinkCount EmptyDirectoryLinkCount d requested
    = [SetFileType FileTypeDirectory;
       SetPermissions (Z.lor PermissionsRead PermissionsExecute);
       SetSizeBytes 0;
       SetChangeID (changeID d);
       SetLinkCount (uint32_add EmptyDirectoryLinkCount
                       (uint32 (Z.of_nat (length entries))));
       Handle_GetAttributes requested].
Proof.
  intros Hlen Hmask d.
  destruct (reachable_ring maximum w0 requests Hlen) as (Hinv & Hring & _).
  fold d in Hinv, Hring.
  exists (omap (entryAt d w requested') (ringOf d)). split.
  { by apply listing. }
  unfold RemoteOutputServiceDirectory_VirtualGetAttributes.
  rewrite decide_True by done.
  rewrite (ring_size d (ringOf d)) by done.
  assert (length (omap (entryAt d w requested') (ringOf d))
          = length (ringOf d)) as ->; [|done].
  apply length_entries. intros p Hp. by eapply ring_heap.
Qed.

Section Paging.
Context `{Collaborators}.

Lemma reportList_takeOne_full d w requested l entry :
  reportList takeOne d w requested l (Some entry) = Some entry.
Proof. destruct l as [|p l]; [done|]. cbn. by destruct (heap d !! p). Qed.

Lemma filter_none {A} (P : A → Prop) `{∀ x, Decision (P x)} (l : list A) :
  Forall (λ x, ¬ P x) l → filter P l = [].
Proof.
  induction 1 as [|x l Hx _ IH]; [done|]. by rewrite filter_cons_False.
Qed.

Lemma filter_sorted_suffix (k : ptr → Z) l1 p l2 :
  StronglySorted (λ x y, (k x < k y)%Z) (l1 ++ p :: l2) →
  filter (λ q, (k p + 1 ≤ k q)%Z) (l1 ++ p :: l2) = l2.
Proof.
  intros Hsorted. rewrite filter_app.
  rewrite filter_none, filter_cons_False, filter_all; [done| |lia|].
  - apply StronglySorted_app_1_r, StronglySorted_cons in Hsorted as [Hl2 _].
    eapply Forall_impl; [done|]. cbn. lia.
  - apply Forall_forall. intros x Hx.
    assert (p ∈ p :: l2) as Hp by by left.
    pose proof (StronglySorted_app_1_elem_of _ _ _ x p Hsorted Hx Hp) as Hlt.
    cbn in Hlt. lia.
Qed.

Lemma readAll_suffix d w requested l1 l2 n c :
  registry_inv d → ring_inv d (l1 ++ l2) → (changeID d < 2 ^ 64)%Z →
  filter (λ q, (c ≤ cookieAt d q)%Z) (l1 ++ l2) = l2 →
  length l2 < n →
  readAll n d w requested c = entryName <$> omap (entryAt d w requested) l2.
Proof.
  intros Hinv. revert l1 n c.
  induction l2 as [|p l2 IH]; intros l1 n c Hring Hbound Hfilter Hn.
  - destruct n as [|n]; [lia|]. cbn [readAll].
    rewrite (VirtualReadDir_ring _ d _ _ _ _ _ Hinv Hring), Hfilter. done.
  - destruct n as [|n]; [cbn in Hn; lia|]. cbn [readAll].
    rewrite (VirtualReadDir_ring _ d _ _ _ _ _ Hinv Hring), Hfilter.
    assert (p ∈ l1 ++ p :: l2) as Hp by (apply elem_of_app; right; by left).
    destruct (ring_heap _ _ _ Hinv Hring Hp) as [s Hs].
    cbn [reportList]. rewrite Hs. cbn [takeOne].
    rewrite reportList_takeOne_full.
    rewrite (omap_cons_Some _ _ _ _ (entryAt_heap d w requested p s Hs)).
    rewrite fmap_cons. cbn [entryName fst snd]. f_equal.
    destruct (ring_cookieOf d _ p Hinv Hring Hp) as [_ Hcookie].
    rewrite (cookieAt_heap _ _ _ Hs) in Hcookie.
    rewrite uint64_add_small by lia.
    apply (IH (l1 ++ [p])).
    + by rewrite <- app_assoc.
    + done.
    + rewrite <- app_assoc. cbn [app].
      rewrite <- (cookieAt_heap _ _ _ Hs).
      apply (filter_sorted_suffix (cookieAt d)), (ring_sorted _ _ Hring).
    + cbn in Hn. lia.
Qed.

End Paging.

(** X18.  In a state that fewer than [2 ^ 64] requests have led to, a
    reader that asks [VirtualReadDir] for one entry at a time, and
    that goes on from the cookie that came with the entry before, gets
    the names that one call from cookie 0 lists, in the same order:
    every output base once, none left out. *)
Theorem reading_entry_by_entry `{Collaborators} maximum w0 requests
    requested w :
  (Z.of_nat (length requests) < 2 ^ 64)%Z →
  let d := fst (run requests (NewRemoteOutputServiceDirectory maximum, w0)) in
  ∃ entries,
    VirtualReadDir takeAll d w 0 requested [] = Some entries ∧
    ∀ n, length entries < n →
         readAll n d w requested 0 = entryName <$> entries.
Proof.
  intros Hlen d.
  destruct (reachable_ring maximum w0 requests Hlen) as (Hinv & Hring & Hc).
  fold d in Hinv, Hring, Hc.
  exists (omap (entryAt d w requested) (ringOf d)). split.
  { by apply listing. }
  intros n Hn. apply (readAll_suffix d w requested [] (ringOf d)).
  - done.
  - done.
  - lia.
  - cbn [app]. apply filter_all, Forall_forall. intros p Hp.
    by destruct (ring_cookieOf d _ p Hinv Hring Hp) as [_ [? _]].
  - rewrite length_entries in Hn; [done|].
    intros p Hp. by eapply ring_heap.
Qed.

Section ChangeID.
Context `{Collaborators}.

Lemma ringStep_same_changeID d d' l :
  ring_inv d l → (changeID d + 1 < 2 ^ 64)%Z →
  ringStep d d' → changeID d' = changeID d → sameRing d d'.
Proof.
  intros Hring Hbound Hstep Hsame.
  pose proof (ring_changeID _ _ Hring) as Hpos.
  destruct Hstep as [?|p ob s _ _ Hstep|root factory ob _ Hstep]; [done|..];
    apply same_changeID in Hstep; cbn [changeID with_changeID] in Hstep.
  - rewrite uint64_add_small in Hstep by lia. lia.
  - rewrite (proj1 (proj2 (proj2 (linkedAtTail_fields _ _ _ _)))) in Hstep.
    rewrite uint64_add_small in Hstep by lia. lia.
Qed.

Lemma run_same_changeID later st l (n : Z) :
  registry_inv (fst st) → ring_inv (fst st) l →
  (changeID (fst st) ≤ n)%Z → (n + Z.of_nat (length later) < 2 ^ 64)%Z →
  changeID (fst (run later st)) = changeID (fst st) →
  sameRing (fst st) (fst (run later st)).
Proof.
  revert st l n. induction later as [|request later IH];
    intros st l n Hinv Hring Hn Hbound Hsame.
  { apply sameRing_refl. }
  cbn [run foldl] in *. cbn [length] in Hbound.
  pose proof (handle_inv st request Hinv) as Hinv1.
  pose proof (handle_ringStep st request Hinv) as Hstep.
  destruct (ringStep_inv _ _ l Hinv Hring ltac:(lia) Hstep)
    as ([l1 Hring1] & Hc1 & _).
  destruct (run_ring later (handle st request) l1 (n + 1) Hinv1 Hring1)
    as (_ & _ & Hc2 & _); [lia|lia|].
  fold (run later (handle st request)) in *.
  assert (changeID (fst (handle st request)) = changeID (fst st)) as Heq
    by lia.
  eapply sameRing_trans.
  - eapply ringStep_same_changeID; [done|lia|done|done].
  - apply (IH _ l1 (n + 1)%Z); [done|done|lia|lia|congruence].
Qed.

End ChangeID.

(** X19.  The change counter tells a reader whether the directory has
    changed.  Take a run of fewer than [2 ^ 64] requests: when the
    change counter at the end of the run is what it was at some point
    before, then at both points the same output bases are registered
    under the same names, they are listed in the same order, and
    every output path has the cookie it had. *)
Theorem changeID_detects_changes `{Collaborators} maximum w0 requests later :
  (Z.of_nat (length requests + length later) < 2 ^ 64)%Z →
  let st := run requests (NewRemoteOutputServiceDirectory maximum, w0) in
  let st' := run later st in
  changeID (fst st') = changeID (fst st) →
  outputBaseIDs (fst st') = outputBaseIDs (fst st) ∧
  ringOf (fst st') = ringOf (fst st) ∧
  (∀ p, cookieOf (fst st') p = cookieOf (fst st) p).
Proof.
  intros Hlen st st' Hsame. rewrite Nat2Z.inj_add in Hlen.
  destruct (reachable_ring maximum w0 requests ltac:(lia))
    as (Hinv & Hring & Hc).
  fold st in Hinv, Hring, Hc.
  pose proof (run_same_changeID later st (ringOf (fst st))
                (Z.of_nat (length requests)) Hinv Hring ltac:(lia) ltac:(lia)
                Hsame) as Hsame'.
  fold st' in Hsame'.
  split_and!.
  - apply Hsame'.
  - apply ringOf_ring.
    + apply run_inv, Hinv.
    + by eapply ring_inv_same.
  - apply Hsame'.
Qed.

Section Order.
Context `{Collaborators}.

Lemma sameRing_ringOf d d' l :
  registry_inv d' → ring_inv d l → sameRing d d' → ringOf d' = l.
Proof.
  intros Hinv' Hring Hsame. apply ringOf_ring; [done|].
  by eapply ring_inv_same.
Qed.

Lemma sameRing_cleaned p ob s d :
  sameRing (with_changeID (uint64_add (changeID d) 1)
              (unlinked p (with_outputBaseIDs (delete ob (outputBaseIDs d)) d)))
           (cleaned p ob s d).
Proof.
  unfold cleaned. cbv zeta. destruct (buildState_ s) as [bs|].
  - apply (sameRing_closeSession _ p bs).
  - apply sameRing_refl.
Qed.

End Order.

(** X20.  The order of the enumeration, in a state that requests have
    led to (the run and the request together are shorter than
    [2 ^ 64]).  A [StartBuild] for an output base that is not
    registered, with a build ID that has no session, puts the new
    output path at the end of the ring, with the change counter as its
    cookie, and moves the change counter by one; any other
    [StartBuild] whose request is in order leaves the ring, the names
    and the change counter as they are, and so does [FinalizeBuild].
    A [Clean] that succeeds on a registered output base takes that
    output path out of the ring, keeps the order of the others and
    moves the change counter by one. *)
Theorem enumeration_order `{Collaborators} maximum w0 requests :
  (Z.of_nat (length requests) + 1 < 2 ^ 64)%Z →
  let st := run requests (NewRemoteOutputServiceDirectory maximum, w0) in
  (∀ request ob swf f suffix,
     StartBuild_prepare request = Ok (ob, swf, f, suffix) →
     let d' := fst (snd (StartBuild request st)) in
     match buildIDs (fst st) !! start_BuildId request,
           outputBaseIDs (fst st) !! ob with
     | None, None =>
         ∃ p, ringOf d' = ringOf (fst st) ++ [p] ∧
              outputBaseIDs d' !! ob = Some p ∧
              cookieOf d' p = Some (changeID (fst st)) ∧
              changeID d' = (changeID (fst st) + 1)%Z
     | _, _ =>
         ringOf d' = ringOf (fst st) ∧
         outputBaseIDs d' = outputBaseIDs (fst st) ∧
         changeID d' = changeID (fst st)
     end) ∧
  (∀ request ob p,
     NewComponent (clean_OutputBaseId request) = Some ob →
     outputBaseIDs (fst st) !! ob = Some p →
     fst (Clean request st) = Ok tt →
     let d' := fst (snd (Clean request st)) in
     ∃ k, ringOf (fst st) !! k = Some p ∧
          ringOf d' = delete k (ringOf (fst st)) ∧
          changeID d' = (changeID (fst st) + 1)%Z) ∧
  (∀ request,
     let d' := fst (snd (FinalizeBuild request st)) in
     ringOf d' = ringOf (fst st) ∧
     outputBaseIDs d' = outputBaseIDs (fst st) ∧
     changeID d' = changeID (fst st)).
Proof.
  intros Hlen st.
  destruct (reachable_ring maximum w0 requests ltac:(lia))
    as (Hinv & Hring & Hc).
  fold st in Hinv, Hring, Hc. destruct st as [d w]. cbn [fst snd] in *.
  split_and!.
  - intros request ob swf f suffix Hprep.
    rewrite (StartBuild_registry_prepared _ _ _ _ _ _ _ Hprep).
    pose proof (StartBuild_locked_inv (start_BuildId request) ob f swf d w Hinv)
      as Hinv'.
    destruct (buildIDs d !! start_BuildId request) as [q|] eqn:Hb.
    { by rewrite (StartBuild_locked_known _ _ _ _ _ _ _ Hb). }
    destruct (outputBaseIDs d !! ob) as [p|] eqn:Hob.
    + pose proof (inv_outputBase d Hinv _ _ Hob) as Hp. unfold obOf in Hp.
      destruct (heap d !! p) as [s|] eqn:Hs; [|done].
      rewrite (StartBuild_locked_reuse _ _ _ _ _ _ _ _ Hb Hob Hs) in Hinv' |- *.
      cbn [fst snd] in *.
      set (nb := {| id := start_BuildId request; digestFunction := f;
                    scopeWalkerFactory := swf |}) in *.
      set (d0 := match buildState_ s with
                 | Some bs => closeSession p bs d
                 | None => d
                 end) in *.
      assert (sameRing d (openSession p nb d0)) as Hsame.
      { eapply sameRing_trans; [|apply sameRing_openSession].
        subst d0. destruct (buildState_ s);
          [apply sameRing_closeSession|apply sameRing_refl]. }
      split_and!.
      * by apply (sameRing_ringOf d).
      * apply Hsame.
      * apply Hsame.
    + rewrite (StartBuild_locked_fresh _ _ _ _ _ _ Hb Hob) in Hinv' |- *.
      destruct (NewCASFileFactory w) as [factory w1].
      destruct (StartInitialBuild ob factory f w1) as [root w2].
      cbn [fst snd] in *.
      set (nb := {| id := start_BuildId request; digestFunction := f;
                    scopeWalkerFactory := swf |}) in *.
      set (p := S (allocations d)) in *.
      set (d0 := with_changeID _ (linkedAtTail root factory ob d)) in *.
      assert (ring_inv d0 (ringOf d ++ [p])) as Hring0.
      { apply ring_inv_linked; [done..|lia]. }
      pose proof (sameRing_openSession d0 p nb) as Hsame.
      exists p. split_and!.
      * by apply (sameRing_ringOf d0).
      * rewrite (same_outputBaseIDs _ _ Hsame). subst d0. wsimpl.
        rewrite (proj1 (linkedAtTail_fields _ _ _ _)).
        by rewrite lookup_insert_eq.
      * rewrite (same_cookie _ _ Hsame). subst d0. obs.
        rewrite linkedAtTail_cookieOf. by rewrite decide_True.
      * rewrite (same_changeID _ _ Hsame). subst d0. wsimpl.
        rewrite (proj1 (proj2 (proj2 (linkedAtTail_fields _ _ _ _)))).
        apply uint64_add_small; lia.
  - intros request ob p Hname Hob.
    pose proof (inv_outputBase d Hinv ob p Hob) as Hp.
    unfold obOf in Hp. destruct (heap d !! p) as [s|] eqn:Hs; [|done].
    rewrite (Clean_registered_eq _ ob p s) by done.
    destruct (RemoveAllChildren (rootDirectory s) true w) as [[[]|e|] w1];
      [|done|done].
    intros _. cbn [fst snd].
    destruct (ring_inv_unlinked d (ringOf d) p ob s Hinv Hring Hob Hs
                ltac:(lia)) as (k & Hk & Hring').
    exists k. split_and!.
    + done.
    + eapply sameRing_ringOf; [|done|apply sameRing_cleaned].
      pose proof (Clean_commit_inv p ob d Hinv) as Hinv'.
      by rewrite (Clean_commit_eq _ _ _ s) in Hinv'.
    + rewrite cleaned_changeID. apply uint64_add_small; lia.
  - intros [b]. cbn zeta.
    destruct (buildIDs d !! b) as [p|] eqn:Hb.
    + destruct (registry_inv_build d b p Hinv Hb) as (s & bs & Hs & Hbs & _).
      pose proof (FinalizeBuild_inv {| finalize_BuildId := b |} d w Hinv)
        as Hinv'.
      rewrite (FinalizeBuild_known _ _ _ _ _ _ Hb Hs Hbs) in Hinv' |- *.
      cbn [fst snd] in *.
      pose proof (sameRing_closeSession d p bs) as Hsame.
      split_and!; [by apply (sameRing_ringOf d)|apply Hsame..].
    + by rewrite (FinalizeBuild_unknown _ _ _ Hb).
Qed.

#[local] Existing Instance Example.C.
Import Example.

(** ** The theorems at work, and the claims that do not hold *)

(** C1 as stated does not hold: the request below has a directory
    that is too large, and [BatchCreate] fails with InvalidArgument,
    but by then it has created the directory of the path prefix and
    the file. *)
Lemma BatchCreate_oversized_keeps_file :
  fst (BatchCreate create started)
  = Err (StatusError InvalidArgument
           "Directory big exceeds the permitted maximum size") ∧
  Mem.lookup ["ob1"; "x"; "f"] (snd started) = None ∧
  Mem.lookup ["ob1"; "x"; "f"] (snd (snd (BatchCreate create started)))
  = Some (Mem.LeafNode
            (Mem.File {| digest_instanceName := "i"; digest_function := 1;
                         digest_hash := "aa"; digest_sizeBytes := 3 |}
                      true)).
Proof. vm_compute. done. Qed.

Lemma BatchCreate_oversized_witness :
  getOutputPathAndBuildState "b1" (fst started)
  = (Ok (path1, Some (session "b1")), fst started) ∧
  match BatchCreate (upToDirectory create []) (fst started, snd started) with
  | (Ok _, st') =>
      ∃ e, status_Code e = InvalidArgument ∧
           BatchCreate create (fst started, snd started) = (Err e, st')
  | (r, st') => BatchCreate create (fst started, snd started) = (r, st')
  end.
Proof.
  split; [vm_compute; reflexivity|].
  apply (BatchCreate_oversized (H := C) create (fst started) (snd started) path1
           (session "b1") [] big []);
    [vm_compute; reflexivity|reflexivity|vm_compute; reflexivity].
Defined.

(** C2 as stated does not hold: "b2" is a different build ID, but it
    has a session in "ob2"; [StartBuild] for "ob1" with "b2" finds the
    build ID in the map and leaves the session of "b1" open, and
    [BatchStat] with "b1" still works. *)
Lemma StartBuild_known_elsewhere :
  buildIDs (fst two) !! "b1" = Some 1 ∧
  outputBaseIDs (fst two) !! "ob1" = Some 1 ∧
  fst (StartBuild (start "ob1" "b2") two)
  = Ok {| OutputPathSuffix := "ob1" |} ∧
  buildIDs (fst (snd (StartBuild (start "ob1" "b2") two))) !! "b1" = Some 1 ∧
  fst (BatchStat (stat "b1" ["."]) (snd (StartBuild (start "ob1" "b2") two)))
  = Ok {| Responses :=
            [{| file_status := Some (FileStatus_Directory_ (Some 0%Z)) |}] |}.
Proof. vm_compute. done. Qed.

Lemma StartBuild_supersedes_witness :
  ∃ s,
    heap (fst started) !! 1 = Some s ∧
    let '(r, st') := StartBuild (start "ob1" "b2") started in
    r = filterOutcome (Builder_terminal "ob1" EmptyBuilder)
          (fst (filterMissingChildren (rootDirectory s) sha
                  (emptyFilterState, snd started))) ∧
    buildIDs (fst st') !! "b1" = None ∧
    buildIDs (fst st') !! "b2" = Some 1 ∧
    ∀ create stat,
      create_BuildId create = "b1" → stat_BuildId stat = "b1" →
      fst (BatchCreate create
             (run [ReqFinalizeBuild {| finalize_BuildId := "b2" |}] st'))
        = Err notRunning ∧
      fst (BatchStat stat
             (run [ReqFinalizeBuild {| finalize_BuildId := "b2" |}] st'))
        = Err notRunning.
Proof.
  apply (StartBuild_supersedes (H := C) 100 world [ReqStartBuild (start "ob1" "b1")]
           [ReqFinalizeBuild {| finalize_BuildId := "b2" |}]
           (start "ob1" "b2") "ob1" tt sha
           (Builder_terminal "ob1" EmptyBuilder) "b1" 1);
    [vm_compute; reflexivity..|].
  constructor; [exact (λ x, x)|constructor].
Defined.

(** C3 as stated does not hold: with a batch size of 2, the three
    files below have 2 distinct digests, and the pass calls
    [FindMissing] twice, not once: the queue is sent off when the
    third file comes, although its digest is in the queue already. *)
Lemma filter_pass_shared_digest :
  fst (pass shared) = Ok tt ∧
  findMissingCalls (trace (fst (snd (pass shared)))) = 2 ∧
  size (list_to_set (C := gset Digest)
          (enqueuedDigests (trace (fst (snd (pass shared)))))) = 2 ∧
  ceilDiv 2 RecommendedFindMissingDigestsCount = 1.
Proof. vm_compute. done. Qed.

Lemma filter_pass_batches_witness :
  1 ≤ RecommendedFindMissingDigestsCount ∧
  pass distinct = (Ok tt, (fst (snd (pass distinct)),
                           snd (snd (pass distinct)))) ∧
  NoDup (enqueuedDigests (trace (fst (snd (pass distinct))))) ∧
  length (enqueuedDigests (trace (fst (snd (pass distinct))))) = 3 ∧
  findMissingCalls (trace (fst (snd (pass distinct))))
  = ceilDiv (length (enqueuedDigests (trace (fst (snd (pass distinct))))))
            RecommendedFindMissingDigestsCount.
Proof.
  assert (Hnd : NoDup (enqueuedDigests (trace (fst (snd (pass distinct)))))).
  { apply (bool_decide_unpack
             (NoDup (enqueuedDigests (trace (fst (snd (pass distinct))))))).
    vm_compute. exact I. }
  split_and!; [vm_compute; lia|vm_compute; reflexivity|exact Hnd
              |vm_compute; reflexivity|].
  apply (proj1 (filter_pass_batches (H := C) ["ob1"] sha distinct
                  (fst (snd (pass distinct))) (snd (snd (pass distinct)))
                  ltac:(vm_compute; lia) ltac:(vm_compute; reflexivity) Hnd)).
Defined.

Lemma above_the_root_witness :
  startsAbove "../q" ["q"] ∧
  statPath (stat "b1" []) path1 (Some (session "b1")) "../q" world
  = (Ok {| file_status := Some (FileStatus_External_ (Some "../q")) |},
     world).
Proof.
  assert (Habove : startsAbove "../q" ["q"]) by (by vm_compute).
  split; [exact Habove|].
  apply (proj1 (proj2 (proj2 (proj2 (proj2 (above_the_root (H := C))))))
           (stat "b1" []) path1 (session "b1") "../q" ["q"] world Habove).
Defined.

Lemma BatchStat_one_response_per_path_witness :
  BatchStat (stat "b1" ["."; "../q"; "nope"]) (fst started, snd started)
  = (Ok {| Responses :=
             [{| file_status := Some (FileStatus_Directory_ (Some 0%Z)) |};
              {| file_status := Some (FileStatus_External_ (Some "../q")) |};
              {| file_status := None |}] |}, started) ∧
  length [{| file_status := Some (FileStatus_Directory_ (Some 0%Z)) |};
          {| file_status := Some (FileStatus_External_ (Some "../q")) |};
          {| file_status := None |}]
  = length ["."; "../q"; "nope"].
Proof.
  assert (Hstat :
    BatchStat (stat "b1" ["."; "../q"; "nope"]) (fst started, snd started)
    = (Ok {| Responses :=
               [{| file_status := Some (FileStatus_Directory_ (Some 0%Z)) |};
                {| file_status :=
                     Some (FileStatus_External_ (Some "../q")) |};
                {| file_status := None |}] |}, started))
    by (vm_compute; reflexivity).
  split; [exact Hstat|].
  apply (proj1 (BatchStat_one_response_per_path (H := C) _ _ _ _ _ Hstat)).
Defined.

Lemma foreign_digests_removed_witness :
  pass foreign = (Ok tt, (fst (snd (pass foreign)),
                          snd (snd (pass foreign)))) ∧
  (FromLeaf (Mem.File (blob 2 "bb") false), ["ob1"; "f2"])
    ∈ FilterChildren_nodes ["ob1"] foreign ∧
  foreignTo sha (Leaf_GetContainingDigests (Mem.File (blob 2 "bb") false)) ∧
  EvRemove ["ob1"; "f2"] (Ok tt) ∈ trace (fst (snd (pass foreign))).
Proof.
  assert (Hpass : pass foreign = (Ok tt, (fst (snd (pass foreign)),
                                          snd (snd (pass foreign)))))
    by (vm_compute; reflexivity).
  assert (Hnode : (FromLeaf (Mem.File (blob 2 "bb") false), ["ob1"; "f2"])
                    ∈ FilterChildren_nodes ["ob1"] foreign)
    by (vm_compute; right; left).
  assert (Hforeign : foreignTo sha (Leaf_GetContainingDigests
                                      (Mem.File (blob 2 "bb") false))).
  { exists (blob 2 "bb"). split; [vm_compute; left|vm_compute; reflexivity]. }
  split_and!; [exact Hpass|exact Hnode|exact Hforeign|].
  apply (proj2 (proj2 (foreign_digests_removed (H := C) ["ob1"] sha foreign))
           _ _ _ _ Hpass Hnode Hforeign).
Defined.

Lemma StartBuild_known_build_id_witness :
  buildIDs (fst started) !! "b1" = Some 1 ∧
  heap (fst started) !! 1 = Some path1 ∧
  StartBuild (start "ob1" "b1") (fst started, snd started)
  = (Ok {| OutputPathSuffix := "ob1" |}, started).
Proof.
  assert (Hb : buildIDs (fst started) !! "b1" = Some 1)
    by (vm_compute; reflexivity).
  assert (Hs : heap (fst started) !! 1 = Some path1)
    by (vm_compute; reflexivity).
  split_and!; [exact Hb|exact Hs|].
  etrans; [apply (StartBuild_known_build_id (H := C) (start "ob1" "b1")
                    (fst started) (snd started) 1 path1 Hb Hs)|].
  vm_compute. reflexivity.
Defined.

(** *** The change counter wraps around *)

Lemma start_idle d :
  idle d →
  StartBuild (start "ob1" "b1") (d, world)
  = (Ok {| OutputPathSuffix := "ob1" |},
     (openSession (S (allocations d)) (session "b1")
        (with_changeID
           (uint64_add (changeID (linkedAtTail ["ob1"] tt "ob1" d)) 1)
           (linkedAtTail ["ob1"] tt "ob1" d)), world)).
Proof.
  intros (Hreg & Hob & Hb). rewrite (StartBuild_eq (H := C)).
  assert (StartBuild_prepare (start "ob1" "b1")
          = Ok ("ob1", tt, sha, Builder_terminal "ob1" EmptyBuilder)) as ->
    by (vm_compute; reflexivity).
  rewrite (StartBuild_locked_fresh (H := C))
    by (cbn [start start_BuildId]; rewrite ?Hob, ?Hb; apply lookup_empty).
  cbn [NewCASFileFactory StartInitialBuild C Mem.collaborators].
  set (d1 := openSession _ _ _).
  assert (is_Some (heap d1 !! S (allocations d))) as [s1 Hs1].
  { subst d1. unfold openSession. cbn [heap with_buildIDs].
    apply is_Some_setBuildState. cbn [heap with_changeID].
    apply linkedAtTail_is_Some. by left. }
  rewrite Hs1. done.
Qed.

Lemma idle_step d :
  idle d →
  let p := S (allocations d) in
  let d1 := fst (snd (StartBuild (start "ob1" "b1") (d, world))) in
  ∃ s1, heap d1 !! p = Some s1 ∧ buildState_ s1 = Some (session "b1") ∧
        outputBaseIDs d1 = {[ "ob1" := p ]} ∧
        buildIDs d1 = {[ "b1" := p ]} ∧
        changeID d1 = uint64_add (changeID d) 1 ∧
        allocations d1 = S (allocations d) ∧
        (∀ q, cookieOf d1 q
              = if decide (q = p) then Some (changeID d) else cookieOf d q).
Proof.
  intros Hidle p d1. subst d1. rewrite (start_idle d Hidle). cbn [fst snd].
  destruct Hidle as (Hreg & Hob & Hb).
  set (d1 := openSession _ _ _).
  destruct (linkedAtTail_fields d ["ob1"] tt "ob1")
    as (Hf1 & Hf2 & Hf3 & Hf4 & _).
  assert (bsOf d1 p = Some (Some (session "b1"))) as Hbs.
  { subst d1. unfold openSession.
    change (bsOf (with_buildIDs ?m ?e) p) with (bsOf e p).
    rewrite bsOf_setBuildState, decide_True by done.
    rewrite (proj2 (proj2 (bsOf_with _ _))), linkedAtTail_bsOf.
    by rewrite decide_True. }
  unfold bsOf in Hbs. destruct (heap d1 !! p) as [s1|] eqn:Hs1; [|done].
  exists s1. split_and!.
  - done.
  - cbn in Hbs. by injection Hbs.
  - subst d1. unfold openSession.
    cbn [outputBaseIDs with_buildIDs setBuildState with_heap with_changeID].
    by rewrite Hf1, Hob, insert_empty.
  - subst d1. rewrite openSession_buildIDs.
    cbn [buildIDs with_changeID id session]. by rewrite Hf2, Hb, insert_empty.
  - subst d1. unfold openSession.
    cbn [changeID with_buildIDs setBuildState with_heap with_changeID].
    by rewrite Hf3.
  - subst d1. unfold openSession.
    cbn [allocations with_buildIDs setBuildState with_heap with_changeID].
    by rewrite Hf4.
  - intros q. subst d1. unfold openSession.
    change (cookieOf (with_buildIDs ?m ?e) q) with (cookieOf e q).
    rewrite cookieOf_setBuildState, (proj2 (proj2 (cookieOf_with _ _))).
    apply linkedAtTail_cookieOf.
Qed.

Lemma round_effect d :
  idle d →
  let st' := run round (d, world) in
  snd st' = world ∧ idle (fst st') ∧
  changeID (fst st') = uint64_add (uint64_add (changeID d) 1) 1 ∧
  allocations (fst st') = S (allocations d) ∧
  ∀ q, cookieOf (fst st') q
       = if decide (q = S (allocations d)) then Some (changeID d)
         else cookieOf d q.
Proof.
  intros Hidle st'.
  assert (Hreg' : registry_inv (fst st')).
  { subst st'. apply run_inv. apply Hidle. }
  destruct (idle_step d Hidle)
    as (s1 & Hs1 & Hbs1 & Hob1 & Hb1 & Hch1 & Hal1 & Hck1).
  subst st'. unfold round, run in *. cbn [foldl handle] in *.
  destruct (StartBuild (start "ob1" "b1") (d, world)) as [r [d1 w1]] eqn:Hstart.
  assert (w1 = world) as ->.
  { rewrite (start_idle d Hidle) in Hstart. by injection Hstart. }
  cbn [fst snd] in *.
  assert (Hclean : Clean (clean "ob1") (d1, world)
    = (Ok tt, (cleaned (S (allocations d)) "ob1" s1 d1, world))).
  { apply (Clean_known (H := C) (clean "ob1") "ob1" (S (allocations d)) s1
             d1 world world).
    - by vm_compute.
    - rewrite Hob1. apply lookup_singleton_eq.
    - done.
    - done. }
  rewrite Hclean in *. cbn [fst snd] in *. split; [done|].
  assert (Hcleaned : cleaned (S (allocations d)) "ob1" s1 d1
    = closeSession (S (allocations d)) (session "b1")
        (with_changeID (uint64_add (changeID d1) 1)
           (unlinked (S (allocations d))
              (with_outputBaseIDs (delete "ob1" (outputBaseIDs d1)) d1)))).
  { unfold cleaned. by rewrite Hbs1. }
  rewrite Hcleaned in *. clear Hcleaned.
  split_and!.
  - split_and!; [done| |].
    + unfold closeSession.
      cbn [outputBaseIDs setBuildState with_heap with_buildIDs with_changeID].
      rewrite outputBaseIDs_unlinked. cbn [outputBaseIDs with_outputBaseIDs].
      rewrite Hob1. apply delete_singleton_eq.
    + rewrite closeSession_buildIDs. cbn [buildIDs with_changeID id session].
      rewrite buildIDs_unlinked. cbn [buildIDs with_outputBaseIDs].
      rewrite Hb1. apply delete_singleton_eq.
  - unfold closeSession.
    cbn [changeID setBuildState with_heap with_buildIDs with_changeID].
    by rewrite Hch1.
  - unfold closeSession.
    cbn [allocations setBuildState with_heap with_buildIDs with_changeID].
    by rewrite allocations_unlinked.
  - intros q. unfold closeSession.
    rewrite cookieOf_setBuildState.
    change (cookieOf (with_buildIDs ?m ?e) q) with (cookieOf e q).
    rewrite (proj2 (proj2 (cookieOf_with _ _))), cookieOf_unlinked.
    rewrite (proj1 (proj2 (cookieOf_with _ _))). apply Hck1.
Qed.

Lemma new_idle : idle new.
Proof. split_and!; [apply New_inv|done|done]. Qed.

Lemma run_app requests later (st : RemoteOutputServiceDirectory * World) :
  run (requests ++ later) st = run later (run requests st).
Proof. apply foldl_app. Qed.

Lemma uint64_add_twice (c : Z) (n : nat) :
  uint64_add (uint64_add ((c + 2 * Z.of_nat n) mod 2 ^ 64) 1) 1
  = ((c + 2 * Z.of_nat (S n)) mod 2 ^ 64)%Z.
Proof.
  unfold uint64_add.
  rewrite Zplus_mod_idemp_l, <- Z.add_assoc, Zplus_mod_idemp_l.
  f_equal. lia.
Qed.

Lemma idle_cookie_allocated d q c :
  idle d → cookieOf d q = Some c → q ≠ S (allocations d).
Proof.
  intros (Hreg & _) Hc ->. unfold cookieOf in Hc.
  by rewrite (fresh_address d Hreg) in Hc.
Qed.

(** The change counter after [n] rounds is where it was plus [2 n],
    modulo [2 ^ 64]; every round makes one object, and objects keep
    their cookies. *)
Lemma rounds_effect (n : nat) d :
  idle d → (0 ≤ changeID d < 2 ^ 64)%Z →
  let st' := run (concat (replicate n round)) (d, world) in
  snd st' = world ∧ idle (fst st') ∧
  changeID (fst st') = ((changeID d + 2 * Z.of_nat n) mod 2 ^ 64)%Z ∧
  allocations (fst st') = allocations d + n ∧
  (∀ q c, cookieOf d q = Some c → cookieOf (fst st') q = Some c) ∧
  (1 ≤ n → cookieOf (fst st') (S (allocations d)) = Some (changeID d)).
Proof.
  intros Hidle Hrange. induction n as [|n IH].
  - cbn [replicate concat run foldl fst snd].
    split_and!; [done|done| |lia|done|lia].
    rewrite Z.add_0_r. symmetry. by apply Z.mod_small.
  - destruct IH as (Hw & Hidle' & Hch & Hal & Hkeep & Hfirst).
    intros st'. subst st'.
    rewrite replicate_S_end, concat_app, run_app. cbn [concat].
    rewrite app_nil_r.
    destruct (run (concat (replicate n round)) (d, world)) as [dn wn].
    cbn [fst snd] in *. subst wn.
    destruct (round_effect dn Hidle') as (Hw1 & Hidle1 & Hch1 & Hal1 & Hck1).
    split_and!.
    + done.
    + done.
    + rewrite Hch1, Hch. apply uint64_add_twice.
    + rewrite Hal1, Hal. lia.
    + intros q c Hc. rewrite Hck1, decide_False; [by apply Hkeep|].
      eapply idle_cookie_allocated; [done|]. by apply Hkeep.
    + intros _. rewrite Hck1. destruct n as [|n].
      * rewrite Nat.add_0_r in Hal. rewrite Hal, decide_True by done.
        rewrite Hch, Z.add_0_r. f_equal. by apply Z.mod_small.
      * rewrite decide_False by lia. apply Hfirst. lia.
Qed.

Lemma wrapAround_cookies (n : nat) :
  1 ≤ n → ((2 * Z.of_nat n) mod 2 ^ 64 = 0)%Z →
  cookieOf (fst (run (wrapAround n) (new, world))) 1 = Some 0%Z ∧
  cookieOf (fst (run (wrapAround n) (new, world))) (S n) = Some 0%Z.
Proof.
  intros Hn Hwrap. unfold wrapAround. rewrite run_app.
  destruct (rounds_effect n new new_idle ltac:(done))
    as (Hw & Hidle & Hch & Hal & Hkeep & Hfirst).
  destruct (run (concat (replicate n round)) (new, world)) as [dn wn].
  cbn [fst snd] in *. subst wn.
  change (changeID new) with 0%Z in Hch, Hfirst.
  change (allocations new) with 0 in Hal, Hfirst.
  rewrite Z.add_0_l, Hwrap in Hch. rewrite Nat.add_0_l in Hal.
  destruct (idle_step dn Hidle)
    as (s1 & _ & _ & _ & _ & _ & _ & Hck).
  cbn [run foldl handle]. cbv zeta in Hck.
  split.
  - rewrite Hck, decide_False by lia. by apply Hfirst.
  - by rewrite Hck, Hal, decide_True, Hch.
Qed.

(** C4 as stated does not hold: the change counter is a [uint64].
    After [2 ^ 63] builds that each make an output path and clean it,
    the counter is back at 0, and the output path that is made next
    (the object at address [n + 1]) gets the cookie 0, which is the
    cookie that the first output path (the object at address 1)
    had. *)
Lemma cookie_reused_after_wrap_around :
  ∃ n : nat,
    Z.of_nat n = (2 ^ 63)%Z ∧
    cookieOf (fst (run (wrapAround n) (new, world))) 1 = Some 0%Z ∧
    cookieOf (fst (run (wrapAround n) (new, world))) (S n) = Some 0%Z.
Proof.
  exists (2 ^ 63). split.
  - rewrite Nat2Z.inj_pow. reflexivity.
  - apply wrapAround_cookies.
    + apply Nat.neq_0_lt_0, Nat.pow_nonzero. discriminate.
    + rewrite Nat2Z.inj_pow. reflexivity.
Qed.

Lemma cookies_and_enumeration_witness :
  (Z.of_nat (length [ReqStartBuild (start "ob1" "b1");
                     ReqStartBuild (start "ob2" "b2")]
             + length [ReqClean (clean "ob1")]) < 2 ^ 64)%Z ∧
  StronglySorted (λ p q, (cookieAt (fst two) p < cookieAt (fst two) q)%Z)
                 (ringOf (fst two)).
Proof.
  assert (Hbound :
    (Z.of_nat (length [ReqStartBuild (start "ob1" "b1");
                       ReqStartBuild (start "ob2" "b2")]
               + length [ReqClean (clean "ob1")]) < 2 ^ 64)%Z)
    by (vm_compute; reflexivity).
  split; [exact Hbound|].
  apply (proj1 (cookies_and_enumeration (H := C) 100 world
                  [ReqStartBuild (start "ob1" "b1");
                   ReqStartBuild (start "ob2" "b2")]
                  [ReqClean (clean "ob1")] Hbound)).
Defined.

Import Tour.

(** ** More of the theorems at work *)

Lemma build_states_registered_witness :
  heap (fst started) !! 1 = Some path1 ∧
  buildState_ path1 = Some (session "b1") ∧
  buildIDs (fst started) !! id (session "b1") = Some 1 ∧
  outputBaseIDs (fst started) !! outputBaseID path1 = Some 1.
Proof.
  assert (Hs : heap (fst started) !! 1 = Some path1)
    by (vm_compute; reflexivity).
  split; [exact Hs|]. split; [reflexivity|].
  apply (build_states_registered (H := C) 100 world
           startOne 1 path1 (session "b1") Hs
           eq_refl).
Defined.

Lemma Clean_failure_keeps_registry_witness :
  fst (Clean (clean "a/b") (fst started, snd started))
  = Err (StatusError InvalidArgument "Output base ID is not a valid filename") ∧
  fst (snd (Clean (clean "a/b") (fst started, snd started))) = fst started.
Proof.
  assert (Hfail : fst (Clean (clean "a/b") (fst started, snd started))
                  = Err (StatusError InvalidArgument
                           "Output base ID is not a valid filename"))
    by (vm_compute; reflexivity).
  split; [exact Hfail|].
  apply (Clean_failure_keeps_registry (H := C) (clean "a/b") (fst started)
           (snd started) _ Hfail).
Defined.

Lemma Clean_removes_output_base_witness :
  NewComponent (clean_OutputBaseId (clean "ob1")) = Some "ob1" ∧
  outputBaseIDs (fst started) !! "ob1" = Some 1 ∧
  fst (Clean (clean "ob1") started) = Ok tt ∧
  outputBaseIDs (fst (snd (Clean (clean "ob1") started)))
  = delete "ob1" (outputBaseIDs (fst started)).
Proof.
  assert (H1 : NewComponent (clean_OutputBaseId (clean "ob1")) = Some "ob1")
    by (vm_compute; reflexivity).
  assert (H2 : outputBaseIDs (fst started) !! "ob1" = Some 1)
    by (vm_compute; reflexivity).
  assert (H3 : fst (Clean (clean "ob1") started) = Ok tt)
    by (vm_compute; reflexivity).
  split_and!; [exact H1|exact H2|exact H3|].
  apply (proj1 (Clean_removes_output_base (H := C) 100 world
                  startOne (clean "ob1") "ob1" 1
                  H1 H2 H3)).
Defined.

Lemma FinalizeBuild_ends_session_witness :
  buildIDs (fst started) !! "b1" = Some 1 ∧
  buildIDs (fst (snd (FinalizeBuild (finalize "b1") started)))
  = delete "b1" (buildIDs (fst started)).
Proof.
  assert (Hb : buildIDs (fst started) !! "b1" = Some 1)
    by (vm_compute; reflexivity).
  split; [exact Hb|].
  apply (proj1 (proj2 (FinalizeBuild_ends_session (H := C) 100 world
                         startOne "b1" 1 Hb))).
Defined.

Lemma StartBuild_opens_session_witness :
  StartBuild_prepare (start "ob2" "b2")
  = Ok ("ob2", tt, sha, Builder_terminal "ob2" EmptyBuilder) ∧
  buildIDs (fst started) !! "b2" = None ∧
  ∃ p, buildIDs (fst (snd (StartBuild (start "ob2" "b2") started))) !! "b2"
       = Some p ∧
       outputBaseIDs (fst (snd (StartBuild (start "ob2" "b2") started)))
         !! "ob2" = Some p.
Proof.
  assert (Hprep : StartBuild_prepare (start "ob2" "b2")
                  = Ok ("ob2", tt, sha, Builder_terminal "ob2" EmptyBuilder))
    by (vm_compute; reflexivity).
  assert (Hb : buildIDs (fst started) !! "b2" = None)
    by (vm_compute; reflexivity).
  split; [exact Hprep|]. split; [exact Hb|].
  destruct (StartBuild_opens_session (H := C) 100 world
              startOne (start "ob2" "b2")
              "ob2" tt sha (Builder_terminal "ob2" EmptyBuilder) Hprep Hb)
    as (p & s & H1 & H2 & _).
  exists p. split; [exact H1|exact H2].
Defined.

Lemma StartBuild_rejects_bad_request_witness :
  start_OutputBaseId (start ".." "b1") = ".." ∧
  ∃ e, status_Code e = InvalidArgument ∧
       StartBuild (start ".." "b1") (new, world) = (Err e, (new, world)).
Proof.
  split; [reflexivity|].
  apply (StartBuild_rejects_bad_request (H := C) (start ".." "b1")
           (new, world)).
  right. right. right. right. left. reflexivity.
Defined.

Lemma StartBuild_response_suffix_witness :
  StartBuild (start "ob1" "b1") (new, world)
  = (Ok {| OutputPathSuffix := "ob1" |}, started) ∧
  OutputPathSuffix {| OutputPathSuffix := "ob1" |}
  = start_OutputBaseId (start "ob1" "b1").
Proof.
  assert (Hrun : StartBuild (start "ob1" "b1") (new, world)
                 = (Ok {| OutputPathSuffix := "ob1" |}, started))
    by (vm_compute; reflexivity).
  split; [exact Hrun|].
  apply (StartBuild_response_suffix (H := C) (start "ob1" "b1") (new, world)
           _ _ Hrun).
Defined.

Lemma unsafe_paths_rejected_witness :
  isAbsolute "/etc/passwd" = true ∧
  ∃ e, status_Code e = InvalidArgument ∧
       createChild prefixCreator "/etc/passwd"
         link (snd started)
       = (Err e, snd started).
Proof.
  split; [reflexivity|].
  apply (proj1 (unsafe_paths_rejected (H := C) "/etc/passwd"
                  (or_intror eq_refl))).
Defined.

Lemma creating_walkers_enter_witness :
  relativePath "a/b" (["a"] ++ ["b"]) ∧ Forall isName ["a"] ∧ isName "b" ∧
  createChild prefixCreator "a/b"
    link (snd started)
  = (stack' <- wrapErr (λ e, StatusWrap e "Failed to resolve path")
                 (enterAll (dc_stack prefixCreator) ["a"]) ;;
     CreateChildren (Peek stack') [("b", link)] true)
      (snd started).
Proof.
  assert (Hpath : relativePath "a/b" (["a"] ++ ["b"]))
    by (split_and!; reflexivity).
  assert (Ha : Forall isName ["a"]).
  { apply Forall_singleton. split; [intros [?|?]; discriminate|discriminate]. }
  assert (Hb : isName "b").
  { split; [intros [?|?]; discriminate|discriminate]. }
  split_and!; [exact Hpath|exact Ha|exact Hb|].
  apply (proj2 (creating_walkers_enter (H := C) "a/b" ["a"] "b" Hpath Ha Hb)
           prefixCreator).
Defined.

Lemma createChild_directory_path_witness :
  splitComponents "a/" "" = ["a"] ++ [""] ∧ ¬ isName "" ∧
  createChild prefixCreator "a/"
    link (snd started)
  = (Err (StatusError InvalidArgument "Path resolves to a directory"),
     Mem.place ["ob1"; "a"] Mem.Dir (snd started)).
Proof.
  assert (Hsplit : splitComponents "a/" "" = ["a"] ++ [""]) by reflexivity.
  assert (Hname : ¬ isName "").
  { intros [Hn _]. apply Hn. by left. }
  split_and!; [exact Hsplit|exact Hname|].
  rewrite (createChild_directory_path (H := C)
             prefixCreator "a/"
             link (snd started) ["a"] "" Hsplit Hname).
  vm_compute. reflexivity.
Defined.

Lemma statPath_root_witness :
  relativePath "./" ["."; ""] ∧
  Forall (λ c, c = "" ∨ c = ".") ["."; ""] ∧
  statPath (stat "b1" []) path1 (Some (session "b1")) "./" world
  = (Ok {| file_status := Some (FileStatus_Directory_ (Some 0%Z)) |}, world).
Proof.
  assert (Hpath : relativePath "./" ["."; ""]) by (split_and!; reflexivity).
  assert (Hskip : Forall (λ c, c = "" ∨ c = ".") ["."; ""]).
  { apply Forall_cons. split; [by right|].
    apply Forall_singleton. by left. }
  split_and!; [exact Hpath|exact Hskip|].
  apply (statPath_root (H := C) (stat "b1" []) path1 (session "b1") "./"
           ["."; ""] world Hpath Hskip).
Defined.

Lemma filter_batch_bounds_witness :
  1 ≤ RecommendedFindMissingDigestsCount ∧
  pass shared = (fst (pass shared),
                 (fst (snd (pass shared)), snd (snd (pass shared)))) ∧
  findMissingCalls (trace (fst (snd (pass shared))))
  ≤ length (enqueuedDigests (trace (fst (snd (pass shared))))).
Proof.
  assert (HT : 1 ≤ RecommendedFindMissingDigestsCount) by (vm_compute; lia).
  assert (Hpass : pass shared
                  = (fst (pass shared),
                     (fst (snd (pass shared)), snd (snd (pass shared)))))
    by (vm_compute; reflexivity).
  split_and!; [exact HT|exact Hpass|].
  apply (proj2 (filter_batch_bounds (H := C) ["ob1"] sha shared _ _ _ HT
                  Hpass)).
Defined.

Lemma filter_checks_every_digest_witness :
  pass distinct = (Ok tt, (fst (snd (pass distinct)),
                           snd (snd (pass distinct)))) ∧
  (FromLeaf (Mem.File (blob 1 "cc") false), ["ob1"; "f3"])
    ∈ FilterChildren_nodes ["ob1"] distinct ∧
  checked (trace (fst (snd (pass distinct)))) (blob 1 "cc").
Proof.
  assert (Hpass : pass distinct = (Ok tt, (fst (snd (pass distinct)),
                                           snd (snd (pass distinct)))))
    by (vm_compute; reflexivity).
  assert (Hnode : (FromLeaf (Mem.File (blob 1 "cc") false), ["ob1"; "f3"])
                    ∈ FilterChildren_nodes ["ob1"] distinct)
    by (vm_compute; right; right; left).
  split_and!; [exact Hpass|exact Hnode|].
  apply (proj2 (filter_checks_every_digest (H := C) ["ob1"] sha distinct
                  _ _ Hpass)
           (Mem.File (blob 1 "cc") false) ["ob1"; "f3"] (blob 1 "cc") Hnode).
  - intros (d & Hd & Hforeign). vm_compute in Hd.
    apply list_elem_of_singleton in Hd. subst d. vm_compute in Hforeign.
    discriminate.
  - vm_compute. left.
Defined.

Lemma directory_views_agree_witness :
  (Z.of_nat (length startTwo) < 2 ^ 64)%Z ∧
  ∃ entries,
    VirtualReadDir takeAll (fst two) world 0 0 [] = Some entries ∧
    NoDup (entryName <$> entries).
Proof.
  assert (Hbound :
    (Z.of_nat (length startTwo) < 2 ^ 64)%Z)
    by (vm_compute; reflexivity).
  split; [exact Hbound|].
  destruct (directory_views_agree (H := C)
              (λ (_ : option unit) (s : Status), s) (λ _, StatusErrNoEnt)
              100 world
              startTwo 0 world Hbound)
    as (entries & Hread & Hnd & _).
  exists entries. split; [exact Hread|exact Hnd].
Defined.

Lemma link_count_counts_entries_witness :
  (Z.of_nat (length startTwo) < 2 ^ 64)%Z ∧
  Z.land 8 (Z.lor 1 8) ≠ 0%Z ∧
  ∃ entries,
    VirtualReadDir takeAll (fst two) world 0 0 [] = Some entries ∧
    rootAttributes (fst two) 8
    = [SetFileType 2; SetPermissions (Z.lor 4 1); SetSizeBytes 0;
       SetChangeID (changeID (fst two));
       SetLinkCount (uint32_add 2 (uint32 (Z.of_nat (length entries))));
       Handle_GetAttributes 8].
Proof.
  assert (Hbound :
    (Z.of_nat (length startTwo) < 2 ^ 64)%Z)
    by (vm_compute; reflexivity).
  assert (Hmask : Z.land 8 (Z.lor 1 8) ≠ 0%Z) by (vm_compute; discriminate).
  split; [exact Hbound|]. split; [exact Hmask|].
  apply (link_count_counts_entries (H := C) 2 4 1 1 8 2 100 world
           startTwo 8 world 0 Hbound Hmask).
Defined.

Lemma reading_entry_by_entry_witness :
  (Z.of_nat (length startTwo) < 2 ^ 64)%Z ∧
  ∃ entries,
    VirtualReadDir takeAll (fst two) world 0 0 [] = Some entries ∧
    ∀ n, length entries < n →
         readAll n (fst two) world 0 0 = entryName <$> entries.
Proof.
  assert (Hbound :
    (Z.of_nat (length startTwo) < 2 ^ 64)%Z)
    by (vm_compute; reflexivity).
  split; [exact Hbound|].
  apply (reading_entry_by_entry (H := C) 100 world
           startTwo 0 world Hbound).
Defined.

Lemma changeID_detects_changes_witness :
  (Z.of_nat (length startOne
             + length nextBuild) < 2 ^ 64)%Z ∧
  changeID (fst (run nextBuild started))
  = changeID (fst started) ∧
  outputBaseIDs (fst (run nextBuild started))
  = outputBaseIDs (fst started).
Proof.
  assert (Hbound :
    (Z.of_nat (length startOne
               + length nextBuild) < 2 ^ 64)%Z)
    by (vm_compute; reflexivity).
  assert (Hsame :
    changeID (fst (run nextBuild started))
    = changeID (fst started)) by (vm_compute; reflexivity).
  split; [exact Hbound|]. split; [exact Hsame|].
  apply (proj1 (changeID_detects_changes (H := C) 100 world
                  startOne
                  nextBuild Hbound Hsame)).
Defined.

Lemma enumeration_order_witness :
  (Z.of_nat (length startOne) + 1 < 2 ^ 64)%Z ∧
  ringOf (fst (snd (FinalizeBuild (finalize "b1") started)))
  = ringOf (fst started).
Proof.
  assert (Hbound :
    (Z.of_nat (length startOne) + 1 < 2 ^ 64)%Z)
    by (vm_compute; reflexivity).
  split; [exact Hbound|].
  apply (proj1 (proj2 (proj2 (enumeration_order (H := C) 100 world
                                startOne Hbound))
                  (finalize "b1"))).
Defined.

Lemma batch_requests_keep_registry_witness :
  buildIDs (fst started) !! stat_BuildId (stat "b9" ["."]) = None ∧
  BatchStat (stat "b9" ["."]) (fst started, snd started)
  = (Err notRunning, (fst started, snd started)).
Proof.
  assert (Hb : buildIDs (fst started) !! stat_BuildId (stat "b9" ["."]) = None)
    by (vm_compute; reflexivity).
  split; [exact Hb|].
  apply (proj1 (proj2 (proj2 (proj2
           (batch_requests_keep_registry (H := C) create (stat "b9" ["."])
              (fst started) (snd started))))) Hb).
Defined.
